(** * okra-js: the Postgres-backed merkle search tree and the bulk builder

    A shallow embedding of [packages/okra-pg/src/index.ts] (class [Tree]) and
    of [packages/okra/src/Builder.ts] (class [Builder]), with the properties
    of the tree maintenance algorithm stated and proved over it.

    Conventions of the embedding.
    - A [Uint8Array] is a [list byte]; [bytea] values compare as Postgres
      compares them (bytewise, unsigned, a proper prefix first).
    - The [nodes] table is the list of its rows; every SQL statement of the
      source is a function on that list.
    - Every [async] method is taken in program order: the store is driven
      through a single client, which serves its queries in the order they
      were issued.
    - A method that throws yields [Throw]; the recursive methods take a
      recursion budget and yield [Timeout] when it is exhausted. *)

From Stdlib Require Import String.
From Stdlib.Strings Require Import Byte.
From Stdlib Require Import List ZArith Lia Bool Arith.
From Stdlib Require Import Sorted Permutation.
Import ListNotations.

Set Implicit Arguments.

(** ** Byte strings *)

Definition bytes := list byte.

Definition byte_val (b : byte) : Z := Z.of_N (Byte.to_N b).

Definition byte_of_Z (z : Z) : byte :=
  match Byte.of_N (Z.to_N (z mod 256)) with
  | Some b => b
  | None => x00
  end.

(** Comparison of two [bytea] values: [memcmp] on the common prefix, then the
    shorter one first. *)
Fixpoint bytes_compare (a b : bytes) : comparison :=
  match a, b with
  | [], [] => Eq
  | [], _ :: _ => Lt
  | _ :: _, [] => Gt
  | x :: a', y :: b' =>
      match Z.compare (byte_val x) (byte_val y) with
      | Eq => bytes_compare a' b'
      | c => c
      end
  end.

Definition bytes_ltb (a b : bytes) : bool :=
  match bytes_compare a b with Lt => true | _ => false end.

Definition bytes_leb (a b : bytes) : bool :=
  match bytes_compare a b with Gt => false | _ => true end.

Definition bytes_eqb (a b : bytes) : bool :=
  match bytes_compare a b with Eq => true | _ => false end.

(** A node key: [null] (the anchor of a level) or a byte string. *)
Definition Key := option bytes.

Definition key_eqb (a b : Key) : bool :=
  match a, b with
  | None, None => true
  | Some x, Some y => bytes_eqb x y
  | _, _ => false
  end.

(** [ORDER BY key ASC NULLS FIRST]: the anchor sorts before every key. *)
Definition key_ltb (a b : Key) : bool :=
  match a, b with
  | None, None => false
  | None, Some _ => true
  | Some _, None => false
  | Some x, Some y => bytes_ltb x y
  end.

Definition key_leb (a b : Key) : bool := key_ltb a b || key_eqb a b.

(** ** Results of the methods *)

Inductive result (A : Type) : Type :=
| Ok (a : A)
| Throw (msg : string)
| Timeout.

Arguments Ok {A} a.
Arguments Throw {A} msg.
Arguments Timeout {A}.

Definition bind {A B : Type} (m : result A) (f : A -> result B) : result B :=
  match m with
  | Ok a => f a
  | Throw msg => Throw msg
  | Timeout => Timeout
  end.

Notation "x <- m ;; k" := (bind m (fun x => k))
  (at level 61, m at next level, right associativity).

Definition assert (b : bool) (msg : string) : result unit :=
  if b then Ok tt else Throw msg.

(** ** Big-endian 32-bit words, as [DataView] reads and writes them *)

(** [view.getUint32(0)]: a [RangeError] when fewer than 4 bytes are in view. *)
Definition getUint32 (h : bytes) : result Z :=
  match h with
  | b0 :: b1 :: b2 :: b3 :: _ =>
      Ok (byte_val b0 * 16777216 + byte_val b1 * 65536
          + byte_val b2 * 256 + byte_val b3)%Z
  | _ => Throw "RangeError: Offset is outside the bounds of the DataView"
  end.

(** [view.setUint32(0, n)] on a fresh 4-byte buffer: [n] is reduced modulo
    [2^32] (the [ToUint32] conversion) and written most significant byte
    first. *)
Definition setUint32 (n : Z) : bytes :=
  let w := (n mod 4294967296)%Z in
  [ byte_of_Z (w / 16777216); byte_of_Z (w / 65536);
    byte_of_Z (w / 256); byte_of_Z w ].

(** ** The hash function

    [blake3] of [@noble/hashes] is not part of the repository; it is embedded
    here from the BLAKE3 definition so that the tree can be evaluated on
    concrete entries.  The general results below are stated over any
    [Hasher]. *)

Module Blake3.

Definition IV : list Z :=
    [ 0x6A09E667; 0xBB67AE85; 0x3C6EF372; 0xA54FF53A;
      0x510E527F; 0x9B05688C; 0x1F83D9AB; 0x5BE0CD19 ]%Z.

Definition MSG_PERMUTATION : list nat :=
    [2; 6; 3; 10; 7; 0; 4; 13; 1; 11; 12; 5; 9; 14; 15; 8]%nat.

Definition CHUNK_START : Z := 1.
Definition CHUNK_END : Z := 2.
Definition PARENT : Z := 4.
Definition ROOT : Z := 8.

Definition w32 (x : Z) : Z := (x mod 4294967296)%Z.

Definition rotr (x n : Z) : Z :=
    Z.lor (Z.shiftr x n) (w32 (Z.shiftl x (32 - n))).

Definition rd (s : list Z) (i : nat) : Z := nth i s 0%Z.

Fixpoint wr (s : list Z) (i : nat) (v : Z) : list Z :=
    match s, i with
    | [], _ => []
    | _ :: s', O => v :: s'
    | x :: s', S i' => x :: wr s' i' v
    end.

Definition g (s : list Z) (a b c d : nat) (mx my : Z) : list Z :=
    let s := wr s a (w32 (rd s a + rd s b + mx)) in
    let s := wr s d (rotr (Z.lxor (rd s d) (rd s a)) 16) in
    let s := wr s c (w32 (rd s c + rd s d)) in
    let s := wr s b (rotr (Z.lxor (rd s b) (rd s c)) 12) in
    let s := wr s a (w32 (rd s a + rd s b + my)) in
    let s := wr s d (rotr (Z.lxor (rd s d) (rd s a)) 8) in
    let s := wr s c (w32 (rd s c + rd s d)) in
    wr s b (rotr (Z.lxor (rd s b) (rd s c)) 7).

Definition round (s m : list Z) : list Z :=
    let s := g s 0 4 8 12 (rd m 0) (rd m 1) in
    let s := g s 1 5 9 13 (rd m 2) (rd m 3) in
    let s := g s 2 6 10 14 (rd m 4) (rd m 5) in
    let s := g s 3 7 11 15 (rd m 6) (rd m 7) in
    let s := g s 0 5 10 15 (rd m 8) (rd m 9) in
    let s := g s 1 6 11 12 (rd m 10) (rd m 11) in
    let s := g s 2 7 8 13 (rd m 12) (rd m 13) in
    g s 3 4 9 14 (rd m 14) (rd m 15).

Definition permute (m : list Z) : list Z :=
    map (fun i => rd m i) MSG_PERMUTATION.

Fixpoint rounds (n : nat) (s m : list Z) : list Z :=
    match n with
    | O => s
    | S O => round s m
    | S n' => rounds n' (round s m) (permute m)
    end.

Definition compress (cv block : list Z) (counter blen flags : Z) : list Z :=
    let s0 := firstn 8 cv ++ firstn 4 IV
              ++ [ w32 counter; w32 (Z.shiftr counter 32); blen; flags ] in
    let s := rounds 7 s0 block in
    map (fun i => Z.lxor (rd s i) (rd s (i + 8))) (seq 0 8)
    ++ map (fun i => Z.lxor (rd s (i + 8)) (rd cv i)) (seq 0 8).

  (** Little-endian packing of a block of at most 64 bytes, zero padded. *)
Definition word_at (b : bytes) (i : nat) : Z :=
    (byte_val (nth (4 * i) b x00)
     + byte_val (nth (4 * i + 1) b x00) * 256
     + byte_val (nth (4 * i + 2) b x00) * 65536
     + byte_val (nth (4 * i + 3) b x00) * 16777216)%Z.

Definition words (b : bytes) : list Z := map (word_at b) (seq 0 16).

Definition le32 (w : Z) : bytes :=
    [ byte_of_Z w; byte_of_Z (w / 256);
      byte_of_Z (w / 65536); byte_of_Z (w / 16777216) ].

Record Output : Type := mkOutput
    { o_cv : list Z; o_block : list Z; o_counter : Z; o_len : Z; o_flags : Z }.

Definition chaining_value (o : Output) : list Z :=
    firstn 8 (compress (o_cv o) (o_block o) (o_counter o) (o_len o) (o_flags o)).

Definition start_flag (first : bool) : Z := if first then CHUNK_START else 0%Z.

  (** One chunk (at most 1024 bytes): all blocks but the last are compressed
      into the chaining value. *)
Fixpoint chunk_output (fuel : nat) (cv : list Z) (data : bytes)
           (counter : Z) (first : bool) : Output :=
    match fuel with
    | O => mkOutput cv (words data) counter (Z.of_nat (length data))
                    (Z.lor (start_flag first) CHUNK_END)
    | S fuel' =>
        if (length data <=? 64)%nat then
          mkOutput cv (words data) counter (Z.of_nat (length data))
                   (Z.lor (start_flag first) CHUNK_END)
        else
          chunk_output fuel'
            (firstn 8 (compress cv (words (firstn 64 data)) counter 64
                                (start_flag first)))
            (skipn 64 data) counter false
    end.

  (** The tree over the chunks: the left subtree takes the largest power of
      two of chunks that leaves the right one non-empty. *)
Fixpoint subtree (fuel : nat) (data : bytes) (counter : Z) : Output :=
    match fuel with
    | O => chunk_output (length data) IV data counter true
    | S fuel' =>
        if (length data <=? 1024)%nat then
          chunk_output (length data) IV data counter true
        else
          let n := ((Z.of_nat (length data) - 1) / 1024)%Z in
          let p := (2 ^ Z.log2 n)%Z in
          let l := subtree fuel' (firstn (Z.to_nat (p * 1024)) data) counter in
          let r := subtree fuel' (skipn (Z.to_nat (p * 1024)) data)
                           (counter + p) in
          mkOutput IV (chaining_value l ++ chaining_value r) 0 64 PARENT
    end.

Definition output_block (o : Output) (t : nat) : bytes :=
    let w := compress (o_cv o) (o_block o) (Z.of_nat t) (o_len o)
                      (Z.lor (o_flags o) ROOT) in
    flat_map (fun i => le32 (rd w i)) (seq 0 16).

Definition blake3 (dkLen : nat) (data : bytes) : bytes :=
    let o := subtree (length data) data 0 in
    firstn dkLen (flat_map (output_block o) (seq 0 (dkLen / 64 + 1))).

End Blake3.

(** The interface the tree needs of a hash function: a digest of the
    requested length. *)
Class Hasher : Type := mkHasher
  { hashFn : nat -> bytes -> bytes;
    hashFn_length : forall (K : nat) (x : bytes), length (hashFn K x) = K }.

(** [blake3.create({ dkLen })], [update] and [digest]: the state keeps what
    it was fed. *)
Module Hash.

Record State : Type := mkState { dkLen : nat; fed : bytes }.

Definition create (K : nat) : State := mkState K [].

Definition update (st : State) (b : bytes) : State :=
    mkState (dkLen st) (fed st ++ b).

Definition digest `{Hasher} (st : State) : bytes :=
    hashFn (dkLen st) (fed st).

End Hash.

(** ** The node table

    [CREATE TABLE nodes (level INTEGER NOT NULL, key BYTEA, hash BYTEA NOT
    NULL, value BYTEA)]. *)

Record Node : Type := mkNode
  { level : nat; key : Key; hash : bytes; value : option bytes }.

Definition Store := list Node.

(** [level = $1 AND ((key ISNULL AND $2 ISNULL) OR key = $2)]. *)
Definition at_key (l : nat) (k : Key) (r : Node) : bool :=
  (level r =? l)%nat && key_eqb (key r) k.

(** [ORDER BY key ASC NULLS FIRST], by insertion. *)
Fixpoint insert_asc (r : Node) (rows : list Node) : list Node :=
  match rows with
  | [] => [r]
  | x :: rows' =>
      if key_ltb (key x) (key r) then x :: insert_asc r rows' else r :: rows
  end.

Definition order_asc (rows : list Node) : list Node :=
  fold_right insert_asc [] rows.

(** [ORDER BY key DESC NULLS LAST]. *)
Definition order_desc (rows : list Node) : list Node := rev (order_asc rows).

(** [ORDER BY level DESC LIMIT 1]. *)
Definition top_row (rows : list Node) : option Node :=
  fold_left
    (fun acc r =>
       match acc with
       | None => Some r
       | Some a => if (level a <? level r)%nat then Some r else acc
       end)
    rows None.

Definition getNode (s : Store) (l : nat) (k : Key) : option Node :=
  find (at_key l k) s.

Definition setNode (s : Store) (n : Node) : Store :=
  match getNode s (level n) (key n) with
  | None => s ++ [n]
  | Some _ =>
      map (fun r =>
             if at_key (level n) (key n) r
             then mkNode (level r) (key r) (hash n) (value n) else r) s
  end.

Definition deleteNode (s : Store) (l : nat) (k : Key) : Store :=
  filter (fun r => negb (at_key l k r)) s.

(** The rows of one level, as [SELECT * FROM nodes WHERE level = $1 ORDER BY
    key ASC NULLS FIRST] returns them. *)
Definition nodes (s : Store) (l : nat) : list Node :=
  order_asc (filter (fun r => (level r =? l)%nat) s).

(** ** class [Tree] *)

Module Tree.

Record Tree : Type := mkTree
  { K : nat; Q : Z; LIMIT : Z; LIMIT_KEY : bytes; LEAF_ANCHOR_HASH : bytes }.

Section TreeMethods.

Context {hasher : Hasher}.

  (** The constructor; [BigInt] division truncates and throws on a zero
      divisor. *)
Definition constructor (optK : option nat) (optQ : option Z) : result Tree :=
    let k := match optK with Some k => k | None => 16%nat end in
    let q := match optQ with Some q => q | None => 32%Z end in
    if (q =? 0)%Z then Throw "RangeError: Division by zero"
    else
      let limit := Z.quot 4294967296 q in
      Ok (mkTree k q limit (setUint32 limit) (hashFn k [])).

Variable t : Tree.

Definition isBoundary (n : Node) : result bool :=
    v <- getUint32 (hash n) ;; Ok (v <? LIMIT t)%Z.

Definition hashEntry (k v : bytes) : bytes :=
    let h := Hash.create (K t) in
    let h := Hash.update h (setUint32 (Z.of_nat (length k))) in
    let h := Hash.update h k in
    let h := Hash.update h (setUint32 (Z.of_nat (length v))) in
    let h := Hash.update h v in
    Hash.digest h.

Definition getRoot (s : Store) : result Node :=
    match top_row s with
    | Some r => Ok (mkNode (level r) (key r) (hash r) None)
    | None => Throw "TypeError: Cannot destructure property of undefined"
    end.

  (** [hash < $3] with [$3 = LIMIT_KEY]. *)
Definition below_limit (r : Node) : bool := bytes_ltb (hash r) (LIMIT_KEY t).

Definition getFirstSibling (s : Store) (n : Node) : result Node :=
    match key n with
    | None => Ok n
    | Some k =>
        let rows :=
          order_desc
            (filter (fun r =>
                       (level r =? level n)%nat
                       && match key r with
                          | None => true
                          | Some k' => bytes_leb k' k && below_limit r
                          end) s) in
        match rows with
        | r :: _ => Ok (mkNode (level r) (key r) (hash r) None)
        | [] => Throw "expected firstSibling !== undefined"
        end
    end.

  (** The rows the inner [SELECT] of [getHash] ranges over: the boundaries of
      the level below that lie strictly after [$2]. *)
Definition later_boundaries (s : Store) (below : nat) (k : Key) : list Node :=
    order_asc
      (filter (fun r =>
                 (level r =? below)%nat
                 && match key r with
                    | None => false
                    | Some k' =>
                        match k with
                        | None => true
                        | Some k0 => bytes_ltb k0 k'
                        end && below_limit r
                    end) s).

  (** The children [getHash] feeds to the hash, in order. *)
Definition children (s : Store) (l : nat) (k : Key) : list Node :=
    match l with
    | O => []
    | S below =>
        let bs := later_boundaries s below k in
        order_asc
          (filter (fun r =>
                     (level r =? below)%nat
                     && match k with
                        | None => true
                        | Some k0 =>
                            match key r with
                            | None => false
                            | Some k' => bytes_leb k0 k'
                            end
                        end
                     && match key r with
                        | None => true
                        | Some k' =>
                            match bs with
                            | b :: _ => key_ltb (Some k') (key b)
                            | [] => true
                            end
                        end) s)
    end.

Definition getHash (s : Store) (l : nat) (k : Key) : bytes :=
    Hash.digest (fold_left (fun h c => Hash.update h (hash c))
                           (children s l k) (Hash.create (K t))).

Fixpoint deleteParents (fuel : nat) (s : Store) (l : nat) (k : Key)
    : result Store :=
    match fuel with
    | O => Timeout
    | S fuel' =>
        match getNode s (l + 1) k with
        | Some _ => deleteParents fuel' (deleteNode s (l + 1) k) (l + 1) k
        | None => Ok s
        end
    end.

Fixpoint createParents (fuel : nat) (s : Store) (l : nat) (k : Key)
    : result Store :=
    match fuel with
    | O => Timeout
    | S fuel' =>
        let n := mkNode (l + 1) k (getHash s (l + 1) k) None in
        let s := setNode s n in
        b <- isBoundary n ;;
        if b then createParents fuel' s (l + 1) k else Ok s
    end.

  (** [SELECT key FROM nodes WHERE level = $1 AND key NOTNULL ... LIMIT 1]
      returned a row. *)
Definition has_keys (s : Store) (l : nat) : bool :=
    existsb (fun r => (level r =? l)%nat
                      && match key r with None => false | Some _ => true end) s.

Fixpoint updateAnchor (fuel : nat) (s : Store) (l : nat) : result Store :=
    match fuel with
    | O => Timeout
    | S fuel' =>
        let s := setNode s (mkNode l None (getHash s l None) None) in
        if has_keys s l then updateAnchor fuel' s (l + 1)
        else deleteParents fuel' s l None
    end.

Section Replace.

    (** [update], as [replace] and [replaceBoundary] call it. *)
Variable update : Store -> nat -> Key -> result Store.
Variable fuel : nat.

Definition replaceBoundary (s : Store) (n : Node) : result Store :=
      b <- isBoundary n ;;
      if b then update (setNode s n) (level n + 1) (key n)
      else
        let s := setNode s n in
        s <- deleteParents fuel s (level n) (key n) ;;
        fs <- getFirstSibling s n ;;
        match key fs with
        | None => updateAnchor fuel s (level n + 1)
        | Some _ => update s (level n + 1) (key fs)
        end.

Definition replace (s : Store) (old : option Node) (n : Node)
      : result Store :=
      ob <- match old with
            | Some o => isBoundary o
            | None => Ok false
            end ;;
      if ob then replaceBoundary s n
      else
        fs <- getFirstSibling s n ;;
        let s := setNode s n in
        b <- isBoundary n ;;
        s <- (if b then createParents fuel s (level n) (key n) else Ok s) ;;
        match key fs with
        | None => updateAnchor fuel s (level n + 1)
        | Some _ => update s (level n + 1) (key fs)
        end.

End Replace.

Fixpoint update (fuel : nat) (s : Store) (l : nat) (k : Key)
    : result Store :=
    match fuel with
    | O => Timeout
    | S fuel' =>
        let old := getNode s l k in
        let n := mkNode l k (getHash s l k) None in
        replace (update fuel') fuel' s old n
    end.

Definition set (fuel : nat) (s : Store) (k v : bytes) : result Store :=
    let oldLeaf := getNode s 0 (Some k) in
    let newLeaf := mkNode 0 (Some k) (hashEntry k v) (Some v) in
    replace (update fuel) fuel s oldLeaf newLeaf.

Definition delete (fuel : nat) (s : Store) (k : bytes) : result Store :=
    match getNode s 0 (Some k) with
    | None => Ok s
    | Some n =>
        b <- isBoundary n ;;
        s <- (if b then deleteParents fuel s 0 (Some k) else Ok s) ;;
        let s := deleteNode s 0 (Some k) in
        fs <- getFirstSibling s n ;;
        match key fs with
        | None => updateAnchor fuel s 1
        | Some _ => update fuel s 1 (key fs)
        end
    end.

Definition getValue (s : Store) (k : bytes) : option bytes :=
    match getNode s 0 (Some k) with
    | Some n => value n
    | None => None
    end.

End TreeMethods.

(** [Tree.initialize]: the table is created if it is missing, emptied on
    [clear], and the leaf anchor is written. *)
Definition initialize `{Hasher} (existing : Store) (optK : option nat)
           (optQ : option Z) (clear : bool) : result (Tree * Store) :=
  t <- constructor optK optQ ;;
  let s := if clear then [] else existing in
  Ok (t, setNode s (mkNode 0 None (LEAF_ANCHOR_HASH t) None)).

End Tree.

(** ** class [Builder] *)

Module Builder.

(** Modelled from the spec: the [NodeStore] of [./NodeStore.js], which is not
    among the sources.  It holds the tree parameters and the nodes, with
    [getNode], [setNode] (an upsert by level and key) and [nodes(level)]
    (ascending by key, the anchor first). *)
Record NodeStore : Type := mkNodeStore
  { metadata_K : nat; metadata_Q : Z; rows : Store }.

Definition store_setNode (st : NodeStore) (n : Node) : NodeStore :=
  mkNodeStore (metadata_K st) (metadata_Q st) (setNode (rows st) n).

Definition store_getNode (st : NodeStore) (l : nat) (k : Key) : option Node :=
  getNode (rows st) l k.

Definition store_nodes (st : NodeStore) (l : nat) : list Node :=
  nodes (rows st) l.

Record Builder : Type := mkBuilder
  { K : nat; Q : Z; limit : Z; store : NodeStore; nodeCount : nat }.

Section BuilderMethods.

Context {hasher : Hasher}.

Definition constructor (st : NodeStore) : result Builder :=
  if (metadata_Q st =? 0)%Z then Throw "RangeError: Division by zero"
  else Ok (mkBuilder (metadata_K st) (metadata_Q st)
                     (Z.quot 4294967296 (metadata_Q st)) st 1).

(** Modelled from the spec: [hashEntry] of [./utils.js], which is not among
    the sources: the digest of the key and the value, each behind its length
    as a 4-byte big-endian integer. *)
Definition hashEntry (k v : bytes) (st : NodeStore) : bytes :=
  hashFn (metadata_K st)
         (setUint32 (Z.of_nat (length k)) ++ k
          ++ setUint32 (Z.of_nat (length v)) ++ v).

Definition set (b : Builder) (k v : bytes) : Builder :=
  let h := hashEntry k v (store b) in
  mkBuilder (K b) (Q b) (limit b)
            (store_setNode (store b) (mkNode 0 (Some k) h (Some v)))
            (nodeCount b + 1).

(** [new DataView(buffer, byteOffset, 4)] throws when fewer than 4 bytes are
    left, as the read does. *)
Definition isBoundary (b : Builder) (n : Node) : result bool :=
  v <- getUint32 (hash n) ;; Ok (v <? limit b)%Z.

(** The [while (true)] loop of [buildLevel], over what the iterator still
    holds; [k] and [h] are the start and the running hash of the chunk. *)
Fixpoint buildLoop (b : Builder) (l : nat) (rest : list Node) (k : Key)
         (h : Hash.State) (st : NodeStore) (count : nat)
  : result (NodeStore * nat) :=
  match rest with
  | [] =>
      Ok (store_setNode st (mkNode (l + 1) k (Hash.digest h) None), count + 1)
  | n :: rest' =>
      _ <- assert (level n =? l)%nat "unexpected node level" ;;
      bd <- isBoundary b n ;;
      if bd then
        buildLoop b l rest' (key n)
                  (Hash.update (Hash.create (K b)) (hash n))
                  (store_setNode st (mkNode (l + 1) k (Hash.digest h) None))
                  (count + 1)
      else
        buildLoop b l rest' k (Hash.update h (hash n)) st count
  end.

Definition buildLevel (b : Builder) (l : nat) : result (Builder * nat) :=
  match store_nodes (store b) l with
  | [] => Throw "level is empty"
  | n :: rest =>
      _ <- assert ((level n =? l)%nat
                   && match key n with None => true | Some _ => false end)
                  "first node was not an anchor" ;;
      r <- buildLoop b l rest (key n)
                     (Hash.update (Hash.create (K b)) (hash n)) (store b) 0 ;;
      Ok (mkBuilder (K b) (Q b) (limit b) (fst r) (nodeCount b), snd r)
  end.

(** The loop of [finalize], from level [l] on. *)
Fixpoint finalizeLoop (fuel : nat) (b : Builder) (l : nat)
  : result (Node * Builder) :=
  if (1 <? nodeCount b)%nat then
    match fuel with
    | O => Timeout
    | S fuel' =>
        r <- buildLevel b l ;;
        finalizeLoop fuel'
          (mkBuilder (K b) (Q b) (limit b) (store (fst r)) (snd r)) (l + 1)
    end
  else
    match store_getNode (store b) l None with
    | Some root => Ok (root, b)
    | None => Throw "root not found"
    end.

Definition finalize (fuel : nat) (b : Builder) : result (Node * Builder) :=
  finalizeLoop fuel b 0.

End BuilderMethods.

End Builder.

(** ** [blake3] as a [Hasher] *)

Lemma flat_map_const_length (A B : Type) (f : A -> list B) (n : nat)
      (l : list A) :
  (forall x, length (f x) = n) -> length (flat_map f l) = (n * length l)%nat.
Proof.
  intros Hf. induction l as [|a l IH]; simpl.
  - lia.
  - rewrite length_app, Hf, IH. lia.
Qed.

Lemma blake3_output_block_length (o : Blake3.Output) (t : nat) :
  length (Blake3.output_block o t) = 64%nat.
Proof.
  unfold Blake3.output_block.
  rewrite flat_map_const_length with (n := 4%nat); reflexivity.
Qed.

Lemma blake3_length (dkLen : nat) (x : bytes) :
  length (Blake3.blake3 dkLen x) = dkLen.
Proof.
  unfold Blake3.blake3. rewrite firstn_length_le; [reflexivity|].
  rewrite flat_map_const_length with (n := 64%nat)
    by apply blake3_output_block_length.
  rewrite length_seq.
  pose proof (Nat.div_mod_eq dkLen 64) as Hd.
  pose proof (Nat.mod_upper_bound dkLen 64). lia.
Qed.

#[export] Instance blake3_hasher : Hasher :=
  mkHasher Blake3.blake3 blake3_length.

(** * Properties *)

(** ** Bytes and their order *)

Lemma byte_val_range (b : byte) : (0 <= byte_val b < 256)%Z.
Proof.
  unfold byte_val. pose proof (Byte.to_N_bounded b). lia.
Qed.

Lemma byte_val_of_Z (z : Z) : byte_val (byte_of_Z z) = (z mod 256)%Z.
Proof.
  unfold byte_of_Z, byte_val.
  pose proof (Z.mod_pos_bound z 256 eq_refl) as Hm.
  destruct (Byte.of_N (Z.to_N (z mod 256))) as [b|] eqn:E.
  - apply Byte.to_of_N in E. rewrite E. lia.
  - apply Byte.of_N_None_iff in E. lia.
Qed.

Lemma byte_val_inj (a b : byte) : byte_val a = byte_val b -> a = b.
Proof.
  unfold byte_val. intros E. apply N2Z.inj in E.
  pose proof (Byte.of_to_N a) as Ha. pose proof (Byte.of_to_N b) as Hb.
  congruence.
Qed.

Lemma bytes_compare_eq (a b : bytes) : bytes_compare a b = Eq <-> a = b.
Proof.
  revert b. induction a as [|x a IH]; intros [|y b]; simpl;
    try (split; [discriminate | discriminate]); try tauto.
  destruct (Z.compare_spec (byte_val x) (byte_val y)) as [E|L|G].
  - apply byte_val_inj in E. subst. rewrite IH. split; congruence.
  - split; [discriminate|]. intros [= -> _]. lia.
  - split; [discriminate|]. intros [= -> _]. lia.
Qed.

Lemma bytes_compare_antisym (a b : bytes) :
  bytes_compare b a = CompOpp (bytes_compare a b).
Proof.
  revert b. induction a as [|x a IH]; intros [|y b]; simpl; try reflexivity.
  rewrite (Z.compare_antisym (byte_val x) (byte_val y)).
  destruct (byte_val x ?= byte_val y)%Z; simpl; auto.
Qed.

Lemma bytes_compare_lt_trans (a b c : bytes) :
  bytes_compare a b = Lt -> bytes_compare b c = Lt -> bytes_compare a c = Lt.
Proof.
  revert b c. induction a as [|x a IH]; intros [|y b] [|z c]; simpl;
    try discriminate; try reflexivity.
  destruct (Z.compare_spec (byte_val x) (byte_val y)) as [E|L|G];
    destruct (Z.compare_spec (byte_val y) (byte_val z)) as [E'|L'|G'];
    try discriminate; intros H1 H2.
  - rewrite E, E', Z.compare_refl. eauto.
  - rewrite E. apply Z.compare_lt_iff in L'. rewrite L'. reflexivity.
  - rewrite <- E'. apply Z.compare_lt_iff in L. rewrite L. reflexivity.
  - assert (byte_val x < byte_val z)%Z as L2 by lia.
    apply Z.compare_lt_iff in L2. rewrite L2. reflexivity.
Qed.

(** ** The boundary test (C2, C10) *)

(** The first four bytes, read as an unsigned big-endian integer. *)
Definition be32 (h : bytes) : Z :=
  fold_left (fun acc b => (acc * 256 + byte_val b)%Z) (firstn 4 h) 0%Z.

Lemma getUint32_be32 (h : bytes) :
  (4 <= length h)%nat -> getUint32 h = Ok (be32 h).
Proof.
  destruct h as [|b0 [|b1 [|b2 [|b3 r]]]]; simpl; try lia. intros _.
  unfold be32. simpl. f_equal. lia.
Qed.

Lemma be32_range (h : bytes) : (0 <= be32 h < 4294967296)%Z.
Proof.
  unfold be32.
  destruct h as [|b0 [|b1 [|b2 [|b3 r]]]]; simpl;
    try pose proof (byte_val_range b0); try pose proof (byte_val_range b1);
    try pose proof (byte_val_range b2); try pose proof (byte_val_range b3);
    lia.
Qed.

Lemma quot_limit_test (q v : Z) :
  q <> 0%Z -> (0 <= v)%Z ->
  (v <? Z.quot 4294967296 q)%Z = (v <? 4294967296 / q)%Z.
Proof.
  intros Hq Hv. destruct (Z_lt_le_dec 0 q) as [Hpos|Hneg].
  - rewrite Z.quot_div_nonneg by lia. reflexivity.
  - assert (Z.quot 4294967296 q <= 0)%Z as H1.
    { rewrite <- (Z.opp_involutive q), Z.quot_opp_r by lia.
      pose proof (Z.quot_pos 4294967296 (- q)). lia. }
    assert (4294967296 / q <= 0)%Z as H2.
    { pose proof (Z.div_mod 4294967296 q Hq) as Hd.
      assert (q < 0)%Z as Hlt by lia.
      pose proof (Z.mod_neg_bound 4294967296 q Hlt). nia. }
    destruct (Z.ltb_spec v (Z.quot 4294967296 q));
      destruct (Z.ltb_spec v (4294967296 / q)); auto; lia.
Qed.

Lemma bytes_ltb_setUint32 (h : bytes) (n : Z) :
  (4 <= length h)%nat -> (0 <= n < 4294967296)%Z ->
  bytes_ltb h (setUint32 n) = (be32 h <? n)%Z.
Proof.
  intros Hlen Hn.
  destruct h as [|b0 [|b1 [|b2 [|b3 r]]]]; simpl in Hlen; try lia.
  unfold bytes_ltb, setUint32, be32. rewrite Z.mod_small by lia. simpl.
  rewrite !byte_val_of_Z.
  pose proof (byte_val_range b0). pose proof (byte_val_range b1).
  pose proof (byte_val_range b2). pose proof (byte_val_range b3).
  assert (n = (n / 16777216) mod 256 * 16777216 + (n / 65536) mod 256 * 65536
              + (n / 256) mod 256 * 256 + n mod 256)%Z as Hdec.
  { replace (n / 65536)%Z with (n / 256 / 256)%Z
      by (rewrite Z.div_div by lia; reflexivity).
    replace (n / 16777216)%Z with (n / 256 / 256 / 256)%Z
      by (rewrite !Z.div_div by lia; reflexivity).
    pose proof (Z.div_mod n 256 ltac:(lia)).
    pose proof (Z.div_mod (n / 256) 256 ltac:(lia)).
    pose proof (Z.div_mod (n / 256 / 256) 256 ltac:(lia)).
    pose proof (Z.div_mod (n / 256 / 256 / 256) 256 ltac:(lia)).
    assert (n / 256 / 256 / 256 / 256 = 0)%Z.
    { rewrite !Z.div_div by lia. apply Z.div_small. lia. }
    lia. }
  pose proof (Z.mod_pos_bound (n / 16777216) 256 eq_refl).
  pose proof (Z.mod_pos_bound (n / 65536) 256 eq_refl).
  pose proof (Z.mod_pos_bound (n / 256) 256 eq_refl).
  pose proof (Z.mod_pos_bound n 256 eq_refl).
  revert Hdec.
  generalize dependent ((n / 16777216) mod 256)%Z. intros d0 ?.
  generalize dependent ((n / 65536) mod 256)%Z. intros d1 ?.
  generalize dependent ((n / 256) mod 256)%Z. intros d2 ?.
  generalize dependent (n mod 256)%Z. intros d3 ? Hdec.
  destruct (Z.compare_spec (byte_val b0) d0);
    [destruct (Z.compare_spec (byte_val b1) d1);
     [destruct (Z.compare_spec (byte_val b2) d2);
      [destruct (Z.compare_spec (byte_val b3) d3);
       [destruct r|..]|..]|..]|..];
    symmetry; first [apply Z.ltb_lt; lia | apply Z.ltb_ge; lia].
Qed.

Lemma constructor_Ok `{Hasher} (optK : option nat) (optQ : option Z)
      (t : Tree.Tree) :
  Tree.constructor optK optQ = Ok t ->
  Tree.Q t <> 0%Z
  /\ Tree.LIMIT t = Z.quot 4294967296 (Tree.Q t)
  /\ Tree.LIMIT_KEY t = setUint32 (Tree.LIMIT t)
  /\ Tree.LEAF_ANCHOR_HASH t = hashFn (Tree.K t) [].
Proof.
  unfold Tree.constructor.
  destruct (Z.eqb_spec (match optQ with Some q => q | None => 32%Z end) 0);
    [discriminate|].
  intros [= <-]. simpl. auto.
Qed.

(** C2.  A node whose hash has at least four bytes passes the boundary test
    of [Tree], and the one of [Builder], exactly when the first four bytes of
    the hash, read as an unsigned big-endian integer, are strictly below
    [floor(2^32 / Q)]. *)
Theorem boundary_test_iff `{Hasher} (optK : option nat) (optQ : option Z)
        (t : Tree.Tree) (st : Builder.NodeStore) (b : Builder.Builder)
        (n : Node) :
  Tree.constructor optK optQ = Ok t ->
  Builder.constructor st = Ok b ->
  (4 <= length (hash n))%nat ->
  (exists r, Tree.isBoundary t n = Ok r
             /\ (r = true <-> (be32 (hash n) < 4294967296 / Tree.Q t)%Z))
  /\ (exists r, Builder.isBoundary b n = Ok r
                /\ (r = true
                    <-> (be32 (hash n) < 4294967296 / Builder.Q b)%Z)).
Proof.
  intros Ht Hb Hlen.
  apply constructor_Ok in Ht. destruct Ht as (Hq & Hl & _ & _).
  pose proof (be32_range (hash n)) as Hr.
  split.
  - unfold Tree.isBoundary. rewrite getUint32_be32 by assumption. simpl.
    eexists. split; [reflexivity|].
    rewrite Hl, quot_limit_test by lia. apply Z.ltb_lt.
  - unfold Builder.constructor in Hb.
    destruct (Z.eqb_spec (Builder.metadata_Q st) 0) as [|Hq']; [discriminate|].
    injection Hb as <-. unfold Builder.isBoundary.
    rewrite getUint32_be32 by assumption. simpl.
    eexists. split; [reflexivity|].
    rewrite quot_limit_test by lia. apply Z.ltb_lt.
Qed.

Definition zeros16 : bytes := repeat x00 16.

Lemma boundary_test_iff_witness :
  let t := Tree.mkTree 16 4 1073741824 (setUint32 1073741824) (hashFn 16 []) in
  let st := Builder.mkNodeStore 16 4 [] in
  let b := Builder.mkBuilder 16 4 1073741824 st 1 in
  let n := mkNode 0 (Some []) zeros16 None in
  (exists r, Tree.isBoundary t n = Ok r
             /\ (r = true <-> (be32 (hash n) < 4294967296 / Tree.Q t)%Z))
  /\ (exists r, Builder.isBoundary b n = Ok r
                /\ (r = true
                    <-> (be32 (hash n) < 4294967296 / Builder.Q b)%Z)).
Proof.
  intros t st b n.
  apply (@boundary_test_iff blake3_hasher (Some 16%nat) (Some 4%Z) t st b n).
  - reflexivity.
  - reflexivity.
  - simpl. lia.
Defined.

(** The SQL test [hash < LIMIT_KEY] agrees with [isBoundary] as long as
    [LIMIT] fits the four bytes of [LIMIT_KEY], which is the case from
    [Q = 2] on. *)
Lemma below_limit_isBoundary `{Hasher} (optK : option nat) (optQ : option Z)
      (t : Tree.Tree) (n : Node) :
  Tree.constructor optK optQ = Ok t ->
  (2 <= Tree.Q t)%Z ->
  (4 <= length (hash n))%nat ->
  Tree.isBoundary t n = Ok (Tree.below_limit t n).
Proof.
  intros Ht Hq Hlen.
  apply constructor_Ok in Ht. destruct Ht as (_ & Hl & Hk & _).
  unfold Tree.isBoundary, Tree.below_limit.
  rewrite getUint32_be32 by assumption. simpl. f_equal.
  rewrite Hk, bytes_ltb_setUint32; [reflexivity|assumption|].
  rewrite Hl. rewrite Z.quot_div_nonneg by lia.
  split.
  - apply Z.div_pos; lia.
  - apply Z.div_lt_upper_bound; lia.
Qed.

(** C10, at [Q = 1]: [LIMIT] is [2^32], which [setUint32] writes as four zero
    bytes; [isBoundary] accepts every hash and [hash < LIMIT_KEY] none. *)
Theorem limit_key_wraps_at_Q1 :
  exists t, Tree.constructor (Some 16%nat) (Some 1%Z) = Ok t
            /\ Tree.LIMIT t = 4294967296%Z
            /\ Tree.LIMIT_KEY t = [x00; x00; x00; x00]
            /\ Tree.isBoundary t (mkNode 0 (Some []) zeros16 None) = Ok true
            /\ Tree.below_limit t (mkNode 0 (Some []) zeros16 None) = false.
Proof.
  eexists. split; [reflexivity|]. simpl.
  repeat split; reflexivity.
Qed.

(** ** The order on keys *)

Lemma bytes_eqb_eq (a b : bytes) : bytes_eqb a b = true <-> a = b.
Proof.
  unfold bytes_eqb. rewrite <- bytes_compare_eq.
  destruct (bytes_compare a b); split; congruence.
Qed.

Lemma key_eqb_eq (a b : Key) : key_eqb a b = true <-> a = b.
Proof.
  destruct a as [x|], b as [y|]; simpl; try (split; congruence).
  rewrite bytes_eqb_eq. split; congruence.
Qed.

Lemma key_eqb_refl (a : Key) : key_eqb a a = true.
Proof. apply key_eqb_eq. reflexivity. Qed.

Lemma key_eqb_neq (a b : Key) : key_eqb a b = false <-> a <> b.
Proof.
  rewrite <- key_eqb_eq. destruct (key_eqb a b); split; congruence.
Qed.

Lemma bytes_leb_ltb (a b : bytes) : bytes_leb a b = negb (bytes_ltb b a).
Proof.
  unfold bytes_leb, bytes_ltb. rewrite (bytes_compare_antisym a b).
  destruct (bytes_compare a b); reflexivity.
Qed.

Lemma key_ltb_irrefl (a : Key) : key_ltb a a = false.
Proof.
  destruct a as [x|]; simpl; [|reflexivity].
  unfold bytes_ltb. replace (bytes_compare x x) with Eq; [reflexivity|].
  symmetry. apply bytes_compare_eq. reflexivity.
Qed.

Lemma key_ltb_trans (a b c : Key) :
  key_ltb a b = true -> key_ltb b c = true -> key_ltb a c = true.
Proof.
  destruct a as [x|], b as [y|], c as [z|]; simpl; try congruence.
  unfold bytes_ltb.
  destruct (bytes_compare x y) eqn:E1; try discriminate.
  destruct (bytes_compare y z) eqn:E2; try discriminate.
  rewrite (bytes_compare_lt_trans _ _ _ E1 E2). reflexivity.
Qed.

Lemma key_ltb_asym (a b : Key) : key_ltb a b = true -> key_ltb b a = false.
Proof.
  intros H. destruct (key_ltb b a) eqn:E; [|reflexivity].
  pose proof (key_ltb_trans _ _ _ H E) as Hc.
  rewrite key_ltb_irrefl in Hc. discriminate.
Qed.

Lemma key_ltb_total (a b : Key) :
  key_ltb a b = false -> key_ltb b a = false -> a = b.
Proof.
  destruct a as [x|], b as [y|]; simpl; try congruence.
  unfold bytes_ltb. rewrite (bytes_compare_antisym x y).
  destruct (bytes_compare x y) eqn:E; simpl; try discriminate.
  apply bytes_compare_eq in E. congruence.
Qed.

Lemma key_leb_ltb (a b : Key) : key_leb a b = negb (key_ltb b a).
Proof.
  unfold key_leb. destruct (key_eqb a b) eqn:E.
  - apply key_eqb_eq in E. subst. rewrite key_ltb_irrefl. reflexivity.
  - rewrite orb_false_r. destruct (key_ltb a b) eqn:L.
    + rewrite (key_ltb_asym _ _ L). reflexivity.
    + destruct (key_ltb b a) eqn:L'; [reflexivity|].
      apply key_eqb_neq in E. exfalso. apply E. apply key_ltb_total; auto.
Qed.

Lemma key_leb_refl (a : Key) : key_leb a a = true.
Proof. rewrite key_leb_ltb, key_ltb_irrefl. reflexivity. Qed.

Lemma key_leb_trans (a b c : Key) :
  key_leb a b = true -> key_leb b c = true -> key_leb a c = true.
Proof.
  rewrite !key_leb_ltb. intros H1 H2.
  destruct (key_ltb c a) eqn:E; [|reflexivity]. exfalso.
  destruct (key_ltb a b) eqn:E1.
  - rewrite (key_ltb_trans _ _ _ E E1) in H2. discriminate.
  - assert (a = b) by (apply key_ltb_total; auto;
                       destruct (key_ltb b a); [discriminate|reflexivity]).
    subst. rewrite E in H2. discriminate.
Qed.

Lemma key_ltb_leb_trans (a b c : Key) :
  key_ltb a b = true -> key_leb b c = true -> key_ltb a c = true.
Proof.
  rewrite key_leb_ltb. intros H1 H2.
  destruct (key_ltb b c) eqn:E.
  - eapply key_ltb_trans; eauto.
  - assert (b = c) by (apply key_ltb_total; auto;
                       destruct (key_ltb c b); [discriminate|reflexivity]).
    subst. assumption.
Qed.

Lemma key_leb_ltb_trans (a b c : Key) :
  key_leb a b = true -> key_ltb b c = true -> key_ltb a c = true.
Proof.
  rewrite key_leb_ltb. intros H1 H2.
  destruct (key_ltb a b) eqn:E.
  - eapply key_ltb_trans; eauto.
  - assert (a = b) by (apply key_ltb_total; auto;
                       destruct (key_ltb b a); [discriminate|reflexivity]).
    subst. assumption.
Qed.

Lemma key_ltb_leb (a b : Key) : key_ltb a b = true -> key_leb a b = true.
Proof. unfold key_leb. intros ->. reflexivity. Qed.

Lemma key_leb_antisym (a b : Key) :
  key_leb a b = true -> key_leb b a = true -> a = b.
Proof.
  rewrite !key_leb_ltb. intros H1 H2.
  apply key_ltb_total.
  - destruct (key_ltb a b); [discriminate|reflexivity].
  - destruct (key_ltb b a); [discriminate|reflexivity].
Qed.

Lemma key_None_leb (a : Key) : key_leb None a = true.
Proof. destruct a; reflexivity. Qed.

Lemma key_leb_Some (x y : bytes) : key_leb (Some x) (Some y) = bytes_leb x y.
Proof. rewrite key_leb_ltb. simpl. rewrite bytes_leb_ltb. reflexivity. Qed.

(** ** [ORDER BY key] *)

Definition klt (a b : Node) : Prop := key_ltb (key a) (key b) = true.

Definition kle (a b : Node) : Prop := key_leb (key a) (key b) = true.

Lemma insert_asc_In (r x : Node) (l : list Node) :
  In x (insert_asc r l) <-> x = r \/ In x l.
Proof.
  induction l as [|y l IH]; simpl.
  - intuition.
  - destruct (key_ltb (key y) (key r)); simpl; rewrite ?IH; intuition.
Qed.

Lemma order_asc_In (x : Node) (l : list Node) :
  In x (order_asc l) <-> In x l.
Proof.
  induction l as [|y l IH]; simpl.
  - tauto.
  - rewrite insert_asc_In, IH. intuition.
Qed.

Lemma insert_asc_length (r : Node) (l : list Node) :
  length (insert_asc r l) = S (length l).
Proof.
  induction l as [|y l IH]; simpl; [reflexivity|].
  destruct (key_ltb (key y) (key r)); simpl; rewrite ?IH; reflexivity.
Qed.

Lemma order_asc_length (l : list Node) : length (order_asc l) = length l.
Proof.
  induction l as [|y l IH]; simpl; [reflexivity|].
  rewrite insert_asc_length, IH. reflexivity.
Qed.

Lemma insert_asc_sorted (r : Node) (l : list Node) :
  StronglySorted klt l ->
  (forall x, In x l -> key x <> key r) ->
  StronglySorted klt (insert_asc r l).
Proof.
  induction l as [|y l IH]; intros Hs Hne; simpl.
  - constructor; constructor.
  - inversion Hs as [|? ? Hs' Hall]; subst.
    destruct (key_ltb (key y) (key r)) eqn:E.
    + constructor.
      * apply IH; auto. intros x Hx. apply Hne. right. exact Hx.
      * apply Forall_forall. intros x Hx. apply insert_asc_In in Hx.
        destruct Hx as [->|Hx]; [exact E|].
        rewrite Forall_forall in Hall. apply Hall. exact Hx.
    + assert (klt r y) as Hry.
      { unfold klt. destruct (key_ltb (key r) (key y)) eqn:E'; [reflexivity|].
        exfalso. apply (Hne y); [left; reflexivity|].
        apply key_ltb_total; assumption. }
      constructor; [exact Hs|]. constructor; [exact Hry|].
      rewrite Forall_forall in Hall |- *. intros x Hx.
      unfold klt in *. eapply key_ltb_trans; [exact Hry|]. apply Hall, Hx.
Qed.

Lemma order_asc_sorted (l : list Node) :
  NoDup (map key l) -> StronglySorted klt (order_asc l).
Proof.
  induction l as [|y l IH]; simpl; intros Hnd.
  - constructor.
  - inversion Hnd as [|? ? Hnin Hnd']; subst.
    apply insert_asc_sorted; [apply IH; exact Hnd'|].
    intros x Hx Heq. apply Hnin. apply (proj1 (order_asc_In _ _)) in Hx.
    rewrite <- Heq. apply in_map. exact Hx.
Qed.

Lemma sorted_head_not_In (a : Node) (l : list Node) :
  StronglySorted klt (a :: l) -> ~ In a l.
Proof.
  intros Hs Hin. inversion Hs as [|? ? _ Hall]; subst.
  rewrite Forall_forall in Hall. specialize (Hall a Hin).
  unfold klt in Hall. rewrite key_ltb_irrefl in Hall. discriminate.
Qed.

(** A strictly sorted list is determined by its elements. *)
Lemma sorted_ext (l1 l2 : list Node) :
  StronglySorted klt l1 -> StronglySorted klt l2 ->
  (forall x, In x l1 <-> In x l2) -> l1 = l2.
Proof.
  revert l2. induction l1 as [|a l1 IH]; intros l2 H1 H2 Hin.
  - destruct l2 as [|b l2]; [reflexivity|].
    exfalso. apply (Hin b). left. reflexivity.
  - destruct l2 as [|b l2].
    + exfalso. apply (Hin a). left. reflexivity.
    + inversion H1 as [|? ? H1' A1]; subst.
      inversion H2 as [|? ? H2' A2]; subst.
      rewrite Forall_forall in A1, A2.
      assert (a = b) as ->.
      { destruct (proj1 (Hin a) (or_introl eq_refl)) as [E|Ha]; [congruence|].
        destruct (proj2 (Hin b) (or_introl eq_refl)) as [E|Hb]; [congruence|].
        pose proof (A2 _ Ha) as L1. pose proof (A1 _ Hb) as L2.
        unfold klt in *. rewrite (key_ltb_asym _ _ L1) in L2. discriminate. }
      f_equal. apply IH; [exact H1'|exact H2'|]. intros x. split; intros Hx.
      * destruct (proj1 (Hin x) (or_intror Hx)) as [E|Hx']; [|exact Hx'].
        subst. exfalso. apply (sorted_head_not_In H1 Hx).
      * destruct (proj2 (Hin x) (or_intror Hx)) as [E|Hx']; [|exact Hx'].
        subst. exfalso. apply (sorted_head_not_In H2 Hx).
Qed.

Lemma sorted_filter (p : Node -> bool) (l : list Node) :
  StronglySorted klt l -> StronglySorted klt (filter p l).
Proof.
  induction l as [|a l IH]; simpl; intros Hs; [constructor|].
  inversion Hs as [|? ? Hs' Hall]; subst.
  destruct (p a); [|auto]. constructor; [auto|].
  rewrite Forall_forall in Hall |- *. intros x Hx.
  apply filter_In in Hx. apply Hall. tauto.
Qed.

(** ** Rows are unique by level and key *)

Definition uniq (s : Store) : Prop :=
  NoDup (map (fun r => (level r, key r)) s).

Lemma uniq_level_keys (s : Store) (l : nat) (p : Node -> bool) :
  uniq s -> (forall r, p r = true -> level r = l) ->
  NoDup (map key (filter p s)).
Proof.
  unfold uniq. induction s as [|a s IH]; simpl; intros Hu Hp; [constructor|].
  inversion Hu as [|? ? Hnin Hu']; subst.
  destruct (p a) eqn:E; [|auto]. simpl. constructor; [|auto].
  intros Hin. apply in_map_iff in Hin. destruct Hin as (x & Hk & Hx).
  apply filter_In in Hx. destruct Hx as [Hx Hpx]. apply Hnin.
  apply in_map_iff. exists x. split; [|exact Hx].
  rewrite Hk, (Hp _ Hpx), (Hp _ E). reflexivity.
Qed.

Lemma select_sorted (s : Store) (l : nat) (p : Node -> bool) :
  uniq s -> (forall r, p r = true -> level r = l) ->
  StronglySorted klt (order_asc (filter p s)).
Proof.
  intros Hu Hp. apply order_asc_sorted. eapply uniq_level_keys; eauto.
Qed.

(** Two selections over unique rows with the same rows are the same list. *)
Lemma select_ext (s s' : Store) (l : nat) (p p' : Node -> bool) :
  uniq s -> uniq s' ->
  (forall r, p r = true -> level r = l) ->
  (forall r, p' r = true -> level r = l) ->
  (forall r, In r s /\ p r = true <-> In r s' /\ p' r = true) ->
  order_asc (filter p s) = order_asc (filter p' s').
Proof.
  intros Hu Hu' Hp Hp' Hin. apply sorted_ext.
  - eapply select_sorted; eauto.
  - eapply select_sorted; eauto.
  - intros x. rewrite !order_asc_In, !filter_In. apply Hin.
Qed.

Lemma select_filter (s : Store) (l : nat) (p : Node -> bool) :
  uniq s ->
  order_asc (filter (fun r => (level r =? l)%nat && p r) s)
  = filter p (nodes s l).
Proof.
  intros Hu. unfold nodes. apply sorted_ext.
  - eapply select_sorted with (l := l); eauto.
    intros r H. apply andb_true_iff in H. apply Nat.eqb_eq. tauto.
  - apply sorted_filter. eapply select_sorted with (l := l); eauto.
    intros r H. apply Nat.eqb_eq. exact H.
  - intros x. rewrite order_asc_In, !filter_In, order_asc_In, filter_In.
    rewrite andb_true_iff. tauto.
Qed.

(** ** [getNode], [setNode] and [deleteNode] on unique rows *)

Lemma at_key_true (l : nat) (k : Key) (r : Node) :
  at_key l k r = true <-> level r = l /\ key r = k.
Proof.
  unfold at_key. rewrite andb_true_iff, Nat.eqb_eq, key_eqb_eq. tauto.
Qed.

Lemma at_key_false (l : nat) (k : Key) (r : Node) :
  at_key l k r = false <-> ~ (level r = l /\ key r = k).
Proof.
  rewrite <- at_key_true. destruct (at_key l k r); split; congruence.
Qed.

Lemma getNode_Some (s : Store) (l : nat) (k : Key) (r : Node) :
  getNode s l k = Some r -> In r s /\ level r = l /\ key r = k.
Proof.
  unfold getNode. intros H. apply find_some in H.
  rewrite at_key_true in H. exact H.
Qed.

Lemma getNode_None (s : Store) (l : nat) (k : Key) :
  getNode s l k = None <-> (forall r, In r s -> ~ (level r = l /\ key r = k)).
Proof.
  unfold getNode. split.
  - intros H r Hr. apply at_key_false. eapply find_none; eauto.
  - intros H. destruct (find (at_key l k) s) as [r|] eqn:E; [|reflexivity].
    apply find_some in E. rewrite at_key_true in E.
    exfalso. apply (H r); tauto.
Qed.

Lemma uniq_In_eq (s : Store) (a b : Node) :
  uniq s -> In a s -> In b s -> level a = level b -> key a = key b -> a = b.
Proof.
  unfold uniq. induction s as [|x s IH]; simpl; intros Hu Ha Hb Hl Hk;
    [contradiction|].
  inversion Hu as [|? ? Hnin Hu']; subst.
  destruct Ha as [->|Ha], Hb as [->|Hb]; auto.
  - exfalso. apply Hnin. apply in_map_iff. exists b. split; [|exact Hb].
    rewrite Hl, Hk. reflexivity.
  - exfalso. apply Hnin. apply in_map_iff. exists a. split; [|exact Ha].
    rewrite Hl, Hk. reflexivity.
Qed.

Lemma getNode_In (s : Store) (r : Node) :
  uniq s -> In r s -> getNode s (level r) (key r) = Some r.
Proof.
  intros Hu Hr. destruct (getNode s (level r) (key r)) as [x|] eqn:E.
  - apply getNode_Some in E. destruct E as (Hx & Hl & Hk).
    f_equal. eapply uniq_In_eq; eauto.
  - rewrite getNode_None in E. exfalso. apply (E r Hr). auto.
Qed.

Lemma node_eta (n : Node) :
  mkNode (level n) (key n) (hash n) (value n) = n.
Proof. destruct n. reflexivity. Qed.

Lemma setNode_In (s : Store) (n x : Node) :
  In x (setNode s n)
  <-> (x = n /\ (getNode s (level n) (key n) = None
                 \/ exists r, In r s /\ level r = level n /\ key r = key n))
      \/ (In x s /\ ~ (level x = level n /\ key x = key n)).
Proof.
  unfold setNode. destruct (getNode s (level n) (key n)) as [r0|] eqn:E.
  - apply getNode_Some in E. rewrite in_map_iff. split.
    + intros (r & Hx & Hr). destruct (at_key (level n) (key n) r) eqn:A.
      * apply at_key_true in A. destruct A as [Hl Hk].
        left. split; [|right; exists r; auto].
        rewrite <- Hx, Hl, Hk. apply node_eta.
      * apply at_key_false in A. right. subst x. auto.
    + intros [(-> & _)|(Hx & Hne)].
      * exists r0. destruct E as (Hin & Hl & Hk).
        split; [|exact Hin].
        replace (at_key (level n) (key n) r0) with true
          by (symmetry; apply at_key_true; auto).
        rewrite Hl, Hk. apply node_eta.
      * exists x. split; [|exact Hx].
        apply at_key_false in Hne. rewrite Hne. reflexivity.
  - rewrite in_app_iff. simpl. rewrite getNode_None in E. split.
    + intros [Hx|[<-|[]]].
      * right. split; [exact Hx|]. apply E. exact Hx.
      * left. split; [reflexivity|]. left. reflexivity.
    + intros [(-> & _)|(Hx & _)]; auto.
Qed.

Lemma setNode_In_n (s : Store) (n : Node) : In n (setNode s n).
Proof.
  apply setNode_In. left. split; [reflexivity|].
  destruct (getNode s (level n) (key n)) as [r|] eqn:E; [right|left; auto].
  apply getNode_Some in E. exists r. exact E.
Qed.

Lemma setNode_In_iff (s : Store) (n x : Node) :
  In x (setNode s n)
  <-> x = n \/ (In x s /\ ~ (level x = level n /\ key x = key n)).
Proof.
  split.
  - intros H. apply setNode_In in H. tauto.
  - intros [->|H]; [apply setNode_In_n|]. apply setNode_In. right. exact H.
Qed.

Lemma setNode_uniq (s : Store) (n : Node) : uniq s -> uniq (setNode s n).
Proof.
  unfold uniq, setNode. intros Hu.
  destruct (getNode s (level n) (key n)) as [r0|] eqn:E.
  - rewrite map_map.
    replace (map _ s) with (map (fun r => (level r, key r)) s); [exact Hu|].
    apply map_ext. intros r.
    destruct (at_key (level n) (key n) r); reflexivity.
  - rewrite map_app. simpl. rewrite getNode_None in E.
    apply NoDup_app; [exact Hu|repeat constructor; simpl; tauto|].
    intros a Hin [<-|[]]. apply in_map_iff in Hin.
    destruct Hin as (r & Hr & Hin). injection Hr as Hl Hk.
    apply (E r Hin). auto.
Qed.

Lemma deleteNode_In (s : Store) (l : nat) (k : Key) (x : Node) :
  In x (deleteNode s l k) <-> In x s /\ ~ (level x = l /\ key x = k).
Proof.
  unfold deleteNode. rewrite filter_In, negb_true_iff, at_key_false. tauto.
Qed.

Lemma deleteNode_uniq (s : Store) (l : nat) (k : Key) :
  uniq s -> uniq (deleteNode s l k).
Proof.
  unfold uniq, deleteNode. induction s as [|a s IH]; simpl; intros Hu;
    [constructor|].
  inversion Hu as [|? ? Hnin Hu']; subst.
  destruct (negb (at_key l k a)); simpl; [|auto].
  constructor; [|auto]. intros Hin. apply Hnin.
  apply in_map_iff in Hin. destruct Hin as (x & Hx & Hin).
  apply filter_In in Hin. apply in_map_iff. exists x. tauto.
Qed.

Lemma getNode_iff (s : Store) (l : nat) (k : Key) (r : Node) :
  uniq s -> (getNode s l k = Some r <-> In r s /\ level r = l /\ key r = k).
Proof.
  intros Hu. split; [apply getNode_Some|].
  intros (Hin & <- & <-). apply getNode_In; assumption.
Qed.

Lemma getNode_setNode (s : Store) (n : Node) (l : nat) (k : Key) :
  uniq s ->
  getNode (setNode s n) l k
  = if at_key l k n then Some n else getNode s l k.
Proof.
  intros Hu. pose proof (setNode_uniq n Hu) as Hu'.
  destruct (at_key l k n) eqn:A.
  - apply at_key_true in A. destruct A as [<- <-].
    apply getNode_In; [exact Hu'|apply setNode_In_n].
  - apply at_key_false in A.
    destruct (getNode s l k) as [r|] eqn:E.
    + apply getNode_Some in E. destruct E as (Hin & <- & <-).
      apply getNode_In; [exact Hu'|]. apply setNode_In_iff. right.
      split; [exact Hin|]. intros [H1 H2]. apply A. auto.
    + rewrite getNode_None in E |- *. intros r Hr. apply setNode_In_iff in Hr.
      destruct Hr as [->|[Hr _]]; [exact A|apply E, Hr].
Qed.

Lemma getNode_deleteNode (s : Store) (l l' : nat) (k k' : Key) :
  uniq s ->
  getNode (deleteNode s l' k') l k
  = if (l =? l')%nat && key_eqb k k' then None else getNode s l k.
Proof.
  intros Hu. pose proof (deleteNode_uniq l' k' Hu) as Hu'.
  destruct ((l =? l')%nat && key_eqb k k') eqn:A.
  - apply andb_true_iff in A. rewrite Nat.eqb_eq, key_eqb_eq in A.
    destruct A as [-> ->]. apply getNode_None. intros r Hr.
    apply deleteNode_In in Hr. tauto.
  - assert (~ (l = l' /\ k = k')) as A'.
    { intros [-> ->]. rewrite Nat.eqb_refl, key_eqb_refl in A. discriminate. }
    destruct (getNode s l k) as [r|] eqn:E.
    + apply getNode_Some in E. destruct E as (Hin & <- & <-).
      apply getNode_In; [exact Hu'|]. apply deleteNode_In. auto.
    + rewrite getNode_None in E |- *. intros r Hr. apply deleteNode_In in Hr.
      apply E. tauto.
Qed.

(** ** The first and the last row of an ordered selection *)

Lemma insert_asc_wsorted (r : Node) (l : list Node) :
  StronglySorted kle l -> StronglySorted kle (insert_asc r l).
Proof.
  induction l as [|y l IH]; intros Hs; simpl.
  - constructor; constructor.
  - inversion Hs as [|? ? Hs' Hall]; subst.
    rewrite Forall_forall in Hall.
    destruct (key_ltb (key y) (key r)) eqn:E.
    + constructor; [auto|]. apply Forall_forall. intros x Hx.
      apply insert_asc_In in Hx. destruct Hx as [->|Hx]; [|auto].
      apply key_ltb_leb. exact E.
    + assert (kle r y) as Hry.
      { unfold kle. rewrite key_leb_ltb, E. reflexivity. }
      constructor; [exact Hs|]. constructor; [exact Hry|].
      apply Forall_forall. intros x Hx. unfold kle in *.
      eapply key_leb_trans; [exact Hry|]. auto.
Qed.

Lemma order_asc_wsorted (l : list Node) : StronglySorted kle (order_asc l).
Proof.
  induction l as [|y l IH]; simpl; [constructor|].
  apply insert_asc_wsorted. exact IH.
Qed.

Lemma wsorted_last (l : list Node) (r : Node) :
  StronglySorted kle (l ++ [r]) -> forall x, In x l -> kle x r.
Proof.
  induction l as [|y l IH]; simpl; intros Hs x Hx; [contradiction|].
  inversion Hs as [|? ? Hs' Hall]; subst. rewrite Forall_forall in Hall.
  destruct Hx as [->|Hx]; [|auto].
  apply Hall. apply in_or_app. right. left. reflexivity.
Qed.

Lemma order_asc_head (l : list Node) (r : Node) (rest : list Node) :
  order_asc l = r :: rest -> In r l /\ forall x, In x l -> kle r x.
Proof.
  intros E. pose proof (order_asc_wsorted l) as Hs. rewrite E in Hs.
  inversion Hs as [|? ? _ Hall]; subst. rewrite Forall_forall in Hall.
  split.
  - apply (proj1 (order_asc_In r l)). rewrite E. left. reflexivity.
  - intros x Hx. apply (proj2 (order_asc_In x l)) in Hx. rewrite E in Hx.
    destruct Hx as [->|Hx]; [apply key_leb_refl|auto].
Qed.

Lemma order_desc_head (l : list Node) (r : Node) (rest : list Node) :
  order_desc l = r :: rest -> In r l /\ forall x, In x l -> kle x r.
Proof.
  unfold order_desc. intros E.
  assert (order_asc l = rev rest ++ [r]) as E'.
  { rewrite <- (rev_involutive (order_asc l)), E. reflexivity. }
  pose proof (order_asc_wsorted l) as Hs. rewrite E' in Hs.
  split.
  - apply (proj1 (order_asc_In r l)). rewrite E'.
    apply in_or_app. right. left. reflexivity.
  - intros x Hx. apply (proj2 (order_asc_In x l)) in Hx. rewrite E' in Hx.
    apply in_app_or in Hx. destruct Hx as [Hx|[->|[]]].
    + eapply wsorted_last; eauto.
    + apply key_leb_refl.
Qed.

Lemma order_asc_nil (l : list Node) : order_asc l = [] <-> l = [].
Proof.
  split; intros E.
  - apply length_zero_iff_nil. rewrite <- order_asc_length, E. reflexivity.
  - subst. reflexivity.
Qed.

Lemma order_desc_nil (l : list Node) : order_desc l = [] <-> l = [].
Proof.
  unfold order_desc. split; intros E.
  - apply order_asc_nil.
    rewrite <- (rev_involutive (order_asc l)), E. reflexivity.
  - subst. reflexivity.
Qed.

Lemma filter_nil_iff (A : Type) (p : A -> bool) (l : list A) :
  filter p l = [] <-> forall x, In x l -> p x = false.
Proof.
  induction l as [|a l IH]; simpl.
  - split; [contradiction|reflexivity].
  - destruct (p a) eqn:E.
    + split; [discriminate|]. intros Hf. specialize (Hf a (or_introl eq_refl)).
      congruence.
    + rewrite IH. split.
      * intros Hf x [->|Hx]; auto.
      * intros Hf x Hx. auto.
Qed.

(** ** [getFirstSibling] (C8) *)

(** The rows [getFirstSibling] selects from: the anchor of the level and the
    boundaries at or before the key. *)
Definition sibling_candidate (t : Tree.Tree) (l : nat) (k : bytes) (r : Node)
  : bool :=
  (level r =? l)%nat
  && match key r with
     | None => true
     | Some k' => bytes_leb k' k && Tree.below_limit t r
     end.

Lemma getFirstSibling_keyed (t : Tree.Tree) (s : Store) (n : Node)
      (k : bytes) :
  key n = Some k ->
  Tree.getFirstSibling t s n
  = match order_desc (filter (sibling_candidate t (level n) k) s) with
    | r :: _ => Ok (mkNode (level r) (key r) (hash r) None)
    | [] => Throw "expected firstSibling !== undefined"
    end.
Proof.
  unfold Tree.getFirstSibling. intros ->. reflexivity.
Qed.

Lemma getFirstSibling_Ok (t : Tree.Tree) (s : Store) (n f : Node)
      (k : bytes) :
  key n = Some k ->
  Tree.getFirstSibling t s n = Ok f ->
  value f = None
  /\ (exists r, In r s /\ sibling_candidate t (level n) k r = true
                /\ level r = level f /\ key r = key f /\ hash r = hash f)
  /\ (forall x, In x s -> sibling_candidate t (level n) k x = true ->
                key_leb (key x) (key f) = true).
Proof.
  intros Hk. rewrite (getFirstSibling_keyed t s n Hk).
  destruct (order_desc _) as [|r rest] eqn:E; [discriminate|].
  intros [= <-]. apply order_desc_head in E. destruct E as [Hin Hmax].
  apply filter_In in Hin. simpl. split; [reflexivity|]. split.
  - exists r. tauto.
  - intros x Hx Hc. apply Hmax. apply filter_In. auto.
Qed.

Lemma getFirstSibling_total (t : Tree.Tree) (s : Store) (n a : Node)
      (k : bytes) :
  key n = Some k -> In a s -> level a = level n -> key a = None ->
  exists f, Tree.getFirstSibling t s n = Ok f.
Proof.
  intros Hk Ha Hl Hnone. rewrite (getFirstSibling_keyed t s n Hk).
  destruct (order_desc _) as [|r rest] eqn:E; [|eauto].
  apply (proj1 (order_desc_nil _)) in E.
  pose proof (proj1 (filter_nil_iff _ _) E a Ha) as E'.
  unfold sibling_candidate in E'. rename E' into E0. clear E. rename E0 into E.
  rewrite Hl, Nat.eqb_refl, Hnone in E. discriminate.
Qed.

Lemma below_limit_hash (t : Tree.Tree) (a b : Node) :
  hash a = hash b -> Tree.below_limit t a = Tree.below_limit t b.
Proof. unfold Tree.below_limit. intros ->. reflexivity. Qed.

Lemma isBoundary_hash (t : Tree.Tree) (a b : Node) :
  hash a = hash b -> Tree.isBoundary t a = Tree.isBoundary t b.
Proof. unfold Tree.isBoundary. intros ->. reflexivity. Qed.

(** When [Q] is at least 2, so that [LIMIT] fits in the four bytes of
    [LIMIT_KEY]: for an anchor, [getFirstSibling] returns the node itself;
    for a node with a key, on a level that has its anchor, it returns the node
    of that level that is the anchor or a boundary at or before the key, with
    the largest such key, the anchor counting as smaller than every key. *)
Lemma firstSibling_closest `{Hasher} (optK : option nat) (optQ : option Z)
        (t : Tree.Tree) (s : Store) (n : Node) :
  Tree.constructor optK optQ = Ok t ->
  (2 <= Tree.Q t)%Z ->
  (forall r, In r s -> (4 <= length (hash r))%nat) ->
  (key n = None -> Tree.getFirstSibling t s n = Ok n)
  /\ (forall k, key n = Some k ->
        (exists a, In a s /\ level a = level n /\ key a = None) ->
        exists f,
          Tree.getFirstSibling t s n = Ok f
          /\ level f = level n
          /\ (exists r, In r s /\ level r = level n /\ key r = key f
                        /\ hash r = hash f)
          /\ (key f = None
              \/ (Tree.isBoundary t f = Ok true
                  /\ key_leb (key f) (Some k) = true))
          /\ (forall x, In x s -> level x = level n ->
                key x = None
                \/ (Tree.isBoundary t x = Ok true
                    /\ key_leb (key x) (Some k) = true) ->
                key_leb (key x) (key f) = true)).
Proof.
  intros Ht Hq Hlen. split.
  - intros Hk. unfold Tree.getFirstSibling. rewrite Hk. reflexivity.
  - intros k Hk (a & Ha & Hal & Hak).
    destruct (getFirstSibling_total t s n a Hk Ha Hal Hak) as [f Hf].
    exists f. split; [exact Hf|].
    destruct (getFirstSibling_Ok t s n Hk Hf) as (_ & (r & Hr & Hc & Hl & Hkr & Hh) & Hmax).
    unfold sibling_candidate in Hc. apply andb_true_iff in Hc.
    destruct Hc as [Hlv Hc]. apply Nat.eqb_eq in Hlv.
    split; [congruence|]. split; [exists r; repeat split; congruence|].
    split.
    + rewrite <- Hkr. destruct (key r) as [k'|] eqn:Ekr; [right|left; auto].
      apply andb_true_iff in Hc. destruct Hc as [Hle Hb]. split.
      * rewrite <- (isBoundary_hash t r f Hh).
        rewrite (@below_limit_isBoundary _ optK optQ t r Ht Hq (Hlen r Hr)).
        rewrite Hb. reflexivity.
      * rewrite key_leb_Some. exact Hle.
    + intros x Hx Hxl Hxc. apply Hmax; [exact Hx|].
      unfold sibling_candidate. rewrite Hxl, Nat.eqb_refl. simpl.
      destruct (key x) as [k'|] eqn:Ekx; [|reflexivity].
      destruct Hxc as [Hxc|[Hb Hle]]; [discriminate|].
      rewrite key_leb_Some in Hle. rewrite Hle. simpl.
      rewrite (@below_limit_isBoundary _ optK optQ t x Ht Hq (Hlen x Hx)) in Hb.
      congruence.
Qed.

Definition tree16_4 : Tree.Tree :=
  Tree.mkTree 16 4 1073741824 (setUint32 1073741824) (hashFn 16 []).

Lemma tree16_4_constructed :
  Tree.constructor (Some 16%nat) (Some 4%Z) = Ok tree16_4.
Proof. reflexivity. Qed.

Definition two_rows : Store :=
  [ mkNode 0 None zeros16 None; mkNode 0 (Some [x01]) zeros16 (Some []) ].

Lemma firstSibling_closest_witness :
  let n := mkNode 0 (Some [x02]) zeros16 None in
  (key n = None -> Tree.getFirstSibling tree16_4 two_rows n = Ok n)
  /\ (forall k, key n = Some k ->
        (exists a, In a two_rows /\ level a = level n /\ key a = None) ->
        exists f,
          Tree.getFirstSibling tree16_4 two_rows n = Ok f
          /\ level f = level n
          /\ (exists r, In r two_rows /\ level r = level n /\ key r = key f
                        /\ hash r = hash f)
          /\ (key f = None
              \/ (Tree.isBoundary tree16_4 f = Ok true
                  /\ key_leb (key f) (Some k) = true))
          /\ (forall x, In x two_rows -> level x = level n ->
                key x = None
                \/ (Tree.isBoundary tree16_4 x = Ok true
                    /\ key_leb (key x) (Some k) = true) ->
                key_leb (key x) (key f) = true)).
Proof.
  intros n.
  apply (@firstSibling_closest blake3_hasher (Some 16%nat) (Some 4%Z)
                               tree16_4 two_rows n).
  - reflexivity.
  - simpl. lia.
  - intros r [<-|[<-|[]]]; simpl; lia.
Defined.

(** C8, at [Q = 1], which the constructor accepts: the row with key [01] is
    on the level of the node, [isBoundary] accepts it and its key is at or
    before the node's key [02], yet [getFirstSibling] returns the anchor, whose
    key is smaller.  The query selects boundaries by [hash < LIMIT_KEY], and
    [LIMIT_KEY] holds the four zero bytes that [2^32] wraps to, so it selects
    no keyed row at all. *)
Theorem firstSibling_misses_boundary_at_Q1 :
  exists t,
    Tree.constructor (Some 16%nat) (Some 1%Z) = Ok t
    /\ Tree.LIMIT_KEY t = [x00; x00; x00; x00]
    /\ (let x := mkNode 0 (Some [x01]) zeros16 (Some []) in
        let n := mkNode 0 (Some [x02]) zeros16 None in
        In x two_rows
        /\ level x = level n
        /\ Tree.isBoundary t x = Ok true
        /\ key_leb (key x) (key n) = true
        /\ Tree.getFirstSibling t two_rows n
           = Ok (mkNode 0 None zeros16 None)
        /\ key_leb (key x) None = false).
Proof.
  eexists. split; [reflexivity|]. split; [reflexivity|]. simpl.
  repeat split; try reflexivity. right. left. reflexivity.
Qed.

(** ** [delete] of a key that is not there (C9) *)

Lemma delete_no_leaf `{Hasher} (t : Tree.Tree) (fuel : nat) (s : Store)
      (k : bytes) :
  getNode s 0 (Some k) = None -> Tree.delete t fuel s k = Ok s.
Proof.
  intros E. unfold Tree.delete. rewrite E. reflexivity.
Qed.

(** C9.  When no level-0 row has the key, [delete] returns normally, whatever
    its recursion budget, and the table is the one it was given. *)
Theorem delete_absent_noop `{Hasher} (t : Tree.Tree) (fuel : nat) (s : Store)
        (k : bytes) :
  (forall r, In r s -> ~ (level r = 0%nat /\ key r = Some k)) ->
  Tree.delete t fuel s k = Ok s.
Proof.
  intros Habs. apply delete_no_leaf. apply getNode_None. exact Habs.
Qed.

Lemma delete_absent_noop_witness :
  Tree.delete tree16_4 0 two_rows [x02] = Ok two_rows.
Proof.
  apply (@delete_absent_noop blake3_hasher tree16_4 0 two_rows [x02]).
  intros r [<-|[<-|[]]]; simpl; intros [_ E]; discriminate.
Defined.

(** ** [deleteParents], as far as the chain goes *)

(** [deleteParents] removes the rows with the key on the levels above [l], as
    far up as they go without a gap. *)
Lemma deleteParents_chain `{Hasher} (t : Tree.Tree) (m : nat) :
  forall (fuel : nat) (s : Store) (l : nat) (k : Key),
    (m < fuel)%nat ->
    (forall j, (l < j <= l + m)%nat ->
               exists r, In r s /\ level r = j /\ key r = k) ->
    (forall r, In r s -> ~ (level r = (l + m + 1)%nat /\ key r = k)) ->
    exists s1,
      Tree.deleteParents fuel s l k = Ok s1
      /\ (forall r, In r s1
                    <-> In r s /\ ~ (key r = k /\ (l < level r <= l + m)%nat)).
Proof.
  induction m as [|m IH]; intros fuel s l k Hfuel Hchain Htop.
  - destruct fuel as [|fuel]; [lia|]. simpl.
    replace (getNode s (l + 1) k) with (@None Node).
    + exists s. split; [reflexivity|]. intros r. split; [|tauto].
      intros Hr. split; [exact Hr|]. lia.
    + symmetry. apply getNode_None. intros r Hr.
      replace (l + 1)%nat with (l + 0 + 1)%nat by lia. apply Htop. exact Hr.
  - destruct fuel as [|fuel]; [lia|]. simpl.
    destruct (Hchain (l + 1)%nat ltac:(lia)) as (r1 & Hr1 & Hl1 & Hk1).
    destruct (getNode s (l + 1) k) as [r0|] eqn:E.
    + destruct (IH fuel (deleteNode s (l + 1) k) (l + 1)%nat k) as (s1 & Hs1 & Hin).
      * lia.
      * intros j Hj. destruct (Hchain j ltac:(lia)) as (r & Hr & Hl & Hk).
        exists r. split; [|auto]. apply deleteNode_In. split; [exact Hr|]. lia.
      * intros r Hr. apply deleteNode_In in Hr. destruct Hr as [Hr _].
        replace (l + 1 + m + 1)%nat with (l + S m + 1)%nat by lia.
        apply Htop. exact Hr.
      * exists s1. split; [exact Hs1|]. intros r. rewrite Hin, deleteNode_In.
        split.
        -- intros [[Hr Hne] Hne']. split; [exact Hr|]. intros [Hk Hl].
           destruct (Nat.eq_dec (level r) (l + 1)) as [E1|E1]; [tauto|].
           apply Hne'. split; [exact Hk|]. lia.
        -- intros [Hr Hne]. split; [split; [exact Hr|]|].
           ++ intros [Hl Hk]. apply Hne. split; [exact Hk|]. lia.
           ++ intros [Hk Hl]. apply Hne. split; [exact Hk|]. lia.
    + rewrite getNode_None in E. exfalso. apply (E r1 Hr1). auto.
Qed.

Definition fresh16 : Store := Eval vm_compute in [mkNode 0 None (hashFn 16 []) None].

Definition key_2 : bytes := [x00; x00; x00; x02].

Definition value_2 : bytes := Eval vm_compute in hashFn 4 key_2.

(** The table after [set(key_2, value_2)] on the fresh tree: the leaf is a
    boundary and has one parent. *)
Definition store_2 : Store :=
  Eval vm_compute in
    match Tree.set tree16_4 9 fresh16 key_2 value_2 with
    | Ok s => s
    | _ => []
    end.

Definition leaf_2 : Node :=
  Eval vm_compute in
    match getNode store_2 0 (Some key_2) with
    | Some n => n
    | None => mkNode 0 None [] None
    end.

(** ** [Builder.buildLevel] (C6) *)

(** The chunks of a level: [cur] is the chunk being collected, a node that
    satisfies [p] closes it and starts the next. *)
Fixpoint chunks_from (p : Node -> bool) (cur rest : list Node)
  : list (list Node) :=
  match rest with
  | [] => [cur]
  | n :: rest' =>
      if p n then cur :: chunks_from p [n] rest'
      else chunks_from p (cur ++ [n]) rest'
  end.

(** What it is to be the chunks of [first :: rest]: they make up the level in
    order, the first one starts at [first], every other one starts at a node
    that satisfies [p], and no other member satisfies [p]. *)
Definition Chunked (p : Node -> bool) (first : Node) (rest : list Node)
           (cs : list (list Node)) : Prop :=
  exists m0 cs',
    cs = (first :: m0) :: cs'
    /\ Forall (fun x => p x = false) m0
    /\ Forall (fun c => exists h m, c = h :: m /\ p h = true
                                    /\ Forall (fun x => p x = false) m) cs'
    /\ concat cs = first :: rest.

(** The node written for a chunk. *)
Definition parent_of `{Hasher} (K : nat) (l : nat) (c : list Node) : Node :=
  mkNode (l + 1) (match c with x :: _ => key x | [] => None end)
         (hashFn K (concat (map hash c))) None.

Definition builder_boundary (b : Builder.Builder) (n : Node) : bool :=
  (be32 (hash n) <? Builder.limit b)%Z.

Lemma chunks_from_concat (p : Node -> bool) (rest cur : list Node) :
  concat (chunks_from p cur rest) = cur ++ rest.
Proof.
  revert cur. induction rest as [|n rest IH]; intros cur; simpl.
  - reflexivity.
  - destruct (p n); simpl; rewrite IH; [reflexivity|].
    rewrite <- app_assoc. reflexivity.
Qed.

Lemma chunks_from_shape (p : Node -> bool) (rest : list Node) :
  forall (h : Node) (m : list Node),
    Forall (fun x => p x = false) m ->
    exists m' cs',
      chunks_from p (h :: m) rest = (h :: m') :: cs'
      /\ Forall (fun x => p x = false) m'
      /\ Forall (fun c => exists h m, c = h :: m /\ p h = true
                                      /\ Forall (fun x => p x = false) m) cs'.
Proof.
  induction rest as [|n rest IH]; intros h m Hm; simpl.
  - exists m, []. auto.
  - destruct (p n) eqn:E.
    + destruct (IH n [] (Forall_nil _)) as (m' & cs' & E' & Hm' & Hcs').
      exists m, ((n :: m') :: cs'). rewrite E'. split; [reflexivity|].
      split; [exact Hm|]. constructor; [|exact Hcs']. exists n, m'. auto.
    + apply (IH h (m ++ [n])). apply Forall_app. split; [exact Hm|].
      constructor; [exact E|constructor].
Qed.

Lemma chunks_from_Chunked (p : Node -> bool) (first : Node)
      (rest : list Node) :
  Chunked p first rest (chunks_from p [first] rest).
Proof.
  destruct (chunks_from_shape p rest first (Forall_nil _))
    as (m' & cs' & E & Hm & Hcs).
  exists m', cs'. rewrite <- E. repeat split; auto.
  apply chunks_from_concat.
Qed.

Lemma builder_isBoundary (b : Builder.Builder) (n : Node) :
  (4 <= length (hash n))%nat ->
  Builder.isBoundary b n = Ok (builder_boundary b n).
Proof.
  intros Hlen. unfold Builder.isBoundary.
  rewrite getUint32_be32 by exact Hlen. reflexivity.
Qed.

Lemma buildLoop_chunks `{Hasher} (b : Builder.Builder) (l : nat)
      (rest : list Node) :
  forall (cur : list Node) (k : Key) (h : Hash.State)
         (st : Builder.NodeStore) (count : nat),
    Hash.dkLen h = Builder.K b ->
    Hash.fed h = concat (map hash cur) ->
    k = match cur with x :: _ => key x | [] => None end ->
    cur <> [] ->
    (forall n, In n rest -> level n = l /\ (4 <= length (hash n))%nat) ->
    Builder.buildLoop b l rest k h st count
    = Ok (fold_left Builder.store_setNode
                    (map (parent_of (Builder.K b) l)
                         (chunks_from (builder_boundary b) cur rest)) st,
          (count + length (chunks_from (builder_boundary b) cur rest))%nat).
Proof.
  induction rest as [|n rest IH]; intros cur k h st count Hk Hfed Hkey Hne Hall.
  - simpl. unfold parent_of, Hash.digest. rewrite Hk, Hfed, Hkey. reflexivity.
  - simpl. destruct (Hall n (or_introl eq_refl)) as [Hl Hlen].
    rewrite Hl, Nat.eqb_refl. simpl.
    rewrite builder_isBoundary by exact Hlen. simpl.
    destruct (builder_boundary b n) eqn:E.
    + rewrite IH with (cur := [n]).
      * simpl. unfold parent_of at 3, Hash.digest.
        rewrite Hk, Hfed, Hkey. f_equal. f_equal. lia.
      * reflexivity.
      * simpl. rewrite app_nil_r. reflexivity.
      * reflexivity.
      * discriminate.
      * intros x Hx. apply Hall. right. exact Hx.
    + rewrite IH with (cur := cur ++ [n]).
      * reflexivity.
      * exact Hk.
      * simpl. rewrite Hfed, map_app, concat_app. simpl.
        rewrite app_nil_r. reflexivity.
      * destruct cur; [contradiction|]. exact Hkey.
      * destruct cur; discriminate.
      * intros x Hx. apply Hall. right. exact Hx.
Qed.

Lemma fold_store_setNode_rows (ps : list Node) (st : Builder.NodeStore) :
  Builder.rows (fold_left Builder.store_setNode ps st)
  = fold_left setNode ps (Builder.rows st).
Proof.
  revert st. induction ps as [|p ps IH]; intros st; simpl; [reflexivity|].
  rewrite IH. reflexivity.
Qed.

Lemma fold_setNode_uniq (ps : list Node) (s : Store) :
  uniq s -> uniq (fold_left setNode ps s).
Proof.
  revert s. induction ps as [|p ps IH]; intros s Hu; simpl; [exact Hu|].
  apply IH. apply setNode_uniq. exact Hu.
Qed.

Lemma fold_setNode_In (ps : list Node) :
  NoDup (map (fun r => (level r, key r)) ps) ->
  forall (s : Store) (x : Node),
    In x (fold_left setNode ps s)
    <-> In x ps
        \/ (In x s
            /\ forall p, In p ps -> ~ (level x = level p /\ key x = key p)).
Proof.
  induction ps as [|p ps IH]; intros Hnd s x; simpl.
  - split; [intros Hx; right; split; [exact Hx|tauto]|tauto].
  - inversion Hnd as [|? ? Hnin Hnd']; subst.
    rewrite (IH Hnd'), setNode_In_iff. split.
    + intros [Hx|[[->|[Hx Hne]] Hall]].
      * auto.
      * auto.
      * right. split; [exact Hx|]. intros q [<-|Hq]; auto.
    + intros [[->|Hx]|[Hx Hall]].
      * right. split; [left; reflexivity|]. intros q Hq [Hl Hk].
        apply Hnin. apply in_map_iff. exists q. split; [|exact Hq].
        rewrite Hl, Hk. reflexivity.
      * auto.
      * right. split; [right; split; [exact Hx|]|]; auto.
Qed.

Lemma sorted_NoDup_keys (l : list Node) :
  StronglySorted klt l -> NoDup (map key l).
Proof.
  induction l as [|a l IH]; simpl; intros Hs; [constructor|].
  inversion Hs as [|? ? Hs' Hall]; subst. rewrite Forall_forall in Hall.
  constructor; [|auto]. intros Hin. apply in_map_iff in Hin.
  destruct Hin as (x & Hk & Hx). specialize (Hall x Hx). unfold klt in Hall.
  rewrite Hk, key_ltb_irrefl in Hall. discriminate.
Qed.

Definition chunk_key (c : list Node) : Key :=
  match c with x :: _ => key x | [] => None end.

Lemma chunk_heads_NoDup (cs : list (list Node)) :
  Forall (fun c => c <> []) cs ->
  NoDup (map key (concat cs)) -> NoDup (map chunk_key cs).
Proof.
  induction cs as [|c cs IH]; simpl; intros Hne Hnd; [constructor|].
  inversion Hne as [|? ? Hc Hne']; subst.
  rewrite map_app in Hnd. constructor.
  - destruct c as [|h m]; [contradiction|]. simpl in *.
    inversion Hnd as [|? ? Hnin _]; subst. intros Hin. apply Hnin.
    apply in_or_app. right. clear - Hin Hne'.
    induction cs as [|c' cs IH']; simpl in *; [contradiction|].
    inversion Hne' as [|? ? Hc' Hne'']; subst. rewrite map_app.
    apply in_or_app. destruct Hin as [E|Hin].
    + left. destruct c' as [|h' m']; [contradiction|]. simpl in *.
      left. exact E.
    + right. apply IH'; assumption.
  - apply IH; [exact Hne'|]. eapply NoDup_app_remove_l. exact Hnd.
Qed.

Lemma Chunked_nonempty (p : Node -> bool) (first : Node) (rest : list Node)
      (cs : list (list Node)) :
  Chunked p first rest cs -> Forall (fun c => c <> []) cs.
Proof.
  intros (m0 & cs' & -> & _ & Hcs & _). constructor; [discriminate|].
  rewrite Forall_forall in Hcs |- *. intros c Hc.
  destruct (Hcs c Hc) as (h & m & -> & _). discriminate.
Qed.

Lemma nodes_In (s : Store) (l : nat) (r : Node) :
  In r (nodes s l) <-> In r s /\ level r = l.
Proof.
  unfold nodes. rewrite order_asc_In, filter_In, Nat.eqb_eq. tauto.
Qed.

Lemma nodes_sorted (s : Store) (l : nat) :
  uniq s -> StronglySorted klt (nodes s l).
Proof.
  intros Hu. unfold nodes. apply select_sorted with (l := l); [exact Hu|].
  intros r Hr. apply Nat.eqb_eq. exact Hr.
Qed.

Lemma uniq_NoDup (s : Store) : uniq s -> NoDup s.
Proof. unfold uniq. apply NoDup_map_inv. Qed.

Lemma buildLevel_run `{Hasher} (b : Builder.Builder) (l : nat)
      (first : Node) (rest : list Node) :
  Builder.store_nodes (Builder.store b) l = first :: rest ->
  key first = None ->
  (forall n, In n rest -> (4 <= length (hash n))%nat) ->
  Builder.buildLevel b l
  = Ok (Builder.mkBuilder
          (Builder.K b) (Builder.Q b) (Builder.limit b)
          (fold_left Builder.store_setNode
                     (map (parent_of (Builder.K b) l)
                          (chunks_from (builder_boundary b) [first] rest))
                     (Builder.store b))
          (Builder.nodeCount b),
        length (chunks_from (builder_boundary b) [first] rest)).
Proof.
  intros Hnodes Hkey Hlen.
  assert (forall n, In n (first :: rest) -> level n = l) as Hlev.
  { intros n Hn. unfold Builder.store_nodes in Hnodes. rewrite <- Hnodes in Hn.
    apply nodes_In in Hn. tauto. }
  unfold Builder.buildLevel. rewrite Hnodes.
  rewrite (Hlev first (or_introl eq_refl)), Nat.eqb_refl, Hkey. simpl.
  rewrite <- Hkey.
  rewrite buildLoop_chunks with (cur := [first]); try reflexivity.
  - simpl. rewrite app_nil_r. reflexivity.
  - discriminate.
  - intros n Hn. split; [apply Hlev; right; exact Hn|apply Hlen, Hn].
Qed.

Lemma parents_NoDup `{Hasher} (K : nat) (s : Store) (l : nat)
      (p : Node -> bool) (first : Node) (rest : list Node)
      (cs : list (list Node)) :
  uniq s -> nodes s l = first :: rest -> Chunked p first rest cs ->
  NoDup (map (fun r => (level r, key r)) (map (parent_of K l) cs)).
Proof.
  intros Hu Hnodes Hch. rewrite map_map. simpl.
  assert (NoDup (map chunk_key cs)) as Hh.
  { apply chunk_heads_NoDup; [eapply Chunked_nonempty; eauto|].
    destruct Hch as (m0 & cs' & _ & _ & _ & ->).
    apply sorted_NoDup_keys. rewrite <- Hnodes. apply nodes_sorted. exact Hu. }
  clear - Hh. induction cs as [|c cs IH]; simpl; [constructor|].
  inversion Hh as [|? ? Hnin Hh']; subst. constructor; [|auto].
  intros Hin. apply Hnin. apply in_map_iff in Hin.
  destruct Hin as (c' & Hc' & Hin). apply in_map_iff. exists c'.
  split; [|exact Hin]. injection Hc' as Hc'. exact Hc'.
Qed.

Lemma parents_count (s : Store) (j : nat) (ps : list Node) :
  uniq s ->
  (forall r, In r s -> level r <> j) ->
  NoDup (map (fun r => (level r, key r)) ps) ->
  (forall x, In x ps -> level x = j) ->
  length (nodes (fold_left setNode ps s) j) = length ps.
Proof.
  intros Hu Hempty Hnd Hlev. unfold nodes. rewrite order_asc_length.
  apply Permutation_length. apply NoDup_Permutation.
  - apply NoDup_filter. apply uniq_NoDup. apply fold_setNode_uniq. exact Hu.
  - apply NoDup_map_inv with (f := fun r => (level r, key r)). exact Hnd.
  - intros x. rewrite filter_In, (@fold_setNode_In ps Hnd), Nat.eqb_eq. split.
    + intros [[Hx|[Hx _]] Hl]; [exact Hx|]. exfalso. apply (Hempty x Hx Hl).
    + intros Hx. split; [left; exact Hx|]. apply Hlev. exact Hx.
Qed.

(** C6.  On a level whose ordered rows start with the anchor, [buildLevel]
    cuts the rows into chunks in one pass: each boundary closes the chunk
    before it and starts the next, and the end of the rows closes the last
    chunk whatever its last row is.  For each chunk it writes, one level up,
    a node with the key the chunk starts with and the digest of the member
    hashes in order.  It returns the number of chunks, which is the number of
    nodes written one level up. *)
Theorem buildLevel_chunks `{Hasher} (b : Builder.Builder) (l : nat)
        (first : Node) (rest : list Node) :
  Builder.store_nodes (Builder.store b) l = first :: rest ->
  key first = None ->
  (forall n, In n rest -> (4 <= length (hash n))%nat) ->
  exists cs b',
    Chunked (builder_boundary b) first rest cs
    /\ Builder.buildLevel b l = Ok (b', length cs)
    /\ Builder.nodeCount b' = Builder.nodeCount b
    /\ Builder.rows (Builder.store b')
       = fold_left setNode (map (parent_of (Builder.K b) l) cs)
                   (Builder.rows (Builder.store b))
    /\ (uniq (Builder.rows (Builder.store b)) ->
        (forall r, In r (Builder.rows (Builder.store b)) ->
                   level r <> (l + 1)%nat) ->
        length (nodes (Builder.rows (Builder.store b')) (l + 1)) = length cs).
Proof.
  intros Hnodes Hkey Hlen.
  pose proof (chunks_from_Chunked (builder_boundary b) first rest) as Hch.
  eexists _, _. split; [exact Hch|].
  split; [apply buildLevel_run; assumption|].
  simpl. split; [reflexivity|]. split; [apply fold_store_setNode_rows|].
  intros Hu Hempty. rewrite fold_store_setNode_rows.
  rewrite parents_count with (j := (l + 1)%nat).
  - apply length_map.
  - exact Hu.
  - exact Hempty.
  - eapply parents_NoDup; eauto.
  - intros x Hx. apply in_map_iff in Hx. destruct Hx as (c & <- & _).
    reflexivity.
Qed.

Definition builder_2 : Builder.Builder :=
  Eval vm_compute in
    Builder.set (Builder.mkBuilder 16 4 1073741824
                                   (Builder.mkNodeStore 16 4 fresh16) 1)
                key_2 value_2.

Definition anchor16 : Node := Eval vm_compute in mkNode 0 None (hashFn 16 []) None.

Lemma buildLevel_chunks_witness :
  exists cs b',
    Chunked (builder_boundary builder_2) anchor16 [leaf_2] cs
    /\ Builder.buildLevel builder_2 0 = Ok (b', length cs)
    /\ Builder.nodeCount b' = Builder.nodeCount builder_2
    /\ Builder.rows (Builder.store b')
       = fold_left setNode (map (parent_of (Builder.K builder_2) 0) cs)
                   (Builder.rows (Builder.store builder_2))
    /\ (uniq (Builder.rows (Builder.store builder_2)) ->
        (forall r, In r (Builder.rows (Builder.store builder_2)) ->
                   level r <> (0 + 1)%nat) ->
        length (nodes (Builder.rows (Builder.store b')) (0 + 1)) = length cs).
Proof.
  apply (@buildLevel_chunks blake3_hasher builder_2 0 anchor16 [leaf_2]).
  - reflexivity.
  - reflexivity.
  - intros n [<-|[]]. simpl. lia.
Defined.

(** ** [Builder.finalize] (C7) *)

(** [Builds b l m b']: from builder [b], [buildLevel] ran on the levels
    [l, ..., l + m - 1], each time because the node count was above one, and
    left builder [b']. *)
Inductive Builds `{Hasher}
  : Builder.Builder -> nat -> nat -> Builder.Builder -> Prop :=
| Builds_done (b : Builder.Builder) (l : nat) : Builds b l 0 b
| Builds_step (b : Builder.Builder) (l : nat) (b1 : Builder.Builder)
              (c m : nat) (b' : Builder.Builder) :
    (1 < Builder.nodeCount b)%nat ->
    Builder.buildLevel b l = Ok (b1, c) ->
    Builds (Builder.mkBuilder (Builder.K b) (Builder.Q b) (Builder.limit b)
                              (Builder.store b1) c) (l + 1) m b' ->
    Builds b l (S m) b'.

Lemma finalizeLoop_sound `{Hasher} (fuel : nat) :
  forall (b : Builder.Builder) (l : nat) (root : Node) (b' : Builder.Builder),
    Builder.finalizeLoop fuel b l = Ok (root, b') ->
    exists m, (m <= fuel)%nat /\ Builds b l m b'
              /\ (Builder.nodeCount b' <= 1)%nat
              /\ getNode (Builder.rows (Builder.store b')) (l + m) None
                 = Some root.
Proof.
  induction fuel as [|fuel IH]; intros b l root b' Hf.
  - simpl in Hf. destruct (Nat.ltb_spec 1 (Builder.nodeCount b)) as [Hc|Hc];
      [discriminate|].
    unfold Builder.store_getNode in Hf.
    destruct (getNode _ l None) as [r|] eqn:E; [|discriminate].
    injection Hf as <- <-. exists 0%nat. rewrite Nat.add_0_r.
    repeat split; auto. constructor.
  - simpl in Hf. destruct (Nat.ltb_spec 1 (Builder.nodeCount b)) as [Hc|Hc].
    + destruct (Builder.buildLevel b l) as [[b1 c]| |] eqn:Eb;
        simpl in Hf; try discriminate.
      apply IH in Hf. destruct Hf as (m & Hm & HB & Hn & Hr).
      exists (S m). split; [lia|]. split; [econstructor; eauto|].
      split; [exact Hn|]. rewrite <- Hr. f_equal. lia.
    + unfold Builder.store_getNode in Hf.
      destruct (getNode _ l None) as [r|] eqn:E; [|discriminate].
      injection Hf as <- <-. exists 0%nat. rewrite Nat.add_0_r.
      repeat split; auto; [lia|constructor].
Qed.

Lemma finalizeLoop_complete `{Hasher} (b : Builder.Builder) (l m : nat)
      (b' : Builder.Builder) :
  Builds b l m b' ->
  (Builder.nodeCount b' <= 1)%nat ->
  forall (fuel : nat) (root : Node),
    (m <= fuel)%nat ->
    getNode (Builder.rows (Builder.store b')) (l + m) None = Some root ->
    Builder.finalizeLoop fuel b l = Ok (root, b').
Proof.
  induction 1 as [b l|b l b1 c m b' Hc Hb HB IH]; intros Hn fuel root Hfuel Hr.
  - rewrite Nat.add_0_r in Hr.
    assert ((1 <? Builder.nodeCount b)%nat = false) as E
        by (apply Nat.ltb_ge; exact Hn).
    destruct fuel; simpl; rewrite E; unfold Builder.store_getNode;
      rewrite Hr; reflexivity.
  - destruct fuel as [|fuel]; [lia|]. simpl.
    replace (1 <? Builder.nodeCount b)%nat with true
      by (symmetry; apply Nat.ltb_lt; exact Hc).
    rewrite Hb. simpl. apply IH; [exact Hn|lia|].
    rewrite <- Hr. f_equal. lia.
Qed.

Lemma buildLoop_count `{Hasher} (b : Builder.Builder) (l : nat)
      (rest : list Node) :
  forall (k : Key) (h : Hash.State) (st st' : Builder.NodeStore)
         (count c : nat),
    Builder.buildLoop b l rest k h st count = Ok (st', c) ->
    (count < c)%nat.
Proof.
  induction rest as [|n rest IH]; intros k h st st' count c Hb; simpl in Hb.
  - injection Hb as _ <-. lia.
  - destruct (assert (level n =? l)%nat _) as [[]| |]; simpl in Hb;
      try discriminate.
    destruct (Builder.isBoundary b n) as [[|]| |]; simpl in Hb;
      try discriminate.
    + apply IH in Hb. lia.
    + apply IH in Hb. exact Hb.
Qed.

Lemma Builds_count `{Hasher} (b : Builder.Builder) (l m : nat)
      (b' : Builder.Builder) :
  Builds b l (S m) b' -> (1 <= Builder.nodeCount b')%nat.
Proof.
  revert b l. induction m as [|m IH]; intros b l HB.
  - inversion HB as [|? ? b1 c ? ? Hc Hb HB']; subst.
    inversion HB'; subst. simpl.
    unfold Builder.buildLevel in Hb.
    destruct (Builder.store_nodes (Builder.store b) l) as [|n rest];
      [discriminate|].
    destruct (assert _ _) as [[]| |]; simpl in Hb; try discriminate.
    destruct (Builder.buildLoop _ _ _ _ _ _ _) as [[st' c']| |] eqn:E;
      simpl in Hb; try discriminate.
    injection Hb as _ <-. apply buildLoop_count in E. lia.
  - inversion HB as [|? ? b1 c ? ? Hc Hb HB']; subst.
    eapply IH. exact HB'.
Qed.

Definition builder_0 : Builder.Builder :=
  Builder.mkBuilder 16 4 1073741824 (Builder.mkNodeStore 16 4 fresh16) 1.

(** ** The children of a node, as [getHash] selects them *)

Section Children.

Context {hasher : Hasher}.
Variable t : Tree.Tree.

Definition hasRow (s : Store) (l : nat) (k : Key) : Prop :=
  exists r, In r s /\ level r = l /\ key r = k.

(** The row with key [k] on level [l] passes the SQL boundary test. *)
Definition bnd (s : Store) (l : nat) (k : bytes) : Prop :=
  exists r, In r s /\ level r = l /\ key r = Some k
            /\ Tree.below_limit t r = true.

Definition later_boundary (i : nat) (c : Key) (r : Node) : bool :=
  (level r =? i)%nat
  && match key r with
     | None => false
     | Some k' =>
         match c with
         | None => true
         | Some k0 => bytes_ltb k0 k'
         end && Tree.below_limit t r
     end.

Definition child_of (i : nat) (c : Key) (bs : list Node) (r : Node) : bool :=
  (level r =? i)%nat
  && match c with
     | None => true
     | Some k0 =>
         match key r with
         | None => false
         | Some k' => bytes_leb k0 k'
         end
     end
  && match key r with
     | None => true
     | Some k' =>
         match bs with
         | b :: _ => key_ltb (Some k') (key b)
         | [] => true
         end
     end.

Lemma later_boundaries_eq (s : Store) (i : nat) (c : Key) :
  Tree.later_boundaries t s i c = order_asc (filter (later_boundary i c) s).
Proof. reflexivity. Qed.

Lemma children_eq (s : Store) (i : nat) (c : Key) :
  Tree.children t s (S i) c
  = order_asc (filter (child_of i c (Tree.later_boundaries t s i c)) s).
Proof. reflexivity. Qed.

Lemma later_boundary_true (i : nat) (c : Key) (r : Node) :
  later_boundary i c r = true
  <-> level r = i
      /\ exists k', key r = Some k' /\ key_ltb c (Some k') = true
                    /\ Tree.below_limit t r = true.
Proof.
  unfold later_boundary. rewrite andb_true_iff, Nat.eqb_eq.
  destruct (key r) as [k'|].
  - rewrite andb_true_iff. split.
    + intros (Hl & Hc & Hb). split; [exact Hl|]. exists k'.
      split; [reflexivity|]. split; [|exact Hb].
      destruct c; simpl; auto.
    + intros (Hl & k'' & [= <-] & Hc & Hb). split; [exact Hl|].
      split; [|exact Hb]. destruct c; simpl in *; auto.
  - split; [intros [_ H]; discriminate|].
    intros (_ & k' & Hk & _). discriminate.
Qed.

Lemma child_of_level (i : nat) (c : Key) (bs : list Node) (r : Node) :
  child_of i c bs r = true -> level r = i.
Proof.
  unfold child_of. rewrite !andb_true_iff, Nat.eqb_eq. tauto.
Qed.

Lemma child_of_ge (i : nat) (c : Key) (bs : list Node) (r : Node) :
  child_of i c bs r = true -> key_leb c (key r) = true.
Proof.
  unfold child_of. rewrite !andb_true_iff. intros [[_ H] _].
  destruct c as [k0|]; [|apply key_None_leb].
  destruct (key r) as [k'|]; [|discriminate].
  rewrite key_leb_Some. exact H.
Qed.

(** The test [child_of] only looks at the key of the first later boundary. *)
Lemma child_of_head (i : nat) (c : Key) (bs bs' : list Node) (r : Node) :
  option_map key (hd_error bs) = option_map key (hd_error bs') ->
  child_of i c bs r = child_of i c bs' r.
Proof.
  unfold child_of. intros E. f_equal.
  destruct (key r) as [k'|]; [|reflexivity].
  destruct bs as [|b bs], bs' as [|b' bs']; simpl in E; try discriminate;
    [reflexivity|]. injection E as ->. reflexivity.
Qed.

Lemma later_boundaries_head (s : Store) (i : nat) (c : Key) (h : Node)
      (rest : list Node) :
  Tree.later_boundaries t s i c = h :: rest ->
  In h s /\ later_boundary i c h = true
  /\ forall x, In x s -> later_boundary i c x = true ->
               key_leb (key h) (key x) = true.
Proof.
  rewrite later_boundaries_eq. intros E. apply order_asc_head in E.
  destruct E as [Hin Hmin]. apply filter_In in Hin.
  split; [tauto|]. split; [tauto|].
  intros x Hx Hb. apply Hmin. apply filter_In. auto.
Qed.

Lemma later_boundaries_nil (s : Store) (i : nat) (c : Key) :
  Tree.later_boundaries t s i c = [] ->
  forall x, In x s -> later_boundary i c x = false.
Proof.
  rewrite later_boundaries_eq. intros E.
  apply (proj1 (order_asc_nil _)) in E.
  apply (proj1 (filter_nil_iff _ _) E).
Qed.

(** Rows at or after the chunk start decide the children. *)
Lemma children_frame_right (s s' : Store) (i : nat) (c : Key) :
  uniq s -> uniq s' ->
  (forall r, level r = i -> key_leb c (key r) = true ->
             (In r s <-> In r s')) ->
  Tree.children t s (S i) c = Tree.children t s' (S i) c.
Proof.
  intros Hu Hu' Hag.
  assert (Tree.later_boundaries t s i c = Tree.later_boundaries t s' i c)
    as Hlb.
  { rewrite !later_boundaries_eq. apply select_ext with (l := i); auto.
    - intros r Hr. apply later_boundary_true in Hr. tauto.
    - intros r Hr. apply later_boundary_true in Hr. tauto.
    - intros r. split; intros [Hr Hp]; (split; [|exact Hp]);
        pose proof Hp as Hp'; apply later_boundary_true in Hp';
        destruct Hp' as (Hl & k' & Hk & Hc & _);
        apply (Hag r Hl); auto; rewrite Hk; apply key_ltb_leb; exact Hc. }
  rewrite !children_eq, <- Hlb.
  apply select_ext with (l := i); auto.
  - intros r. apply child_of_level.
  - intros r. apply child_of_level.
  - intros r. split; intros [Hr Hp]; (split; [|exact Hp]);
      apply (Hag r (child_of_level _ _ _ _ Hp) (child_of_ge _ _ _ _ Hp));
      exact Hr.
Qed.

End Children.

Section Frames.

Context {hasher : Hasher}.
Variable t : Tree.Tree.

Lemma bnd_later_boundary (s : Store) (i : nat) (c : Key) (b : bytes) :
  bnd t s i b -> key_ltb c (Some b) = true ->
  exists r, In r s /\ key r = Some b /\ later_boundary t i c r = true.
Proof.
  intros (r & Hr & Hl & Hk & Hb) Hc. exists r. split; [exact Hr|].
  split; [exact Hk|]. apply later_boundary_true. split; [exact Hl|].
  exists b. auto.
Qed.

(** The key of the first boundary after [c], given that [b] is one. *)
Lemma first_later_key (s s' : Store) (i : nat) (c : Key) (b : bytes) :
  key_ltb c (Some b) = true ->
  bnd t s i b -> bnd t s' i b ->
  (forall r, level r = i -> key_ltb (key r) (Some b) = true ->
             (In r s <-> In r s')) ->
  exists h rest h' rest',
    Tree.later_boundaries t s i c = h :: rest
    /\ Tree.later_boundaries t s' i c = h' :: rest'
    /\ key h = key h'
    /\ key_leb (key h) (Some b) = true.
Proof.
  intros Hc Hb Hb' Hag.
  destruct (bnd_later_boundary c Hb Hc) as (rb & Hrb & Hkb & Hlb).
  destruct (bnd_later_boundary c Hb' Hc) as (rb' & Hrb' & Hkb' & Hlb').
  destruct (Tree.later_boundaries t s i c) as [|h rest] eqn:E.
  { pose proof (later_boundaries_nil _ _ _ _ E rb Hrb). congruence. }
  destruct (Tree.later_boundaries t s' i c) as [|h' rest'] eqn:E'.
  { pose proof (later_boundaries_nil _ _ _ _ E' rb' Hrb'). congruence. }
  apply later_boundaries_head in E. destruct E as (Hh & Hhp & Hmin).
  apply later_boundaries_head in E'. destruct E' as (Hh' & Hhp' & Hmin').
  pose proof (Hmin rb Hrb Hlb) as Hle. rewrite Hkb in Hle.
  pose proof (Hmin' rb' Hrb' Hlb') as Hle'. rewrite Hkb' in Hle'.
  exists h, rest, h', rest'. repeat split; auto.
  apply key_leb_antisym.
  - destruct (key_ltb (key h') (Some b)) eqn:L.
    + apply Hmin; [|exact Hhp'].
      apply (Hag h'); auto. apply later_boundary_true in Hhp'. tauto.
    + assert (key h' = Some b) as ->; [|exact Hle].
      apply key_leb_antisym; [exact Hle'|].
      rewrite key_leb_ltb, L. reflexivity.
  - destruct (key_ltb (key h) (Some b)) eqn:L.
    + apply Hmin'; [|exact Hhp].
      apply (Hag h); auto. apply later_boundary_true in Hhp. tauto.
    + assert (key h = Some b) as ->; [|exact Hle'].
      apply key_leb_antisym; [exact Hle|].
      rewrite key_leb_ltb, L. reflexivity.
Qed.

(** Rows before a boundary that lies after the chunk start decide the
    children. *)
Lemma children_frame_left (s s' : Store) (i : nat) (c : Key) (b : bytes) :
  uniq s -> uniq s' ->
  key_ltb c (Some b) = true ->
  bnd t s i b -> bnd t s' i b ->
  (forall r, level r = i -> key_ltb (key r) (Some b) = true ->
             (In r s <-> In r s')) ->
  Tree.children t s (S i) c = Tree.children t s' (S i) c.
Proof.
  intros Hu Hu' Hc Hb Hb' Hag.
  destruct (first_later_key c Hc Hb Hb' Hag)
    as (h & rest & h' & rest' & E & E' & Hk & Hle).
  rewrite !children_eq, E, E'.
  apply select_ext with (l := i); auto.
  - intros r. apply child_of_level.
  - intros r. apply child_of_level.
  - assert (forall r bs, child_of i c (h :: bs) r = true ->
                         key_ltb (key r) (Some b) = true) as Hlt.
    { intros r bs Hp. unfold child_of in Hp. rewrite !andb_true_iff in Hp.
      destruct Hp as [_ Hp]. destruct (key r) as [k'|]; [|reflexivity].
      simpl in Hp. eapply key_ltb_leb_trans; eauto. }
    intros r.
    rewrite (child_of_head i c (h' :: rest') (h :: rest) r)
      by (simpl; rewrite Hk; reflexivity).
    split; intros [Hr Hp]; (split; [|exact Hp]);
      apply (Hag r (child_of_level _ _ _ _ Hp) (Hlt _ _ Hp)); exact Hr.
Qed.

Lemma getHash_children (s s' : Store) (l : nat) (c : Key) :
  Tree.children t s l c = Tree.children t s' l c ->
  Tree.getHash t s l c = Tree.getHash t s' l c.
Proof. unfold Tree.getHash. intros ->. reflexivity. Qed.

Lemma fold_update_fed (cs : list Node) (st : Hash.State) :
  fold_left (fun h c => Hash.update h (hash c)) cs st
  = Hash.mkState (Hash.dkLen st) (Hash.fed st ++ concat (map hash cs)).
Proof.
  revert st. induction cs as [|c cs IH]; intros st; simpl.
  - rewrite app_nil_r. destruct st. reflexivity.
  - rewrite IH. simpl. rewrite <- app_assoc. reflexivity.
Qed.

Lemma getHash_concat (s : Store) (l : nat) (c : Key) :
  Tree.getHash t s l c
  = hashFn (Tree.K t) (concat (map hash (Tree.children t s l c))).
Proof.
  unfold Tree.getHash. rewrite fold_update_fed. reflexivity.
Qed.

Lemma getHash_length (s : Store) (l : nat) (c : Key) :
  length (Tree.getHash t s l c) = Tree.K t.
Proof. rewrite getHash_concat. apply hashFn_length. Qed.

Lemma getHash_frame_right (s s' : Store) (i : nat) (c : Key) :
  uniq s -> uniq s' ->
  (forall r, level r = i -> key_leb c (key r) = true ->
             (In r s <-> In r s')) ->
  Tree.getHash t s (S i) c = Tree.getHash t s' (S i) c.
Proof.
  intros. apply getHash_children. apply children_frame_right; auto.
Qed.

Lemma getHash_frame_left (s s' : Store) (i : nat) (c : Key) (b : bytes) :
  uniq s -> uniq s' ->
  key_ltb c (Some b) = true ->
  bnd t s i b -> bnd t s' i b ->
  (forall r, level r = i -> key_ltb (key r) (Some b) = true ->
             (In r s <-> In r s')) ->
  Tree.getHash t s (S i) c = Tree.getHash t s' (S i) c.
Proof.
  intros. apply getHash_children. eapply children_frame_left; eauto.
Qed.

Lemma getHash_frame_level (s s' : Store) (i : nat) (c : Key) :
  uniq s -> uniq s' ->
  (forall r, level r = i -> (In r s <-> In r s')) ->
  Tree.getHash t s (S i) c = Tree.getHash t s' (S i) c.
Proof.
  intros Hu Hu' Hag. apply getHash_frame_right; auto.
Qed.

End Frames.

(** ** The invariant of the tree and of a mutation under way *)

Section Invariant.

Context {hasher : Hasher}.
Variable t : Tree.Tree.

(** Rows are unique, hashes have the digest length, level 0 has its anchor. *)
Definition wf (s : Store) : Prop :=
  uniq s
  /\ (forall r, In r s -> length (hash r) = Tree.K t)
  /\ hasRow s 0 None.

(** The keys of level [i + 1] are the boundaries of level [i]. *)
Definition KS (s : Store) (i : nat) : Prop :=
  forall k, hasRow s (S i) (Some k) <-> bnd t s i k.

(** The rows of level [i + 1] whose key satisfies [P] carry the hash of their
    chunk of level [i]. *)
Definition HC (s : Store) (i : nat) (P : Key -> Prop) : Prop :=
  forall r, In r s -> level r = S i -> P (key r) ->
            hash r = Tree.getHash t s (S i) (key r).

(** A chunk start [x] of level [i] whose chunk lies apart from the position
    [c]: after it, or closed by a boundary at or before it. *)
Definition Clean (s : Store) (i : nat) (c x : Key) : Prop :=
  key_ltb c x = true
  \/ exists b, bnd t s i b /\ key_ltb x (Some b) = true
               /\ key_leb (Some b) c = true.

(** [c'] starts the chunk of level [l] that the position just before [k]
    lies in. *)
Definition PrevB (s : Store) (l : nat) (k : bytes) (c' : Key) : Prop :=
  key_ltb c' (Some k) = true
  /\ (c' = None \/ exists y, c' = Some y /\ bnd t s l y)
  /\ (forall k', bnd t s l k' -> key_ltb (Some k') (Some k) = true ->
                 key_leb (Some k') c' = true).

(** The tree between two mutations, once something was written. *)
Record Built (s : Store) : Prop := mkBuilt
  { built_wf : wf s;
    built_anchor1 : hasRow s 1 None;
    built_keys : forall i, KS s i;
    built_hashes : forall i, HC s i (fun _ => True);
    built_anchors :
      forall i, (1 <= i)%nat ->
                (hasRow s (S i) None <-> exists k, hasRow s i (Some k)) }.

(** The tree while the node with key [c] of level [l] is about to be
    rewritten, the levels below being done. *)
Record Pend (s : Store) (l : nat) (c : Key) : Prop := mkPend
  { pend_wf : wf s;
    pend_lower :
      forall i, (S i < l)%nat -> KS s i /\ HC s i (fun _ => True);
    pend_mid :
      forall i, S i = l ->
                KS s i /\ HC s i (fun x => x <> c)
                /\ (c <> None -> hasRow s l c);
    pend_anchors :
      forall i, (i < l)%nat \/ (i = l /\ c <> None) -> hasRow s i None;
    pend_upper :
      forall i, (l <= i)%nat ->
                KS s i /\ HC s i (Clean s i c)
                /\ (forall k k', c = Some k -> bnd t s i k' ->
                                 key_leb (Some k') (Some k) = true ->
                                 hasRow s (S i) None);
    pend_nogap : forall i, hasRow s (S i) None -> hasRow s i None }.

Lemma hasRow_agree (s s' : Store) (l : nat) (k : Key) :
  (forall r, level r = l -> key r = k -> (In r s <-> In r s')) ->
  (hasRow s l k <-> hasRow s' l k).
Proof.
  intros Hag. split; intros (r & Hr & Hl & Hk); exists r;
    (split; [apply (Hag r Hl Hk); exact Hr|auto]).
Qed.

Lemma bnd_agree (s s' : Store) (l : nat) (k : bytes) :
  (forall r, level r = l -> key r = Some k -> (In r s <-> In r s')) ->
  (bnd t s l k <-> bnd t s' l k).
Proof.
  intros Hag. split; intros (r & Hr & Hl & Hk & Hb); exists r;
    (split; [apply (Hag r Hl Hk); exact Hr|auto]).
Qed.

Lemma bnd_hasRow (s : Store) (l : nat) (k : bytes) :
  bnd t s l k -> hasRow s l (Some k).
Proof. intros (r & Hr & Hl & Hk & _). exists r. auto. Qed.

(** A key of a level is a boundary of every level below, down to [l]. *)
Lemma keys_descend (s : Store) (l : nat) :
  (forall i, (l <= i)%nat -> KS s i) ->
  forall d j y, j = (l + S d)%nat -> hasRow s j (Some y) -> bnd t s l y.
Proof.
  intros HKS. induction d as [|d IH]; intros j y -> Hy.
  - replace (l + 1)%nat with (S l) in Hy by lia.
    apply (HKS l (le_n l)). exact Hy.
  - replace (l + S (S d))%nat with (S (l + S d)) in Hy by lia.
    apply (HKS (l + S d)%nat ltac:(lia)) in Hy.
    apply bnd_hasRow in Hy. exact (IH (l + S d)%nat y eq_refl Hy).
Qed.

Lemma keys_descend_row (s : Store) (l j : nat) (y : bytes) :
  (forall i, (l <= i)%nat -> KS s i) ->
  (l <= j)%nat -> hasRow s j (Some y) -> hasRow s l (Some y).
Proof.
  intros HKS Hj Hy. destruct (Nat.eq_dec j l) as [->|Hne]; [exact Hy|].
  apply bnd_hasRow.
  apply keys_descend with (l := l) (d := (j - l - 1)%nat) (j := j);
    [exact HKS|lia|exact Hy].
Qed.

Lemma key_lt_cases (a b : Key) :
  key_ltb a b = true \/ a = b \/ key_ltb b a = true.
Proof.
  destruct (key_ltb a b) eqn:E1; [auto|].
  destruct (key_ltb b a) eqn:E2; [auto|].
  right. left. apply key_ltb_total; assumption.
Qed.

End Invariant.

(** ** One level of a mutation *)

Section Step.

Context {hasher : Hasher}.
Variable t : Tree.Tree.

Variables (s s2 : Store) (l : nat) (k : bytes).

Hypothesis HP : Pend t s l (Some k).
Hypothesis Hwf2 : wf t s2.
Hypothesis Hlow : forall r, (level r < l)%nat -> (In r s <-> In r s2).
Hypothesis Hoff : forall r, key r <> Some k -> (In r s <-> In r s2).
Hypothesis Hrow :
  (1 <= l)%nat ->
  exists r, In r s2 /\ level r = l /\ key r = Some k
            /\ hash r = Tree.getHash t s l (Some k).

Lemma step_uniq : uniq s.
Proof. apply (pend_wf HP). Qed.

Lemma step_uniq2 : uniq s2.
Proof. apply Hwf2. Qed.

Lemma step_hasRow (i : nat) (x : Key) :
  x <> Some k -> (hasRow s i x <-> hasRow s2 i x).
Proof.
  intros Hx. apply hasRow_agree. intros r _ Hk. apply Hoff. congruence.
Qed.

Lemma step_bnd (i : nat) (y : bytes) :
  y <> k -> (bnd t s i y <-> bnd t s2 i y).
Proof.
  intros Hy. apply bnd_agree. intros r _ Hk. apply Hoff. congruence.
Qed.

Lemma step_hasRow_low (i : nat) (x : Key) :
  (i < l)%nat -> (hasRow s i x <-> hasRow s2 i x).
Proof.
  intros Hi. apply hasRow_agree. intros r Hl _. apply Hlow. lia.
Qed.

Lemma step_bnd_low (i : nat) (y : bytes) :
  (i < l)%nat -> (bnd t s i y <-> bnd t s2 i y).
Proof.
  intros Hi. apply bnd_agree. intros r Hl _. apply Hlow. lia.
Qed.

Lemma step_getHash_low (i : nat) (x : Key) :
  (i < l)%nat -> Tree.getHash t s (S i) x = Tree.getHash t s2 (S i) x.
Proof.
  intros Hi. apply getHash_frame_level; [apply step_uniq|apply step_uniq2|].
  intros r Hl. apply Hlow. lia.
Qed.

(** The levels below [l + 1] are done. *)
Lemma step_lower (i : nat) :
  (S i < S l)%nat -> KS t s2 i /\ HC t s2 i (fun _ => True).
Proof.
  intros Hi. destruct (Nat.eq_dec (S i) l) as [E|E].
  - destruct (pend_mid HP E) as (HK & HH & Hc).
    assert (1 <= l)%nat as Hl1 by lia.
    destruct (Hrow Hl1) as (rk & Hrk & Hrl & Hrkk & Hrh).
    split.
    + intros y. destruct (list_eq_dec Byte.byte_eq_dec y k) as [->|Hy].
      * split; intros _.
        -- apply step_bnd_low; [lia|]. apply HK. rewrite E. apply Hc.
           discriminate.
        -- rewrite E. exists rk. auto.
      * rewrite <- step_hasRow by congruence.
        rewrite <- step_bnd_low by lia. apply HK.
    + intros r Hr Hrl' _.
      rewrite <- step_getHash_low by lia.
      destruct (key_lt_cases (key r) (Some k)) as [L|[Ek|L]].
      * assert (key r <> Some k) as Hne.
        { intros E'. rewrite E', key_ltb_irrefl in L. discriminate. }
        apply HH; [apply Hoff; assumption|exact Hrl'|exact Hne].
      * assert (r = rk) as ->.
        { apply (@uniq_In_eq s2 r rk step_uniq2); auto; congruence. }
        rewrite Hrh, Ek, E. reflexivity.
      * assert (key r <> Some k) as Hne.
        { intros E'. rewrite E', key_ltb_irrefl in L. discriminate. }
        apply HH; [apply Hoff; assumption|exact Hrl'|exact Hne].
  - destruct (pend_lower HP (i := i) ltac:(lia)) as (HK & HH). split.
    + intros y. rewrite <- step_hasRow_low by lia.
      rewrite <- step_bnd_low by lia. apply HK.
    + intros r Hr Hrl' _. rewrite <- step_getHash_low by lia.
      apply HH; auto. apply Hlow; [lia|exact Hr].
Qed.

(** A row of [s2] with another key than [k] whose chunk lies apart from the
    position of [k] still carries the hash of its chunk. *)
Lemma step_clean (i : nat) (r : Node) :
  (l <= i)%nat -> In r s2 -> level r = S i -> key r <> Some k ->
  key_ltb (Some k) (key r) = true
  \/ (exists b, b <> k /\ bnd t s i b /\ key_ltb (key r) (Some b) = true
                /\ key_leb (Some b) (Some k) = true) ->
  hash r = Tree.getHash t s2 (S i) (key r).
Proof.
  intros Hi Hr Hrl Hne Hc.
  assert (In r s) as Hrs by (apply Hoff; assumption).
  destruct (pend_upper HP Hi) as (_ & HH & _).
  destruct Hc as [Hc|(b & Hb & Hbnd & Hlt & Hle)].
  - rewrite (HH r Hrs Hrl (or_introl Hc)).
    apply getHash_frame_right; [apply step_uniq|apply step_uniq2|].
    intros x _ Hx. apply Hoff. intros E. rewrite E in Hx.
    rewrite key_leb_ltb, Hc in Hx. discriminate.
  - rewrite (HH r Hrs Hrl
                (or_intror (ex_intro _ b (conj Hbnd (conj Hlt Hle))))).
    apply getHash_frame_left with (b := b);
      [apply step_uniq|apply step_uniq2|exact Hlt|exact Hbnd| |].
    + apply step_bnd; assumption.
    + intros x _ Hx. apply Hoff. intros E. rewrite E in Hx.
      pose proof (key_ltb_leb_trans _ _ _ Hx Hle) as Hc.
      rewrite key_ltb_irrefl in Hc. discriminate.
Qed.

Lemma step_anchor (i : nat) : hasRow s i None <-> hasRow s2 i None.
Proof. apply step_hasRow. discriminate. Qed.

Lemma step_nogap (i : nat) : hasRow s2 (S i) None -> hasRow s2 i None.
Proof.
  rewrite <- !step_anchor. apply (pend_nogap HP).
Qed.

Lemma step_keyed : (2 <= S l)%nat -> exists y, hasRow s2 (S l - 1) (Some y).
Proof.
  intros Hl. destruct (Hrow ltac:(lia)) as (rk & Hrk & Hrl & Hrkk & _).
  exists k, rk. split; [exact Hrk|]. split; [lia|exact Hrkk].
Qed.

End Step.

Section StepPrev.

Context {hasher : Hasher}.
Variable t : Tree.Tree.

Lemma key_ltb_neq (a b : Key) : key_ltb a b = true -> a <> b.
Proof.
  intros L E. rewrite E, key_ltb_irrefl in L. discriminate.
Qed.

Lemma bytes_eq_dec (a b : bytes) : {a = b} + {a <> b}.
Proof. apply (list_eq_dec Byte.byte_eq_dec). Qed.

Lemma Key_eq_dec (a b : Key) : {a = b} + {a <> b}.
Proof.
  destruct a as [x|], b as [y|]; try (right; discriminate);
    [|left; reflexivity].
  destruct (bytes_eq_dec x y) as [->|H]; [left; reflexivity|].
  right. congruence.
Qed.

(** The node of key [k] on level [l] has been rewritten, with its parents
    removed or recreated; the chunk to recompute next is the one the position
    before [k] lies in. *)
Lemma pend_step_prev (s s2 : Store) (l : nat) (k : bytes) (c' : Key) :
  Pend t s l (Some k) ->
  wf t s2 ->
  (forall r, (level r < l)%nat -> (In r s <-> In r s2)) ->
  (forall r, key r <> Some k -> (In r s <-> In r s2)) ->
  ((1 <= l)%nat ->
   exists r, In r s2 /\ level r = l /\ key r = Some k
             /\ hash r = Tree.getHash t s l (Some k)) ->
  (forall i, (l <= i)%nat -> (hasRow s2 (S i) (Some k) <-> bnd t s2 i k)) ->
  (forall r, In r s2 -> key r = Some k -> (l < level r)%nat ->
             hash r = Tree.getHash t s2 (level r) (Some k)) ->
  PrevB t s l k c' ->
  Pend t s2 (S l) c'.
Proof.
  intros HP Hwf2 Hlow Hoff Hrow HcolK HcolH (Hlt & Hc' & Hmax).
  assert (c' <> Some k) as Hc'k by (apply key_ltb_neq; exact Hlt).
  assert (forall i, (l <= i)%nat -> KS t s i) as HKS
      by (intros i Hi; apply (pend_upper HP Hi)).
  (* a key of an upper level that lies before [k] lies at or before [c'] *)
  assert (forall i y, (l <= i)%nat -> hasRow s (S i) (Some y) ->
                      key_ltb (Some y) (Some k) = true ->
                      key_leb (Some y) c' = true) as Hbelow.
  { intros i y Hi Hy Hyk. apply Hmax; [|exact Hyk].
    apply keys_descend with (d := (i - l)%nat) (j := S i); auto. lia. }
  assert (forall i, (l <= i)%nat -> KS t s2 i) as HKS2.
  { intros i Hi y. destruct (bytes_eq_dec y k) as [->|Hy].
    - apply HcolK. exact Hi.
    - rewrite <- (@step_hasRow s s2 k Hoff (S i) (Some y)) by congruence.
      rewrite <- (@step_bnd t s s2 k Hoff i y Hy). apply HKS. exact Hi. }
  constructor.
  - exact Hwf2.
  - intros i Hi. eapply step_lower; eauto.
  - intros i Hi. injection Hi as ->. split; [apply HKS2; lia|]. split.
    + intros r Hr Hrl Hne. cbv beta in Hne.
      destruct (Key_eq_dec (key r) (Some k)) as [Ek|Nk].
      * rewrite Ek, <- Hrl. apply HcolH; auto. lia.
      * apply (@step_clean _ t s s2 l k HP Hwf2 Hoff l r (le_n l) Hr Hrl Nk).
        destruct (key_lt_cases (Some k) (key r)) as [L|[E|L]];
          [left; exact L|congruence|].
        right.
        assert (key_leb (key r) c' = true) as Hle.
        { destruct (key r) as [y|] eqn:Ekr; [|apply key_None_leb].
          apply (Hbelow l y (le_n l)); [|exact L].
          apply (proj2 (@step_hasRow s s2 k Hoff (S l) (Some y) Nk)).
          exists r. auto. }
        assert (key_ltb (key r) c' = true) as L'.
        { destruct (key_lt_cases (key r) c') as [L'|[E|L']];
            [exact L'|congruence|].
          rewrite key_leb_ltb, L' in Hle. discriminate. }
        destruct Hc' as [->|(y & -> & Hy)].
        { destruct (key r); discriminate. }
        exists y. split; [congruence|]. split; [exact Hy|].
        split; [exact L'|apply key_ltb_leb; exact Hlt].
    + intros Hne. destruct Hc' as [->|(y & -> & Hy)]; [congruence|].
      apply (proj1 (@step_hasRow s s2 k Hoff (S l) (Some y) Hc'k)).
      apply (HKS l (le_n l)). exact Hy.
  - intros i [Hi|[-> Hne]].
    + apply (proj1 (@step_anchor s s2 k Hoff _)). apply (pend_anchors HP).
      destruct (Nat.eq_dec i l) as [->|E]; [right|left; lia].
      split; [reflexivity|discriminate].
    + apply (proj1 (@step_anchor s s2 k Hoff _)).
      destruct Hc' as [->|(y & -> & Hy)]; [congruence|].
      destruct (pend_upper HP (le_n l)) as (_ & _ & Ha).
      apply (Ha k y eq_refl Hy). apply key_ltb_leb. exact Hlt.
  - intros i Hi. split; [apply HKS2; lia|]. split.
    + intros r Hr Hrl Hcl.
      destruct (Key_eq_dec (key r) (Some k)) as [Ek|Nk].
      * rewrite Ek, <- Hrl. apply HcolH; auto. lia.
      * assert (l <= i)%nat as Hli by lia.
        apply (@step_clean _ t s s2 l k HP Hwf2 Hoff i r Hli Hr Hrl Nk).
        destruct Hcl as [Hcl|(b & Hb & Hxb & Hbc)].
        -- destruct (key_lt_cases (Some k) (key r)) as [L|[E|L]];
             [left; exact L|congruence|]. exfalso.
           destruct (key r) as [y|] eqn:Ekr;
             [|destruct c'; discriminate].
           assert (key_leb (Some y) c' = true) as Hle.
           { apply (Hbelow i y ltac:(lia)); [|exact L].
             apply (proj2 (@step_hasRow s s2 k Hoff (S i) (Some y) Nk)).
             exists r. auto. }
           rewrite key_leb_ltb, Hcl in Hle. discriminate.
        -- right. assert (key_ltb (Some b) (Some k) = true) as Hbk
               by (eapply key_leb_ltb_trans; eauto).
           assert (b <> k) as Hbne.
           { intros ->. rewrite key_ltb_irrefl in Hbk. discriminate. }
           exists b. split; [exact Hbne|].
           split; [apply (proj2 (@step_bnd t s s2 k Hoff i b Hbne)); exact Hb|].
           split; [exact Hxb|apply key_ltb_leb; exact Hbk].
    + intros y k' -> Hb Hle.
      assert (key_ltb (Some k') (Some k) = true) as Hk'
          by (eapply key_leb_ltb_trans; eauto).
      assert (k' <> k) as Hne.
      { intros ->. rewrite key_ltb_irrefl in Hk'. discriminate. }
      apply (proj1 (@step_anchor s s2 k Hoff _)).
      destruct (pend_upper HP (i := i) ltac:(lia)) as (_ & _ & Ha).
      apply (Ha k k' eq_refl); [|apply key_ltb_leb; exact Hk'].
      apply (proj2 (@step_bnd t s s2 k Hoff i k' Hne)). exact Hb.
  - intros i. eapply step_nogap; eauto.
Qed.

End StepPrev.

Section StepSame.

Context {hasher : Hasher}.
Variable t : Tree.Tree.

Lemma setNode_wf (s : Store) (n : Node) :
  wf t s -> length (hash n) = Tree.K t ->
  (level n = 0%nat -> key n <> None) ->
  wf t (setNode s n).
Proof.
  intros (Hu & Hlen & (a & Ha & Hal & Hak)) Hn Hk. split; [|split].
  - apply setNode_uniq. exact Hu.
  - intros r Hr. apply setNode_In_iff in Hr.
    destruct Hr as [->|[Hr _]]; auto.
  - exists a. split; [|auto]. apply setNode_In_iff. right.
    split; [exact Ha|]. intros [E1 E2]. apply Hk; congruence.
Qed.

Lemma setNode_other_level (s : Store) (n r : Node) :
  level r <> level n -> (In r s <-> In r (setNode s n)).
Proof.
  intros Hl. rewrite setNode_In_iff. split.
  - intros Hr. right. split; [exact Hr|]. tauto.
  - intros [->|[Hr _]]; [congruence|exact Hr].
Qed.

Lemma setNode_other_key (s : Store) (n r : Node) :
  key r <> key n -> (In r s <-> In r (setNode s n)).
Proof.
  intros Hl. rewrite setNode_In_iff. split.
  - intros Hr. right. split; [exact Hr|]. tauto.
  - intros [->|[Hr _]]; [congruence|exact Hr].
Qed.

(** The node of key [k] on level [l] was a boundary and is one after it has
    been rewritten: its own chunk is the one to recompute next. *)
Lemma pend_step_same (s : Store) (l : nat) (k : bytes) (n : Node) :
  Pend t s l (Some k) ->
  bnd t s l k ->
  level n = l -> key n = Some k ->
  Tree.below_limit t n = true ->
  length (hash n) = Tree.K t ->
  ((1 <= l)%nat -> hash n = Tree.getHash t s l (Some k)) ->
  Pend t (setNode s n) (S l) (Some k).
Proof.
  intros HP Hb Hnl Hnk Hnb Hnlen Hnh.
  set (s2 := setNode s n).
  assert (wf t s2) as Hwf2.
  { apply setNode_wf; [apply (pend_wf HP)|exact Hnlen|].
    intros _. rewrite Hnk. discriminate. }
  assert (forall r, level r <> l -> (In r s <-> In r s2)) as Hlev.
  { intros r Hr. apply setNode_other_level. congruence. }
  assert (forall r, (level r < l)%nat -> (In r s <-> In r s2)) as Hlow.
  { intros r Hr. apply Hlev. lia. }
  assert (forall r, key r <> Some k -> (In r s <-> In r s2)) as Hoff.
  { intros r Hr. apply setNode_other_key. congruence. }
  assert ((1 <= l)%nat ->
          exists r, In r s2 /\ level r = l /\ key r = Some k
                    /\ hash r = Tree.getHash t s l (Some k)) as Hrow.
  { intros Hl. exists n. split; [apply setNode_In_n|]. auto. }
  assert (bnd t s2 l k) as Hb2.
  { exists n. split; [apply setNode_In_n|]. auto. }
  assert (forall i x, i <> l -> (hasRow s i x <-> hasRow s2 i x)) as Hrows.
  { intros i x Hi. apply hasRow_agree. intros r Hr _. apply Hlev. lia. }
  pose proof (pend_wf HP) as (Hu & _).
  destruct Hwf2 as (Hu2 & Hwf2').
  assert (wf t s2) as Hwf2 by (split; assumption).
  constructor.
  - exact Hwf2.
  - intros i Hi.
    apply (@step_lower _ t s s2 l k HP Hwf2 Hlow Hoff Hrow i Hi).
  - intros i Hi. injection Hi as ->.
    destruct (pend_upper HP (le_n l)) as (HK & HH & Ha).
    split; [|split].
    + intros y. rewrite <- (Hrows (S l) (Some y)) by lia.
      rewrite (HK y). destruct (bytes_eq_dec y k) as [->|Hy]; [tauto|].
      apply (@step_bnd t s s2 k Hoff l y Hy).
    + intros r Hr Hrl Hne. cbv beta in Hne.
      assert (In r s) as Hrs by (apply Hoff; assumption).
      destruct (key_lt_cases (Some k) (key r)) as [L|[E|L]];
        [|congruence|].
      * apply (@step_clean _ t s s2 l k HP Hwf2 Hoff l r (le_n l) Hr Hrl Hne).
        left. exact L.
      * rewrite (HH r Hrs Hrl).
        -- apply getHash_frame_left with (b := k); auto.
           intros x _ Hx. apply Hoff. apply key_ltb_neq. exact Hx.
        -- right. exists k. split; [exact Hb|]. split; [exact L|].
           apply key_leb_refl.
    + intros _. apply (proj1 (Hrows (S l) (Some k) ltac:(lia))).
      apply HK. exact Hb.
  - intros i Hi. apply (proj1 (@step_anchor s s2 k Hoff i)).
    destruct (Nat.eq_dec i (S l)) as [->|E].
    + destruct (pend_upper HP (le_n l)) as (_ & _ & Ha).
      apply (Ha k k eq_refl Hb). apply key_leb_refl.
    + apply (pend_anchors HP). destruct (Nat.eq_dec i l) as [->|E'].
      * right. split; [reflexivity|discriminate].
      * left. lia.
  - intros i Hi. destruct (pend_upper HP (i := i) ltac:(lia)) as (HK & HH & Ha).
    assert (forall y, bnd t s i y <-> bnd t s2 i y) as Hbi.
    { intros y. apply bnd_agree. intros r Hr _. apply Hlev. lia. }
    split; [|split].
    + intros y. rewrite <- Hbi, <- (HK y). symmetry.
      apply Hrows. lia.
    + intros r Hr Hrl Hcl.
      assert (In r s) as Hrs by (apply Hlev; [lia|exact Hr]).
      rewrite (HH r Hrs Hrl).
      * apply getHash_frame_level; auto. intros x Hx. apply Hlev. lia.
      * destruct Hcl as [Hcl|(b & Hb' & Hcl)]; [left; exact Hcl|right].
        exists b. split; [apply Hbi; exact Hb'|exact Hcl].
    + intros y k' E Hb' Hle. apply (proj1 (@step_anchor s s2 k Hoff (S i))).
      apply (Ha y k' E); [apply Hbi; exact Hb'|exact Hle].
  - intros i. apply (@step_nogap _ t s s2 l k HP Hoff i).
Qed.

End StepSame.

(** ** [deleteParents] and [createParents], from their result *)

Section DeleteParents.

Lemma deleteParents_inv (fuel : nat) :
  forall (s : Store) (l : nat) (k : Key) (s2 : Store),
    Tree.deleteParents fuel s l k = Ok s2 ->
    exists m,
      (forall j, (l < j <= l + m)%nat -> hasRow s j k)
      /\ ~ hasRow s (l + m + 1) k
      /\ (forall r, In r s2
                    <-> In r s /\ ~ (key r = k /\ (l < level r <= l + m)%nat)).
Proof.
  induction fuel as [|fuel IH]; intros s l k s2 Hd; [discriminate|].
  simpl in Hd. destruct (getNode s (l + 1) k) as [r0|] eqn:E.
  - apply IH in Hd. destruct Hd as (m & Hch & Htop & Hin).
    apply getNode_Some in E. exists (S m). split; [|split].
    + intros j Hj. destruct (Nat.eq_dec j (l + 1)) as [->|Hne].
      * exists r0. exact E.
      * destruct (Hch j ltac:(lia)) as (r & Hr & Hrl & Hrk).
        apply deleteNode_In in Hr. exists r. tauto.
    + intros (r & Hr & Hrl & Hrk). apply Htop. exists r.
      split; [|split; [lia|exact Hrk]].
      apply deleteNode_In. split; [exact Hr|]. lia.
    + intros r. rewrite Hin, deleteNode_In. split.
      * intros [[Hr Hne] Hne']. split; [exact Hr|]. intros [Hk Hl].
        destruct (Nat.eq_dec (level r) (l + 1)); [tauto|].
        apply Hne'. split; [exact Hk|lia].
      * intros [Hr Hne]. split; [split; [exact Hr|]|].
        -- intros [Hl Hk]. apply Hne. split; [exact Hk|lia].
        -- intros [Hk Hl]. apply Hne. split; [exact Hk|lia].
  - injection Hd as <-. exists 0%nat. split; [|split].
    + intros j Hj. lia.
    + intros (r & Hr & Hrl & Hrk). rewrite getNode_None in E.
      apply (E r Hr). split; [lia|exact Hrk].
    + intros r. split; [|tauto]. intros Hr. split; [exact Hr|]. lia.
Qed.

Lemma deleteParents_uniq (fuel : nat) :
  forall (s : Store) (l : nat) (k : Key) (s2 : Store),
    Tree.deleteParents fuel s l k = Ok s2 -> uniq s -> uniq s2.
Proof.
  induction fuel as [|fuel IH]; intros s l k s2 Hd Hu; [discriminate|].
  simpl in Hd. destruct (getNode s (l + 1) k) as [r0|].
  - apply IH in Hd; [exact Hd|]. apply deleteNode_uniq. exact Hu.
  - injection Hd as <-. exact Hu.
Qed.

(** When the rows with the key have no gap above [l], [deleteParents] removes
    all of them. *)
Lemma deleteParents_all (fuel : nat) (s : Store) (l : nat) (k : Key)
      (s2 : Store) :
  Tree.deleteParents fuel s l k = Ok s2 ->
  (forall i, (l < i)%nat -> hasRow s (S i) k -> hasRow s i k) ->
  forall r, In r s2 <-> In r s /\ ~ (key r = k /\ (l < level r)%nat).
Proof.
  intros Hd Hgap. apply deleteParents_inv in Hd.
  destruct Hd as (m & Hch & Htop & Hin).
  assert (forall d, ~ hasRow s (l + m + 1 + d) k) as Hnone.
  { induction d as [|d IHd].
    - rewrite Nat.add_0_r. exact Htop.
    - intros Hr. apply IHd. apply Hgap; [lia|].
      replace (S (l + m + 1 + d)) with (l + m + 1 + S d)%nat by lia.
      exact Hr. }
  intros r. rewrite Hin. split.
  - intros [Hr Hne]. split; [exact Hr|]. intros [Hk Hl].
    destruct (Nat.le_gt_cases (level r) (l + m)) as [Hle|Hgt].
    + apply Hne. split; [exact Hk|lia].
    + apply (Hnone (level r - (l + m + 1))%nat). exists r.
      split; [exact Hr|]. split; [lia|exact Hk].
  - intros [Hr Hne]. split; [exact Hr|]. intros [Hk Hl]. apply Hne.
    split; [exact Hk|lia].
Qed.

End DeleteParents.

Section Parents.

Context {hasher : Hasher}.
Variable t : Tree.Tree.

Hypothesis Hsql :
  forall n, (4 <= length (hash n))%nat ->
            Tree.isBoundary t n = Ok (Tree.below_limit t n).
Hypothesis HK4 : (4 <= Tree.K t)%nat.

Lemma isBoundary_K (n : Node) :
  length (hash n) = Tree.K t ->
  Tree.isBoundary t n = Ok (Tree.below_limit t n).
Proof. intros E. apply Hsql. lia. Qed.

Lemma createParents_spec (fuel : nat) :
  forall (s : Store) (j : nat) (c : Key) (s2 : Store),
    wf t s ->
    (forall r, In r s -> key r = c -> (level r <= j)%nat) ->
    Tree.createParents t fuel s j c = Ok s2 ->
    wf t s2
    /\ (forall r, key r <> c \/ (level r <= j)%nat -> (In r s <-> In r s2))
    /\ exists m,
         (1 <= m)%nat
         /\ (forall r, In r s2 -> key r = c -> (j < level r)%nat ->
                       (level r <= j + m)%nat
                       /\ hash r = Tree.getHash t s2 (level r) c)
         /\ (forall i, (j < i <= j + m)%nat -> hasRow s2 i c)
         /\ (forall r, In r s2 -> key r = c -> (j < level r < j + m)%nat ->
                       Tree.below_limit t r = true)
         /\ (forall r, In r s2 -> key r = c -> level r = (j + m)%nat ->
                       Tree.below_limit t r = false).
Proof.
  induction fuel as [|fuel IH]; intros s j c s2 Hwf Hnone Hc; [discriminate|].
  simpl in Hc.
  set (n := mkNode (j + 1) c (Tree.getHash t s (j + 1) c) None) in *.
  assert (length (hash n) = Tree.K t) as Hnlen by apply getHash_length.
  rewrite (isBoundary_K n Hnlen) in Hc. simpl in Hc.
  assert (wf t (setNode s n)) as Hwf1.
  { apply setNode_wf; auto. simpl. lia. }
  assert (forall r, key r <> c \/ (level r <= j)%nat ->
                    (In r s <-> In r (setNode s n))) as Hag1.
  { intros r [Hr|Hr]; [apply setNode_other_key; exact Hr|].
    apply setNode_other_level. simpl. lia. }
  assert (forall r, In r (setNode s n) -> key r = c -> (j < level r)%nat ->
                    r = n) as Honly.
  { intros r Hr Hk Hl. apply setNode_In_iff in Hr.
    destruct Hr as [->|[Hr _]]; [reflexivity|].
    specialize (Hnone r Hr Hk). lia. }
  destruct (Tree.below_limit t n) eqn:Eb.
  - destruct (IH (setNode s n) (j + 1)%nat c s2 Hwf1) as
        (Hwf2 & Hag2 & m & Hm & Hh & Hex & Hbt & Hbf); [|exact Hc|].
    { intros r Hr Hk. destruct (Nat.le_gt_cases (level r) j); [lia|].
      rewrite (Honly r Hr Hk); [simpl; lia|lia]. }
    split; [exact Hwf2|]. split.
    { intros r Hr. rewrite (Hag1 r Hr). apply Hag2.
      destruct Hr; [left; assumption|right; lia]. }
    assert (In n s2) as Hn2.
    { apply Hag2; [right; simpl; lia|apply setNode_In_n]. }
    assert (forall r, In r s2 -> key r = c -> level r = (j + 1)%nat ->
                      r = n) as Hn2'.
    { intros r Hr Hk Hl. apply (@uniq_In_eq s2 r n); auto.
      apply Hwf2. }
    exists (S m). split; [lia|]. split; [|split; [|split]].
    + intros r Hr Hk Hl.
      destruct (Nat.eq_dec (level r) (j + 1)) as [E|E].
      * split; [lia|]. rewrite (Hn2' r Hr Hk E). simpl.
        replace (j + 1)%nat with (S j) by lia.
        apply getHash_frame_level; [apply Hwf|apply Hwf2|].
        intros x Hx. rewrite (Hag1 x) by (right; lia).
        apply Hag2. right. lia.
      * destruct (Hh r Hr Hk ltac:(lia)) as [H1 H2].
        split; [lia|exact H2].
    + intros i Hi. destruct (Nat.eq_dec i (j + 1)) as [->|E].
      * exists n. auto.
      * apply Hex. lia.
    + intros r Hr Hk Hl.
      destruct (Nat.eq_dec (level r) (j + 1)) as [E|E].
      * rewrite (Hn2' r Hr Hk E). exact Eb.
      * apply Hbt; auto. lia.
    + intros r Hr Hk Hl. apply Hbf; auto. lia.
  - injection Hc as <-. split; [exact Hwf1|]. split; [exact Hag1|].
    exists 1%nat. split; [lia|]. split; [|split; [|split]].
    + intros r Hr Hk Hl. rewrite (Honly r Hr Hk Hl). simpl.
      split; [lia|]. replace (j + 1)%nat with (S j) by lia.
      apply getHash_frame_level; [apply Hwf|apply Hwf1|].
      intros x Hx. apply Hag1. right. lia.
    + intros i Hi. assert (i = (j + 1)%nat) as -> by lia.
      exists n. split; [apply setNode_In_n|auto].
    + intros r Hr Hk Hl. lia.
    + intros r Hr Hk Hl. rewrite (Honly r Hr Hk ltac:(lia)). exact Eb.
Qed.

End Parents.

(** ** [updateAnchor] *)

Section Anchor.

Context {hasher : Hasher}.
Variable t : Tree.Tree.

Lemma has_keys_iff (s : Store) (l : nat) :
  Tree.has_keys s l = true <-> exists k, hasRow s l (Some k).
Proof.
  unfold Tree.has_keys. rewrite existsb_exists. split.
  - intros (r & Hr & Hp). apply andb_true_iff in Hp. destruct Hp as [Hl Hk].
    apply Nat.eqb_eq in Hl. destruct (key r) as [k|] eqn:E; [|discriminate].
    exists k, r. auto.
  - intros (k & r & Hr & Hl & Hk). exists r. split; [exact Hr|].
    rewrite Hl, Nat.eqb_refl, Hk. reflexivity.
Qed.

Lemma Clean_None (s : Store) (i : nat) (x : Key) :
  Clean t s i None x <-> x <> None.
Proof.
  unfold Clean. split.
  - intros [H|(b & _ & _ & H)]; [|discriminate].
    destruct x; [discriminate|discriminate].
  - intros H. left. destruct x; [reflexivity|congruence].
Qed.

(** The anchor of level [l] has been recomputed; the one above is next. *)
Lemma anchor_set_pend (s : Store) (l : nat) :
  Pend t s l None -> (1 <= l)%nat ->
  Pend t (setNode s (mkNode l None (Tree.getHash t s l None) None)) (S l)
       None.
Proof.
  intros HP Hl.
  set (a := mkNode l None (Tree.getHash t s l None) None).
  set (s1 := setNode s a).
  assert (wf t s1) as Hwf1.
  { apply setNode_wf; [apply (pend_wf HP)|apply getHash_length|].
    simpl. lia. }
  pose proof (pend_wf HP) as (Hu & _).
  pose proof Hwf1 as (Hu1 & _).
  assert (forall r, level r <> l -> (In r s <-> In r s1)) as Hlev.
  { intros r Hr. apply setNode_other_level. exact Hr. }
  assert (forall r, key r <> None -> (In r s <-> In r s1)) as Hoff.
  { intros r Hr. apply setNode_other_key. exact Hr. }
  assert (forall i x, i <> l -> (hasRow s i x <-> hasRow s1 i x)) as Hrows.
  { intros i x Hi. apply hasRow_agree. intros r Hr _. apply Hlev. lia. }
  assert (forall i y, hasRow s i (Some y) <-> hasRow s1 i (Some y)) as Hkeys.
  { intros i y. apply hasRow_agree. intros r _ Hr. apply Hoff. congruence. }
  assert (forall i y, bnd t s i y <-> bnd t s1 i y) as Hbnd.
  { intros i y. apply bnd_agree. intros r _ Hr. apply Hoff. congruence. }
  assert (forall i x, i <> l ->
                      Tree.getHash t s (S i) x = Tree.getHash t s1 (S i) x)
    as Hgh.
  { intros i x Hi. apply getHash_frame_level; auto.
    intros r Hr. apply Hlev. lia. }
  constructor.
  - exact Hwf1.
  - intros i Hi. destruct (Nat.eq_dec (S i) l) as [E|E].
    + destruct (pend_mid HP E) as (HK & HH & _). split.
      * intros y. rewrite <- Hkeys, <- Hbnd. apply HK.
      * intros r Hr Hrl _. rewrite <- Hgh by lia.
        destruct (Key_eq_dec (key r) None) as [Ek|Nk].
        -- assert (r = a) as ->.
           { apply (@uniq_In_eq s1 r a Hu1 Hr); [apply setNode_In_n| |].
             - simpl. lia.
             - simpl. exact Ek. }
           simpl. rewrite E. reflexivity.
        -- apply HH; auto. apply Hoff; auto.
    + destruct (pend_lower HP (i := i) ltac:(lia)) as (HK & HH). split.
      * intros y. rewrite <- Hkeys, <- Hbnd. apply HK.
      * intros r Hr Hrl _. rewrite <- Hgh by lia.
        apply HH; auto. apply Hlev; [lia|exact Hr].
  - intros i Hi. injection Hi as ->.
    destruct (pend_upper HP (le_n l)) as (HK & HH & _).
    split; [|split; [|congruence]].
    + intros y. rewrite <- Hkeys, <- Hbnd. apply HK.
    + intros r Hr Hrl Hne. cbv beta in Hne.
      assert (In r s) as Hrs by (apply Hoff; assumption).
      rewrite (HH r Hrs Hrl) by (apply Clean_None; exact Hne).
      apply getHash_frame_right; auto.
      intros x _ Hx. apply Hoff. intros E. rewrite E in Hx.
      destruct (key r); [discriminate|congruence].
  - intros i [Hi|[_ H]]; [|congruence].
    destruct (Nat.eq_dec i l) as [->|E].
    + exists a. split; [apply setNode_In_n|auto].
    + apply Hrows; [exact E|]. apply (pend_anchors HP). left. lia.
  - intros i Hi. destruct (pend_upper HP (i := i) ltac:(lia)) as (HK & HH & _).
    split; [|split; [|discriminate]].
    + intros y. rewrite <- Hkeys, <- Hbnd. apply HK.
    + intros r Hr Hrl Hcl. apply Clean_None in Hcl.
      assert (In r s) as Hrs by (apply Hoff; assumption).
      rewrite (HH r Hrs Hrl) by (apply Clean_None; exact Hcl).
      apply Hgh. lia.
  - intros i Hi. destruct (Nat.eq_dec i l) as [->|E].
    + exists a. split; [apply setNode_In_n|auto].
    + apply Hrows; [exact E|].
      destruct (Nat.eq_dec (S i) l) as [E'|E'].
      * apply (pend_anchors HP). left. lia.
      * apply (pend_nogap HP). apply Hrows; assumption.
Qed.

End Anchor.

Section AnchorTop.

Context {hasher : Hasher}.
Variable t : Tree.Tree.

Lemma Pend_KS (s : Store) (l : nat) (c : Key) (i : nat) :
  Pend t s l c -> KS t s i.
Proof.
  intros HP. destruct (Nat.le_gt_cases l i) as [H|H].
  - apply (pend_upper HP H).
  - destruct (Nat.eq_dec (S i) l) as [E|E].
    + apply (pend_mid HP E).
    + apply (pend_lower HP (i := i)). lia.
Qed.

(** Level [l] holds only its anchor: [deleteParents] removes the anchors
    above and the tree is done. *)
Lemma anchor_top_Built (fuel : nat) (s1 : Store) (l : nat) (s' : Store) :
  Pend t s1 (S l) None -> (1 <= l)%nat ->
  (forall k, ~ hasRow s1 l (Some k)) ->
  ((2 <= l)%nat -> exists k, hasRow s1 (l - 1) (Some k)) ->
  Tree.deleteParents fuel s1 l None = Ok s' ->
  Built t s'
  /\ (forall r, (level r <= l)%nat -> (In r s1 <-> In r s')).
Proof.
  intros HP Hl Hnokeys Hkeyed Hd.
  pose proof (pend_wf HP) as (Hu1 & Hlen1 & Ha1).
  pose proof (@deleteParents_uniq fuel s1 l None s' Hd Hu1) as Hu'.
  assert (forall r, In r s'
                    <-> In r s1 /\ ~ (key r = None /\ (l < level r)%nat))
    as Hin.
  { eapply deleteParents_all; [exact Hd|].
    intros i _. apply (pend_nogap HP). }
  assert (forall i y, (l <= i)%nat -> ~ hasRow s1 i (Some y)) as Hnone.
  { intros i y Hi Hy. apply (Hnokeys y).
    apply keys_descend_row with (t := t) (j := i); auto.
    intros j _. apply (Pend_KS j HP). }
  assert (forall r, (level r <= l)%nat -> (In r s1 <-> In r s')) as Hag.
  { intros r Hr. rewrite Hin. split; [|tauto].
    intros H. split; [exact H|]. lia. }
  assert (forall r, In r s' -> (level r <= l)%nat) as Hlow.
  { intros r Hr. apply Hin in Hr. destruct Hr as [Hr Hne].
    destruct (Nat.le_gt_cases (level r) l) as [H|H]; [exact H|].
    exfalso. destruct (key r) as [y|] eqn:E.
    - apply (Hnone (level r) y ltac:(lia)). exists r. auto.
    - apply Hne. auto. }
  assert (forall i x, (i <= l)%nat -> (hasRow s1 i x <-> hasRow s' i x))
    as Hrows.
  { intros i x Hi. apply hasRow_agree. intros r Hr _. apply Hag. lia. }
  assert (forall i y, (i <= l)%nat -> (bnd t s1 i y <-> bnd t s' i y))
    as Hbnd.
  { intros i y Hi. apply bnd_agree. intros r Hr _. apply Hag. lia. }
  assert (wf t s') as Hwf'.
  { split; [exact Hu'|]. split.
    - intros r Hr. apply Hlen1. apply Hin in Hr. tauto.
    - apply Hrows; [lia|exact Ha1]. }
  split; [|exact Hag]. constructor.
  - exact Hwf'.
  - apply Hrows; [lia|]. apply (pend_anchors HP). left. lia.
  - intros i y. destruct (Nat.le_gt_cases (S i) l) as [Hi|Hi].
    + rewrite <- Hrows, <- Hbnd by lia. apply (Pend_KS i HP).
    + split.
      * intros (r & Hr & Hrl & _). specialize (Hlow r Hr). lia.
      * intros (r & Hr & Hrl & Hrk & _). exfalso.
        apply (Hnone i y ltac:(lia)). exists r. split; [|auto].
        apply Hin in Hr. tauto.
  - intros i r Hr Hrl _. specialize (Hlow r Hr).
    assert (S i < S l)%nat as Hi by lia.
    destruct (pend_lower HP Hi) as (_ & HH).
    rewrite (HH r); auto; [|apply Hag; [lia|exact Hr]].
    apply getHash_frame_level; auto. intros x Hx. apply Hag. lia.
  - intros i Hi. destruct (Nat.le_gt_cases (S i) l) as [Hi'|Hi'].
    + split; intros _.
      * destruct (Hkeyed ltac:(lia)) as (y & Hy). exists y.
        apply Hrows; [lia|].
        apply keys_descend_row with (t := t) (j := (l - 1)%nat);
          [|lia|exact Hy].
        intros j _. apply (Pend_KS j HP).
      * apply Hrows; [lia|]. apply (pend_anchors HP). left. lia.
    + split.
      * intros (r & Hr & Hrl & _). specialize (Hlow r Hr). lia.
      * intros (y & r & Hr & Hrl & Hrk). exfalso.
        apply (Hnone i y ltac:(lia)). exists r. split; [|auto].
        apply Hin in Hr. tauto.
Qed.

Lemma updateAnchor_Built (fuel : nat) :
  forall (s : Store) (l : nat) (s' : Store),
    (1 <= l)%nat ->
    Pend t s l None ->
    ((2 <= l)%nat -> exists k, hasRow s (l - 1) (Some k)) ->
    Tree.updateAnchor t fuel s l = Ok s' ->
    Built t s'
    /\ (forall r, (level r < l)%nat -> (In r s <-> In r s')).
Proof.
  induction fuel as [|fuel IH]; intros s l s' Hl HP Hkeyed Hup;
    [discriminate|].
  simpl in Hup.
  set (a := mkNode l None (Tree.getHash t s l None) None) in *.
  pose proof (anchor_set_pend HP Hl) as HP1. fold a in HP1.
  assert (forall r, (level r < l)%nat -> (In r s <-> In r (setNode s a)))
    as Hag.
  { intros r Hr. apply setNode_other_level. simpl. lia. }
  destruct (Tree.has_keys (setNode s a) l) eqn:Ek.
  - replace (l + 1)%nat with (S l) in Hup by lia.
    apply IH in Hup; [| lia | exact HP1 |].
    + destruct Hup as [HB Hin]. split; [exact HB|].
      intros r Hr. rewrite (Hag r Hr). apply Hin. lia.
    + intros _. apply has_keys_iff in Ek.
      replace (S l - 1)%nat with l by lia. exact Ek.
  - assert (forall y, ~ hasRow (setNode s a) l (Some y)) as Hnk.
    { intros y Hy.
      assert (Tree.has_keys (setNode s a) l = true) as E
          by (apply has_keys_iff; exists y; exact Hy).
      congruence. }
    assert ((2 <= l)%nat ->
            exists y, hasRow (setNode s a) (l - 1) (Some y)) as Hkd.
    { intros Hl2. destruct (Hkeyed Hl2) as (y & r & Hr & Hrl & Hrk).
      exists y, r. split; [apply Hag; [lia|exact Hr]|auto]. }
    destruct (@anchor_top_Built fuel (setNode s a) l s' HP1 Hl Hnk Hkd Hup)
      as [HB Hin].
    split; [exact HB|].
    intros r Hr. rewrite (Hag r Hr). apply Hin. lia.
Qed.

End AnchorTop.

(** ** [replace], [replaceBoundary] and [update] *)

Section FirstSibling.

Context {hasher : Hasher}.
Variable t : Tree.Tree.

(** What [getFirstSibling] returns for a key that is not a boundary itself
    starts the chunk the position before the key lies in. *)
Lemma firstSibling_PrevB (s0 s : Store) (n f : Node) (l : nat) (k : bytes) :
  key n = Some k -> level n = l ->
  Tree.getFirstSibling t s0 n = Ok f ->
  ~ bnd t s0 l k ->
  (forall r, key r <> Some k -> (In r s <-> In r s0)) ->
  PrevB t s l k (key f).
Proof.
  intros Hk Hl Hf Hnb Hoff.
  destruct (getFirstSibling_Ok t s0 n Hk Hf)
    as (_ & (r & Hr & Hc & Hrl & Hrk & Hrh) & Hmax).
  rewrite Hl in *. unfold sibling_candidate in Hc.
  apply andb_true_iff in Hc. destruct Hc as [Hlv Hc].
  apply Nat.eqb_eq in Hlv.
  assert (key_ltb (key f) (Some k) = true) as Hlt.
  { rewrite <- Hrk. destruct (key r) as [k'|] eqn:Ekr; [|reflexivity].
    apply andb_true_iff in Hc. destruct Hc as [Hle Hb].
    destruct (key_lt_cases (Some k') (Some k)) as [L|[E|L]]; [exact L| |].
    - exfalso. apply Hnb. exists r. injection E as ->. auto.
    - rewrite <- key_leb_Some, key_leb_ltb, L in Hle. discriminate. }
  split; [exact Hlt|]. split.
  - rewrite <- Hrk. destruct (key r) as [k'|] eqn:Ekr; [right|left; auto].
    apply andb_true_iff in Hc. destruct Hc as [Hle Hb].
    exists k'. split; [reflexivity|]. exists r. split; [|auto].
    apply Hoff; [|exact Hr]. rewrite Ekr. rewrite <- Hrk in Hlt.
    apply key_ltb_neq. exact Hlt.
  - intros k' (r' & Hr' & Hrl' & Hrk' & Hb') Hlt'.
    rewrite <- Hrk'. apply Hmax.
    + apply Hoff; [|exact Hr']. rewrite Hrk'. apply key_ltb_neq. exact Hlt'.
    + unfold sibling_candidate. rewrite Hrl', Nat.eqb_refl, Hrk', Hb'.
      rewrite <- key_leb_Some, (key_ltb_leb _ _ Hlt'). reflexivity.
Qed.

End FirstSibling.

Section Replace.

Context {hasher : Hasher}.
Variable t : Tree.Tree.

Hypothesis Hsql :
  forall n, (4 <= length (hash n))%nat ->
            Tree.isBoundary t n = Ok (Tree.below_limit t n).
Hypothesis HK4 : (4 <= Tree.K t)%nat.

(** What [replace] needs of the [update] it calls. *)
Definition UpdSpec (upd : Store -> nat -> Key -> result Store) : Prop :=
  forall s l k s',
    (1 <= l)%nat -> Pend t s l (Some k) -> upd s l (Some k) = Ok s' ->
    Built t s' /\ (forall r, (level r < l)%nat -> (In r s <-> In r s')).

Lemma finish_step (upd : Store -> nat -> Key -> result Store) (fuel : nat)
      (s2 : Store) (l : nat) (c' : Key) (s' : Store) :
  UpdSpec upd ->
  Pend t s2 (S l) c' ->
  ((1 <= l)%nat -> exists y, hasRow s2 l (Some y)) ->
  match c' with
  | None => Tree.updateAnchor t fuel s2 (l + 1)
  | Some _ => upd s2 (l + 1)%nat c'
  end = Ok s' ->
  Built t s' /\ (forall r, (level r <= l)%nat -> (In r s2 <-> In r s')).
Proof.
  intros Hupd HP Hkeyed Hres. replace (l + 1)%nat with (S l) in Hres by lia.
  destruct c' as [y|].
  - destruct (Hupd s2 (S l) y s' ltac:(lia) HP Hres) as [HB Hin].
    split; [exact HB|]. intros r Hr. apply Hin. lia.
  - apply updateAnchor_Built in Hres; [|lia|exact HP|].
    + destruct Hres as [HB Hin]. split; [exact HB|].
      intros r Hr. apply Hin. lia.
    + intros Hl. replace (S l - 1)%nat with l by lia. apply Hkeyed. lia.
Qed.

(** The rows with key [k] stop at level [l], and the one on that level, if
    any, is no boundary. *)
Lemma cols_nonbnd (s2 : Store) (l : nat) (k : bytes) :
  (forall r, In r s2 -> key r = Some k ->
             (level r <= l)%nat
             /\ (level r = l -> Tree.below_limit t r = false)) ->
  (forall i, (l <= i)%nat -> (hasRow s2 (S i) (Some k) <-> bnd t s2 i k))
  /\ (forall r, In r s2 -> key r = Some k -> (l < level r)%nat ->
                hash r = Tree.getHash t s2 (level r) (Some k)).
Proof.
  intros Hcol. split.
  - intros i Hi. split.
    + intros (r & Hr & Hrl & Hrk). destruct (Hcol r Hr Hrk) as [H _]. lia.
    + intros (r & Hr & Hrl & Hrk & Hb). destruct (Hcol r Hr Hrk) as [H1 H2].
      assert (level r = l) as E by lia. rewrite (H2 E) in Hb. discriminate.
  - intros r Hr Hrk Hl. destruct (Hcol r Hr Hrk) as [H _]. lia.
Qed.

(** The rows with key [k] above level [l] are those [createParents] made. *)
Lemma cols_created (s2 : Store) (l m : nat) (k : bytes) (n : Node) :
  uniq s2 -> In n s2 -> level n = l -> key n = Some k ->
  Tree.below_limit t n = true ->
  (1 <= m)%nat ->
  (forall r, In r s2 -> key r = Some k -> (l < level r)%nat ->
             (level r <= l + m)%nat
             /\ hash r = Tree.getHash t s2 (level r) (Some k)) ->
  (forall i, (l < i <= l + m)%nat -> hasRow s2 i (Some k)) ->
  (forall r, In r s2 -> key r = Some k -> (l < level r < l + m)%nat ->
             Tree.below_limit t r = true) ->
  (forall r, In r s2 -> key r = Some k -> level r = (l + m)%nat ->
             Tree.below_limit t r = false) ->
  (forall i, (l <= i)%nat -> (hasRow s2 (S i) (Some k) <-> bnd t s2 i k))
  /\ (forall r, In r s2 -> key r = Some k -> (l < level r)%nat ->
                hash r = Tree.getHash t s2 (level r) (Some k)).
Proof.
  intros Hu Hn Hnl Hnk Hnb Hm Hh Hex Hbt Hbf. split.
  - intros i Hi. split.
    + intros (r & Hr & Hrl & Hrk).
      destruct (Hh r Hr Hrk ltac:(lia)) as [Hle _].
      destruct (Nat.eq_dec i l) as [->|E].
      * exists n. auto.
      * destruct (Hex i ltac:(lia)) as (r' & Hr' & Hrl' & Hrk').
        exists r'. repeat split; auto. apply Hbt; auto. lia.
    + intros (r & Hr & Hrl & Hrk & Hb). apply Hex.
      destruct (Nat.eq_dec i l) as [->|E]; [lia|].
      destruct (Hh r Hr Hrk ltac:(lia)) as [Hle _].
      destruct (Nat.eq_dec i (l + m)) as [E'|E']; [|lia].
      rewrite (Hbf r Hr Hrk ltac:(lia)) in Hb. discriminate.
  - intros r Hr Hrk Hl. apply (Hh r Hr Hrk Hl).
Qed.

End Replace.

Section Mutation.

Context {hasher : Hasher}.
Variable t : Tree.Tree.

Hypothesis Hsql :
  forall n, (4 <= length (hash n))%nat ->
            Tree.isBoundary t n = Ok (Tree.below_limit t n).
Hypothesis HK4 : (4 <= Tree.K t)%nat.

Section OneNode.

Variable upd : Store -> nat -> Key -> result Store.
Variable fuel : nat.
Variables (s : Store) (l : nat) (k : bytes) (n : Node).

Hypothesis Hupd : UpdSpec t upd.
Hypothesis HP : Pend t s l (Some k).
Hypothesis Hnl : level n = l.
Hypothesis Hnk : key n = Some k.
Hypothesis Hnlen : length (hash n) = Tree.K t.
Hypothesis Hnh : (1 <= l)%nat -> hash n = Tree.getHash t s l (Some k).

Lemma one_wf1 : wf t (setNode s n).
Proof.
  apply setNode_wf; [apply (pend_wf HP)|exact Hnlen|].
  intros _. rewrite Hnk. discriminate.
Qed.

Lemma one_lev1 (r : Node) : level r <> l -> (In r s <-> In r (setNode s n)).
Proof. intros H. apply setNode_other_level. congruence. Qed.

Lemma one_off1 (r : Node) :
  key r <> Some k -> (In r s <-> In r (setNode s n)).
Proof. intros H. apply setNode_other_key. congruence. Qed.

Lemma one_only1 (r : Node) :
  In r (setNode s n) -> level r = l -> key r = Some k -> r = n.
Proof.
  intros Hr Hrl Hrk. apply (@uniq_In_eq (setNode s n) r n); auto.
  - apply one_wf1.
  - apply setNode_In_n.
  - congruence.
  - congruence.
Qed.

Lemma one_isBoundary : Tree.isBoundary t n = Ok (Tree.below_limit t n).
Proof. apply Hsql. lia. Qed.

(** Without a boundary on level [l], the key has no row above. *)
Lemma one_none_above :
  ~ bnd t s l k ->
  forall r, In r s -> key r = Some k -> (level r <= l)%nat.
Proof.
  intros Hnb r Hr Hrk.
  destruct (Nat.le_gt_cases (level r) l) as [H|H]; [exact H|].
  exfalso. apply Hnb.
  apply keys_descend with (d := (level r - l - 1)%nat) (j := level r).
  - intros i Hi. apply (pend_upper HP Hi).
  - lia.
  - exists r. auto.
Qed.

Lemma one_keyed (s2 : Store) :
  (forall r, (level r <= l)%nat -> (In r (setNode s n) <-> In r s2)) ->
  (1 <= l)%nat -> exists y, hasRow s2 l (Some y).
Proof.
  intros Hag _. exists k, n. split; [|auto].
  apply Hag; [lia|apply setNode_In_n].
Qed.

Lemma one_row (s2 : Store) :
  (forall r, (level r <= l)%nat -> (In r (setNode s n) <-> In r s2)) ->
  (1 <= l)%nat ->
  exists r, In r s2 /\ level r = l /\ key r = Some k
            /\ hash r = Tree.getHash t s l (Some k).
Proof.
  intros Hag Hl. exists n. split; [|auto].
  apply Hag; [lia|apply setNode_In_n].
Qed.

(** The common end of the branches that go on at the chunk before [k]. *)
Lemma one_finish (s2 : Store) (c' : Key) (s' : Store) :
  wf t s2 ->
  (forall r, (level r <= l)%nat -> (In r (setNode s n) <-> In r s2)) ->
  (forall r, key r <> Some k -> (In r (setNode s n) <-> In r s2)) ->
  (forall i, (l <= i)%nat -> (hasRow s2 (S i) (Some k) <-> bnd t s2 i k)) ->
  (forall r, In r s2 -> key r = Some k -> (l < level r)%nat ->
             hash r = Tree.getHash t s2 (level r) (Some k)) ->
  PrevB t s l k c' ->
  match c' with
  | None => Tree.updateAnchor t fuel s2 (l + 1)
  | Some _ => upd s2 (l + 1)%nat c'
  end = Ok s' ->
  Built t s'
  /\ (forall r, (level r < l)%nat -> (In r s <-> In r s'))
  /\ (forall r, level r = l -> (In r (setNode s n) <-> In r s')).
Proof.
  intros Hwf2 Hag Hoff HcolK HcolH Hprev Hres.
  assert (Pend t s2 (S l) c') as HP2.
  { apply (@pend_step_prev _ t s s2 l k c' HP Hwf2); auto.
    - intros r Hr. rewrite (one_lev1 r) by lia. apply Hag. lia.
    - intros r Hr. rewrite (one_off1 r Hr). apply Hoff. exact Hr.
    - apply one_row. exact Hag. }
  destruct (@finish_step _ t HK4 upd fuel s2 l c' s' Hupd HP2
                         (one_keyed s2 Hag) Hres) as [HB Hin].
  split; [exact HB|]. split.
  - intros r Hr. rewrite (one_lev1 r) by lia.
    rewrite (Hag r) by lia. apply Hin. lia.
  - intros r Hr. rewrite (Hag r) by lia. apply Hin. lia.
Qed.

(** The node was a boundary and is one again. *)
Lemma one_same (s' : Store) :
  bnd t s l k ->
  Tree.below_limit t n = true ->
  upd (setNode s n) (l + 1)%nat (Some k) = Ok s' ->
  Built t s'
  /\ (forall r, (level r < l)%nat -> (In r s <-> In r s'))
  /\ (forall r, level r = l -> (In r (setNode s n) <-> In r s')).
Proof.
  intros Hb Hnb Hres. replace (l + 1)%nat with (S l) in Hres by lia.
  pose proof (@pend_step_same _ t s l k n HP Hb Hnl Hnk Hnb Hnlen Hnh) as HP2.
  destruct (@Hupd (setNode s n) (S l) k s' ltac:(lia) HP2 Hres) as [HB Hin].
  split; [exact HB|]. split.
  - intros r Hr. rewrite (one_lev1 r) by lia. apply Hin. lia.
  - intros r Hr. apply Hin. lia.
Qed.

(** The node was a boundary and is none any more. *)
Lemma one_demoted (s2 : Store) (f : Node) (s' : Store) :
  bnd t s l k ->
  Tree.below_limit t n = false ->
  Tree.deleteParents fuel (setNode s n) l (Some k) = Ok s2 ->
  Tree.getFirstSibling t s2 n = Ok f ->
  match key f with
  | None => Tree.updateAnchor t fuel s2 (l + 1)
  | Some _ => upd s2 (l + 1)%nat (key f)
  end = Ok s' ->
  Built t s'
  /\ (forall r, (level r < l)%nat -> (In r s <-> In r s'))
  /\ (forall r, level r = l -> (In r (setNode s n) <-> In r s')).
Proof.
  intros Hb Hnb Hd Hf Hres.
  pose proof one_wf1 as Hwf1. pose proof Hwf1 as (Hu1 & Hlen1 & Ha1).
  assert (forall r, In r s2
                    <-> In r (setNode s n)
                        /\ ~ (key r = Some k /\ (l < level r)%nat)) as Hin.
  { eapply deleteParents_all; [exact Hd|].
    intros i Hi (r & Hr & Hrl & Hrk).
    assert (In r s) as Hrs by (apply one_lev1; [lia|exact Hr]).
    destruct (pend_upper HP (i := i) ltac:(lia)) as (HK & _).
    assert (bnd t s i k) as (r' & Hr' & Hrl' & Hrk' & _).
    { apply HK. exists r. auto. }
    exists r'. split; [|auto]. apply one_lev1; [lia|exact Hr']. }
  assert (forall r, (level r <= l)%nat -> (In r (setNode s n) <-> In r s2))
    as Hag.
  { intros r Hr. rewrite Hin. split; [|tauto].
    intros H. split; [exact H|]. lia. }
  assert (forall r, key r <> Some k -> (In r (setNode s n) <-> In r s2))
    as Hoff.
  { intros r Hr. rewrite Hin. tauto. }
  assert (wf t s2) as Hwf2.
  { split; [eapply deleteParents_uniq; eauto|]. split.
    - intros r Hr. apply Hlen1. apply Hin in Hr. tauto.
    - destruct Ha1 as (a & Ha & Hal & Hak). exists a. split; [|auto].
      apply Hoff; [congruence|exact Ha]. }
  assert (forall r, In r s2 -> key r = Some k ->
                    (level r <= l)%nat
                    /\ (level r = l -> Tree.below_limit t r = false))
    as Hcol.
  { intros r Hr Hrk. pose proof (proj1 (Hin r) Hr) as [Hr1 Hne].
    assert (level r <= l)%nat as Hle.
    { destruct (Nat.le_gt_cases (level r) l); [assumption|]. tauto. }
    split; [exact Hle|]. intros E.
    rewrite (one_only1 r Hr1 E Hrk). exact Hnb. }
  destruct (@cols_nonbnd _ t HK4 s2 l k Hcol) as [HcolK HcolH].
  apply (@one_finish s2 (key f) s' Hwf2 Hag Hoff HcolK HcolH); [|exact Hres].
  apply (@firstSibling_PrevB t s2 s n f l k Hnk Hnl Hf).
  - intros (r & Hr & Hrl & Hrk & Hrb).
    destruct (Hcol r Hr Hrk) as [_ H]. rewrite (H Hrl) in Hrb. discriminate.
  - intros r Hr. rewrite (one_off1 r Hr). apply Hoff. exact Hr.
Qed.

(** The node was no boundary, or was not there. *)
Lemma one_else (f : Node) (s2 s' : Store) :
  ~ bnd t s l k ->
  Tree.getFirstSibling t s n = Ok f ->
  (if Tree.below_limit t n
   then Tree.createParents t fuel (setNode s n) l (Some k)
   else Ok (setNode s n)) = Ok s2 ->
  match key f with
  | None => Tree.updateAnchor t fuel s2 (l + 1)
  | Some _ => upd s2 (l + 1)%nat (key f)
  end = Ok s' ->
  Built t s'
  /\ (forall r, (level r < l)%nat -> (In r s <-> In r s'))
  /\ (forall r, level r = l -> (In r (setNode s n) <-> In r s')).
Proof.
  intros Hnb Hf Hs2 Hres.
  pose proof one_wf1 as Hwf1. pose proof Hwf1 as (Hu1 & Hlen1 & Ha1).
  assert (PrevB t s l k (key f)) as Hprev.
  { apply (@firstSibling_PrevB t s s n f l k Hnk Hnl Hf Hnb). tauto. }
  assert (forall r, In r (setNode s n) -> key r = Some k ->
                    (level r <= l)%nat) as Hnone1.
  { intros r Hr Hrk. apply setNode_In_iff in Hr.
    destruct Hr as [->|[Hr _]]; [lia|].
    apply (one_none_above Hnb r Hr Hrk). }
  destruct (Tree.below_limit t n) eqn:Ebn.
  - destruct (@createParents_spec _ t Hsql HK4 fuel (setNode s n) l (Some k)
                                  s2 Hwf1 Hnone1 Hs2)
      as (Hwf2 & Hag2 & m & Hm & Hh & Hex & Hbt & Hbf).
    assert (forall r, (level r <= l)%nat -> (In r (setNode s n) <-> In r s2))
      as Hag by (intros r Hr; apply Hag2; right; exact Hr).
    assert (forall r, key r <> Some k -> (In r (setNode s n) <-> In r s2))
      as Hoff by (intros r Hr; apply Hag2; left; exact Hr).
    assert (In n s2) as Hn2 by (apply Hag; [lia|apply setNode_In_n]).
    destruct (@cols_created _ t HK4 s2 l m k n (proj1 Hwf2) Hn2 Hnl Hnk Ebn
                            Hm Hh Hex Hbt Hbf) as [HcolK HcolH].
    apply (@one_finish s2 (key f) s' Hwf2 Hag Hoff HcolK HcolH Hprev Hres).
  - injection Hs2 as <-.
    assert (forall r, In r (setNode s n) -> key r = Some k ->
                      (level r <= l)%nat
                      /\ (level r = l -> Tree.below_limit t r = false))
      as Hcol.
    { intros r Hr Hrk. split; [apply Hnone1; assumption|].
      intros E. rewrite (one_only1 r Hr E Hrk). exact Ebn. }
    destruct (@cols_nonbnd _ t HK4 (setNode s n) l k Hcol) as [HcolK HcolH].
    apply (@one_finish (setNode s n) (key f) s' Hwf1); auto; tauto.
Qed.

Lemma one_replace (s' : Store) :
  Tree.replace t upd fuel s (getNode s l (Some k)) n = Ok s' ->
  Built t s'
  /\ (forall r, (level r < l)%nat -> (In r s <-> In r s'))
  /\ (forall r, level r = l -> (In r (setNode s n) <-> In r s')).
Proof.
  intros Hrep. unfold Tree.replace, Tree.replaceBoundary in Hrep.
  rewrite Hnl, Hnk, one_isBoundary in Hrep.
  pose proof (pend_wf HP) as (Hu & Hlen & _).
  assert (forall o, In o s -> level o = l -> key o = Some k ->
                    Tree.below_limit t o = false -> ~ bnd t s l k) as Hnot.
  { intros o Ho Hol Hok Hob (r & Hr & Hrl & Hrk & Hrb).
    assert (r = o) as -> by (apply (@uniq_In_eq s r o Hu); congruence).
    congruence. }
  assert (~ bnd t s l k ->
          (fs <- Tree.getFirstSibling t s n ;;
           b <- Ok (Tree.below_limit t n) ;;
           s0 <- (if b then Tree.createParents t fuel (setNode s n) l (Some k)
                  else Ok (setNode s n)) ;;
           match key fs with
           | None => Tree.updateAnchor t fuel s0 (l + 1)
           | Some _ => upd s0 (l + 1)%nat (key fs)
           end) = Ok s' ->
          Built t s'
          /\ (forall r, (level r < l)%nat -> (In r s <-> In r s'))
          /\ (forall r, level r = l -> (In r (setNode s n) <-> In r s')))
    as Helse.
  { intros Hnb He.
    destruct (Tree.getFirstSibling t s n) as [f| |] eqn:Ef;
      try discriminate.
    cbv beta iota zeta delta [bind] in He.
    destruct (if Tree.below_limit t n
              then Tree.createParents t fuel (setNode s n) l (Some k)
              else Ok (setNode s n)) as [s2| |] eqn:Es2; try discriminate.
    apply (@one_else f s2 s' Hnb Ef Es2 He). }
  destruct (getNode s l (Some k)) as [o|] eqn:Eo.
  - apply getNode_Some in Eo. destruct Eo as (Ho & Hol & Hok).
    rewrite (Hsql o) in Hrep by (rewrite (Hlen o Ho); exact HK4).
    cbv beta iota zeta delta [bind] in Hrep.
    destruct (Tree.below_limit t o) eqn:Ebo.
    + assert (bnd t s l k) as Hb by (exists o; auto).
      destruct (Tree.below_limit t n) eqn:Ebn.
      * apply (@one_same s' Hb Ebn Hrep).
      * destruct (Tree.deleteParents fuel (setNode s n) l (Some k))
          as [s2| |] eqn:Ed; try discriminate.
        destruct (Tree.getFirstSibling t s2 n) as [f| |] eqn:Ef;
          try discriminate.
        apply (@one_demoted s2 f s' Hb Ebn Ed Ef Hrep).
    + apply Helse; [apply (Hnot o); assumption|]. exact Hrep.
  - cbv beta iota zeta delta [bind] in Hrep.
    apply Helse; [|exact Hrep].
    intros (r & Hr & Hrl & Hrk & _). rewrite getNode_None in Eo.
    apply (Eo r Hr). auto.
Qed.

End OneNode.

Lemma update_UpdSpec (fuel : nat) : UpdSpec t (Tree.update t fuel).
Proof.
  induction fuel as [|fuel IH]; intros s l k s' Hl HP Hup; [discriminate|].
  simpl in Hup.
  set (n := mkNode l (Some k) (Tree.getHash t s l (Some k)) None) in *.
  destruct (@one_replace (Tree.update t fuel) fuel s l k n IH HP eq_refl
                         eq_refl (getHash_length t s l (Some k))
                         (fun _ => eq_refl) s' Hup) as (HB & Hlow & _).
  split; assumption.
Qed.

(** The tree right after [initialize] on an empty table. *)
Definition Fresh (s : Store) : Prop :=
  s = [mkNode 0 None (Tree.LEAF_ANCHOR_HASH t) None].

Hypothesis Hleaf : Tree.LEAF_ANCHOR_HASH t = hashFn (Tree.K t) [].

Lemma Fresh_wf (s : Store) : Fresh s -> wf t s.
Proof.
  intros ->. split; [|split].
  - repeat constructor. simpl. tauto.
  - intros r [<-|[]]. simpl. rewrite Hleaf. apply hashFn_length.
  - eexists. split; [left; reflexivity|]. auto.
Qed.

Lemma Fresh_rows (s : Store) (r : Node) :
  Fresh s -> In r s -> level r = 0%nat /\ key r = None.
Proof. intros -> [<-|[]]. auto. Qed.

Lemma Fresh_Pend (s : Store) (k : bytes) : Fresh s -> Pend t s 0 (Some k).
Proof.
  intros HF. pose proof (fun r => @Fresh_rows s r HF) as Hrows. constructor.
  - apply Fresh_wf. exact HF.
  - intros i Hi. lia.
  - intros i Hi. discriminate.
  - intros i [Hi|[-> _]]; [lia|]. apply (Fresh_wf HF).
  - intros i _. split; [|split].
    + intros y. split.
      * intros (r & Hr & Hrl & _). destruct (Hrows r Hr). lia.
      * intros (r & Hr & _ & Hrk & _). destruct (Hrows r Hr). congruence.
    + intros r Hr Hrl _. destruct (Hrows r Hr). lia.
    + intros y k' _ (r & Hr & _ & Hrk & _). destruct (Hrows r Hr).
      congruence.
  - intros i (r & Hr & Hrl & _). destruct (Hrows r Hr). lia.
Qed.

Lemma Built_Pend (s : Store) (k : bytes) : Built t s -> Pend t s 0 (Some k).
Proof.
  intros HB. constructor.
  - apply (built_wf HB).
  - intros i Hi. lia.
  - intros i Hi. discriminate.
  - intros i [Hi|[-> _]]; [lia|]. apply (built_wf HB).
  - intros i _. split; [apply (built_keys HB)|]. split.
    + intros r Hr Hrl _. apply (@built_hashes _ t s HB i r Hr Hrl I).
    + intros y k' _ Hb _. destruct i as [|i].
      * apply (built_anchor1 HB).
      * apply (built_anchors HB (i := S i) ltac:(lia)).
        exists k'. apply (bnd_hasRow Hb).
  - intros i Hi. destruct i as [|i]; [apply (built_wf HB)|].
    destruct i as [|i]; [apply (built_anchor1 HB)|].
    apply (built_anchors HB (i := S i) ltac:(lia)).
    apply (built_anchors HB (i := S (S i)) ltac:(lia)) in Hi.
    destruct Hi as (y & Hy). exists y. apply bnd_hasRow with (t := t).
    apply (@built_keys _ t s HB (S i)). exact Hy.
Qed.

Lemma hashEntry_length (k v : bytes) :
  length (Tree.hashEntry t k v) = Tree.K t.
Proof. unfold Tree.hashEntry, Hash.digest. simpl. apply hashFn_length. Qed.

(** [set] takes a tree to a tree, and rewrites just the leaf. *)
Lemma set_Built (fuel : nat) (s : Store) (k v : bytes) (s' : Store) :
  Built t s \/ Fresh s ->
  Tree.set t fuel s k v = Ok s' ->
  Built t s'
  /\ (forall r, level r = 0%nat ->
                (In r s'
                 <-> In r (setNode s (mkNode 0 (Some k)
                                             (Tree.hashEntry t k v)
                                             (Some v))))).
Proof.
  intros Hs Hset. unfold Tree.set in Hset.
  assert (Pend t s 0 (Some k)) as HP.
  { destruct Hs; [apply Built_Pend|apply Fresh_Pend]; assumption. }
  set (n := mkNode 0 (Some k) (Tree.hashEntry t k v) (Some v)) in *.
  destruct (@one_replace (Tree.update t fuel) fuel s 0%nat k n
                         (update_UpdSpec fuel) HP eq_refl eq_refl
                         (hashEntry_length k v)
                         (fun H => match Nat.nle_succ_0 _ H with end)
                         s' Hset) as (HB & _ & Hin).
  split; [exact HB|]. intros r Hr. symmetry. apply Hin. exact Hr.
Qed.

Lemma delete_Fresh (fuel : nat) (s : Store) (k : bytes) :
  Fresh s -> Tree.delete t fuel s k = Ok s.
Proof.
  intros HF. apply delete_no_leaf. apply getNode_None. intros r Hr [_ Hk].
  destruct (@Fresh_rows s r HF Hr). congruence.
Qed.

(** [delete] takes a tree to a tree, and removes just the leaf. *)
Lemma delete_Built (fuel : nat) (s : Store) (k : bytes) (s' : Store) :
  Built t s ->
  Tree.delete t fuel s k = Ok s' ->
  Built t s'
  /\ (forall r, level r = 0%nat ->
                (In r s' <-> In r s /\ key r <> Some k)).
Proof.
  intros HB Hdel. unfold Tree.delete in Hdel.
  pose proof (built_wf HB) as (Hu & Hlen & Ha0).
  destruct (getNode s 0 (Some k)) as [o|] eqn:Eo.
  2:{ injection Hdel as <-. split; [exact HB|].
      intros r Hr. split; [|tauto]. intros Hin. split; [exact Hin|].
      intros Hk. rewrite getNode_None in Eo. apply (Eo r Hin). auto. }
  apply getNode_Some in Eo. destruct Eo as (Ho & Hol & Hok).
  rewrite (Hsql o) in Hdel by (rewrite (Hlen o Ho); exact HK4).
  cbv beta iota zeta delta [bind] in Hdel.
  pose proof (Built_Pend k HB) as HP.
  destruct (if Tree.below_limit t o
            then Tree.deleteParents fuel s 0 (Some k) else Ok s)
    as [s1| |] eqn:Es1; try discriminate.
  destruct (Tree.getFirstSibling t (deleteNode s1 0 (Some k)) o)
    as [f| |] eqn:Ef; try discriminate.
  set (s2 := deleteNode s1 0 (Some k)) in *.
  (* the rows with the key are gone, the others are as they were *)
  assert (uniq s1 /\ forall r, In r s1
                              <-> In r s
                                  /\ ~ (key r = Some k /\ (0 < level r)%nat))
    as [Hu1 Hin1].
  { destruct (Tree.below_limit t o) eqn:Ebo.
    - split; [eapply deleteParents_uniq; eauto|].
      eapply deleteParents_all; [exact Es1|].
      intros i Hi Hr. apply bnd_hasRow with (t := t).
      apply (built_keys HB i). exact Hr.
    - injection Es1 as <-. split; [exact Hu|].
      intros r. split; [|tauto]. intros Hr. split; [exact Hr|].
      intros [Hrk Hrl].
      assert (bnd t s 0 k) as (r' & Hr' & Hrl' & Hrk' & Hrb').
      { apply keys_descend with (d := (level r - 1)%nat) (j := level r).
        - intros i _. apply (built_keys HB).
        - lia.
        - exists r. auto. }
      assert (r' = o) as -> by (apply (@uniq_In_eq s r' o Hu); congruence).
      congruence. }
  assert (forall r, In r s2 <-> In r s /\ key r <> Some k) as Hin2.
  { intros r. unfold s2. rewrite deleteNode_In, Hin1. split.
    - intros [[Hr Hne] Hne']. split; [exact Hr|]. intros Hk.
      destruct (Nat.eq_dec (level r) 0); [tauto|].
      apply Hne. split; [exact Hk|lia].
    - intros [Hr Hne]. tauto. }
  assert (forall r, key r <> Some k -> (In r s <-> In r s2)) as Hoff.
  { intros r Hr. rewrite Hin2. tauto. }
  assert (wf t s2) as Hwf2.
  { split; [apply deleteNode_uniq; exact Hu1|]. split.
    - intros r Hr. apply Hlen. apply Hin2 in Hr. tauto.
    - destruct Ha0 as (a & Ha & Hal & Hak). exists a. split; [|auto].
      apply Hoff; [congruence|exact Ha]. }
  assert (forall r, In r s2 -> key r = Some k ->
                    (level r <= 0)%nat
                    /\ (level r = 0%nat -> Tree.below_limit t r = false))
    as Hcol.
  { intros r Hr Hrk. apply Hin2 in Hr. tauto. }
  destruct (@cols_nonbnd _ t HK4 s2 0%nat k Hcol) as [HcolK HcolH].
  assert (PrevB t s 0 k (key f)) as Hprev.
  { apply (@firstSibling_PrevB t s2 s o f 0%nat k Hok Hol Ef).
    - intros (r & Hr & _ & Hrk & _). apply Hin2 in Hr. tauto.
    - exact Hoff. }
  assert (Pend t s2 1 (key f)) as HP2.
  { apply (@pend_step_prev _ t s s2 0%nat k (key f) HP Hwf2); auto.
    - intros r Hr. lia.
    - intros Hl. lia. }
  destruct (@finish_step _ t HK4 (Tree.update t fuel) fuel s2 0%nat (key f)
                         s' (update_UpdSpec fuel) HP2) as [HB' Hin'].
  - intros Hl. lia.
  - exact Hdel.
  - split; [exact HB'|]. intros r Hr. rewrite <- Hin2. symmetry.
    apply Hin'. lia.
Qed.

End Mutation.

(** ** Sequences of [set] and [delete] *)

Inductive Op : Type :=
| OpSet (k v : bytes)
| OpDelete (k : bytes).

Definition apply_op `{Hasher} (t : Tree.Tree) (fuel : nat) (s : Store)
           (op : Op) : result Store :=
  match op with
  | OpSet k v => Tree.set t fuel s k v
  | OpDelete k => Tree.delete t fuel s k
  end.

(** The operations of [ops] in order, from the table [s]. *)
Definition run `{Hasher} (t : Tree.Tree) (fuel : nat) (ops : list Op)
           (s : Store) : result Store :=
  fold_left (fun r op => s <- r ;; apply_op t fuel s op) ops (Ok s).

Section Runs.

Context {hasher : Hasher}.
Variable t : Tree.Tree.

Hypothesis Hsql :
  forall n, (4 <= length (hash n))%nat ->
            Tree.isBoundary t n = Ok (Tree.below_limit t n).
Hypothesis HK4 : (4 <= Tree.K t)%nat.
Hypothesis Hleaf : Tree.LEAF_ANCHOR_HASH t = hashFn (Tree.K t) [].

Lemma fold_failed (fuel : nat) (ops : list Op) (r : result Store)
      (s' : Store) :
  fold_left (fun r op => s <- r ;; apply_op t fuel s op) ops r = Ok s' ->
  exists s, r = Ok s.
Proof.
  revert r. induction ops as [|op ops IH]; intros r H; simpl in H.
  - exists s'. exact H.
  - apply IH in H. destruct H as (s1 & H1).
    destruct r as [s| |]; try discriminate. exists s. reflexivity.
Qed.

Lemma run_cons (fuel : nat) (op : Op) (ops : list Op) (s s' : Store) :
  run t fuel (op :: ops) s = Ok s' ->
  exists s1, apply_op t fuel s op = Ok s1 /\ run t fuel ops s1 = Ok s'.
Proof.
  unfold run. simpl. intros H. pose proof (fold_failed _ _ _ H) as (s1 & E).
  exists s1. split; [exact E|]. rewrite E in H. exact H.
Qed.

Lemma apply_op_inv (fuel : nat) (op : Op) (s s' : Store) :
  Built t s \/ Fresh t s -> apply_op t fuel s op = Ok s' ->
  Built t s' \/ Fresh t s'.
Proof.
  intros Hs Hop. destruct op as [k v|k]; simpl in Hop.
  - left. eapply set_Built; eauto.
  - destruct Hs as [HB|HF].
    + left. eapply delete_Built; eauto.
    + right. erewrite delete_Fresh in Hop by eauto. congruence.
Qed.

Lemma run_inv (fuel : nat) (ops : list Op) :
  forall s s', Built t s \/ Fresh t s -> run t fuel ops s = Ok s' ->
               Built t s' \/ Fresh t s'.
Proof.
  induction ops as [|op ops IH]; intros s s' Hs Hrun.
  - injection Hrun as <-. exact Hs.
  - apply run_cons in Hrun. destruct Hrun as (s1 & Hop & Hrun).
    apply (IH s1 s'); [|exact Hrun]. eapply apply_op_inv; eauto.
Qed.

End Runs.

(** ** The structural invariants (C3) *)

Lemma tree_params `{Hasher} (optK : option nat) (optQ : option Z)
      (t : Tree.Tree) :
  Tree.constructor optK optQ = Ok t ->
  (2 <= Tree.Q t)%Z ->
  (forall n, (4 <= length (hash n))%nat ->
             Tree.isBoundary t n = Ok (Tree.below_limit t n))
  /\ Tree.LEAF_ANCHOR_HASH t = hashFn (Tree.K t) [].
Proof.
  intros Ht Hq. split.
  - intros n Hn. eapply below_limit_isBoundary; eauto.
  - apply constructor_Ok in Ht. tauto.
Qed.

Lemma initialize_Fresh `{Hasher} (existing : Store) (optK : option nat)
      (optQ : option Z) (clear : bool) (t : Tree.Tree) (s0 : Store) :
  Tree.initialize existing optK optQ clear = Ok (t, s0) ->
  clear = true \/ existing = [] ->
  Tree.constructor optK optQ = Ok t /\ Fresh t s0.
Proof.
  unfold Tree.initialize. intros Hi Hc.
  destruct (Tree.constructor optK optQ) as [t'| |]; simpl in Hi;
    try discriminate.
  injection Hi as <- <-. split; [reflexivity|].
  assert ((if clear then [] else existing) = @nil Node) as ->.
  { destruct Hc as [->| ->]; [reflexivity|]. destruct clear; reflexivity. }
  reflexivity.
Qed.

Lemma uniq_count (s : Store) (a : Node) :
  uniq s -> In a s ->
  length (filter (at_key (level a) (key a)) s) = 1%nat.
Proof.
  unfold uniq. induction s as [|x s IH]; simpl; intros Hu Ha; [contradiction|].
  inversion Hu as [|? ? Hnin Hu']; subst.
  destruct Ha as [->|Ha].
  - replace (at_key (level a) (key a) a) with true
      by (symmetry; apply at_key_true; auto).
    simpl. f_equal. apply length_zero_iff_nil. apply filter_nil_iff.
    intros y Hy. apply at_key_false. intros [Hl Hk]. apply Hnin.
    apply in_map_iff. exists y. split; [|exact Hy]. congruence.
  - destruct (at_key (level a) (key a) x) eqn:E; [|auto].
    apply at_key_true in E. destruct E as [Hl Hk]. exfalso. apply Hnin.
    apply in_map_iff. exists a. split; [|exact Ha]. congruence.
Qed.

Lemma Built_anchor_exists `{Hasher} (t : Tree.Tree) (s : Store) (r : Node) :
  Built t s -> In r s -> hasRow s (level r) None.
Proof.
  intros HB Hr. destruct (key r) as [k|] eqn:Ek; [|exists r; auto].
  destruct (level r) as [|[|i]] eqn:El.
  - apply (built_wf HB).
  - apply (built_anchor1 HB).
  - apply (built_anchors HB (i := S i)); [lia|]. exists k.
    apply bnd_hasRow with (t := t). apply (@built_keys _ t s HB (S i)).
    exists r. auto.
Qed.

(** C3.  After any sequence of [set] and [delete] on a freshly initialized
    tree, every level that has a row has exactly one anchor, and every node
    with a key above level 0 has, one level below, a node with the same key
    that is a boundary. *)
Theorem structural_invariants `{Hasher} (existing : Store)
        (optK : option nat) (optQ : option Z) (clear : bool)
        (t : Tree.Tree) (s0 : Store) (fuel : nat) (ops : list Op)
        (s : Store) :
  Tree.initialize existing optK optQ clear = Ok (t, s0) ->
  clear = true \/ existing = [] ->
  (2 <= Tree.Q t)%Z ->
  (4 <= Tree.K t)%nat ->
  run t fuel ops s0 = Ok s ->
  (forall l, (exists r, In r s /\ level r = l) ->
             length (filter (at_key l None) s) = 1%nat)
  /\ (forall r L k, In r s -> level r = S L -> key r = Some k ->
                    exists r', In r' s /\ level r' = L /\ key r' = Some k
                               /\ Tree.isBoundary t r' = Ok true).
Proof.
  intros Hinit Hc Hq HK Hrun.
  destruct (@initialize_Fresh _ existing optK optQ clear t s0 Hinit Hc)
    as [Ht HF].
  destruct (@tree_params _ optK optQ t Ht Hq) as [Hsql Hleaf].
  destruct (@run_inv _ t Hsql HK Hleaf fuel ops s0 s (or_intror HF) Hrun)
    as [HB|HF'].
  - pose proof (built_wf HB) as (Hu & Hlen & _). split.
    + intros l (r & Hr & <-).
      destruct (@Built_anchor_exists _ t s r HB Hr) as (a & Ha & Hal & Hak).
      rewrite <- Hal, <- Hak. apply uniq_count; assumption.
    + intros r L k Hr Hrl Hrk.
      assert (bnd t s L k) as (r' & Hr' & Hrl' & Hrk' & Hb').
      { apply (@built_keys _ t s HB L). exists r. auto. }
      exists r'. repeat split; auto.
      rewrite Hsql, Hb' by (rewrite (Hlen r' Hr'); exact HK). reflexivity.
  - rewrite HF'. split.
    + intros l (r & [<-|[]] & <-). reflexivity.
    + intros r L k [<-|[]]. discriminate.
Qed.

(** ** A tree is determined by its leaves *)

(** A row without its value. *)
Definition strip (r : Node) : Node := mkNode (level r) (key r) (hash r) None.

(** Levels [l] of the two tables hold the same keys with the same hashes. *)
Definition same_rows (s1 s2 : Store) (l : nat) : Prop :=
  forall k h,
    (exists r, In r s1 /\ level r = l /\ key r = k /\ hash r = h)
    <-> (exists r, In r s2 /\ level r = l /\ key r = k /\ hash r = h).

Lemma filter_map_comm (A B : Type) (f : A -> B) (p : B -> bool)
      (l : list A) :
  filter p (map f l) = map f (filter (fun x => p (f x)) l).
Proof.
  induction l as [|a l IH]; simpl; [reflexivity|].
  destruct (p (f a)); simpl; rewrite IH; reflexivity.
Qed.

Lemma insert_asc_map (f : Node -> Node) (r : Node) (l : list Node) :
  (forall x, key (f x) = key x) ->
  insert_asc (f r) (map f l) = map f (insert_asc r l).
Proof.
  intros Hf. induction l as [|a l IH]; simpl; [reflexivity|].
  rewrite !Hf. destruct (key_ltb (key a) (key r)); simpl; [|reflexivity].
  rewrite IH. reflexivity.
Qed.

Lemma order_asc_map (f : Node -> Node) (l : list Node) :
  (forall x, key (f x) = key x) ->
  order_asc (map f l) = map f (order_asc l).
Proof.
  intros Hf. induction l as [|a l IH]; simpl; [reflexivity|].
  rewrite IH. apply insert_asc_map. exact Hf.
Qed.

Section Determined.

Context {hasher : Hasher}.
Variable t : Tree.Tree.

Lemma later_boundaries_strip (s : Store) (i : nat) (c : Key) :
  Tree.later_boundaries t (map strip s) i c
  = map strip (Tree.later_boundaries t s i c).
Proof.
  rewrite !later_boundaries_eq, filter_map_comm, order_asc_map by reflexivity.
  reflexivity.
Qed.

Lemma children_strip (s : Store) (l : nat) (c : Key) :
  Tree.children t (map strip s) l c = map strip (Tree.children t s l c).
Proof.
  destruct l as [|i]; [reflexivity|].
  rewrite !children_eq, later_boundaries_strip, filter_map_comm,
    order_asc_map by reflexivity.
  f_equal. f_equal. apply filter_ext. intros r.
  transitivity (child_of i c (Tree.later_boundaries t s i c) (strip r));
    [|reflexivity].
  apply child_of_head.
  destruct (Tree.later_boundaries t s i c); reflexivity.
Qed.

Lemma getHash_strip (s : Store) (l : nat) (c : Key) :
  Tree.getHash t (map strip s) l c = Tree.getHash t s l c.
Proof.
  rewrite !getHash_concat, children_strip, map_map. reflexivity.
Qed.

Lemma strip_uniq (s : Store) : uniq s -> uniq (map strip s).
Proof. unfold uniq. rewrite map_map. simpl. tauto. Qed.

Lemma getHash_same_rows (s1 s2 : Store) (l : nat) (c : Key) :
  uniq s1 -> uniq s2 -> same_rows s1 s2 l ->
  Tree.getHash t s1 (S l) c = Tree.getHash t s2 (S l) c.
Proof.
  intros Hu1 Hu2 Hsame.
  rewrite <- (getHash_strip s1), <- (getHash_strip s2).
  apply getHash_frame_level; [apply strip_uniq; exact Hu1
                             |apply strip_uniq; exact Hu2|].
  intros r Hl. rewrite !in_map_iff. split.
  - intros (r1 & <- & Hr1).
    destruct (proj1 (Hsame (key r1) (hash r1))) as (r2 & Hr2 & Hl2 & Hk2 & Hh2).
    { exists r1. auto. }
    exists r2. split; [|exact Hr2]. unfold strip. simpl in Hl.
    rewrite Hl2, Hk2, Hh2, Hl. reflexivity.
  - intros (r2 & <- & Hr2).
    destruct (proj2 (Hsame (key r2) (hash r2))) as (r1 & Hr1 & Hl1 & Hk1 & Hh1).
    { exists r2. auto. }
    exists r1. split; [|exact Hr1]. unfold strip. simpl in Hl.
    rewrite Hl1, Hk1, Hh1, Hl. reflexivity.
Qed.

Lemma same_rows_hasRow (s1 s2 : Store) (l : nat) (k : Key) :
  same_rows s1 s2 l -> (hasRow s1 l k <-> hasRow s2 l k).
Proof.
  intros Hsame. split; intros (r & Hr & Hl & Hk).
  - destruct (proj1 (Hsame k (hash r))) as (r2 & H2); [exists r; auto|].
    exists r2. tauto.
  - destruct (proj2 (Hsame k (hash r))) as (r2 & H2); [exists r; auto|].
    exists r2. tauto.
Qed.

Lemma same_rows_bnd (s1 s2 : Store) (l : nat) (k : bytes) :
  same_rows s1 s2 l -> (bnd t s1 l k <-> bnd t s2 l k).
Proof.
  intros Hsame. split; intros (r & Hr & Hl & Hk & Hb).
  - destruct (proj1 (Hsame (Some k) (hash r))) as (r2 & H2 & H3 & H4 & H5);
      [exists r; auto|].
    exists r2. repeat split; auto.
    rewrite (below_limit_hash t r2 r H5). exact Hb.
  - destruct (proj2 (Hsame (Some k) (hash r))) as (r2 & H2 & H3 & H4 & H5);
      [exists r; auto|].
    exists r2. repeat split; auto.
    rewrite (below_limit_hash t r2 r H5). exact Hb.
Qed.

(** Two trees with the same leaves have the same rows on every level. *)
Lemma Built_same (s1 s2 : Store) :
  Built t s1 -> Built t s2 -> same_rows s1 s2 0 ->
  forall l, same_rows s1 s2 l.
Proof.
  intros HB1 HB2 H0.
  assert (forall s s' : Store,
             Built t s -> Built t s' ->
             forall l, same_rows s s' l ->
                       forall k h,
                         (exists r, In r s /\ level r = S l /\ key r = k
                                    /\ hash r = h) ->
                         exists r, In r s' /\ level r = S l /\ key r = k
                                   /\ hash r = h) as Hstep.
  { intros s s' HB HB' l Hsame k h (r & Hr & Hl & Hk & Hh).
    assert (hasRow s' (S l) k) as (r' & Hr' & Hl' & Hk').
    { destruct k as [y|].
      - apply (@built_keys _ t s' HB' l).
        apply (same_rows_bnd y Hsame).
        apply (@built_keys _ t s HB l). exists r. auto.
      - destruct l as [|l]; [apply (built_anchor1 HB')|].
        apply (built_anchors HB' (i := S l)); [lia|].
        assert (hasRow s (S (S l)) None) as Ha by (exists r; auto).
        apply (built_anchors HB (i := S l)) in Ha; [|lia].
        destruct Ha as (y & Hy). exists y.
        apply (same_rows_hasRow (Some y) Hsame). exact Hy. }
    exists r'. repeat split; auto.
    rewrite (@built_hashes _ t s' HB' l r' Hr' Hl' I), Hk', <- Hh.
    rewrite (@built_hashes _ t s HB l r Hr Hl I), Hk.
    symmetry. apply getHash_same_rows; auto.
    - apply (built_wf HB).
    - apply (built_wf HB'). }
  induction l as [|l IH]; [exact H0|].
  intros k h. split.
  - apply (Hstep s1 s2 HB1 HB2 l IH).
  - apply (Hstep s2 s1 HB2 HB1 l).
    intros k' h'. symmetry. apply IH.
Qed.

End Determined.

(** ** The root *)

Lemma top_row_acc (s : Store) :
  forall (acc : option Node) (r : Node),
    fold_left
      (fun acc r =>
         match acc with
         | None => Some r
         | Some a => if (level a <? level r)%nat then Some r else acc
         end) s acc = Some r ->
    (In r s \/ acc = Some r)
    /\ (forall x, In x s -> (level x <= level r)%nat)
    /\ (forall a, acc = Some a -> (level a <= level r)%nat).
Proof.
  induction s as [|x s IH]; intros acc r H; simpl in H.
  - split; [right; exact H|]. split; [contradiction|].
    intros a Ha. rewrite Ha in H. injection H as <-. lia.
  - apply IH in H. destruct H as (Hin & Hmax & Hacc). split; [|split].
    + destruct Hin as [Hin|Hin]; [left; right; exact Hin|].
      destruct acc as [a|].
      * destruct (level a <? level x)%nat;
          [left; left; congruence|right; exact Hin].
      * left. left. congruence.
    + intros y [<-|Hy]; [|apply Hmax; exact Hy].
      destruct acc as [a|].
      * destruct (Nat.ltb_spec (level a) (level x)).
        -- apply (Hacc x eq_refl).
        -- pose proof (Hacc a eq_refl). lia.
      * apply (Hacc x eq_refl).
    + intros a ->. destruct (Nat.ltb_spec (level a) (level x)).
      * pose proof (Hacc x eq_refl). lia.
      * apply (Hacc a eq_refl).
Qed.

Lemma top_row_Some (s : Store) (r : Node) :
  top_row s = Some r ->
  In r s /\ forall x, In x s -> (level x <= level r)%nat.
Proof.
  unfold top_row. intros H. apply top_row_acc in H.
  destruct H as ([Hin|Hin] & Hmax & _); [|discriminate]. auto.
Qed.

Lemma getRoot_Ok `{Hasher} (s : Store) (n : Node) :
  Tree.getRoot s = Ok n ->
  exists r, In r s /\ n = mkNode (level r) (key r) (hash r) None
            /\ forall x, In x s -> (level x <= level r)%nat.
Proof.
  unfold Tree.getRoot. destruct (top_row s) as [r|] eqn:E; [|discriminate].
  intros [= <-]. apply top_row_Some in E. exists r. tauto.
Qed.

(** The top level of a tree holds its anchor only. *)
Lemma Built_top `{Hasher} (t : Tree.Tree) (s : Store) (r : Node) :
  Built t s -> In r s -> (forall x, In x s -> (level x <= level r)%nat) ->
  key r = None.
Proof.
  intros HB Hr Hmax. destruct (key r) as [k|] eqn:Ek; [|reflexivity].
  exfalso. destruct (level r) as [|i] eqn:El.
  - destruct (built_anchor1 HB) as (a & Ha & Hal & _).
    specialize (Hmax a Ha). lia.
  - assert (hasRow s (S (S i)) None) as (a & Ha & Hal & _).
    { apply (built_anchors HB (i := S i)); [lia|]. exists k, r. auto. }
    specialize (Hmax a Ha). lia.
Qed.

Lemma Built_same_root `{Hasher} (t : Tree.Tree) (s1 s2 : Store)
      (n1 n2 : Node) :
  Built t s1 -> Built t s2 -> same_rows s1 s2 0 ->
  Tree.getRoot s1 = Ok n1 -> Tree.getRoot s2 = Ok n2 -> n1 = n2.
Proof.
  intros HB1 HB2 H0 Hn1 Hn2.
  pose proof (Built_same HB1 HB2 H0) as Hsame.
  apply getRoot_Ok in Hn1. destruct Hn1 as (r1 & Hr1 & -> & Hmax1).
  apply getRoot_Ok in Hn2. destruct Hn2 as (r2 & Hr2 & -> & Hmax2).
  pose proof (@Built_top _ t s1 r1 HB1 Hr1 Hmax1) as Hk1.
  pose proof (@Built_top _ t s2 r2 HB2 Hr2 Hmax2) as Hk2.
  destruct (proj1 (Hsame (level r1) (key r1) (hash r1)))
    as (x2 & Hx2 & Hxl2 & Hxk2 & Hxh2); [exists r1; auto|].
  destruct (proj2 (Hsame (level r2) (key r2) (hash r2)))
    as (x1 & Hx1 & Hxl1 & Hxk1 & Hxh1); [exists r2; auto|].
  pose proof (Hmax2 x2 Hx2). pose proof (Hmax1 x1 Hx1).
  assert (level r1 = level r2) as El by lia.
  assert (x2 = r2) as ->.
  { apply (@uniq_In_eq s2 x2 r2); auto; try congruence.
    apply (built_wf HB2). }
  rewrite El, Hk1, Hk2, <- Hxh2. reflexivity.
Qed.

Lemma structural_invariants_witness :
  (forall l, (exists r, In r store_2 /\ level r = l) ->
             length (filter (at_key l None) store_2) = 1%nat)
  /\ (forall r L k, In r store_2 -> level r = S L -> key r = Some k ->
                    exists r', In r' store_2 /\ level r' = L
                               /\ key r' = Some k
                               /\ Tree.isBoundary tree16_4 r' = Ok true).
Proof.
  apply (@structural_invariants blake3_hasher [] (Some 16%nat) (Some 4%Z)
                                true tree16_4 fresh16 9
                                [OpSet key_2 value_2] store_2).
  - vm_compute. reflexivity.
  - left. reflexivity.
  - simpl. lia.
  - simpl. lia.
  - vm_compute. reflexivity.
Defined.

(** ** [set] then [delete] (C5) *)

(** C5, as stated, fails on the fresh tree: after [set] and [delete] of one
    key the root is the level-1 anchor, whose hash is the digest of the leaf
    anchor's hash.  It also fails when the key was there before. *)
Lemma set_delete_changes_root :
  (exists s1 s2 r r2,
      Tree.set tree16_4 9 fresh16 key_2 value_2 = Ok s1
      /\ Tree.delete tree16_4 9 s1 key_2 = Ok s2
      /\ Tree.getRoot fresh16 = Ok r
      /\ Tree.getRoot s2 = Ok r2
      /\ hash r2 <> hash r)
  /\ (exists s1 s2 r r2,
         Tree.set tree16_4 9 store_2 key_2 [x00] = Ok s1
         /\ Tree.delete tree16_4 9 s1 key_2 = Ok s2
         /\ Tree.getRoot store_2 = Ok r
         /\ Tree.getRoot s2 = Ok r2
         /\ hash r2 <> hash r).
Proof.
  split.
  - eexists _, _, _, _.
    split; [vm_compute; reflexivity|].
    split; [vm_compute; reflexivity|].
    split; [vm_compute; reflexivity|].
    split; [vm_compute; reflexivity|].
    vm_compute. discriminate.
  - eexists _, _, _, _.
    split; [vm_compute; reflexivity|].
    split; [vm_compute; reflexivity|].
    split; [vm_compute; reflexivity|].
    split; [vm_compute; reflexivity|].
    vm_compute. discriminate.
Qed.

(** C5, amended.  On a tree that was written to (any state reached by [set]
    and [delete] other than the fresh one) and for a key that is not among
    its leaves, [set] followed by [delete] of that key gives back the root
    hash the tree had. *)
Theorem set_delete_restores_root `{Hasher} (existing : Store)
        (optK : option nat) (optQ : option Z) (clear : bool)
        (t : Tree.Tree) (s0 : Store) (fuel0 : nat) (ops : list Op)
        (S : Store) (fuel1 fuel2 : nat) (k v : bytes) (s1 s2 : Store)
        (r r2 : Node) :
  Tree.initialize existing optK optQ clear = Ok (t, s0) ->
  clear = true \/ existing = [] ->
  (2 <= Tree.Q t)%Z ->
  (4 <= Tree.K t)%nat ->
  run t fuel0 ops s0 = Ok S ->
  S <> s0 ->
  (forall x, In x S -> ~ (level x = 0%nat /\ key x = Some k)) ->
  Tree.set t fuel1 S k v = Ok s1 ->
  Tree.delete t fuel2 s1 k = Ok s2 ->
  Tree.getRoot S = Ok r ->
  Tree.getRoot s2 = Ok r2 ->
  hash r2 = hash r.
Proof.
  intros Hinit Hc Hq HK Hrun Hne Habs Hset Hdel Hr Hr2.
  destruct (@initialize_Fresh _ existing optK optQ clear t s0 Hinit Hc)
    as [Ht HF].
  destruct (@tree_params _ optK optQ t Ht Hq) as [Hsql Hleaf].
  destruct (@run_inv _ t Hsql HK Hleaf fuel0 ops s0 S (or_intror HF) Hrun)
    as [HB|HF'].
  2:{ exfalso. apply Hne. rewrite HF, HF'. reflexivity. }
  destruct (@set_Built _ t Hsql HK Hleaf fuel1 S k v s1 (or_introl HB) Hset)
    as [HB1 Hin1].
  destruct (@delete_Built _ t Hsql HK fuel2 s1 k s2 HB1 Hdel)
    as [HB2 Hin2].
  assert (forall x, level x = 0%nat -> (In x S <-> In x s2)) as Hsame.
  { intros x Hx. rewrite (Hin2 x Hx), (Hin1 x Hx), setNode_In_iff. simpl.
    split.
    - intros Hin. assert (key x <> Some k) as Hk.
      { intros E. apply (Habs x Hin). auto. }
      split; [|exact Hk]. right. split; [exact Hin|]. tauto.
    - intros [[->|[Hin _]] Hk]; [|exact Hin]. simpl in Hk. congruence. }
  assert (same_rows S s2 0) as H0.
  { intros k' h. split; intros (x & Hx & Hl & Hk & Hh); exists x;
      (split; [apply (Hsame x Hl); exact Hx|auto]). }
  rewrite (@Built_same_root _ t S s2 r r2 HB HB2 H0 Hr Hr2). reflexivity.
Qed.

Definition key_5 : bytes := [x00; x00; x00; x05].

Definition value_5 : bytes := Eval vm_compute in hashFn 4 key_5.

Definition store_2_5 : Store :=
  Eval vm_compute in
    match Tree.set tree16_4 9 store_2 key_5 value_5 with
    | Ok s => s
    | _ => []
    end.

Definition store_2_5d : Store :=
  Eval vm_compute in
    match Tree.delete tree16_4 9 store_2_5 key_5 with
    | Ok s => s
    | _ => []
    end.

Definition root_2 : Node :=
  Eval vm_compute in
    match Tree.getRoot store_2 with Ok n => n | _ => anchor16 end.

Definition root_2_5d : Node :=
  Eval vm_compute in
    match Tree.getRoot store_2_5d with Ok n => n | _ => anchor16 end.

Lemma set_delete_restores_root_witness : hash root_2_5d = hash root_2.
Proof.
  apply (@set_delete_restores_root blake3_hasher [] (Some 16%nat) (Some 4%Z)
           true tree16_4 fresh16 9 [OpSet key_2 value_2] store_2 9 9
           key_5 value_5 store_2_5 store_2_5d root_2 root_2_5d).
  - vm_compute. reflexivity.
  - left. reflexivity.
  - simpl. lia.
  - simpl. lia.
  - vm_compute. reflexivity.
  - discriminate.
  - apply getNode_None. vm_compute. reflexivity.
  - vm_compute. reflexivity.
  - vm_compute. reflexivity.
  - vm_compute. reflexivity.
  - vm_compute. reflexivity.
Defined.

(** ** The chunks of [Builder] are the children [getHash] selects *)

(** The two row filters of the [getHash] query, on the ordered rows of the
    level below: [later_test] is the inner [SELECT], [child_test] the outer
    one, given the rows [bs] the inner one returned. *)
Definition later_test (p : Node -> bool) (c : Key) (r : Node) : bool :=
  match key r with
  | None => false
  | Some k' =>
      match c with None => true | Some k0 => bytes_ltb k0 k' end && p r
  end.

Definition child_test (c : Key) (bs : list Node) (r : Node) : bool :=
  match c with
  | None => true
  | Some k0 => match key r with None => false | Some k' => bytes_leb k0 k' end
  end
  && match key r with
     | None => true
     | Some k' =>
         match bs with b :: _ => key_ltb (Some k') (key b) | [] => true end
     end.

Lemma later_test_true (p : Node -> bool) (c : Key) (r : Node) :
  later_test p c r = true <-> key_ltb c (key r) = true /\ p r = true.
Proof.
  unfold later_test. destruct (key r) as [k'|], c as [k0|]; simpl;
    rewrite ?andb_true_iff; intuition congruence.
Qed.

Lemma child_test_leb (c : Key) (bs : list Node) (r : Node) :
  child_test c bs r = true -> key_leb c (key r) = true.
Proof.
  unfold child_test. destruct c as [k0|]; [|intros _; apply key_None_leb].
  destruct (key r) as [k'|]; simpl; [|discriminate].
  rewrite key_leb_Some. intros E. apply andb_true_iff in E. tauto.
Qed.

Lemma sorted_app_inv (l1 l2 : list Node) :
  StronglySorted klt (l1 ++ l2) ->
  StronglySorted klt l1 /\ StronglySorted klt l2
  /\ forall x y, In x l1 -> In y l2 -> klt x y.
Proof.
  induction l1 as [|a l1 IH]; simpl; intros Hs.
  - split; [constructor|]. split; [exact Hs|]. intros x y [].
  - inversion Hs as [|? ? Hs' Hall]; subst.
    destruct (IH Hs') as (H1 & H2 & H3). rewrite Forall_forall in Hall.
    split.
    + constructor; [exact H1|]. apply Forall_forall. intros x Hx.
      apply Hall. apply in_or_app. left. exact Hx.
    + split; [exact H2|]. intros x y [<-|Hx] Hy.
      * apply Hall. apply in_or_app. right. exact Hy.
      * apply H3; assumption.
Qed.

Lemma filter_all (A : Type) (p : A -> bool) (l : list A) :
  (forall x, In x l -> p x = true) -> filter p l = l.
Proof.
  intros Hall. apply forallb_filter_id. apply forallb_forall. exact Hall.
Qed.

Lemma klt_keyed (a b : Node) : klt a b -> exists k, key b = Some k.
Proof.
  unfold klt. destruct (key b) as [k|]; [eauto|].
  destruct (key a); discriminate.
Qed.

Lemma segment_later (p : Node -> bool) (pre m post : list Node) (h : Node) :
  StronglySorted klt (pre ++ (h :: m) ++ post) ->
  Forall (fun x => p x = false) m ->
  filter (later_test p (key h)) (pre ++ (h :: m) ++ post)
  = filter (later_test p (key h)) post.
Proof.
  intros Hs Hm. apply sorted_app_inv in Hs. destruct Hs as (_ & Hs & Hpre).
  rewrite !filter_app.
  replace (filter _ pre) with (@nil Node).
  2:{ symmetry. apply filter_nil_iff. intros x Hx.
      destruct (later_test p (key h) x) eqn:E; [|reflexivity].
      apply later_test_true in E. destruct E as [E _].
      assert (klt x h) as Hk
          by (apply Hpre; [exact Hx|apply in_or_app; left; left; reflexivity]).
      apply key_ltb_asym in Hk. congruence. }
  replace (filter _ (h :: m)) with (@nil Node); [reflexivity|].
  symmetry. apply filter_nil_iff. intros x [<-|Hx].
  - destruct (later_test p (key h) h) eqn:E; [|reflexivity].
    apply later_test_true in E. rewrite key_ltb_irrefl in E.
    destruct E; discriminate.
  - destruct (later_test p (key h) x) eqn:E; [|reflexivity].
    apply later_test_true in E. rewrite Forall_forall in Hm.
    rewrite (Hm x Hx) in E. destruct E; discriminate.
Qed.

(** In the ordered rows of a level, a run [h :: m] without a boundary in [m]
    that is followed by a boundary, or by nothing, is what the query of
    [getHash] returns for the key of [h]. *)
Lemma segment_children (p : Node -> bool) (pre m post : list Node)
      (h : Node) :
  StronglySorted klt (pre ++ (h :: m) ++ post) ->
  Forall (fun x => p x = false) m ->
  (post = [] \/ exists h' post', post = h' :: post' /\ p h' = true) ->
  filter (child_test (key h)
            (filter (later_test p (key h)) (pre ++ (h :: m) ++ post)))
         (pre ++ (h :: m) ++ post)
  = h :: m.
Proof.
  intros Hs Hm Hpost. rewrite (@segment_later p pre m post h Hs Hm).
  apply sorted_app_inv in Hs. destruct Hs as (_ & Hs & Hpre).
  apply sorted_app_inv in Hs. destruct Hs as (Hc & Hps & Hcross).
  set (bs := filter (later_test p (key h)) post).
  assert ((post = [] /\ bs = [])
          \/ exists h' post' bs',
               post = h' :: post' /\ bs = h' :: bs'
               /\ StronglySorted klt (h' :: post')) as Hbs.
  { destruct Hpost as [->|(h' & post' & -> & Hp)]; [left; auto|]. right.
    exists h', post', (filter (later_test p (key h)) post').
    split; [reflexivity|]. split; [|exact Hps]. unfold bs. simpl.
    replace (later_test p (key h) h') with true; [reflexivity|].
    symmetry. apply later_test_true. split; [|exact Hp].
    apply Hcross; left; reflexivity. }
  clearbody bs. rewrite !filter_app.
  replace (filter _ pre) with (@nil Node).
  2:{ symmetry. apply filter_nil_iff. intros x Hx.
      destruct (child_test (key h) bs x) eqn:E; [|reflexivity].
      apply child_test_leb in E. rewrite key_leb_ltb in E.
      assert (klt x h) as Hk
          by (apply Hpre; [exact Hx|apply in_or_app; left; left; reflexivity]).
      unfold klt in Hk. rewrite Hk in E. discriminate. }
  replace (filter _ post) with (@nil Node).
  2:{ symmetry. apply filter_nil_iff. intros x Hx.
      destruct Hbs as [[-> _]|(h' & post' & bs' & -> & -> & Hs')];
        [destruct Hx|].
      assert (klt h x) as Hk by (apply Hcross; [left; reflexivity|exact Hx]).
      destruct (klt_keyed Hk) as [k' Ek]. unfold child_test. rewrite Ek.
      assert (key_ltb (Some k') (key h') = false) as F.
      { rewrite <- Ek. destruct Hx as [<-|Hx]; [apply key_ltb_irrefl|].
        apply key_ltb_asym. inversion Hs' as [|? ? _ Hall]; subst.
        rewrite Forall_forall in Hall. apply Hall. exact Hx. }
      rewrite F. apply andb_false_r. }
  rewrite app_nil_r. cbn [app]. apply filter_all. intros x Hx.
  assert (key_leb (key h) (key x) = true) as Hle.
  { destruct Hx as [<-|Hx]; [apply key_leb_refl|]. apply key_ltb_leb.
    inversion Hc as [|? ? _ Hall]; subst. rewrite Forall_forall in Hall.
    apply Hall. exact Hx. }
  unfold child_test. apply andb_true_iff. split.
  - destruct (key h) as [k0|]; [|reflexivity].
    destruct (key x) as [k'|]; [rewrite <- key_leb_Some; exact Hle|].
    simpl in Hle. discriminate.
  - destruct (key x) as [k'|] eqn:Ek; [|reflexivity].
    destruct Hbs as [[_ ->]|(h' & post' & bs' & -> & -> & _)]; [reflexivity|].
    rewrite <- Ek. apply Hcross; [exact Hx|left; reflexivity].
Qed.

Lemma later_boundaries_nodes (t : Tree.Tree) (s : Store) (i : nat)
      (c : Key) :
  uniq s ->
  Tree.later_boundaries t s i c
  = filter (later_test (Tree.below_limit t) c) (nodes s i).
Proof.
  intros Hu. rewrite later_boundaries_eq.
  exact (@select_filter s i (later_test (Tree.below_limit t) c) Hu).
Qed.

Lemma children_nodes (t : Tree.Tree) (s : Store) (i : nat) (c : Key) :
  uniq s ->
  Tree.children t s (S i) c
  = filter (child_test c (Tree.later_boundaries t s i c)) (nodes s i).
Proof.
  intros Hu. rewrite children_eq.
  rewrite <- (@select_filter s i
                (child_test c (Tree.later_boundaries t s i c)) Hu).
  f_equal. apply filter_ext. intros r. unfold child_of, child_test.
  rewrite andb_assoc. reflexivity.
Qed.

Lemma chunks_from_ext (p p' : Node -> bool) (rest : list Node) :
  (forall x, In x rest -> p x = p' x) ->
  forall cur, chunks_from p cur rest = chunks_from p' cur rest.
Proof.
  induction rest as [|n rest IH]; intros Hext cur; simpl; [reflexivity|].
  rewrite <- (Hext n (or_introl eq_refl)).
  assert (forall x, In x rest -> p x = p' x) as Hext'
      by (intros x Hx; apply Hext; right; exact Hx).
  destruct (p n); rewrite (IH Hext'); reflexivity.
Qed.

Lemma Chunked_split (p : Node -> bool) (first : Node) (rest : list Node)
      (cs : list (list Node)) (c : list Node) :
  Chunked p first rest cs -> In c cs ->
  exists pre h m post,
    c = h :: m
    /\ first :: rest = pre ++ (h :: m) ++ post
    /\ Forall (fun x => p x = false) m
    /\ (post = [] \/ exists h' post', post = h' :: post' /\ p h' = true)
    /\ ((pre = [] /\ h = first) \/ p h = true).
Proof.
  intros (m0 & cs' & -> & Hm0 & Hcs' & Hcat) Hc.
  assert (forall cs2, Forall (fun c => exists h m, c = h :: m /\ p h = true
                                  /\ Forall (fun x => p x = false) m) cs2 ->
                      concat cs2 = []
                      \/ exists h' post',
                           concat cs2 = h' :: post' /\ p h' = true) as Hhead.
  { intros [|c2 cs2] H2; [left; reflexivity|]. right.
    inversion H2 as [|? ? (h' & m' & -> & Hp & _) _]; subst.
    exists h', (m' ++ concat cs2). split; [reflexivity|exact Hp]. }
  destruct Hc as [<-|Hc].
  - exists [], first, m0, (concat cs'). split; [reflexivity|].
    split; [rewrite <- Hcat; reflexivity|]. split; [exact Hm0|].
    split; [apply Hhead; exact Hcs'|]. left. auto.
  - apply in_split in Hc. destruct Hc as (cs1 & cs2 & ->).
    apply Forall_app in Hcs'. destruct Hcs' as [_ Hcs'].
    inversion Hcs' as [|? ? (h & m & -> & Hp & Hm) H2]; subst.
    exists ((first :: m0) ++ concat cs1), h, m, (concat cs2).
    split; [reflexivity|]. split.
    + rewrite <- Hcat. simpl. rewrite concat_app. simpl.
      rewrite <- !app_assoc. reflexivity.
    + split; [exact Hm|]. split; [apply Hhead; exact H2|]. right. exact Hp.
Qed.

(** The children [getHash] selects for the key a chunk starts with are the
    members of the chunk, in order. *)
Lemma chunk_children (t : Tree.Tree) (s : Store) (l : nat) (first : Node)
      (rest : list Node) (cs : list (list Node)) (c : list Node) :
  uniq s -> nodes s l = first :: rest ->
  Chunked (Tree.below_limit t) first rest cs -> In c cs ->
  Tree.children t s (S l) (chunk_key c) = c.
Proof.
  intros Hu Hnodes Hch Hc.
  destruct (@Chunked_split _ _ _ _ c Hch Hc)
    as (pre & h & m & post & -> & E & Hm & Hp & _).
  simpl chunk_key. rewrite children_nodes, later_boundaries_nodes by exact Hu.
  rewrite Hnodes, E. apply segment_children; [|exact Hm|exact Hp].
  rewrite <- E, <- Hnodes. apply nodes_sorted. exact Hu.
Qed.

(** ** The tree [Builder.finalize] leaves is the one [Tree] maintains *)

Lemma nodes_head_anchor (s : Store) (l : nat) :
  uniq s -> hasRow s l None ->
  exists first rest, nodes s l = first :: rest /\ key first = None.
Proof.
  intros Hu (a & Ha & Hl & Hk).
  assert (In a (nodes s l)) as Hin by (apply nodes_In; auto).
  pose proof (nodes_sorted l Hu) as Hs.
  destruct (nodes s l) as [|f rest]; [destruct Hin|].
  exists f, rest. split; [reflexivity|]. destruct Hin as [->|Hin]; [exact Hk|].
  inversion Hs as [|? ? _ Hall]; subst. rewrite Forall_forall in Hall.
  destruct (klt_keyed (Hall a Hin)) as [k E]. congruence.
Qed.

Lemma nodes_single (s : Store) (l : nat) (k : bytes) :
  (length (nodes s l) <= 1)%nat -> hasRow s l None ->
  ~ hasRow s l (Some k).
Proof.
  intros Hlen (a & Ha & Hal & Hak) (r & Hr & Hrl & Hrk).
  assert (In a (nodes s l)) as Hina by (apply nodes_In; auto).
  assert (In r (nodes s l)) as Hinr by (apply nodes_In; auto).
  destruct (nodes s l) as [|x [|y rest]]; simpl in *; [tauto| |lia].
  destruct Hina as [<-|[]]. destruct Hinr as [<-|[]]. congruence.
Qed.

(** The rows of a level are determined by the rows of the level below. *)
Lemma level_step_same `{Hasher} (t : Tree.Tree) (s s' : Store) (l : nat) :
  uniq s -> uniq s' ->
  KS t s l -> KS t s' l ->
  HC t s l (fun _ => True) -> HC t s' l (fun _ => True) ->
  (hasRow s (S l) None <-> hasRow s' (S l) None) ->
  same_rows s s' l -> same_rows s s' (S l).
Proof.
  intros Hu Hu' HK HK' HH HH' Hanc Hsame.
  assert (forall a a' : Store,
             uniq a -> uniq a' -> KS t a l -> KS t a' l ->
             HC t a l (fun _ => True) -> HC t a' l (fun _ => True) ->
             (hasRow a (S l) None -> hasRow a' (S l) None) ->
             same_rows a a' l ->
             forall k h,
               (exists r, In r a /\ level r = S l /\ key r = k
                          /\ hash r = h) ->
               exists r, In r a' /\ level r = S l /\ key r = k
                         /\ hash r = h) as Hstep.
  { intros a a' Ua Ua' Ka Ka' Ha Ha' Han Hs k h (r & Hr & Hl & Hk & Hh).
    assert (hasRow a' (S l) k) as (r' & Hr' & Hl' & Hk').
    { destruct k as [y|].
      - apply Ka'. apply (same_rows_bnd t y Hs). apply Ka. exists r. auto.
      - apply Han. exists r. auto. }
    exists r'. repeat split; auto.
    rewrite (Ha' r' Hr' Hl' I), Hk', <- Hh, (Ha r Hr Hl I), Hk.
    symmetry. apply getHash_same_rows; auto. }
  intros k h. split.
  - apply (Hstep s s'); auto. tauto.
  - apply (Hstep s' s); auto; [tauto|].
    intros k' h'. symmetry. apply Hsame.
Qed.

Lemma Built_anchor_below `{Hasher} (t : Tree.Tree) (s : Store) (i : nat) :
  Built t s -> hasRow s (S i) None -> hasRow s i None.
Proof.
  intros HB Ha. destruct i as [|i]; [apply (built_wf HB)|].
  apply (built_anchors HB (i := S i)) in Ha; [|lia].
  destruct Ha as (k & r & Hr & Hl & Hk). rewrite <- Hl.
  apply (Built_anchor_exists r HB Hr).
Qed.

Lemma Built_anchors_upto `{Hasher} (t : Tree.Tree) (s : Store) (h : nat) :
  Built t s -> hasRow s h None ->
  forall i, (i <= h)%nat -> hasRow s i None.
Proof.
  intros HB. induction h as [|h IH]; intros Ha i Hi.
  - assert (i = 0%nat) as -> by lia. exact Ha.
  - destruct (Nat.eq_dec i (S h)) as [->|Hne]; [exact Ha|].
    apply IH; [|lia]. apply (Built_anchor_below HB Ha).
Qed.

Lemma nodes_anchor_only (s : Store) (l : nat) :
  uniq s ->
  (forall x, In x s -> level x = l -> key x = None) ->
  (length (nodes s l) <= 1)%nat.
Proof.
  intros Hu Hall. pose proof (nodes_sorted l Hu) as Hs.
  assert (forall x, In x (nodes s l) -> key x = None) as Hn
      by (intros x Hx; apply nodes_In in Hx; apply Hall; tauto).
  destruct (nodes s l) as [|x [|y rest]]; simpl; [lia|lia|].
  exfalso. inversion Hs as [|? ? _ Hf]; subst. rewrite Forall_forall in Hf.
  destruct (klt_keyed (Hf y (or_introl eq_refl))) as [k Ek].
  rewrite (Hn y) in Ek; [discriminate|]. right. left. reflexivity.
Qed.


Section BuilderTree.

Context {hasher : Hasher}.
Variable t : Tree.Tree.

Hypothesis Hsql :
  forall n, (4 <= length (hash n))%nat ->
            Tree.isBoundary t n = Ok (Tree.below_limit t n).
Hypothesis HK4 : (4 <= Tree.K t)%nat.

(** The builder works with the parameters of [t]. *)
Definition matches (b : Builder.Builder) : Prop :=
  Builder.K b = Tree.K t /\ Builder.limit b = Tree.LIMIT t.

Lemma boundary_agree (b : Builder.Builder) (n : Node) :
  matches b -> (4 <= length (hash n))%nat ->
  builder_boundary b n = Tree.below_limit t n.
Proof.
  intros [_ Hlim] Hlen. pose proof (Hsql n Hlen) as E.
  unfold Tree.isBoundary in E. rewrite getUint32_be32 in E by exact Hlen.
  simpl in E. injection E as E. unfold builder_boundary. rewrite Hlim.
  exact E.
Qed.

(** The levels up to [l] are built and nothing lies above; [cnt] is the
    number of rows on level [l]. *)
Record Levels (s : Store) (l cnt : nat) : Prop := mkLevels
  { lv_wf : wf t s;
    lv_top : forall r, In r s -> (level r <= l)%nat;
    lv_anchor : forall i, (i <= l)%nat -> hasRow s i None;
    lv_keys : forall i, (i < l)%nat -> KS t s i;
    lv_hashes : forall i, (i < l)%nat -> HC t s i (fun _ => True);
    lv_keyed :
      forall i, (1 <= i)%nat -> (i < l)%nat -> exists k, hasRow s i (Some k);
    lv_count : cnt = length (nodes s l) }.

Lemma Levels_Built (s : Store) (l cnt : nat) :
  Levels s l cnt -> (1 <= l)%nat -> (cnt <= 1)%nat -> Built t s.
Proof.
  intros [Hwf Htop Hanc Hkeys Hhash Hkeyed Hcnt] Hl Hc.
  assert (forall i x, (l < i)%nat -> ~ hasRow s i x) as Habove.
  { intros i x Hi (r & Hr & Hrl & _). apply Htop in Hr. lia. }
  assert (forall k, ~ hasRow s l (Some k)) as Hnok.
  { intros k. apply nodes_single; [lia|]. apply Hanc. lia. }
  constructor.
  - exact Hwf.
  - apply Hanc. exact Hl.
  - intros i. destruct (Nat.lt_ge_cases i l) as [Hi|Hi]; [auto|].
    intros k. split.
    + intros Hrow. exfalso. apply (Habove (S i) (Some k)); [lia|exact Hrow].
    + intros Hb. apply bnd_hasRow in Hb. exfalso.
      destruct (Nat.eq_dec i l) as [->|Hne]; [exact (Hnok k Hb)|].
      apply (Habove i (Some k)); [lia|exact Hb].
  - intros i. destruct (Nat.lt_ge_cases i l) as [Hi|Hi]; [auto|].
    intros r Hr Hrl _. apply Htop in Hr. lia.
  - intros i Hi1. destruct (Nat.lt_ge_cases i l) as [Hi|Hi].
    + split; [intros _; apply Hkeyed; assumption|].
      intros _. apply Hanc. lia.
    + split.
      * intros Hrow. exfalso. apply (Habove (S i) None); [lia|exact Hrow].
      * intros [k Hrow]. exfalso.
        destruct (Nat.eq_dec i l) as [->|Hne]; [exact (Hnok k Hrow)|].
        apply (Habove i (Some k)); [lia|exact Hrow].
Qed.

Lemma Levels_step (b : Builder.Builder) (l : nat) (b1 : Builder.Builder)
      (c : nat) :
  matches b ->
  Levels (Builder.rows (Builder.store b)) l (Builder.nodeCount b) ->
  (1 < Builder.nodeCount b)%nat ->
  Builder.buildLevel b l = Ok (b1, c) ->
  Levels (Builder.rows (Builder.store b1)) (l + 1) c
  /\ forall x, (level x <= l)%nat ->
               (In x (Builder.rows (Builder.store b1))
                <-> In x (Builder.rows (Builder.store b))).
Proof.
  intros Hm [Hwf Htop Hanc Hkeys Hhash Hkeyed Hcnt] Hgt Hb.
  destruct Hwf as (Hu & Hlen & H0).
  destruct (nodes_head_anchor Hu (Hanc l (le_n l)))
    as (first & rest & Hnodes & Hfirst).
  assert (forall n, In n (first :: rest) ->
                    In n (Builder.rows (Builder.store b)) /\ level n = l)
    as Hmem.
  { intros n Hn. rewrite <- Hnodes in Hn. apply nodes_In in Hn. exact Hn. }
  assert (forall n, In n rest -> (4 <= length (hash n))%nat) as Hlen4.
  { intros n Hn. rewrite (Hlen n); [exact HK4|]. apply Hmem. right. exact Hn. }
  assert (exists k, hasRow (Builder.rows (Builder.store b)) l (Some k))
    as Hsecond.
  { pose proof (nodes_sorted l Hu) as Hs. rewrite Hcnt, Hnodes in Hgt.
    rewrite Hnodes in Hs. destruct rest as [|x rest']; [simpl in Hgt; lia|].
    inversion Hs as [|? ? _ Hall]. rewrite Forall_forall in Hall.
    destruct (klt_keyed (Hall x (or_introl eq_refl))) as [k Ek].
    exists k, x. destruct (Hmem x) as [Hxs Hxl]; [right; left; reflexivity|].
    auto. }
  rewrite (@buildLevel_run _ b l first rest Hnodes Hfirst Hlen4) in Hb.
  injection Hb as <- <-. cbn [Builder.store].
  rewrite fold_store_setNode_rows.
  rewrite (@chunks_from_ext (builder_boundary b) (Tree.below_limit t) rest)
    by (intros x Hx; apply boundary_agree; [exact Hm|apply Hlen4; exact Hx]).
  pose proof (chunks_from_Chunked (Tree.below_limit t) first rest) as Hch.
  set (s := Builder.rows (Builder.store b)) in *.
  set (cs := chunks_from (Tree.below_limit t) [first] rest) in *.
  set (ps := map (parent_of (Builder.K b) l) cs).
  assert (NoDup (map (fun r => (level r, key r)) ps)) as Hnd
      by (eapply parents_NoDup; eauto).
  set (s' := fold_left setNode ps s).
  assert (forall x, In x ps -> level x = (l + 1)%nat) as Hpl.
  { intros x Hx. apply in_map_iff in Hx. destruct Hx as (c0 & <- & _).
    reflexivity. }
  assert (forall x, In x s' <-> In x ps \/ In x s) as Hin.
  { intros x. unfold s'. rewrite (@fold_setNode_In ps Hnd). split.
    - intros [Hx|[Hx _]]; auto.
    - intros [Hx|Hx]; [auto|]. right. split; [exact Hx|].
      intros p Hp [Hlp _]. apply Htop in Hx. rewrite (Hpl p Hp) in Hlp. lia. }
  assert (forall x, (level x <= l)%nat -> (In x s' <-> In x s)) as Hlow.
  { intros x Hx. rewrite Hin. split; [|auto].
    intros [Hp|Hs]; [apply Hpl in Hp; lia|exact Hs]. }
  assert (uniq s') as Hu' by (apply fold_setNode_uniq; exact Hu).
  split; [|exact Hlow]. constructor.
  - split; [exact Hu'|]. split.
    + intros r Hr. apply Hin in Hr. destruct Hr as [Hr|Hr];
        [|apply Hlen; exact Hr].
      apply in_map_iff in Hr. destruct Hr as (c0 & <- & _). simpl.
      rewrite hashFn_length. exact (proj1 Hm).
    + destruct H0 as (a & Ha & Hal & Hak). exists a.
      split; [apply Hin; right; exact Ha|auto].
  - intros r Hr. apply Hin in Hr. destruct Hr as [Hr|Hr];
      [rewrite (Hpl r Hr); lia|apply Htop in Hr; lia].
  - intros i Hi. destruct (Nat.eq_dec i (l + 1)) as [->|Hne].
    + destruct Hch as (m0 & cs' & Ecs & _).
      exists (parent_of (Builder.K b) l (first :: m0)).
      split; [apply Hin; left; unfold ps; rewrite Ecs; left; reflexivity|].
      split; [reflexivity|exact Hfirst].
    + destruct (Hanc i) as (a & Ha & Hal & Hak); [lia|]. exists a.
      split; [apply Hin; right; exact Ha|auto].
  - intros i Hi. destruct (Nat.eq_dec i l) as [->|Hne].
    + intros k. split.
      * intros (r & Hr & Hrl & Hrk). apply Hin in Hr.
        destruct Hr as [Hr|Hr]; [|apply Htop in Hr; lia].
        apply in_map_iff in Hr. destruct Hr as (c0 & <- & Hc0).
        destruct (@Chunked_split _ _ _ _ c0 Hch Hc0)
          as (pre & h & m & post & -> & E & _ & _ & [[-> ->]|Hp]);
          simpl in Hrk; [congruence|].
        assert (In h (first :: rest)) as Hh
            by (rewrite E; apply in_or_app; right; left; reflexivity).
        destruct (Hmem h Hh) as [Hhs Hhl]. exists h.
        split; [apply Hin; right; exact Hhs|]. auto.
      * intros (r & Hr & Hrl & Hrk & Hrb). apply Hlow in Hr; [|lia].
        assert (In r (nodes s l)) as Hrn by (apply nodes_In; auto).
        rewrite Hnodes in Hrn.
        destruct Hch as (m0 & cs' & Ecs & Hm0 & Hcs' & Hcat).
        rewrite <- Hcat in Hrn. apply in_concat in Hrn.
        destruct Hrn as (c0 & Hc0 & Hrc0). rewrite Ecs in Hc0.
        destruct Hc0 as [<-|Hc0].
        -- destruct Hrc0 as [<-|Hrm]; [congruence|].
           rewrite Forall_forall in Hm0. rewrite (Hm0 r Hrm) in Hrb.
           discriminate.
        -- rewrite Forall_forall in Hcs'.
           destruct (Hcs' c0 Hc0) as (h & m & -> & Hp & Hmm).
           destruct Hrc0 as [<-|Hrm].
           ++ exists (parent_of (Builder.K b) l (h :: m)).
              split; [apply Hin; left; unfold ps; apply in_map; rewrite Ecs;
                      right; exact Hc0|].
              split; [simpl; lia|exact Hrk].
           ++ rewrite Forall_forall in Hmm. rewrite (Hmm r Hrm) in Hrb.
              discriminate.
    + intros k.
      assert (hasRow s (S i) (Some k) <-> hasRow s' (S i) (Some k)) as A1
          by (apply hasRow_agree; intros; symmetry; apply Hlow; lia).
      assert (bnd t s i k <-> bnd t s' i k) as A2
          by (apply bnd_agree; intros; symmetry; apply Hlow; lia).
      assert (i < l)%nat as Hil by lia. pose proof (Hkeys i Hil k). tauto.
  - intros i Hi r Hr Hrl _.
    assert (Tree.getHash t s' (S i) (key r) = Tree.getHash t s (S i) (key r))
      as Hfr
        by (apply getHash_frame_level;
            [exact Hu'|exact Hu|intros x Hx; apply Hlow; lia]).
    rewrite Hfr. apply Hin in Hr. destruct Hr as [Hr|Hr].
    + apply in_map_iff in Hr. destruct Hr as (c0 & <- & Hc0).
      simpl in Hrl. assert (i = l) as -> by lia. simpl.
      rewrite getHash_concat.
      rewrite (proj1 Hm). do 3 f_equal. symmetry.
      exact (@chunk_children t s l first rest cs c0 Hu Hnodes Hch Hc0).
    + assert (i < l)%nat as Hil by (apply Htop in Hr; lia).
      apply (Hhash i Hil r Hr Hrl I).
  - intros i Hi1 Hi. destruct (Nat.eq_dec i l) as [->|Hne].
    + destruct Hsecond as [k (x & Hx & H1 & H2)]. exists k, x.
      split; [apply Hin; right; exact Hx|auto].
    + destruct (Hkeyed i Hi1) as [k (x & Hx & H1 & H2)]; [lia|].
      exists k, x. split; [apply Hin; right; exact Hx|auto].
  - symmetry. unfold s'. rewrite parents_count.
    + unfold ps. apply length_map.
    + exact Hu.
    + intros r Hr E. apply Htop in Hr. lia.
    + exact Hnd.
    + exact Hpl.
Qed.


Lemma Builds_Levels (b : Builder.Builder) (l m : nat)
      (b' : Builder.Builder) :
  Builds b l m b' ->
  matches b ->
  Levels (Builder.rows (Builder.store b)) l (Builder.nodeCount b) ->
  Levels (Builder.rows (Builder.store b')) (l + m) (Builder.nodeCount b')
  /\ forall x, (level x <= l)%nat ->
               (In x (Builder.rows (Builder.store b'))
                <-> In x (Builder.rows (Builder.store b))).
Proof.
  induction 1 as [b l|b l b1 c m b' Hc Hb HB IH]; intros Hm HL.
  - rewrite Nat.add_0_r. split; [exact HL|tauto].
  - destruct (Levels_step Hm HL Hc Hb) as [HL1 Hlow1].
    destruct IH as [HL' Hlow']; [exact Hm|exact HL1|].
    replace (l + S m)%nat with ((l + 1) + m)%nat by lia.
    split; [exact HL'|]. intros x Hx. simpl in Hlow'.
    rewrite Hlow' by lia. apply Hlow1. exact Hx.
Qed.

(** What [finalize] leaves, when it returns on a builder with entries: a
    table that meets the invariant of [Tree], with the returned node its
    anchor on the top level, and the leaf level as it was. *)
Lemma finalize_Built (fuel : nat) (b : Builder.Builder) (root : Node)
      (b' : Builder.Builder) :
  matches b ->
  Levels (Builder.rows (Builder.store b)) 0 (Builder.nodeCount b) ->
  (1 < Builder.nodeCount b)%nat ->
  Builder.finalize fuel b = Ok (root, b') ->
  Built t (Builder.rows (Builder.store b'))
  /\ In root (Builder.rows (Builder.store b'))
  /\ key root = None
  /\ (forall r, In r (Builder.rows (Builder.store b')) ->
                (level r <= level root)%nat)
  /\ (forall x, level x = 0%nat ->
                (In x (Builder.rows (Builder.store b'))
                 <-> In x (Builder.rows (Builder.store b)))).
Proof.
  intros Hm HL Hgt Hf. unfold Builder.finalize in Hf.
  apply finalizeLoop_sound in Hf. destruct Hf as (m & _ & HB & Hn & Hr).
  simpl in Hr. apply getNode_Some in Hr. destruct Hr as (Hin & Hlev & Hkey).
  destruct (Builds_Levels HB Hm HL) as [HL' Hlow]. simpl in HL'.
  assert (1 <= m)%nat as Hm1.
  { destruct m as [|m]; [|lia]. inversion HB; subst. lia. }
  split; [exact (Levels_Built HL' Hm1 Hn)|]. split; [exact Hin|].
  split; [exact Hkey|]. split.
  - intros r Hr. rewrite Hlev. exact (lv_top HL' r Hr).
  - intros x Hx. apply Hlow. lia.
Qed.


Lemma Levels_buildLevel (b : Builder.Builder) (l : nat) :
  Levels (Builder.rows (Builder.store b)) l (Builder.nodeCount b) ->
  exists b1 c, Builder.buildLevel b l = Ok (b1, c).
Proof.
  intros [Hwf Htop Hanc _ _ _ _]. destruct Hwf as (Hu & Hlen & _).
  destruct (nodes_head_anchor Hu (Hanc l (le_n l)))
    as (first & rest & Hnodes & Hfirst).
  eexists _, _. apply (@buildLevel_run _ b l first rest Hnodes Hfirst).
  intros n Hn. rewrite (Hlen n); [exact HK4|].
  assert (In n (nodes (Builder.rows (Builder.store b)) l)) as Hin
      by (rewrite Hnodes; right; exact Hn).
  apply nodes_In in Hin. tauto.
Qed.

(** The builder reaches the top level of a tree with the same leaves: it
    builds the levels below it and stops there. *)
Lemma Builds_reach (s : Store) (h : nat) :
  Built t s ->
  hasRow s h None ->
  (forall x, In x s -> (level x <= h)%nat) ->
  forall (d l : nat) (b : Builder.Builder),
    h = (l + d)%nat ->
    matches b ->
    Levels (Builder.rows (Builder.store b)) l (Builder.nodeCount b) ->
    (forall j, (j <= l)%nat ->
               same_rows (Builder.rows (Builder.store b)) s j) ->
    (l = 0%nat -> (1 <= d)%nat -> exists k, hasRow s 0 (Some k)) ->
    exists b' root,
      Builds b l d b' /\ (Builder.nodeCount b' <= 1)%nat
      /\ getNode (Builder.rows (Builder.store b')) h None = Some root.
Proof.
  intros HB Htopa Htop.
  induction d as [|d IH]; intros l b Hh Hm HL Hsame Hleafs.
  - rewrite Nat.add_0_r in Hh. subst h. exists b.
    destruct (lv_anchor HL (le_n l)) as (a & Ha & Hal & Hak).
    exists a. split; [constructor|]. split.
    + rewrite (lv_count HL). apply nodes_anchor_only; [apply (lv_wf HL)|].
      intros x Hx Hxl.
      destruct (proj1 (Hsame l (le_n l) (key x) (hash x)))
        as (x' & Hx' & Hl' & Hk' & _); [exists x; auto|].
      rewrite <- Hk'. apply (@Built_top _ t s x' HB Hx').
      intros y Hy. rewrite Hl'. apply Htop. exact Hy.
    + apply getNode_iff; [apply (lv_wf HL)|auto].
  - assert (exists k, hasRow s l (Some k)) as [k Hk].
    { destruct l as [|l]; [apply Hleafs; [reflexivity|lia]|].
      apply (built_anchors HB (i := S l)); [lia|].
      apply (Built_anchors_upto HB Htopa). lia. }
    assert (1 < Builder.nodeCount b)%nat as Hgt.
    { destruct (le_gt_dec (Builder.nodeCount b) 1) as [Hle|Hgt];
        [|exact Hgt].
      exfalso. rewrite (lv_count HL) in Hle.
      apply (@nodes_single _ l k Hle (lv_anchor HL (le_n l))).
      apply (same_rows_hasRow (Some k) (Hsame l (le_n l))). exact Hk. }
    destruct (@Levels_buildLevel b l HL) as (b1 & c & Hb).
    destruct (Levels_step Hm HL Hgt Hb) as [HL1 Hlow].
    assert (forall i, (i <= l)%nat ->
                      same_rows (Builder.rows (Builder.store b1)) s i)
      as Hlows.
    { intros i Hi k' h'. rewrite <- (Hsame i Hi k' h').
      split; intros (x & Hx & Hxl & Hrest); exists x.
      - split; [apply (proj1 (Hlow x ltac:(lia))); exact Hx|auto].
      - split; [apply (proj2 (Hlow x ltac:(lia))); exact Hx|auto]. }
    destruct (IH (l + 1)%nat
                 (Builder.mkBuilder (Builder.K b) (Builder.Q b)
                                    (Builder.limit b) (Builder.store b1) c))
      as (b' & root & HBs & Hn & Hr).
    + lia.
    + exact Hm.
    + exact HL1.
    + intros j Hj. simpl.
      destruct (Nat.eq_dec j (l + 1)) as [->|Hne]; [|apply Hlows; lia].
      replace (l + 1)%nat with (S l) by lia.
      apply (@level_step_same _ t).
      * apply (lv_wf HL1).
      * apply (built_wf HB).
      * apply (lv_keys HL1). lia.
      * apply (built_keys HB).
      * apply (lv_hashes HL1). lia.
      * apply (built_hashes HB).
      * split; intros _.
        -- apply (Built_anchors_upto HB Htopa). lia.
        -- replace (S l) with (l + 1)%nat by lia. apply (lv_anchor HL1). lia.
      * apply Hlows. lia.
    + intros E. lia.
    + exists b', root. split; [econstructor; eauto|].
      split; [exact Hn|exact Hr].
Qed.


End BuilderTree.

(** ** Order independence (C1) *)

(** The [set] calls for a list of entries, on the tree and on the builder,
    and the leaf both write for an entry. *)
Definition set_ops (ps : list (bytes * bytes)) : list Op :=
  map (fun kv => OpSet (fst kv) (snd kv)) ps.

Definition build_sets `{Hasher} (b : Builder.Builder)
           (ps : list (bytes * bytes)) : Builder.Builder :=
  fold_left (fun b kv => Builder.set b (fst kv) (snd kv)) ps b.

Definition leaf_of `{Hasher} (t : Tree.Tree) (kv : bytes * bytes) : Node :=
  mkNode 0 (Some (fst kv)) (Tree.hashEntry t (fst kv) (snd kv))
         (Some (snd kv)).

(** Modelled from the spec: the store the builder is given has been
    initialised, so it holds the level-0 anchor with the digest of the empty
    byte sequence, as [Tree.initialize] writes it. *)
Definition fresh_store `{Hasher} (K : nat) (Q : Z) : Builder.NodeStore :=
  Builder.mkNodeStore K Q [mkNode 0 None (hashFn K []) None].

(** Entries in ascending key order. *)
Definition ascending (ps : list (bytes * bytes)) : Prop :=
  StronglySorted (fun a b => bytes_ltb (fst a) (fst b) = true) ps.

Lemma ascending_NoDup (ps : list (bytes * bytes)) :
  ascending ps -> NoDup (map fst ps).
Proof.
  induction ps as [|a ps IH]; simpl; intros Hs; [constructor|].
  inversion Hs as [|? ? Hs' Hall]; subst. rewrite Forall_forall in Hall.
  constructor; [|apply IH; exact Hs']. intros Hin. apply in_map_iff in Hin.
  destruct Hin as (x & Ex & Hx). specialize (Hall x Hx). simpl in Hall.
  rewrite Ex in Hall. pose proof (key_ltb_irrefl (Some (fst a))) as F.
  simpl in F. congruence.
Qed.

Lemma hashEntry_agree `{Hasher} (t : Tree.Tree) (k v : bytes)
      (st : Builder.NodeStore) :
  Builder.metadata_K st = Tree.K t ->
  Builder.hashEntry k v st = Tree.hashEntry t k v.
Proof.
  intros E. unfold Builder.hashEntry, Tree.hashEntry, Hash.digest,
    Hash.update, Hash.create. simpl. rewrite E, <- !app_assoc. reflexivity.
Qed.

Lemma build_sets_spec `{Hasher} (t : Tree.Tree) (ps : list (bytes * bytes)) :
  forall b,
    Builder.metadata_K (Builder.store b) = Tree.K t ->
    Builder.K (build_sets b ps) = Builder.K b
    /\ Builder.limit (build_sets b ps) = Builder.limit b
    /\ Builder.nodeCount (build_sets b ps)
       = (Builder.nodeCount b + length ps)%nat
    /\ Builder.rows (Builder.store (build_sets b ps))
       = fold_left setNode (map (leaf_of t) ps)
                   (Builder.rows (Builder.store b)).
Proof.
  induction ps as [|[k v] ps IH]; intros b Hk; simpl.
  - repeat split; auto.
  - destruct (IH (Builder.set b k v)) as (E1 & E2 & E3 & E4); [exact Hk|].
    unfold build_sets in *. rewrite E1, E2, E3, E4. simpl.
    unfold leaf_of. simpl. rewrite (hashEntry_agree t k v _ Hk).
    repeat split; auto. lia.
Qed.

Lemma leaves_NoDup `{Hasher} (t : Tree.Tree) (ps : list (bytes * bytes)) :
  NoDup (map fst ps) ->
  NoDup (map (fun r => (level r, key r)) (map (leaf_of t) ps)).
Proof.
  induction ps as [|a ps IH]; simpl; intros Hnd; [constructor|].
  inversion Hnd as [|? ? Hnin Hnd']; subst. constructor; [|auto].
  intros Hin. apply Hnin. rewrite map_map in Hin. apply in_map_iff in Hin.
  destruct Hin as (x & Ex & Hx). simpl in Ex. apply in_map_iff. exists x.
  split; [congruence|exact Hx].
Qed.

Lemma leaves_rows `{Hasher} (t : Tree.Tree) (ps : list (bytes * bytes))
      (a : Node) :
  NoDup (map fst ps) -> key a = None ->
  forall x, In x (fold_left setNode (map (leaf_of t) ps) [a])
            <-> x = a \/ In x (map (leaf_of t) ps).
Proof.
  intros Hnd Ha x.
  rewrite (@fold_setNode_In _ (@leaves_NoDup _ t ps Hnd)). split.
  - intros [Hx|[[<-|[]] _]]; auto.
  - intros [->|Hx]; [|auto]. right. split; [left; reflexivity|].
    intros p Hp [_ Hk]. apply in_map_iff in Hp. destruct Hp as (kv & <- & _).
    simpl in Hk. congruence.
Qed.

Lemma leaves_Levels `{Hasher} (t : Tree.Tree) (ps : list (bytes * bytes)) :
  NoDup (map fst ps) ->
  Levels t (fold_left setNode (map (leaf_of t) ps)
                      [mkNode 0 None (hashFn (Tree.K t) []) None])
         0 (1 + length ps).
Proof.
  intros Hnd. set (a := mkNode 0 None (hashFn (Tree.K t) []) None).
  pose proof (@leaves_rows _ t ps a Hnd eq_refl) as Hin.
  assert (uniq [a]) as Hua
      by (unfold uniq; simpl; constructor; [intros []|constructor]).
  assert (forall x, In x (map (leaf_of t) ps) ->
                    level x = 0%nat /\ key x <> None
                    /\ length (hash x) = Tree.K t) as Hleaf.
  { intros x Hx. apply in_map_iff in Hx. destruct Hx as (kv & <- & _).
    simpl. split; [reflexivity|]. split; [discriminate|].
    apply hashEntry_length. }
  constructor.
  - split; [apply fold_setNode_uniq; exact Hua|]. split.
    + intros r Hr. apply Hin in Hr. destruct Hr as [->|Hr];
        [apply hashFn_length|apply Hleaf; exact Hr].
    + exists a. split; [apply Hin; left; reflexivity|auto].
  - intros r Hr. apply Hin in Hr. destruct Hr as [->|Hr]; [simpl; lia|].
    destruct (Hleaf r Hr) as [-> _]. lia.
  - intros i Hi. assert (i = 0%nat) as -> by lia. exists a.
    split; [apply Hin; left; reflexivity|auto].
  - intros i Hi. lia.
  - intros i Hi. lia.
  - intros i _ Hi. lia.
  - change (fold_left setNode (map (leaf_of t) ps) [a])
      with (fold_left setNode (a :: map (leaf_of t) ps) []).
    rewrite parents_count.
    + simpl. rewrite length_map. reflexivity.
    + constructor.
    + intros r [].
    + simpl. constructor; [|apply leaves_NoDup; exact Hnd].
      intros Hx. apply in_map_iff in Hx. destruct Hx as (x & Ex & Hx).
      apply Hleaf in Hx. destruct Hx as (_ & Hk & _). congruence.
    + intros x [<-|Hx]; [reflexivity|apply Hleaf; exact Hx].
Qed.

Lemma run_sets_rows `{Hasher} (t : Tree.Tree) (fuel : nat) :
  (forall n, (4 <= length (hash n))%nat ->
             Tree.isBoundary t n = Ok (Tree.below_limit t n)) ->
  (4 <= Tree.K t)%nat ->
  Tree.LEAF_ANCHOR_HASH t = hashFn (Tree.K t) [] ->
  forall (ps : list (bytes * bytes)) (s x s' : Store),
    Built t s \/ Fresh t s ->
    (forall r, level r = 0%nat -> (In r s <-> In r x)) ->
    run t fuel (set_ops ps) s = Ok s' ->
    (Built t s' \/ Fresh t s')
    /\ forall r, level r = 0%nat ->
                 (In r s'
                  <-> In r (fold_left setNode (map (leaf_of t) ps) x)).
Proof.
  intros Hsql HK Hleaf.
  induction ps as [|[k v] ps IH]; intros s x s' Hs Hx Hrun.
  - unfold run in Hrun. simpl in Hrun. injection Hrun as <-.
    split; [exact Hs|exact Hx].
  - change (set_ops ((k, v) :: ps)) with (OpSet k v :: set_ops ps) in Hrun.
    apply run_cons in Hrun. destruct Hrun as (s1 & H1 & Hrun).
    simpl in H1.
    destruct (@set_Built _ t Hsql HK Hleaf fuel s k v s1 Hs H1)
      as [HB1 Hrows].
    apply (IH s1 (setNode x (leaf_of t (k, v))) s');
      [left; exact HB1| |exact Hrun].
    intros r Hr. rewrite (Hrows r Hr), !setNode_In_iff.
    pose proof (Hx r Hr) as Hxr. unfold leaf_of. simpl. tauto.
Qed.

(** The two stores after the [set] calls for at least one entry. *)
Lemma sets_states `{Hasher} (optK : option nat) (optQ : option Z)
      (t : Tree.Tree) (s0 : Store) (pairs perm : list (bytes * bytes))
      (fuel : nat) (s : Store) (b0 : Builder.Builder) :
  Tree.constructor optK optQ = Ok t ->
  Fresh t s0 ->
  (2 <= Tree.Q t)%Z ->
  (4 <= Tree.K t)%nat ->
  ascending pairs -> pairs <> [] ->
  Permutation pairs perm ->
  run t fuel (set_ops perm) s0 = Ok s ->
  Builder.constructor (fresh_store (Tree.K t) (Tree.Q t)) = Ok b0 ->
  Built t s
  /\ matches t (build_sets b0 pairs)
  /\ Levels t (Builder.rows (Builder.store (build_sets b0 pairs))) 0
            (Builder.nodeCount (build_sets b0 pairs))
  /\ (1 < Builder.nodeCount (build_sets b0 pairs))%nat
  /\ (forall x, level x = 0%nat ->
                (In x s
                 <-> In x (Builder.rows (Builder.store (build_sets b0 pairs)))))
  /\ exists k, hasRow s 0 (Some k).
Proof.
  intros Ht HF HQ HK Hasc Hne Hperm Hrun Hb0.
  destruct (tree_params optK optQ Ht HQ) as [Hsql Hleaf].
  destruct (constructor_Ok optK optQ Ht) as (_ & HLIM & _ & _).
  unfold Builder.constructor, fresh_store in Hb0. simpl in Hb0.
  destruct (Tree.Q t =? 0)%Z; [discriminate|]. injection Hb0 as <-.
  pose proof (ascending_NoDup Hasc) as Hnd.
  assert (NoDup (map fst perm)) as Hndp.
  { eapply Permutation_NoDup; [apply Permutation_map; exact Hperm|exact Hnd]. }
  set (a := mkNode 0 None (hashFn (Tree.K t) []) None) in *.
  assert (s0 = [a]) as Hs0
      by (unfold Fresh in HF; rewrite Hleaf in HF; exact HF).
  destruct (@run_sets_rows _ t fuel Hsql HK Hleaf perm s0 s0 s
              (or_intror HF) (fun _ _ => iff_refl _) Hrun) as [HBs Hrows].
  match goal with
  | |- context [build_sets ?B _] => set (B0 := B) in *
  end.
  destruct (@build_sets_spec _ t pairs B0 eq_refl) as (EK & EL & EC & ER).
  set (b := build_sets B0 pairs) in *.
  unfold B0 in EK, EL, EC, ER.
  cbn [Builder.K Builder.limit Builder.nodeCount Builder.store
       Builder.rows] in EK, EL, EC, ER.
  destruct perm as [|q perm'];
    [apply Permutation_sym, Permutation_nil in Hperm; contradiction|].
  assert (In (leaf_of t q) s) as Hq.
  { apply (Hrows (leaf_of t q) eq_refl). rewrite Hs0.
    apply leaves_rows; [exact Hndp|reflexivity|].
    right. left. reflexivity. }
  split.
  { destruct HBs as [HBs|HFs]; [exact HBs|]. exfalso.
    destruct (@Fresh_rows t s (leaf_of t q) HFs Hq) as [_ Hk].
    discriminate. }
  split; [split; [exact EK|rewrite EL; symmetry; exact HLIM]|].
  split; [rewrite ER, EC; apply leaves_Levels; exact Hnd|].
  split.
  { rewrite EC. destruct pairs; [contradiction|]. simpl. lia. }
  split.
  - intros x Hx. rewrite (Hrows x Hx), ER, Hs0.
    rewrite !leaves_rows by (assumption || reflexivity).
    assert (In x (map (leaf_of t) (q :: perm'))
            <-> In x (map (leaf_of t) pairs)) as Hp.
    { split; apply Permutation_in; apply Permutation_map;
        [apply Permutation_sym|]; exact Hperm. }
    tauto.
  - exists (fst q), (leaf_of t q). auto.
Qed.

(** Whenever [finalize] returns, it returns the root of the tree. *)
Lemma finalize_same_root `{Hasher} (optK : option nat) (optQ : option Z)
      (t : Tree.Tree) (s0 : Store) (pairs perm : list (bytes * bytes))
      (fuel fuelB : nat) (s : Store) (r : Node)
      (b0 : Builder.Builder) (root : Node) (b' : Builder.Builder) :
  Tree.constructor optK optQ = Ok t ->
  Fresh t s0 ->
  (2 <= Tree.Q t)%Z ->
  (4 <= Tree.K t)%nat ->
  ascending pairs -> pairs <> [] ->
  Permutation pairs perm ->
  run t fuel (set_ops perm) s0 = Ok s ->
  Tree.getRoot s = Ok r ->
  Builder.constructor (fresh_store (Tree.K t) (Tree.Q t)) = Ok b0 ->
  Builder.finalize fuelB (build_sets b0 pairs) = Ok (root, b') ->
  hash r = hash root /\ level r = level root.
Proof.
  intros Ht HF HQ HK Hasc Hne Hperm Hrun Hroot Hb0 Hfin.
  destruct (tree_params optK optQ Ht HQ) as [Hsql Hleaf].
  destruct (@sets_states _ optK optQ t s0 pairs perm fuel s b0 Ht HF HQ HK
                         Hasc Hne Hperm Hrun Hb0)
    as (HB & Hmatch & HL & Hgt & Hsame0 & _).
  destruct (@finalize_Built _ t Hsql HK fuelB _ root b' Hmatch HL Hgt Hfin)
    as (HBb & Hrin & Hrk & Hrtop & Hr0).
  assert (same_rows s (Builder.rows (Builder.store b')) 0) as Hsame.
  { intros k h. split; intros (x & Hx & Hl & Hkh); exists x.
    - split; [apply (Hr0 x Hl), (Hsame0 x Hl); exact Hx|auto].
    - split; [apply (Hsame0 x Hl), (Hr0 x Hl); exact Hx|auto]. }
  pose proof (Built_same HB HBb Hsame) as Hall.
  apply getRoot_Ok in Hroot. destruct Hroot as (r0 & Hr0in & -> & Hmax).
  pose proof (@Built_top _ t s r0 HB Hr0in Hmax) as Hr0k. simpl.
  destruct (proj1 (Hall (level r0) None (hash r0)))
    as (r' & Hr' & Hl' & Hk' & Hh'); [exists r0; auto|].
  destruct (proj2 (Hall (level root) (key root) (hash root)))
    as (r'' & Hr'' & Hl'' & _); [exists root; auto|].
  pose proof (Hrtop r' Hr') as Hle1. pose proof (Hmax r'' Hr'') as Hle2.
  assert (level r' = level root) as Hlev by lia.
  assert (r' = root) as ->.
  { apply (@uniq_In_eq (Builder.rows (Builder.store b'))); auto;
      [apply (built_wf HBb)|congruence]. }
  split; [congruence|lia].
Qed.

(** Once the tree is there, [finalize] returns when its budget covers the
    levels of the tree. *)
Lemma finalize_returns `{Hasher} (optK : option nat) (optQ : option Z)
      (t : Tree.Tree) (s0 : Store) (pairs perm : list (bytes * bytes))
      (fuel : nat) (s : Store) (r : Node) (b0 : Builder.Builder) :
  Tree.constructor optK optQ = Ok t ->
  Fresh t s0 ->
  (2 <= Tree.Q t)%Z ->
  (4 <= Tree.K t)%nat ->
  ascending pairs -> pairs <> [] ->
  Permutation pairs perm ->
  run t fuel (set_ops perm) s0 = Ok s ->
  Tree.getRoot s = Ok r ->
  Builder.constructor (fresh_store (Tree.K t) (Tree.Q t)) = Ok b0 ->
  exists root b',
    forall fuelB, (level r <= fuelB)%nat ->
                  Builder.finalize fuelB (build_sets b0 pairs)
                  = Ok (root, b').
Proof.
  intros Ht HF HQ HK Hasc Hne Hperm Hrun Hroot Hb0.
  destruct (tree_params optK optQ Ht HQ) as [Hsql Hleaf].
  destruct (@sets_states _ optK optQ t s0 pairs perm fuel s b0 Ht HF HQ HK
                         Hasc Hne Hperm Hrun Hb0)
    as (HB & Hmatch & HL & Hgt & Hsame0 & Hkeyed).
  apply getRoot_Ok in Hroot. destruct Hroot as (r0 & Hr0in & -> & Hmax).
  simpl.
  destruct (@Builds_reach _ t Hsql HK s (level r0) HB
              (Built_anchor_exists r0 HB Hr0in) Hmax
              (level r0) 0%nat (build_sets b0 pairs) eq_refl Hmatch HL)
    as (b' & root & HBs & Hn & Hr).
  - intros j Hj. assert (j = 0%nat) as -> by lia.
    intros k h. split; intros (x & Hx & Hl & Hkh); exists x.
    + split; [apply (Hsame0 x Hl); exact Hx|auto].
    + split; [apply (Hsame0 x Hl); exact Hx|auto].
  - intros _ _. exact Hkeyed.
  - exists root, b'. intros fuelB Hfuel. unfold Builder.finalize.
    apply (finalizeLoop_complete HBs Hn Hfuel). exact Hr.
Qed.

(** C1.  Take entries in ascending key order, which makes their keys
    distinct, and any permutation of them.  Let [Tree.set] for the entries in
    the order of the permutation, on a freshly initialised tree, leave a tree
    with root [r].  Then [Builder.finalize], after [Builder.set] for the
    entries in ascending order on a freshly initialised store with the same
    [K] and [Q], returns once its budget covers the level of [r], and the
    node it returns, whatever the budget, has the hash and the level of
    [r]. *)
Theorem order_independence `{Hasher} (existing : Store)
        (optK : option nat) (optQ : option Z) (clear : bool)
        (t : Tree.Tree) (s0 : Store) (pairs perm : list (bytes * bytes))
        (fuel : nat) (s : Store) (r : Node) (b0 : Builder.Builder) :
  Tree.initialize existing optK optQ clear = Ok (t, s0) ->
  clear = true \/ existing = [] ->
  (2 <= Tree.Q t)%Z ->
  (4 <= Tree.K t)%nat ->
  ascending pairs ->
  Permutation pairs perm ->
  run t fuel (set_ops perm) s0 = Ok s ->
  Tree.getRoot s = Ok r ->
  Builder.constructor (fresh_store (Tree.K t) (Tree.Q t)) = Ok b0 ->
  (exists root b',
      forall fuelB, (level r <= fuelB)%nat ->
                    Builder.finalize fuelB (build_sets b0 pairs)
                    = Ok (root, b'))
  /\ (forall fuelB root b',
         Builder.finalize fuelB (build_sets b0 pairs) = Ok (root, b') ->
         hash r = hash root /\ level r = level root).
Proof.
  intros Hinit Hc HQ HK Hasc Hperm Hrun Hroot Hb0.
  destruct (initialize_Fresh optK optQ Hinit Hc) as [Ht HF].
  destruct pairs as [|p0 pairs'].
  - destruct (tree_params optK optQ Ht HQ) as [_ Hleaf].
    apply Permutation_nil in Hperm. subst perm. unfold run in Hrun.
    simpl in Hrun. injection Hrun as <-. unfold Fresh in HF.
    rewrite HF, Hleaf in Hroot. unfold Tree.getRoot in Hroot.
    simpl in Hroot. injection Hroot as <-.
    unfold Builder.constructor, fresh_store in Hb0. simpl in Hb0.
    destruct (Tree.Q t =? 0)%Z; [discriminate|]. injection Hb0 as <-.
    unfold build_sets, Builder.finalize. split.
    + eexists _, _. intros fuelB _. destruct fuelB; simpl; reflexivity.
    + intros fuelB root b' Hfin.
      destruct fuelB; simpl in Hfin; injection Hfin as <- _; auto.
  - assert (p0 :: pairs' <> []) as Hne by discriminate. split.
    + exact (@finalize_returns _ optK optQ t s0 (p0 :: pairs') perm fuel s r
                               b0 Ht HF HQ HK Hasc Hne Hperm Hrun Hroot Hb0).
    + intros fuelB root b' Hfin.
      exact (@finalize_same_root _ optK optQ t s0 (p0 :: pairs') perm fuel
                                 fuelB s r b0 root b' Ht HF HQ HK Hasc Hne
                                 Hperm Hrun Hroot Hb0 Hfin).
Qed.

(** Six entries as the test writes them: 4-byte big-endian keys 1 to 6, each
    with the 4-byte digest of the key. *)
Definition entries_6 : list (bytes * bytes) :=
  Eval vm_compute in
    map (fun k => (k, hashFn 4 k))
        [ [x00; x00; x00; x01]; [x00; x00; x00; x02]; [x00; x00; x00; x03];
          [x00; x00; x00; x04]; [x00; x00; x00; x05]; [x00; x00; x00; x06] ].

(** The table after [set] for the six entries in descending key order. *)
Definition store_6_rev : Store :=
  Eval vm_compute in
    match run tree16_4 9 (set_ops (rev entries_6)) fresh16 with
    | Ok s => s
    | _ => []
    end.

Definition root_6_rev : Node :=
  Eval vm_compute in
    match Tree.getRoot store_6_rev with Ok n => n | _ => anchor16 end.

Lemma order_independence_witness :
  (exists root b',
      forall fuelB, (level root_6_rev <= fuelB)%nat ->
                    Builder.finalize fuelB (build_sets builder_0 entries_6)
                    = Ok (root, b'))
  /\ (forall fuelB root b',
         Builder.finalize fuelB (build_sets builder_0 entries_6)
         = Ok (root, b') ->
         hash root_6_rev = hash root /\ level root_6_rev = level root).
Proof.
  apply (@order_independence blake3_hasher [] (Some 16%nat) (Some 4%Z) true
           tree16_4 fresh16 entries_6 (rev entries_6) 9 store_6_rev
           root_6_rev builder_0).
  - vm_compute. reflexivity.
  - left. reflexivity.
  - simpl. lia.
  - simpl. lia.
  - repeat constructor.
  - apply Permutation_rev.
  - vm_compute. reflexivity.
  - vm_compute. reflexivity.
  - vm_compute. reflexivity.
Defined.

(** * Further properties of [Tree] and [Builder] *)

(** ** The tables [set] and [delete] reach *)

Definition leaf_anchor (t : Tree.Tree) : Node :=
  mkNode 0 None (Tree.LEAF_ANCHOR_HASH t) None.

(** Level 0 holds the anchor [initialize] wrote and leaves as [set] writes
    them. *)
Definition Leaves `{Hasher} (t : Tree.Tree) (s : Store) : Prop :=
  forall r, In r s -> level r = 0%nat ->
            r = leaf_anchor t \/ exists kv, r = leaf_of t kv.

Definition Reached `{Hasher} (t : Tree.Tree) (s : Store) : Prop :=
  (Built t s \/ Fresh t s) /\ In (leaf_anchor t) s /\ Leaves t s.

(** Level 0 after one operation. *)
Definition leaves_after `{Hasher} (t : Tree.Tree) (s : Store) (op : Op)
           (r : Node) : Prop :=
  match op with
  | OpSet k v => r = leaf_of t (k, v) \/ (In r s /\ key r <> Some k)
  | OpDelete k => In r s /\ key r <> Some k
  end.

Lemma Built_not_Fresh `{Hasher} (t : Tree.Tree) (s : Store) :
  Built t s -> Fresh t s -> False.
Proof.
  intros HB HF. destruct (built_anchor1 HB) as (r & Hr & Hl & _).
  destruct (@Fresh_rows t s r HF Hr) as [Hl0 _]. congruence.
Qed.

Lemma Fresh_Reached `{Hasher} (t : Tree.Tree) (s : Store) :
  Fresh t s -> Reached t s.
Proof.
  intros HF. split; [right; exact HF|]. unfold Fresh in HF. subst s. split.
  - left. reflexivity.
  - intros r [<-|[]] _. left. reflexivity.
Qed.

Lemma Reached_uniq `{Hasher} (t : Tree.Tree) (s : Store) :
  Reached t s -> uniq s.
Proof.
  intros [[HB|HF] _]; [apply (built_wf HB)|].
  unfold Fresh in HF. subst s. unfold uniq. simpl.
  constructor; [intros []|constructor].
Qed.

Lemma lookup_agree (s s' : Store) (l : nat) (k : Key) :
  uniq s -> uniq s' ->
  (forall r, level r = l -> key r = k -> (In r s <-> In r s')) ->
  getNode s l k = getNode s' l k.
Proof.
  intros Hu Hu' Hag. destruct (getNode s l k) as [r|] eqn:E.
  - apply (getNode_iff l k r Hu) in E. destruct E as (Hr & Hl & Hk).
    symmetry. apply (getNode_iff l k r Hu'). split; [|auto].
    apply (Hag r Hl Hk). exact Hr.
  - symmetry. apply getNode_None. intros r Hr [Hl Hk].
    apply (proj1 (getNode_None s l k) E r); [|auto].
    apply (Hag r Hl Hk). exact Hr.
Qed.

Section Reach.

Context {hasher : Hasher}.
Variable t : Tree.Tree.

Hypothesis Hsql :
  forall n, (4 <= length (hash n))%nat ->
            Tree.isBoundary t n = Ok (Tree.below_limit t n).
Hypothesis HK4 : (4 <= Tree.K t)%nat.
Hypothesis Hleaf : Tree.LEAF_ANCHOR_HASH t = hashFn (Tree.K t) [].

Lemma apply_op_rows (fuel : nat) (s : Store) (op : Op) (s' : Store) :
  Reached t s -> apply_op t fuel s op = Ok s' ->
  (Built t s' \/ Fresh t s')
  /\ (Fresh t s' -> Fresh t s /\ s' = s /\ exists k, op = OpDelete k)
  /\ forall r, level r = 0%nat -> (In r s' <-> leaves_after t s op r).
Proof.
  intros (Hs & _ & _) Hop. destruct op as [k v|k]; simpl in Hop.
  - destruct (@set_Built _ t Hsql HK4 Hleaf fuel s k v s' Hs Hop)
      as [HB Hrows].
    split; [left; exact HB|]. split.
    + intros HF. destruct (Built_not_Fresh HB HF).
    + intros r Hr. rewrite (Hrows r Hr), setNode_In_iff. simpl.
      unfold leaf_of. simpl. intuition congruence.
  - destruct Hs as [HB|HF].
    + destruct (@delete_Built _ t Hsql HK4 fuel s k s' HB Hop)
        as [HB' Hrows].
      split; [left; exact HB'|]. split.
      * intros HF. destruct (Built_not_Fresh HB' HF).
      * intros r Hr. simpl. apply Hrows. exact Hr.
    + rewrite (delete_Fresh fuel k HF) in Hop. injection Hop as <-.
      split; [right; exact HF|]. split; [intros _; eauto|].
      intros r Hr. simpl. split; [|tauto]. intros Hin. split; [exact Hin|].
      destruct (@Fresh_rows t s r HF Hin) as [_ Hk]. congruence.
Qed.

Lemma apply_op_Reached (fuel : nat) (s : Store) (op : Op) (s' : Store) :
  Reached t s -> apply_op t fuel s op = Ok s' -> Reached t s'.
Proof.
  intros HR Hop. destruct (@apply_op_rows fuel s op s' HR Hop) as (Hs' & _ & Hrows).
  destruct HR as (_ & Ha & HL). split; [exact Hs'|]. split.
  - apply (Hrows (leaf_anchor t) eq_refl).
    destruct op as [k v|k]; simpl; [right|]; (split; [exact Ha|discriminate]).
  - intros r Hr Hl. apply (Hrows r Hl) in Hr.
    destruct op as [k v|k]; simpl in Hr.
    + destruct Hr as [->|[Hr _]]; [right; eauto|apply HL; assumption].
    + apply HL; tauto.
Qed.

Lemma run_Reached (fuel : nat) (ops : list Op) :
  forall s s', Reached t s -> run t fuel ops s = Ok s' -> Reached t s'.
Proof.
  induction ops as [|op ops IH]; intros s s' HR Hrun.
  - unfold run in Hrun. simpl in Hrun. injection Hrun as <-. exact HR.
  - apply run_cons in Hrun. destruct Hrun as (s1 & H1 & Hrun).
    apply (IH s1 s'); [|exact Hrun].
    apply (@apply_op_Reached fuel s op s1 HR H1).
Qed.

End Reach.

Lemma initialize_Reached `{Hasher} (existing : Store) (optK : option nat)
      (optQ : option Z) (clear : bool) (t : Tree.Tree) (s0 : Store)
      (fuel : nat) (ops : list Op) (s : Store) :
  Tree.initialize existing optK optQ clear = Ok (t, s0) ->
  clear = true \/ existing = [] ->
  (2 <= Tree.Q t)%Z ->
  (4 <= Tree.K t)%nat ->
  run t fuel ops s0 = Ok s ->
  Reached t s
  /\ (forall n, (4 <= length (hash n))%nat ->
                Tree.isBoundary t n = Ok (Tree.below_limit t n))
  /\ Tree.LEAF_ANCHOR_HASH t = hashFn (Tree.K t) []
  /\ Fresh t s0.
Proof.
  intros Hinit Hc HQ HK Hrun.
  destruct (initialize_Fresh optK optQ Hinit Hc) as [Ht HF].
  destruct (tree_params optK optQ Ht HQ) as [Hsql Hleaf].
  split; [|auto].
  apply (@run_Reached _ t Hsql HK Hleaf fuel ops s0 s); [|exact Hrun].
  apply Fresh_Reached. exact HF.
Qed.

Lemma top_row_nonempty (s : Store) : s <> [] -> top_row s <> None.
Proof.
  unfold top_row. destruct s as [|x s]; [congruence|]. intros _. simpl.
  generalize x. induction s as [|y s IH]; intros a; simpl; [discriminate|].
  destruct (level a <? level y)%nat; apply IH.
Qed.

Lemma getRoot_total `{Hasher} (s : Store) (x : Node) :
  In x s -> exists n, Tree.getRoot s = Ok n.
Proof.
  intros Hx. unfold Tree.getRoot.
  destruct (top_row s) as [r|] eqn:E; [eauto|].
  exfalso. apply (@top_row_nonempty s); [|exact E].
  intros ->. destruct Hx.
Qed.

Lemma same_leaves_same_root `{Hasher} (t : Tree.Tree) (s1 s2 : Store) :
  Built t s1 -> Built t s2 ->
  (forall r, level r = 0%nat -> (In r s1 <-> In r s2)) ->
  exists n, Tree.getRoot s1 = Ok n /\ Tree.getRoot s2 = Ok n.
Proof.
  intros HB1 HB2 Hrows.
  destruct (built_anchor1 HB1) as (a1 & Ha1 & _).
  destruct (built_anchor1 HB2) as (a2 & Ha2 & _).
  destruct (getRoot_total s1 a1 Ha1) as [n1 E1].
  destruct (getRoot_total s2 a2 Ha2) as [n2 E2].
  exists n1. split; [exact E1|]. rewrite E2. f_equal. symmetry.
  apply (Built_same_root HB1 HB2); [|exact E1|exact E2].
  intros k h. split; intros (x & Hx & Hl & Hkh); exists x.
  - split; [apply (Hrows x Hl); exact Hx|auto].
  - split; [apply (Hrows x Hl); exact Hx|auto].
Qed.

(** ** Lookups after [set] and [delete] *)

(** X1.  On a table that [set] and [delete] calls have produced from an
    initialised tree, after [set(key, value)] returns the level-0 row of the
    key is the leaf with that value and the hash of the entry, and the
    level-0 row of every other key is as it was. *)
Theorem set_then_lookup `{Hasher} (existing : Store) (optK : option nat)
        (optQ : option Z) (clear : bool) (t : Tree.Tree) (s0 : Store)
        (fuel : nat) (ops : list Op) (s : Store)
        (fuel1 : nat) (k v : bytes) (s' : Store) :
  Tree.initialize existing optK optQ clear = Ok (t, s0) ->
  clear = true \/ existing = [] ->
  (2 <= Tree.Q t)%Z ->
  (4 <= Tree.K t)%nat ->
  run t fuel ops s0 = Ok s ->
  Tree.set t fuel1 s k v = Ok s' ->
  getNode s' 0 (Some k)
  = Some (mkNode 0 (Some k) (Tree.hashEntry t k v) (Some v))
  /\ forall k', k' <> k -> getNode s' 0 (Some k') = getNode s 0 (Some k').
Proof.
  intros Hinit Hc HQ HK Hrun Hset.
  destruct (@initialize_Reached _ _ _ _ _ _ _ _ _ _ Hinit Hc HQ HK Hrun)
    as (HR & Hsql & Hleaf & _).
  destruct (@apply_op_rows _ t Hsql HK Hleaf fuel1 s (OpSet k v) s' HR Hset)
    as (_ & _ & Hrows).
  pose proof (@apply_op_Reached _ t Hsql HK Hleaf fuel1 s (OpSet k v) s' HR
                Hset) as HR'.
  pose proof (Reached_uniq HR) as Hu. pose proof (Reached_uniq HR') as Hu'.
  split.
  - apply (getNode_iff 0 (Some k) _ Hu'). split; [|auto].
    apply (Hrows (leaf_of t (k, v)) eq_refl). left. reflexivity.
  - intros k' Hne. apply lookup_agree; [exact Hu'|exact Hu|].
    intros r Hl Hk. rewrite (Hrows r Hl). simpl. split.
    + intros [->|[Hr _]]; [simpl in Hk; congruence|exact Hr].
    + intros Hr. right. split; [exact Hr|congruence].
Qed.

(** X2.  On such a table, after [delete(key)] returns there is no level-0
    row for the key, and the level-0 row of every other key is as it was. *)
Theorem delete_then_lookup `{Hasher} (existing : Store) (optK : option nat)
        (optQ : option Z) (clear : bool) (t : Tree.Tree) (s0 : Store)
        (fuel : nat) (ops : list Op) (s : Store)
        (fuel1 : nat) (k : bytes) (s' : Store) :
  Tree.initialize existing optK optQ clear = Ok (t, s0) ->
  clear = true \/ existing = [] ->
  (2 <= Tree.Q t)%Z ->
  (4 <= Tree.K t)%nat ->
  run t fuel ops s0 = Ok s ->
  Tree.delete t fuel1 s k = Ok s' ->
  getNode s' 0 (Some k) = None
  /\ forall k', k' <> k -> getNode s' 0 (Some k') = getNode s 0 (Some k').
Proof.
  intros Hinit Hc HQ HK Hrun Hdel.
  destruct (@initialize_Reached _ _ _ _ _ _ _ _ _ _ Hinit Hc HQ HK Hrun)
    as (HR & Hsql & Hleaf & _).
  destruct (@apply_op_rows _ t Hsql HK Hleaf fuel1 s (OpDelete k) s' HR Hdel)
    as (_ & _ & Hrows).
  pose proof (@apply_op_Reached _ t Hsql HK Hleaf fuel1 s (OpDelete k) s' HR
                Hdel) as HR'.
  pose proof (Reached_uniq HR) as Hu. pose proof (Reached_uniq HR') as Hu'.
  split.
  - apply getNode_None. intros r Hr [Hl Hk]. apply (Hrows r Hl) in Hr.
    simpl in Hr. tauto.
  - intros k' Hne. apply lookup_agree; [exact Hu'|exact Hu|].
    intros r Hl Hk. rewrite (Hrows r Hl). simpl. split; [tauto|].
    intros Hr. split; [exact Hr|congruence].
Qed.

(** X3.  On such a table the level-0 anchor is the one [initialize] wrote,
    with the digest of the empty byte sequence, and every other level-0 row
    is a leaf that holds a value and the hash [hashEntry] gives for its key
    and that value. *)
Theorem stored_leaves `{Hasher} (existing : Store) (optK : option nat)
        (optQ : option Z) (clear : bool) (t : Tree.Tree) (s0 : Store)
        (fuel : nat) (ops : list Op) (s : Store) :
  Tree.initialize existing optK optQ clear = Ok (t, s0) ->
  clear = true \/ existing = [] ->
  (2 <= Tree.Q t)%Z ->
  (4 <= Tree.K t)%nat ->
  run t fuel ops s0 = Ok s ->
  getNode s 0 None = Some (mkNode 0 None (hashFn (Tree.K t) []) None)
  /\ forall r k, In r s -> level r = 0%nat -> key r = Some k ->
                 exists v, value r = Some v
                           /\ hash r = Tree.hashEntry t k v.
Proof.
  intros Hinit Hc HQ HK Hrun.
  destruct (@initialize_Reached _ _ _ _ _ _ _ _ _ _ Hinit Hc HQ HK Hrun)
    as (HR & Hsql & Hleaf & _).
  pose proof (Reached_uniq HR) as Hu. destruct HR as (_ & Ha & HL). split.
  - apply (getNode_iff 0 None _ Hu). unfold leaf_anchor in Ha.
    rewrite Hleaf in Ha. auto.
  - intros r k Hr Hl Hk. destruct (HL r Hr Hl) as [->|[[k' v] ->]];
      [discriminate|].
    simpl in *. exists v. split; [reflexivity|congruence].
Qed.

Lemma values_agree_rows `{Hasher} (t : Tree.Tree) (s1 s2 : Store) :
  Reached t s1 -> Reached t s2 ->
  (forall k, option_map value (getNode s1 0 (Some k))
             = option_map value (getNode s2 0 (Some k))) ->
  forall r, level r = 0%nat -> In r s1 -> In r s2.
Proof.
  intros HR1 HR2 Hval r Hl Hr.
  pose proof (Reached_uniq HR1) as Hu1. pose proof (Reached_uniq HR2) as Hu2.
  destruct HR1 as (_ & _ & HL1). destruct HR2 as (_ & Ha2 & HL2).
  destruct (HL1 r Hr Hl) as [->|[[k v] ->]]; [exact Ha2|].
  assert (getNode s1 0 (Some k) = Some (leaf_of t (k, v))) as E1
      by (apply (getNode_iff 0 (Some k) _ Hu1); auto).
  specialize (Hval k). rewrite E1 in Hval. simpl in Hval.
  destruct (getNode s2 0 (Some k)) as [r2|] eqn:E2; [|discriminate].
  apply (getNode_iff 0 (Some k) _ Hu2) in E2.
  destruct E2 as (Hr2 & Hl2 & Hk2). simpl in Hval.
  destruct (HL2 r2 Hr2 Hl2) as [->|[[k' v'] ->]]; [discriminate|].
  simpl in *. replace k with k' by congruence.
  replace v with v' by congruence. exact Hr2.
Qed.

(** ** The root depends on the entries only *)

(** X4.  Two sequences of [set] and [delete] calls on an initialised tree
    that leave the same value under every key, at least one key having one,
    leave the same root: [getRoot] returns the same node after both. *)
Theorem same_entries_same_root `{Hasher} (existing : Store)
        (optK : option nat) (optQ : option Z) (clear : bool)
        (t : Tree.Tree) (s0 : Store) (fuel1 fuel2 : nat)
        (ops1 ops2 : list Op) (s1 s2 : Store) :
  Tree.initialize existing optK optQ clear = Ok (t, s0) ->
  clear = true \/ existing = [] ->
  (2 <= Tree.Q t)%Z ->
  (4 <= Tree.K t)%nat ->
  run t fuel1 ops1 s0 = Ok s1 ->
  run t fuel2 ops2 s0 = Ok s2 ->
  (forall k, option_map value (getNode s1 0 (Some k))
             = option_map value (getNode s2 0 (Some k))) ->
  (exists k, getNode s1 0 (Some k) <> None) ->
  exists n, Tree.getRoot s1 = Ok n /\ Tree.getRoot s2 = Ok n.
Proof.
  intros Hinit Hc HQ HK Hrun1 Hrun2 Hval [k Hk].
  destruct (@initialize_Reached _ _ _ _ _ _ _ _ _ _ Hinit Hc HQ HK Hrun1)
    as (HR1 & _).
  destruct (@initialize_Reached _ _ _ _ _ _ _ _ _ _ Hinit Hc HQ HK Hrun2)
    as (HR2 & _).
  assert (forall s, Reached t s -> getNode s 0 (Some k) <> None ->
                    Built t s) as Hbuilt.
  { intros s [[HB|HF] _] Hne; [exact HB|]. exfalso. apply Hne.
    apply getNode_None. intros r Hr [_ Hrk].
    destruct (@Fresh_rows t s r HF Hr) as [_ E]. congruence. }
  apply (@same_leaves_same_root _ t).
  - apply Hbuilt; assumption.
  - apply Hbuilt; [exact HR2|]. intros E. specialize (Hval k).
    rewrite E in Hval. destruct (getNode s1 0 (Some k)); [discriminate|].
    apply Hk. reflexivity.
  - intros r Hl. split.
    + apply (values_agree_rows HR1 HR2 Hval r Hl).
    + apply (values_agree_rows HR2 HR1); [|exact Hl].
      intros k'. symmetry. apply Hval.
Qed.

(** ** How [set] and [delete] compose *)

Definition op_key (op : Op) : bytes :=
  match op with OpSet k _ => k | OpDelete k => k end.

Lemma two_ops_rows `{Hasher} (t : Tree.Tree) (fuel : nat) (s : Store)
      (o1 o2 : Op) (s2 : Store) :
  (forall n, (4 <= length (hash n))%nat ->
             Tree.isBoundary t n = Ok (Tree.below_limit t n)) ->
  (4 <= Tree.K t)%nat ->
  Tree.LEAF_ANCHOR_HASH t = hashFn (Tree.K t) [] ->
  Reached t s ->
  run t fuel [o1; o2] s = Ok s2 ->
  exists s1,
    Reached t s2
    /\ (Fresh t s2 ->
        Fresh t s /\ s2 = s /\ exists k1 k2, o1 = OpDelete k1
                                             /\ o2 = OpDelete k2)
    /\ forall r, level r = 0%nat ->
                 (In r s1 <-> leaves_after t s o1 r)
                 /\ (In r s2 <-> leaves_after t s1 o2 r).
Proof.
  intros Hsql HK Hleaf HR Hrun.
  apply run_cons in Hrun. destruct Hrun as (s1 & H1 & Hrun).
  apply run_cons in Hrun. destruct Hrun as (s2' & H2 & Hrun).
  unfold run in Hrun. simpl in Hrun. injection Hrun as ->.
  pose proof (@apply_op_Reached _ t Hsql HK Hleaf fuel s o1 s1 HR H1) as HR1.
  destruct (@apply_op_rows _ t Hsql HK Hleaf fuel s o1 s1 HR H1)
    as (_ & HF1 & Hrows1).
  destruct (@apply_op_rows _ t Hsql HK Hleaf fuel s1 o2 s2 HR1 H2)
    as (_ & HF2 & Hrows2).
  exists s1. split.
  - apply (@apply_op_Reached _ t Hsql HK Hleaf fuel s1 o2 s2 HR1 H2).
  - split; [|intros r Hr; split; [apply Hrows1|apply Hrows2]; exact Hr].
    intros HF. destruct (HF2 HF) as (HFa & -> & k2 & ->).
    destruct (HF1 HFa) as (HFs & -> & k1 & ->). eauto 6.
Qed.

(** X5.  Two operations on different keys commute: on a table that [set]
    and [delete] calls have produced, running them in either order leaves
    the same root. *)
Theorem distinct_keys_commute `{Hasher} (existing : Store)
        (optK : option nat) (optQ : option Z) (clear : bool)
        (t : Tree.Tree) (s0 : Store) (fuel : nat) (ops : list Op)
        (s : Store) (o1 o2 : Op) (fuela fuelb : nat) (sa sb : Store) :
  Tree.initialize existing optK optQ clear = Ok (t, s0) ->
  clear = true \/ existing = [] ->
  (2 <= Tree.Q t)%Z ->
  (4 <= Tree.K t)%nat ->
  run t fuel ops s0 = Ok s ->
  op_key o1 <> op_key o2 ->
  run t fuela [o1; o2] s = Ok sa ->
  run t fuelb [o2; o1] s = Ok sb ->
  exists n, Tree.getRoot sa = Ok n /\ Tree.getRoot sb = Ok n.
Proof.
  intros Hinit Hc HQ HK Hrun Hne Hra Hrb.
  destruct (@initialize_Reached _ _ _ _ _ _ _ _ _ _ Hinit Hc HQ HK Hrun)
    as (HR & Hsql & Hleaf & _).
  destruct (@two_ops_rows _ t fuela s o1 o2 sa Hsql HK Hleaf HR Hra)
    as (a1 & HRa & HFa & Hrowsa).
  destruct (@two_ops_rows _ t fuelb s o2 o1 sb Hsql HK Hleaf HR Hrb)
    as (b1 & HRb & HFb & Hrowsb).
  assert (forall x, In x s -> exists n, Tree.getRoot s = Ok n
                                        /\ Tree.getRoot s = Ok n) as Hsame.
  { intros x Hx. destruct (getRoot_total s x Hx) as [n E]. eauto. }
  destruct HR as (_ & Ha & _).
  destruct HRa as ([HBa|HFra] & _ & _).
  2:{ destruct (HFa HFra) as (HFs & -> & k1 & k2 & -> & ->).
      apply run_cons in Hrb. destruct Hrb as (x1 & H1 & Hrb).
      apply run_cons in Hrb. destruct Hrb as (x2 & H2 & Hrb).
      unfold run in Hrb. simpl in Hrb. injection Hrb as ->. simpl in H1, H2.
      rewrite (delete_Fresh fuelb k2 HFs) in H1. injection H1 as <-.
      rewrite (delete_Fresh fuelb k1 HFs) in H2. injection H2 as <-.
      apply (Hsame _ Ha). }
  destruct HRb as ([HBb|HFrb] & _ & _).
  2:{ destruct (HFb HFrb) as (HFs & -> & k1 & k2 & -> & ->).
      apply run_cons in Hra. destruct Hra as (x1 & H1 & Hra).
      apply run_cons in Hra. destruct Hra as (x2 & H2 & Hra).
      unfold run in Hra. simpl in Hra. injection Hra as ->. simpl in H1, H2.
      rewrite (delete_Fresh fuela k2 HFs) in H1. injection H1 as <-.
      rewrite (delete_Fresh fuela k1 HFs) in H2. injection H2 as <-.
      apply (Hsame _ Ha). }
  apply (@same_leaves_same_root _ t sa sb HBa HBb). intros r Hr.
  destruct (Hrowsa r Hr) as [Ea1 Ea2]. destruct (Hrowsb r Hr) as [Eb1 Eb2].
  rewrite Ea2, Eb2. clear Ea2 Eb2.
  destruct o1 as [k1 v1|k1], o2 as [k2 v2|k2]; simpl in *;
    rewrite ?Ea1, ?Eb1; simpl;
    intuition (subst; simpl in *; try congruence); right;
    intuition (subst; simpl in *; try congruence).
Qed.

(** X6.  The last [set] of a key wins: on a table that [set] and [delete]
    calls have produced, [set(key, v1)] followed by [set(key, v2)] leaves the
    root that [set(key, v2)] alone leaves.  With [v1 = v2], repeating a [set]
    changes nothing in the root. *)
Theorem set_overwrites `{Hasher} (existing : Store)
        (optK : option nat) (optQ : option Z) (clear : bool)
        (t : Tree.Tree) (s0 : Store) (fuel : nat) (ops : list Op)
        (s : Store) (k v1 v2 : bytes) (fuela fuelb : nat) (sa sb : Store) :
  Tree.initialize existing optK optQ clear = Ok (t, s0) ->
  clear = true \/ existing = [] ->
  (2 <= Tree.Q t)%Z ->
  (4 <= Tree.K t)%nat ->
  run t fuel ops s0 = Ok s ->
  run t fuela [OpSet k v1; OpSet k v2] s = Ok sa ->
  Tree.set t fuelb s k v2 = Ok sb ->
  exists n, Tree.getRoot sa = Ok n /\ Tree.getRoot sb = Ok n.
Proof.
  intros Hinit Hc HQ HK Hrun Hra Hsb.
  destruct (@initialize_Reached _ _ _ _ _ _ _ _ _ _ Hinit Hc HQ HK Hrun)
    as (HR & Hsql & Hleaf & _).
  destruct (@two_ops_rows _ t fuela s (OpSet k v1) (OpSet k v2) sa Hsql HK
                          Hleaf HR Hra) as (a1 & HRa & HFa & Hrowsa).
  destruct (@apply_op_rows _ t Hsql HK Hleaf fuelb s (OpSet k v2) sb HR Hsb)
    as (HBb & HFb & Hrowsb).
  destruct HRa as ([HBa|HFra] & _ & _).
  2:{ destruct (HFa HFra) as (_ & _ & k1 & k2 & E & _). discriminate. }
  destruct HBb as [HBb|HFrb].
  2:{ destruct (HFb HFrb) as (_ & _ & k1 & E). discriminate. }
  apply (@same_leaves_same_root _ t sa sb HBa HBb). intros r Hr.
  destruct (Hrowsa r Hr) as [Ea1 Ea2]. rewrite Ea2, (Hrowsb r Hr).
  simpl in *. rewrite Ea1.
  intuition (subst; simpl in *; try congruence).
Qed.

(** ** The root *)

(** X7.  On a table that [set] and [delete] calls have produced from an
    initialised tree, [getRoot] returns: the node it returns is the anchor of
    the highest level, and that level holds no other row, so the query
    [ORDER BY level DESC LIMIT 1] has one answer. *)
Theorem root_is_anchor `{Hasher} (existing : Store) (optK : option nat)
        (optQ : option Z) (clear : bool) (t : Tree.Tree) (s0 : Store)
        (fuel : nat) (ops : list Op) (s : Store) :
  Tree.initialize existing optK optQ clear = Ok (t, s0) ->
  clear = true \/ existing = [] ->
  (2 <= Tree.Q t)%Z ->
  (4 <= Tree.K t)%nat ->
  run t fuel ops s0 = Ok s ->
  exists r,
    In r s /\ key r = None
    /\ Tree.getRoot s = Ok (mkNode (level r) None (hash r) None)
    /\ (forall x, In x s -> (level x <= level r)%nat)
    /\ (forall x, In x s -> level x = level r -> x = r).
Proof.
  intros Hinit Hc HQ HK Hrun.
  destruct (@initialize_Reached _ _ _ _ _ _ _ _ _ _ Hinit Hc HQ HK Hrun)
    as (HR & _).
  pose proof (Reached_uniq HR) as Hu. destruct HR as ([HB|HF] & Ha & _).
  - destruct (getRoot_total s _ Ha) as [n E].
    destruct (getRoot_Ok _ E) as (r & Hr & -> & Hmax).
    pose proof (@Built_top _ t s r HB Hr Hmax) as Hk.
    exists r. split; [exact Hr|]. split; [exact Hk|].
    split; [rewrite E, Hk; reflexivity|]. split; [exact Hmax|].
    intros x Hx Hl. apply (@uniq_In_eq s x r Hu Hx Hr Hl). rewrite Hk.
    apply (@Built_top _ t s x HB Hx). intros y Hy. rewrite Hl.
    apply Hmax. exact Hy.
  - unfold Fresh in HF. subst s. exists (leaf_anchor t).
    split; [left; reflexivity|]. split; [reflexivity|].
    split; [reflexivity|].
    split; intros x [<-|[]]; [simpl; lia|reflexivity].
Qed.

Lemma nodes_singleton (s : Store) (l : nat) (a : Node) :
  uniq s -> In a s -> level a = l ->
  (forall r, In r s -> level r = l -> r = a) ->
  nodes s l = [a].
Proof.
  intros Hu Ha Hl Hall. apply sorted_ext.
  - apply nodes_sorted. exact Hu.
  - constructor; [constructor|constructor].
  - intros x. rewrite nodes_In. split.
    + intros [Hx Hxl]. left. symmetry. apply Hall; assumption.
    + intros [<-|[]]. auto.
Qed.

(** X8.  A tree that has been emptied is not the fresh tree: once a [set]
    has run, a table in which no key has a row any more has the level-1
    anchor as its root, with the digest of the leaf anchor's hash, not the
    level-0 anchor a fresh tree has. *)
Theorem emptied_root `{Hasher} (existing : Store) (optK : option nat)
        (optQ : option Z) (clear : bool) (t : Tree.Tree) (s0 : Store)
        (fuel : nat) (ops : list Op) (s : Store) :
  Tree.initialize existing optK optQ clear = Ok (t, s0) ->
  clear = true \/ existing = [] ->
  (2 <= Tree.Q t)%Z ->
  (4 <= Tree.K t)%nat ->
  run t fuel ops s0 = Ok s ->
  s <> s0 ->
  (forall k, getNode s 0 (Some k) = None) ->
  Tree.getRoot s
  = Ok (mkNode 1 None (hashFn (Tree.K t) (hashFn (Tree.K t) [])) None)
  /\ Tree.getRoot s0 = Ok (mkNode 0 None (hashFn (Tree.K t) []) None).
Proof.
  intros Hinit Hc HQ HK Hrun Hne Hempty.
  destruct (@initialize_Reached _ _ _ _ _ _ _ _ _ _ Hinit Hc HQ HK Hrun)
    as (HR & _ & Hleaf & HF0).
  pose proof (Reached_uniq HR) as Hu. destruct HR as ([HB|HF] & Ha & HL).
  2:{ exfalso. apply Hne. unfold Fresh in HF, HF0. congruence. }
  split; [|unfold Fresh in HF0; rewrite HF0, Hleaf; reflexivity].
  assert (forall k i, ~ hasRow s i (Some k)) as Hnokey.
  { intros k i Hrow.
    apply (@keys_descend_row t s 0 i k) in Hrow;
      [|intros j _; apply (built_keys HB)|lia].
    destruct Hrow as (r & Hr & Hl & Hk).
    apply (proj1 (getNode_None s 0 (Some k)) (Hempty k) r Hr). auto. }
  assert (nodes s 0 = [leaf_anchor t]) as Hnodes.
  { apply nodes_singleton; auto. intros r Hr Hl.
    destruct (HL r Hr Hl) as [->|[kv ->]]; [reflexivity|]. exfalso.
    apply (Hnokey (fst kv) 0%nat). exists (leaf_of t kv). auto. }
  destruct (built_anchor1 HB) as (r1 & Hr1 & Hl1 & Hk1).
  assert (hash r1 = hashFn (Tree.K t) (hashFn (Tree.K t) [])) as Hh.
  { rewrite (@built_hashes _ t s HB 0%nat r1 Hr1 Hl1 I), Hk1.
    rewrite getHash_concat, children_nodes, Hnodes by exact Hu. simpl.
    rewrite app_nil_r, Hleaf. reflexivity. }
  assert (forall x, In x s -> (level x <= 1)%nat) as Htop.
  { intros x Hx. destruct (le_gt_dec (level x) 1) as [Hle|Hgt]; [exact Hle|].
    exfalso. pose proof (Built_anchor_exists x HB Hx) as Hax.
    assert (hasRow s 2 None) as H2
        by (apply (Built_anchors_upto HB Hax); lia).
    apply (built_anchors HB (i := 1%nat)) in H2; [|lia].
    destruct H2 as [k Hrow]. apply (Hnokey k 1%nat Hrow). }
  destruct (getRoot_total s _ Ha) as [n E].
  destruct (getRoot_Ok _ E) as (r & Hr & -> & Hmax).
  assert (level r = 1%nat) as Hlr.
  { pose proof (Htop r Hr). pose proof (Hmax r1 Hr1). lia. }
  assert (r = r1) as ->.
  { apply (@uniq_In_eq s r r1 Hu Hr Hr1); [congruence|].
    rewrite Hk1. apply (@Built_top _ t s r HB Hr Hmax). }
  rewrite E, Hl1, Hk1, Hh. reflexivity.
Qed.

Lemma setNode_same (s : Store) (n : Node) :
  uniq s -> In n s -> setNode s n = s.
Proof.
  intros Hu Hn. unfold setNode. rewrite (getNode_In n Hu Hn).
  rewrite <- (map_id s) at 2. apply map_ext_in. intros r Hr.
  destruct (at_key (level n) (key n) r) eqn:E; [|reflexivity].
  apply at_key_true in E. destruct E as [El Ek].
  rewrite (@uniq_In_eq s r n Hu Hr Hn El Ek). destruct n. reflexivity.
Qed.

(** X9.  Opening an existing tree again does not change it: [initialize]
    without [clear], with the same options, on a table that [set] and
    [delete] calls have produced returns that table, since the level-0
    anchor it writes is the row that is there. *)
Theorem initialize_again `{Hasher} (existing : Store) (optK : option nat)
        (optQ : option Z) (clear : bool) (t : Tree.Tree) (s0 : Store)
        (fuel : nat) (ops : list Op) (s : Store) :
  Tree.initialize existing optK optQ clear = Ok (t, s0) ->
  clear = true \/ existing = [] ->
  (2 <= Tree.Q t)%Z ->
  (4 <= Tree.K t)%nat ->
  run t fuel ops s0 = Ok s ->
  Tree.initialize s optK optQ false = Ok (t, s).
Proof.
  intros Hinit Hc HQ HK Hrun.
  destruct (@initialize_Reached _ _ _ _ _ _ _ _ _ _ Hinit Hc HQ HK Hrun)
    as (HR & _).
  destruct (initialize_Fresh optK optQ Hinit Hc) as [Ht _].
  pose proof (Reached_uniq HR) as Hu. destruct HR as (_ & Ha & _).
  unfold Tree.initialize. rewrite Ht. simpl.
  change (mkNode 0 None (Tree.LEAF_ANCHOR_HASH t) None) with (leaf_anchor t).
  rewrite (@setNode_same s (leaf_anchor t) Hu Ha). reflexivity.
Qed.

(** ** Hash sizes below four bytes *)

Lemma getUint32_short (h : bytes) :
  (length h < 4)%nat -> exists msg, getUint32 h = Throw msg.
Proof.
  destruct h as [|b0 [|b1 [|b2 [|b3 r]]]]; simpl; intros Hlen; eauto. lia.
Qed.

Lemma getUint32_short_msg (h : bytes) :
  (length h < 4)%nat ->
  getUint32 h
  = Throw "RangeError: Offset is outside the bounds of the DataView".
Proof.
  destruct h as [|b0 [|b1 [|b2 [|b3 r]]]]; simpl; intros Hlen;
    try reflexivity. lia.
Qed.

Lemma getUint32_Throw (h : bytes) (msg : string) :
  getUint32 h = Throw msg ->
  msg = "RangeError: Offset is outside the bounds of the DataView"%string.
Proof.
  destruct h as [|b0 [|b1 [|b2 [|b3 r]]]]; simpl; intros E;
    congruence.
Qed.

(** X10.  The constructor accepts a hash size [K] below 4, but then no
    [set] succeeds.  On a table that holds the level-0 anchor, as every table
    of an initialised tree does, the first sibling is found and it is the
    boundary test that throws: it reads four bytes of a leaf's hash, which
    has [K], and [getUint32] raises its [RangeError].  On a table without the
    anchor the failed lookup of the first sibling may throw before that. *)
Theorem set_throws_below_K4 `{Hasher} (t : Tree.Tree) (fuel : nat)
        (s : Store) (k v : bytes) :
  (Tree.K t < 4)%nat ->
  (exists msg, Tree.set t fuel s k v = Throw msg)
  /\ (forall a, In a s -> level a = 0%nat -> key a = None ->
        Tree.isBoundary t (mkNode 0 (Some k) (Tree.hashEntry t k v) (Some v))
        = Throw "RangeError: Offset is outside the bounds of the DataView"
        /\ Tree.set t fuel s k v
           = Throw "RangeError: Offset is outside the bounds of the DataView").
Proof.
  intros HK.
  set (n := mkNode 0 (Some k) (Tree.hashEntry t k v) (Some v)).
  assert (Tree.isBoundary t n
          = Throw "RangeError: Offset is outside the bounds of the DataView")
    as Hn.
  { unfold Tree.isBoundary. rewrite (@getUint32_short_msg (hash n)).
    - reflexivity.
    - simpl. rewrite hashEntry_length. exact HK. }
  assert (forall o msg, Tree.isBoundary t o = Throw msg ->
            msg = "RangeError: Offset is outside the bounds of the DataView"%string)
    as Hold.
  { intros o msg. unfold Tree.isBoundary.
    destruct (getUint32 (hash o)) as [w|msg'|] eqn:E; simpl; intros E';
      try discriminate E'.
    injection E' as <-. exact (getUint32_Throw _ E). }
  assert (forall o, Tree.isBoundary t o <> Timeout) as Htime.
  { intros o. unfold Tree.isBoundary, getUint32.
    destruct (hash o) as [|b0 [|b1 [|b2 [|b3 r]]]]; simpl; discriminate. }
  split.
  - unfold Tree.set. fold n. unfold Tree.replace.
    destruct (match getNode s 0 (Some k) with
              | Some o => Tree.isBoundary t o
              | None => Ok false
              end) as [[|]|msg'|] eqn:E; simpl.
    + unfold Tree.replaceBoundary. rewrite Hn. simpl. eauto.
    + destruct (Tree.getFirstSibling t s n) as [fs|msg'|] eqn:Ef; simpl.
      * rewrite Hn. simpl. eauto.
      * eauto.
      * revert Ef. unfold Tree.getFirstSibling. simpl.
        destruct (order_desc _); simpl; intros Ef; discriminate Ef.
    + eauto.
    + destruct (getNode s 0 (Some k)) as [o|]; [|discriminate].
      exfalso. exact (Htime o E).
  - intros a Ha Hl Hnone. split; [exact Hn|].
    destruct (@getFirstSibling_total t s n a k eq_refl Ha Hl Hnone)
      as [fs Hfs].
    unfold Tree.set. fold n. unfold Tree.replace.
    destruct (match getNode s 0 (Some k) with
              | Some o => Tree.isBoundary t o
              | None => Ok false
              end) as [[|]|msg'|] eqn:E; simpl.
    + unfold Tree.replaceBoundary. rewrite Hn. reflexivity.
    + rewrite Hfs. simpl. rewrite Hn. reflexivity.
    + destruct (getNode s 0 (Some k)) as [o|]; [|discriminate].
      rewrite (Hold o msg' E). reflexivity.
    + destruct (getNode s 0 (Some k)) as [o|]; [|discriminate].
      exfalso. exact (Htime o E).
Qed.

(** ** The bytes [hashEntry] hashes *)

Definition entry_bytes (k v : bytes) : bytes :=
  setUint32 (Z.of_nat (length k)) ++ k
  ++ setUint32 (Z.of_nat (length v)) ++ v.

Lemma be32_setUint32 (n : Z) (rest : bytes) :
  (0 <= n < 4294967296)%Z -> be32 (setUint32 n ++ rest) = n.
Proof.
  intros Hn. unfold setUint32, be32. rewrite Z.mod_small by lia. simpl.
  rewrite !byte_val_of_Z.
  replace (n / 65536)%Z with (n / 256 / 256)%Z
    by (rewrite Z.div_div by lia; reflexivity).
  replace (n / 16777216)%Z with (n / 256 / 256 / 256)%Z
    by (rewrite !Z.div_div by lia; reflexivity).
  pose proof (Z.div_mod n 256 ltac:(lia)).
  pose proof (Z.div_mod (n / 256) 256 ltac:(lia)).
  pose proof (Z.div_mod (n / 256 / 256) 256 ltac:(lia)).
  pose proof (Z.div_mod (n / 256 / 256 / 256) 256 ltac:(lia)).
  assert (n / 256 / 256 / 256 / 256 = 0)%Z.
  { rewrite !Z.div_div by lia. apply Z.div_small. lia. }
  lia.
Qed.

Lemma app_same_length (A : Type) (a a' b b' : list A) :
  length a = length a' -> a ++ b = a' ++ b' -> a = a' /\ b = b'.
Proof.
  revert a'. induction a as [|x a IH]; intros [|x' a'] Hlen E;
    simpl in *; try discriminate; [auto|].
  injection E as -> E. destruct (IH a' ltac:(lia) E) as [-> ->]. auto.
Qed.

(** X11.  [hashEntry] hashes the key and the value each behind its length
    as a 4-byte big-endian integer, and for keys shorter than [2^32] bytes
    these bytes determine the entry: two entries with the same bytes have
    the same key and the same value, however the bytes could be split. *)
Theorem hashEntry_bytes `{Hasher} (t : Tree.Tree) (k v k' v' : bytes) :
  (Z.of_nat (length k) < 4294967296)%Z ->
  (Z.of_nat (length k') < 4294967296)%Z ->
  Tree.hashEntry t k v = hashFn (Tree.K t) (entry_bytes k v)
  /\ (entry_bytes k v = entry_bytes k' v' -> k = k' /\ v = v').
Proof.
  intros Hk Hk'. split.
  - unfold Tree.hashEntry, entry_bytes, Hash.digest, Hash.update,
      Hash.create. simpl. rewrite <- !app_assoc. reflexivity.
  - unfold entry_bytes. intros E.
    assert (length k = length k') as Hlen.
    { apply (f_equal be32) in E.
      rewrite !be32_setUint32 in E by lia. lia. }
    rewrite Hlen in E. apply app_inv_head in E.
    destruct (app_same_length _ _ _ _ Hlen E) as [-> E'].
    split; [reflexivity|].
    apply (app_same_length (setUint32 _) (setUint32 _)) in E';
      [tauto|reflexivity].
Qed.

(** ** The node table *)

(** X12.  [setNode] is an upsert by level and key.  On a table in which no
    two rows share level and key it keeps that so, by its own lookup before
    the write; afterwards [getNode] for the node's level and key returns the
    node,
    [getNode] for any other level and key returns what it did, and the table
    has one row more exactly when the level and key were new. *)
Theorem setNode_upsert (s : Store) (n : Node) :
  uniq s ->
  uniq (setNode s n)
  /\ getNode (setNode s n) (level n) (key n) = Some n
  /\ (forall l k, ~ (l = level n /\ k = key n) ->
                  getNode (setNode s n) l k = getNode s l k)
  /\ length (setNode s n)
     = match getNode s (level n) (key n) with
       | Some _ => length s
       | None => S (length s)
       end.
Proof.
  intros Hu. split; [apply setNode_uniq; exact Hu|]. split; [|split].
  - rewrite (getNode_setNode n (level n) (key n) Hu).
    replace (at_key (level n) (key n) n) with true; [reflexivity|].
    symmetry. apply at_key_true. auto.
  - intros l k Hne. rewrite (getNode_setNode n l k Hu).
    replace (at_key l k n) with false; [reflexivity|].
    symmetry. apply at_key_false. intros [<- <-]. apply Hne. auto.
  - unfold setNode. destruct (getNode s (level n) (key n)).
    + apply length_map.
    + rewrite length_app. simpl. lia.
Qed.

(** X13.  [deleteNode] removes the row of a level and key and no other: on
    a table in which no two rows share level and key, afterwards [getNode]
    finds nothing under that level and key and returns what it did under
    any other; when there was no such row the table is unchanged. *)
Theorem deleteNode_lookup (s : Store) (l : nat) (k : Key) :
  uniq s ->
  uniq (deleteNode s l k)
  /\ getNode (deleteNode s l k) l k = None
  /\ (forall l' k', ~ (l' = l /\ k' = k) ->
                    getNode (deleteNode s l k) l' k' = getNode s l' k')
  /\ (getNode s l k = None -> deleteNode s l k = s).
Proof.
  intros Hu. split; [apply deleteNode_uniq; exact Hu|]. split; [|split].
  - rewrite (getNode_deleteNode l l k k Hu), Nat.eqb_refl, key_eqb_refl.
    reflexivity.
  - intros l' k' Hne. rewrite (getNode_deleteNode l' l k' k Hu).
    destruct (Nat.eqb_spec l' l) as [->|]; [|reflexivity].
    destruct (key_eqb k' k) eqn:E; [|reflexivity].
    apply key_eqb_eq in E. subst. exfalso. apply Hne. auto.
  - intros Hnone. unfold deleteNode. apply filter_all. intros r Hr.
    apply negb_true_iff. apply at_key_false.
    apply (proj1 (getNode_None s l k) Hnone r Hr).
Qed.

(** ** When [getFirstSibling] throws *)

(** X14.  For a node with a key, [getFirstSibling] throws its assertion
    exactly when the node's level holds neither an anchor nor a row that
    passes the boundary test with a key at or before the node's key;
    otherwise it returns a node. *)
Theorem firstSibling_throws (t : Tree.Tree) (s : Store) (n : Node)
        (k : bytes) :
  key n = Some k ->
  (Tree.getFirstSibling t s n = Throw "expected firstSibling !== undefined"
   <-> forall r, In r s -> level r = level n ->
                 exists k', key r = Some k'
                            /\ (bytes_leb k' k = false
                                \/ Tree.below_limit t r = false))
  /\ ((exists f, Tree.getFirstSibling t s n = Ok f)
      <-> exists r, In r s /\ level r = level n
                    /\ (key r = None
                        \/ exists k', key r = Some k'
                                      /\ bytes_leb k' k = true
                                      /\ Tree.below_limit t r = true)).
Proof.
  intros Hk. rewrite (getFirstSibling_keyed t s n Hk).
  assert (forall r, sibling_candidate t (level n) k r = true
                    <-> level r = level n
                        /\ (key r = None
                            \/ exists k', key r = Some k'
                                          /\ bytes_leb k' k = true
                                          /\ Tree.below_limit t r = true))
    as Hcand.
  { intros r. unfold sibling_candidate.
    rewrite andb_true_iff, Nat.eqb_eq. destruct (key r) as [k'|].
    - rewrite andb_true_iff. split.
      + intros [Hl [H1 H2]]. split; [exact Hl|]. right. eauto.
      + intros [Hl [E|(k2 & E & H1 & H2)]]; [discriminate|].
        injection E as <-. auto.
    - split; [intros [Hl _]; auto|intros [Hl _]; auto]. }
  destruct (order_desc (filter (sibling_candidate t (level n) k) s))
    as [|r rest] eqn:E.
  - apply (proj1 (order_desc_nil _)) in E.
    pose proof (proj1 (filter_nil_iff _ _) E) as Hall. split.
    + split; [intros _|reflexivity]. intros r Hr Hl.
      specialize (Hall r Hr). destruct (key r) as [k'|] eqn:Ek.
      * exists k'. split; [reflexivity|].
        destruct (bytes_leb k' k) eqn:E1; [|auto]. right.
        destruct (Tree.below_limit t r) eqn:E2; [|reflexivity].
        rewrite (proj2 (Hcand r)) in Hall; [discriminate|].
        split; [exact Hl|]. right. exists k'. auto.
      * rewrite (proj2 (Hcand r)) in Hall; [discriminate|]. auto.
    + split; [intros [f Ef]; discriminate|].
      intros (r & Hr & Hl & Hc). specialize (Hall r Hr).
      rewrite (proj2 (Hcand r)) in Hall; [discriminate|]. auto.
  - destruct (order_desc_head _ E) as [Hin _].
    apply filter_In in Hin. destruct Hin as [Hr Hc].
    apply Hcand in Hc. destruct Hc as [Hl Hc]. split.
    + split; [discriminate|]. intros Hall. exfalso.
      destruct (Hall r Hr Hl) as (k' & Ek & Hno).
      destruct Hc as [Hc|(k2 & E2 & H1 & H2)]; [congruence|].
      rewrite Ek in E2. injection E2 as <-.
      destruct Hno; congruence.
    + split; [intros _; exists r; auto|intros _; eauto].
Qed.

(** ** When [buildLevel] returns *)

(** X15.  On a store in which no two rows share level and key and the rows
    of the level have hashes of at least four bytes, [buildLevel] returns
    exactly when the level holds an anchor.  On a level without rows it
    throws "level is empty"; on a level with rows but no anchor it throws
    "first node was not an anchor". *)
Theorem buildLevel_needs_anchor `{Hasher} (b : Builder.Builder) (l : nat) :
  uniq (Builder.rows (Builder.store b)) ->
  (forall r, In r (Builder.rows (Builder.store b)) -> level r = l ->
             (4 <= length (hash r))%nat) ->
  ((exists b' c, Builder.buildLevel b l = Ok (b', c))
   <-> hasRow (Builder.rows (Builder.store b)) l None)
  /\ ((forall r, In r (Builder.rows (Builder.store b)) -> level r <> l) ->
      Builder.buildLevel b l = Throw "level is empty")
  /\ ((exists r, In r (Builder.rows (Builder.store b)) /\ level r = l) ->
      ~ hasRow (Builder.rows (Builder.store b)) l None ->
      Builder.buildLevel b l = Throw "first node was not an anchor").
Proof.
  intros Hu Hlen. set (s := Builder.rows (Builder.store b)) in *.
  assert (forall first rest, nodes s l = first :: rest ->
                             In first s /\ level first = l) as Hfirst.
  { intros first rest E. apply nodes_In. rewrite E. left. reflexivity. }
  split; [split|split].
  - intros (b' & c & Hb). unfold Builder.buildLevel, Builder.store_nodes in Hb.
    fold s in Hb. destruct (nodes s l) as [|first rest] eqn:E;
      [discriminate|].
    destruct (Hfirst first rest eq_refl) as [Hin Hl].
    rewrite Hl, Nat.eqb_refl in Hb. simpl in Hb.
    destruct (key first) eqn:Ek; [discriminate|]. exists first. auto.
  - intros Ha.
    destruct (nodes_head_anchor Hu Ha) as (first & rest & Hnodes & Hk).
    eexists _, _. apply (@buildLevel_run _ b l first rest Hnodes Hk).
    intros n Hn.
    assert (In n (nodes s l)) as Hin by (rewrite Hnodes; right; exact Hn).
    apply nodes_In in Hin. apply Hlen; tauto.
  - intros Hnone. unfold Builder.buildLevel, Builder.store_nodes. fold s.
    destruct (nodes s l) as [|first rest] eqn:E; [reflexivity|].
    destruct (Hfirst first rest eq_refl) as [Hin Hl].
    destruct (Hnone first Hin Hl).
  - intros (r & Hr & Hl) Hno. unfold Builder.buildLevel, Builder.store_nodes.
    fold s. destruct (nodes s l) as [|first rest] eqn:E.
    + assert (In r (nodes s l)) as Hin by (apply nodes_In; auto).
      rewrite E in Hin. destruct Hin.
    + destruct (Hfirst first rest eq_refl) as [Hin Hfl].
      rewrite Hfl, Nat.eqb_refl. simpl.
      destruct (key first) eqn:Ek; [reflexivity|].
      exfalso. apply Hno. exists first. auto.
Qed.

(** ** Parent hashes *)

(** X16.  No hash goes stale: on a table that [set] and [delete] calls have
    produced from an initialised tree, every row above level 0 holds the
    hash that [getHash] computes for its level and key from the rows of the
    level below as they are now. *)
Theorem parent_hashes_current `{Hasher} (existing : Store)
        (optK : option nat) (optQ : option Z) (clear : bool)
        (t : Tree.Tree) (s0 : Store) (fuel : nat) (ops : list Op)
        (s : Store) :
  Tree.initialize existing optK optQ clear = Ok (t, s0) ->
  clear = true \/ existing = [] ->
  (2 <= Tree.Q t)%Z ->
  (4 <= Tree.K t)%nat ->
  run t fuel ops s0 = Ok s ->
  forall r, In r s -> (1 <= level r)%nat ->
            hash r = Tree.getHash t s (level r) (key r).
Proof.
  intros Hinit Hc HQ HK Hrun r Hr Hl.
  destruct (@initialize_Reached _ _ _ _ _ _ _ _ _ _ Hinit Hc HQ HK Hrun)
    as (([HB|HF] & _) & _).
  - destruct (level r) as [|i] eqn:E; [lia|].
    apply (@built_hashes _ t s HB i r Hr E I).
  - destruct (@Fresh_rows t s r HF Hr) as [Hl0 _]. lia.
Qed.

(** ** The rows [getHash] digests *)

(** X17.  [getHash] for a level above 0 and a key digests, in ascending
    key order, the hashes of exactly these rows of the level below: the rows
    whose key is at or after the given key (all rows when the key is the
    anchor's) and strictly before every later row that passes the boundary
    test.  So the digest covers one chunk: from the key up to, and not
    including, the next boundary. *)
Theorem getHash_rows `{Hasher} (t : Tree.Tree) (s : Store) (i : nat)
        (c : Key) :
  uniq s ->
  Tree.getHash t s (S i) c
  = hashFn (Tree.K t) (concat (map hash (Tree.children t s (S i) c)))
  /\ StronglySorted klt (Tree.children t s (S i) c)
  /\ forall x,
       In x (Tree.children t s (S i) c)
       <-> In x s /\ level x = i /\ key_leb c (key x) = true
           /\ forall y, In y s -> level y = i ->
                        key_ltb c (key y) = true ->
                        Tree.below_limit t y = true ->
                        key_ltb (key x) (key y) = true.
Proof.
  intros Hu. split; [apply getHash_concat|]. rewrite children_eq. split.
  { apply select_sorted with (l := i); [exact Hu|]. apply child_of_level. }
  intros x. rewrite order_asc_In, filter_In.
  set (bs := Tree.later_boundaries t s i c).
  assert (forall y, In y s -> level y = i -> key_ltb c (key y) = true ->
                    Tree.below_limit t y = true ->
                    later_boundary t i c y = true) as Hlater.
  { intros y Hy Hyl Hyc Hyb. apply later_boundary_true.
    split; [exact Hyl|]. destruct (key y) as [ky|] eqn:Ek.
    - exists ky. auto.
    - destruct c; discriminate. }
  split.
  - intros [Hx Hc]. split; [exact Hx|].
    split; [apply (child_of_level _ _ _ _ Hc)|].
    split; [apply (child_of_ge _ _ _ _ Hc)|].
    intros y Hy Hyl Hyc Hyb.
    pose proof (Hlater y Hy Hyl Hyc Hyb) as Hly.
    destruct (key x) as [kx|] eqn:Ekx.
    + destruct bs as [|h rest] eqn:Ebs.
      * rewrite (later_boundaries_nil t s i c Ebs y Hy) in Hly. discriminate.
      * destruct (later_boundaries_head t s i c Ebs) as (_ & _ & Hmin).
        apply key_ltb_leb_trans with (b := key h); [|apply Hmin; assumption].
        unfold child_of in Hc. rewrite Ekx in Hc.
        apply andb_true_iff in Hc. tauto.
    + apply later_boundary_true in Hly.
      destruct Hly as (_ & ky & -> & _). reflexivity.
  - intros (Hx & Hl & Hle & Hbefore). split; [exact Hx|].
    unfold child_of. rewrite Hl, Nat.eqb_refl. simpl.
    apply andb_true_iff. split.
    + destruct c as [k0|]; [|reflexivity].
      destruct (key x) as [kx|]; [rewrite <- key_leb_Some; exact Hle|].
      simpl in Hle. discriminate.
    + destruct (key x) as [kx|] eqn:Ekx; [|reflexivity].
      destruct bs as [|h rest] eqn:Ebs; [reflexivity|].
      destruct (later_boundaries_head t s i c Ebs) as (Hh & Hlb & _).
      apply later_boundary_true in Hlb.
      destruct Hlb as (Hhl & kh & Ekh & Hch & Hhb).
      refine (Hbefore h Hh Hhl _ Hhb). rewrite Ekh. exact Hch.
Qed.

(** ** [Builder] and [Tree] on the same entries *)

Lemma builder_states `{Hasher} (optK : option nat) (optQ : option Z)
      (t : Tree.Tree) (pairs : list (bytes * bytes))
      (b0 : Builder.Builder) :
  Tree.constructor optK optQ = Ok t ->
  ascending pairs -> pairs <> [] ->
  Builder.constructor (fresh_store (Tree.K t) (Tree.Q t)) = Ok b0 ->
  matches t (build_sets b0 pairs)
  /\ Levels t (Builder.rows (Builder.store (build_sets b0 pairs))) 0
            (Builder.nodeCount (build_sets b0 pairs))
  /\ (1 < Builder.nodeCount (build_sets b0 pairs))%nat
  /\ forall x, In x (Builder.rows (Builder.store (build_sets b0 pairs)))
               <-> x = mkNode 0 None (hashFn (Tree.K t) []) None
                   \/ In x (map (leaf_of t) pairs).
Proof.
  intros Ht Hasc Hne Hb0.
  destruct (constructor_Ok optK optQ Ht) as (_ & HLIM & _ & _).
  unfold Builder.constructor, fresh_store in Hb0. simpl in Hb0.
  destruct (Tree.Q t =? 0)%Z; [discriminate|]. injection Hb0 as <-.
  pose proof (ascending_NoDup Hasc) as Hnd.
  match goal with
  | |- context [build_sets ?B _] => set (B0 := B) in *
  end.
  destruct (@build_sets_spec _ t pairs B0 eq_refl) as (EK & EL & EC & ER).
  set (b := build_sets B0 pairs) in *.
  unfold B0 in EK, EL, EC, ER.
  cbn [Builder.K Builder.limit Builder.nodeCount Builder.store
       Builder.rows] in EK, EL, EC, ER.
  split; [split; [exact EK|rewrite EL; symmetry; exact HLIM]|].
  split; [rewrite ER, EC; apply leaves_Levels; exact Hnd|].
  split.
  { rewrite EC. destruct pairs; [contradiction|]. simpl. lia. }
  intros x. rewrite ER. apply leaves_rows; [exact Hnd|reflexivity].
Qed.

Section BuilderAny.

Context {hasher : Hasher}.
Variable t : Tree.Tree.

Hypothesis Hsql :
  forall n, (4 <= length (hash n))%nat ->
            Tree.isBoundary t n = Ok (Tree.below_limit t n).
Hypothesis HK4 : (4 <= Tree.K t)%nat.

Variables (s : Store) (b : Builder.Builder).

Hypothesis HB : Built t s.
Hypothesis Hmatch : matches t b.
Hypothesis HL :
  Levels t (Builder.rows (Builder.store b)) 0 (Builder.nodeCount b).
Hypothesis Hgt : (1 < Builder.nodeCount b)%nat.
Hypothesis Hsame0 :
  forall x, level x = 0%nat ->
            (In x s <-> In x (Builder.rows (Builder.store b))).

Lemma finalize_root_of (r : Node) (fuelB : nat) (root : Node)
      (b' : Builder.Builder) :
  Tree.getRoot s = Ok r ->
  Builder.finalize fuelB b = Ok (root, b') ->
  hash r = hash root /\ level r = level root.
Proof.
  intros Hroot Hfin.
  destruct (@finalize_Built _ t Hsql HK4 fuelB b root b' Hmatch HL Hgt Hfin)
    as (HBb & Hrin & Hrk & Hrtop & Hr0).
  assert (same_rows s (Builder.rows (Builder.store b')) 0) as Hsame.
  { intros k h. split; intros (x & Hx & Hl & Hkh); exists x.
    - split; [apply (Hr0 x Hl), (Hsame0 x Hl); exact Hx|auto].
    - split; [apply (Hsame0 x Hl), (Hr0 x Hl); exact Hx|auto]. }
  pose proof (Built_same HB HBb Hsame) as Hall.
  apply getRoot_Ok in Hroot. destruct Hroot as (r0 & Hr0in & -> & Hmax).
  pose proof (@Built_top _ t s r0 HB Hr0in Hmax) as Hr0k. simpl.
  destruct (proj1 (Hall (level r0) None (hash r0)))
    as (r' & Hr' & Hl' & Hk' & Hh'); [exists r0; auto|].
  destruct (proj2 (Hall (level root) (key root) (hash root)))
    as (r'' & Hr'' & Hl'' & _); [exists root; auto|].
  pose proof (Hrtop r' Hr') as Hle1. pose proof (Hmax r'' Hr'') as Hle2.
  assert (level r' = level root) as Hlev by lia.
  assert (r' = root) as ->.
  { apply (@uniq_In_eq (Builder.rows (Builder.store b'))); auto;
      [apply (built_wf HBb)|congruence]. }
  split; [congruence|lia].
Qed.

Lemma finalize_reaches (r : Node) :
  (exists k, hasRow s 0 (Some k)) ->
  Tree.getRoot s = Ok r ->
  exists root b',
    forall fuelB, (level r <= fuelB)%nat ->
                  Builder.finalize fuelB b = Ok (root, b').
Proof.
  intros Hkeyed Hroot.
  apply getRoot_Ok in Hroot. destruct Hroot as (r0 & Hr0in & -> & Hmax).
  simpl.
  destruct (@Builds_reach _ t Hsql HK4 s (level r0) HB
              (Built_anchor_exists r0 HB Hr0in) Hmax
              (level r0) 0%nat b eq_refl Hmatch HL)
    as (b' & root & HBs & Hn & Hr).
  - intros j Hj. assert (j = 0%nat) as -> by lia.
    intros k h. split; intros (x & Hx & Hl & Hkh); exists x.
    + split; [apply (Hsame0 x Hl); exact Hx|auto].
    + split; [apply (Hsame0 x Hl); exact Hx|auto].
  - intros _ _. exact Hkeyed.
  - exists root, b'. intros fuelB Hfuel. unfold Builder.finalize.
    apply (finalizeLoop_complete HBs Hn Hfuel). exact Hr.
Qed.

End BuilderAny.

(** X18.  The builder computes the root of any history.  Take a table that
    [set] and [delete] calls have produced from an initialised tree and that
    still holds an entry, and the entries it holds, in ascending key order.
    [Builder.finalize] on a freshly initialised store with the same [K] and
    [Q], after [Builder.set] for those entries, returns once its budget
    covers the level of the tree's root, and the node it returns has the
    hash and the level of that root. *)
Theorem builder_root_of_history `{Hasher} (existing : Store)
        (optK : option nat) (optQ : option Z) (clear : bool)
        (t : Tree.Tree) (s0 : Store) (fuel : nat) (ops : list Op)
        (s : Store) (r : Node) (pairs : list (bytes * bytes))
        (b0 : Builder.Builder) :
  Tree.initialize existing optK optQ clear = Ok (t, s0) ->
  clear = true \/ existing = [] ->
  (2 <= Tree.Q t)%Z ->
  (4 <= Tree.K t)%nat ->
  run t fuel ops s0 = Ok s ->
  Tree.getRoot s = Ok r ->
  ascending pairs -> pairs <> [] ->
  (forall k v, In (k, v) pairs
               <-> exists x, getNode s 0 (Some k) = Some x
                             /\ value x = Some v) ->
  Builder.constructor (fresh_store (Tree.K t) (Tree.Q t)) = Ok b0 ->
  (exists root b',
      forall fuelB, (level r <= fuelB)%nat ->
                    Builder.finalize fuelB (build_sets b0 pairs)
                    = Ok (root, b'))
  /\ (forall fuelB root b',
         Builder.finalize fuelB (build_sets b0 pairs) = Ok (root, b') ->
         hash r = hash root /\ level r = level root).
Proof.
  intros Hinit Hc HQ HK Hrun Hroot Hasc Hne Hpairs Hb0.
  destruct (@initialize_Reached _ _ _ _ _ _ _ _ _ _ Hinit Hc HQ HK Hrun)
    as (HR & Hsql & Hleaf & _).
  destruct (initialize_Fresh optK optQ Hinit Hc) as [Ht _].
  destruct (@builder_states _ optK optQ t pairs b0 Ht Hasc Hne Hb0)
    as (Hmatch & HL & Hgt & Hrows).
  pose proof (Reached_uniq HR) as Hu. destruct HR as (Hs & Ha & HLv).
  assert (exists k, hasRow s 0 (Some k)) as Hkeyed.
  { destruct pairs as [|[k v] pairs']; [contradiction|].
    destruct (proj1 (Hpairs k v) (or_introl eq_refl)) as (x & Ex & _).
    apply getNode_Some in Ex. exists k, x. exact Ex. }
  assert (Built t s) as HB.
  { destruct Hs as [HB|HF]; [exact HB|]. exfalso.
    destruct Hkeyed as (k & x & Hx & _ & Hk).
    destruct (@Fresh_rows t s x HF Hx) as [_ E]. congruence. }
  assert (forall x, level x = 0%nat ->
                    (In x s
                     <-> In x (Builder.rows
                                 (Builder.store (build_sets b0 pairs)))))
    as Hsame0.
  { intros x Hl. rewrite Hrows, <- Hleaf.
    change (mkNode 0 None (Tree.LEAF_ANCHOR_HASH t) None)
      with (leaf_anchor t). split.
    - intros Hx. destruct (HLv x Hx Hl) as [->|[[k v] ->]]; [auto|].
      right. apply in_map. apply Hpairs. exists (leaf_of t (k, v)).
      split; [|reflexivity]. apply (getNode_iff 0 (Some k) _ Hu). auto.
    - intros [->|Hx]; [exact Ha|]. apply in_map_iff in Hx.
      destruct Hx as ([k v] & <- & Hkv).
      destruct (proj1 (Hpairs k v) Hkv) as (x' & Ex & Ev).
      apply (getNode_iff 0 (Some k) _ Hu) in Ex.
      destruct Ex as (Hx' & Hl' & Hk').
      destruct (HLv x' Hx' Hl') as [->|[[k' v'] ->]]; [discriminate|].
      simpl in *. replace k with k' by congruence.
      replace v with v' by congruence. exact Hx'. }
  split.
  - apply (@finalize_reaches _ t Hsql HK s _ HB Hmatch HL Hgt Hsame0 r
                             Hkeyed Hroot).
  - intros fuelB root b' Hfin.
    apply (@finalize_root_of _ t Hsql HK s _ HB Hmatch HL Hgt Hsame0 r fuelB
                             root b' Hroot Hfin).
Qed.

Lemma Reached_transfer `{Hasher} (t : Tree.Tree) (s s' : Store) :
  Reached t s -> Built t s' ->
  (forall x, level x = 0%nat -> (In x s <-> In x s')) ->
  Reached t s'.
Proof.
  intros (_ & Ha & HL) HB Hsame. split; [left; exact HB|]. split.
  - apply (Hsame (leaf_anchor t) eq_refl). exact Ha.
  - intros r Hr Hl. apply HL; [|exact Hl]. apply (Hsame r Hl). exact Hr.
Qed.

Lemma run_same_leaves `{Hasher} (t : Tree.Tree) (fuel1 fuel2 : nat) :
  (forall n, (4 <= length (hash n))%nat ->
             Tree.isBoundary t n = Ok (Tree.below_limit t n)) ->
  (4 <= Tree.K t)%nat ->
  Tree.LEAF_ANCHOR_HASH t = hashFn (Tree.K t) [] ->
  forall (ops : list Op) (s s' s1 s2 : Store),
    Reached t s -> Reached t s' -> Built t s -> Built t s' ->
    (forall x, level x = 0%nat -> (In x s <-> In x s')) ->
    run t fuel1 ops s = Ok s1 ->
    run t fuel2 ops s' = Ok s2 ->
    Built t s1 /\ Built t s2
    /\ forall x, level x = 0%nat -> (In x s1 <-> In x s2).
Proof.
  intros Hsql HK Hleaf.
  induction ops as [|op ops IH]; intros s s' s1 s2 HR HR' HB HB' Hsame H1 H2.
  - unfold run in H1, H2. simpl in H1, H2. injection H1 as <-.
    injection H2 as <-. auto.
  - apply run_cons in H1. destruct H1 as (a & Ha & H1).
    apply run_cons in H2. destruct H2 as (a' & Ha' & H2).
    destruct (@apply_op_rows _ t Hsql HK Hleaf fuel1 s op a HR Ha)
      as (Hba & HFa & Hrows).
    destruct (@apply_op_rows _ t Hsql HK Hleaf fuel2 s' op a' HR' Ha')
      as (Hba' & HFa' & Hrows').
    apply (IH a a' s1 s2); try assumption.
    + apply (@apply_op_Reached _ t Hsql HK Hleaf fuel1 s op a HR Ha).
    + apply (@apply_op_Reached _ t Hsql HK Hleaf fuel2 s' op a' HR' Ha').
    + destruct Hba as [Hb|HF]; [exact Hb|]. exfalso.
      apply (Built_not_Fresh HB). apply (HFa HF).
    + destruct Hba' as [Hb|HF]; [exact Hb|]. exfalso.
      apply (Built_not_Fresh HB'). apply (HFa' HF).
    + intros x Hx. rewrite (Hrows x Hx), (Hrows' x Hx).
      pose proof (Hsame x Hx) as E.
      destruct op as [k v|k]; simpl; tauto.
Qed.

(** X19.  A table [Builder] has built can be maintained by [Tree].  Take
    the rows [Builder.finalize] leaves for entries in ascending key order,
    and the table [Tree.set] calls produce for the same entries in any
    order; the same sequence of [set] and [delete] calls on the one and on
    the other leaves the same root. *)
Theorem built_table_maintained `{Hasher} (existing : Store)
        (optK : option nat) (optQ : option Z) (clear : bool)
        (t : Tree.Tree) (s0 : Store) (pairs perm : list (bytes * bytes))
        (fuel : nat) (s : Store) (b0 : Builder.Builder)
        (fuelB : nat) (root : Node) (b' : Builder.Builder)
        (ops : list Op) (fuel1 fuel2 : nat) (s1 s2 : Store) :
  Tree.initialize existing optK optQ clear = Ok (t, s0) ->
  clear = true \/ existing = [] ->
  (2 <= Tree.Q t)%Z ->
  (4 <= Tree.K t)%nat ->
  ascending pairs -> pairs <> [] ->
  Permutation pairs perm ->
  run t fuel (set_ops perm) s0 = Ok s ->
  Builder.constructor (fresh_store (Tree.K t) (Tree.Q t)) = Ok b0 ->
  Builder.finalize fuelB (build_sets b0 pairs) = Ok (root, b') ->
  run t fuel1 ops s = Ok s1 ->
  run t fuel2 ops (Builder.rows (Builder.store b')) = Ok s2 ->
  exists n, Tree.getRoot s1 = Ok n /\ Tree.getRoot s2 = Ok n.
Proof.
  intros Hinit Hc HQ HK Hasc Hne Hperm Hrun Hb0 Hfin Hr1 Hr2.
  destruct (@initialize_Reached _ _ _ _ _ _ _ _ _ _ Hinit Hc HQ HK Hrun)
    as (HR & Hsql & Hleaf & HF).
  destruct (initialize_Fresh optK optQ Hinit Hc) as [Ht _].
  destruct (@sets_states _ optK optQ t s0 pairs perm fuel s b0 Ht HF HQ HK
                         Hasc Hne Hperm Hrun Hb0)
    as (HB & Hmatch & HL & Hgt & Hsame0 & _).
  destruct (@finalize_Built _ t Hsql HK fuelB _ root b' Hmatch HL Hgt Hfin)
    as (HBb & _ & _ & _ & Hr0).
  assert (forall x, level x = 0%nat ->
                    (In x s <-> In x (Builder.rows (Builder.store b'))))
    as Hsame.
  { intros x Hx. rewrite (Hsame0 x Hx), (Hr0 x Hx). reflexivity. }
  pose proof (Reached_transfer HR HBb Hsame) as HRb.
  destruct (@run_same_leaves _ t fuel1 fuel2 Hsql HK Hleaf ops s _ s1 s2
              HR HRb HB HBb Hsame Hr1 Hr2) as (HB1 & HB2 & Hsame12).
  apply (@same_leaves_same_root _ t s1 s2 HB1 HB2 Hsame12).
Qed.

Lemma Builds_params `{Hasher} (b : Builder.Builder) (l m : nat)
      (b' : Builder.Builder) :
  Builds b l m b' ->
  Builder.K b' = Builder.K b /\ Builder.limit b' = Builder.limit b.
Proof.
  induction 1 as [b l|b l b1 c m b' Hc Hb HB IH]; [auto|]. exact IH.
Qed.

(** X20.  What [Builder.finalize] leaves is a well-formed tree.  For at
    least one entry, in ascending key order, on a freshly initialised store
    with [Q >= 2] and [K >= 4]: every level that has a row has exactly one
    anchor; every node with a key above level 0 has, one level below, a node
    with the same key that is a boundary; the leaf level is as the [set]
    calls left it; and the returned node is the anchor of the highest level
    and the only row there. *)
Theorem builder_table_wellformed `{Hasher} (K : nat) (Q : Z)
        (pairs : list (bytes * bytes)) (b0 : Builder.Builder)
        (fuelB : nat) (root : Node) (b' : Builder.Builder) :
  (2 <= Q)%Z ->
  (4 <= K)%nat ->
  ascending pairs -> pairs <> [] ->
  Builder.constructor (fresh_store K Q) = Ok b0 ->
  Builder.finalize fuelB (build_sets b0 pairs) = Ok (root, b') ->
  (forall l, (exists r, In r (Builder.rows (Builder.store b'))
                        /\ level r = l) ->
             length (filter (at_key l None) (Builder.rows (Builder.store b')))
             = 1%nat)
  /\ (forall r L k,
         In r (Builder.rows (Builder.store b')) ->
         level r = S L -> key r = Some k ->
         exists r', In r' (Builder.rows (Builder.store b'))
                    /\ level r' = L /\ key r' = Some k
                    /\ Builder.isBoundary b' r' = Ok true)
  /\ (forall x, level x = 0%nat ->
                (In x (Builder.rows (Builder.store b'))
                 <-> In x (Builder.rows
                             (Builder.store (build_sets b0 pairs)))))
  /\ In root (Builder.rows (Builder.store b'))
  /\ key root = None
  /\ (forall x, In x (Builder.rows (Builder.store b')) ->
                (level x <= level root)%nat)
  /\ (forall x, In x (Builder.rows (Builder.store b')) ->
                level x = level root -> x = root).
Proof.
  intros HQ HK Hasc Hne Hb0 Hfin.
  set (t := Tree.mkTree K Q (Z.quot 4294967296 Q)
                        (setUint32 (Z.quot 4294967296 Q)) (hashFn K [])).
  assert (Tree.constructor (Some K) (Some Q) = Ok t) as Ht.
  { unfold Tree.constructor.
    destruct (Z.eqb_spec Q 0) as [E|_]; [lia|reflexivity]. }
  destruct (tree_params (Some K) (Some Q) Ht HQ) as [Hsql Hleaf].
  destruct (@builder_states _ (Some K) (Some Q) t pairs b0 Ht Hasc Hne Hb0)
    as (Hmatch & HL & Hgt & _).
  destruct (@finalize_Built _ t Hsql HK fuelB _ root b' Hmatch HL Hgt Hfin)
    as (HB & Hrin & Hrk & Hrtop & Hr0).
  pose proof (built_wf HB) as (Hu & Hlen & _).
  assert (matches t b') as Hmatch'.
  { unfold Builder.finalize in Hfin. apply finalizeLoop_sound in Hfin.
    destruct Hfin as (m & _ & HBs & _).
    destruct (Builds_params HBs) as [EK EL]. destruct Hmatch as [MK ML].
    split; congruence. }
  split; [|split; [|split; [exact Hr0|]]].
  - intros l (r & Hr & <-).
    destruct (@Built_anchor_exists _ t _ r HB Hr) as (a & Ha & Hal & Hak).
    rewrite <- Hal, <- Hak. apply uniq_count; assumption.
  - intros r L k Hr Hrl Hrk'.
    assert (bnd t (Builder.rows (Builder.store b')) L k)
      as (r' & Hr' & Hrl' & Hrk2 & Hb').
    { apply (@built_keys _ t _ HB L). exists r. auto. }
    exists r'. repeat split; auto.
    assert (4 <= length (hash r'))%nat as Hl4
        by (rewrite (Hlen r' Hr'); exact HK).
    rewrite (builder_isBoundary b' r' Hl4).
    rewrite (@boundary_agree t Hsql b' r' Hmatch' Hl4), Hb'. reflexivity.
  - split; [exact Hrin|]. split; [exact Hrk|]. split; [exact Hrtop|].
    intros x Hx Hl. apply (@uniq_In_eq _ x root Hu Hx Hrin Hl).
    rewrite Hrk. apply (@Built_top _ t _ x HB Hx). intros y Hy.
    rewrite Hl. apply Hrtop. exact Hy.
Qed.

(** ** [initialize] *)

(** X21.  [initialize] throws a [RangeError] when [Q] is 0, by the division
    in the constructor, and writes nothing.  Otherwise it returns a table in
    which the level-0 anchor holds the digest of the empty byte sequence and
    no value; with [clear] the table has no other row, and without it every
    other row of the existing table is found as before. *)
Theorem initialize_table `{Hasher} (existing : Store) (optK : option nat)
        (optQ : option Z) (clear : bool) :
  uniq existing ->
  let q := match optQ with Some q => q | None => 32%Z end in
  (q = 0%Z ->
   Tree.initialize existing optK optQ clear
   = Throw "RangeError: Division by zero")
  /\ (q <> 0%Z ->
      exists t s0,
        Tree.initialize existing optK optQ clear = Ok (t, s0)
        /\ Tree.Q t = q
        /\ uniq s0
        /\ getNode s0 0 None
           = Some (mkNode 0 None (hashFn (Tree.K t) []) None)
        /\ (clear = true -> s0 = [mkNode 0 None (hashFn (Tree.K t) []) None])
        /\ (clear = false ->
            forall l k, ~ (l = 0%nat /\ k = None) ->
                        getNode s0 l k = getNode existing l k)).
Proof.
  intros Hu q. unfold Tree.initialize, Tree.constructor. fold q. split.
  - intros ->. reflexivity.
  - intros Hq. destruct (Z.eqb_spec q 0) as [E|_]; [contradiction|]. simpl.
    eexists _, _. split; [reflexivity|]. simpl. split; [reflexivity|].
    set (a := mkNode 0 None _ None).
    assert (uniq (if clear then [] else existing)) as Hu'
        by (destruct clear; [constructor|exact Hu]).
    split; [apply setNode_uniq; exact Hu'|]. split; [|split].
    + etransitivity; [apply (getNode_setNode a 0 None Hu')|reflexivity].
    + intros ->. reflexivity.
    + intros -> l k Hne.
      etransitivity; [apply (getNode_setNode a l k Hu)|].
      replace (at_key l k a) with false; [reflexivity|].
      symmetry. apply at_key_false. simpl. intros [<- <-]. apply Hne. auto.
Qed.

(** ** [createParents] *)

(** X22.  [createParents(level, key)], on a table that has no row with the
    key above the level, writes rows with the key on the levels
    [level + 1, ..., level + m] for some [m >= 1] and changes no other row.
    Each written row holds the hash [getHash] computes for it in the
    resulting table; the rows below level [level + m] pass the boundary
    test, and the row on level [level + m] does not, which is where the
    recursion stops. *)
Theorem createParents_chain `{Hasher} (optK : option nat) (optQ : option Z)
        (t : Tree.Tree) (fuel : nat) (s : Store) (j : nat) (c : Key)
        (s2 : Store) :
  Tree.constructor optK optQ = Ok t ->
  (2 <= Tree.Q t)%Z ->
  (4 <= Tree.K t)%nat ->
  uniq s ->
  (forall r, In r s -> length (hash r) = Tree.K t) ->
  (exists a, In a s /\ level a = 0%nat /\ key a = None) ->
  (forall r, In r s -> key r = c -> (level r <= j)%nat) ->
  Tree.createParents t fuel s j c = Ok s2 ->
  uniq s2
  /\ (forall r, key r <> c \/ (level r <= j)%nat -> (In r s <-> In r s2))
  /\ exists m,
       (1 <= m)%nat
       /\ (forall i, (j < i <= j + m)%nat ->
                     exists r, In r s2 /\ level r = i /\ key r = c)
       /\ (forall r, In r s2 -> key r = c -> (j < level r)%nat ->
                     (level r <= j + m)%nat
                     /\ hash r = Tree.getHash t s2 (level r) c
                     /\ Tree.isBoundary t r
                        = Ok (negb (level r =? j + m)%nat)).
Proof.
  intros Ht HQ HK Hu Hlen Ha Hnone Hc.
  destruct (tree_params optK optQ Ht HQ) as [Hsql _].
  destruct (@createParents_spec _ t Hsql HK fuel s j c s2
              (conj Hu (conj Hlen Ha)) Hnone Hc)
    as (Hwf2 & Hframe & m & Hm & Hrows & Hex & Hbnd & Hlast).
  destruct Hwf2 as (Hu2 & Hlen2 & _).
  split; [exact Hu2|]. split; [exact Hframe|].
  exists m. split; [exact Hm|]. split; [exact Hex|].
  intros r Hr Hk Hl. destruct (Hrows r Hr Hk Hl) as [Hle Hh].
  split; [exact Hle|]. split; [exact Hh|].
  rewrite Hsql by (rewrite (Hlen2 r Hr); exact HK). f_equal.
  destruct (Nat.eqb_spec (level r) (j + m)) as [E|E]; simpl.
  - apply Hlast; assumption.
  - apply Hbnd; [assumption..|lia].
Qed.

(** ** [updateAnchor] and [deleteParents] *)

(** X23.  [updateAnchor(level)] changes anchors only, and none below the
    level: a row with a key, or on a lower level, is in the table afterwards
    exactly when it was before.  Afterwards the anchor of the level is there
    with the hash [getHash] computed for it on entry. *)
Theorem updateAnchor_frame `{Hasher} (t : Tree.Tree) (fuel : nat) :
  forall (s : Store) (l : nat) (s' : Store),
    Tree.updateAnchor t fuel s l = Ok s' ->
    (forall r, key r <> None \/ (level r < l)%nat -> (In r s <-> In r s'))
    /\ In (mkNode l None (Tree.getHash t s l None) None) s'.
Proof.
  induction fuel as [|fuel IH]; intros s l s' Hua; simpl in Hua;
    [discriminate|].
  set (n := mkNode l None (Tree.getHash t s l None) None) in *.
  assert (forall r, key r <> None \/ (level r < l)%nat ->
                    (In r s <-> In r (setNode s n))) as H1.
  { intros r Hr. rewrite setNode_In_iff. simpl. split; [|intros [->|[Hin _]]].
    - intros Hin. right. split; [exact Hin|]. intros [Hl Hk].
      destruct Hr; [congruence|lia].
    - simpl in Hr. destruct Hr; [congruence|lia].
    - exact Hin. }
  assert (In n (setNode s n)) as Hn by (apply setNode_In_iff; auto).
  destruct (Tree.has_keys (setNode s n) l).
  - destruct (IH _ _ _ Hua) as [Hframe _]. split.
    + intros r Hr. rewrite (H1 r Hr). apply Hframe.
      destruct Hr; [auto|right; lia].
    + apply (Hframe n); [right; simpl; lia|exact Hn].
  - destruct (deleteParents_inv fuel (setNode s n) l None Hua)
      as (m & _ & _ & Hin). split.
    + intros r Hr. rewrite (H1 r Hr), Hin. split; [|tauto].
      intros Hr1. split; [exact Hr1|]. intros [Hk Hl].
      destruct Hr; [congruence|lia].
    + apply Hin. split; [exact Hn|]. simpl. intros [_ Hl]. lia.
Qed.

Lemma deleteNode_shorter (s : Store) (l : nat) (k : Key) (r : Node) :
  getNode s l k = Some r -> (length (deleteNode s l k) < length s)%nat.
Proof.
  unfold getNode, deleteNode. induction s as [|x s IH]; simpl;
    [discriminate|].
  destruct (at_key l k x) eqn:E; simpl.
  - intros _. pose proof (filter_length_le (fun r => negb (at_key l k r)) s).
    lia.
  - intros Hf. specialize (IH Hf). lia.
Qed.

Lemma deleteParents_budget (fuel : nat) :
  forall (s : Store) (l : nat) (k : Key),
    (length s < fuel)%nat ->
    exists s', Tree.deleteParents fuel s l k = Ok s'
               /\ (length s' <= length s)%nat.
Proof.
  induction fuel as [|fuel IH]; intros s l k Hlen; [lia|]. simpl.
  destruct (getNode s (l + 1) k) as [r|] eqn:E; [|eauto].
  pose proof (deleteNode_shorter _ _ _ E) as Hs.
  destruct (IH (deleteNode s (l + 1) k) (l + 1)%nat k) as (s' & Hd & Hl);
    [lia|].
  exists s'. split; [exact Hd|lia].
Qed.

(** X24.  [deleteParents] always returns: each call that goes on has
    removed a row, so a recursion budget above the number of rows is never
    used up; and it never adds a row. *)
Theorem deleteParents_returns (fuel : nat) (s : Store) (l : nat) (k : Key) :
  (length s < fuel)%nat ->
  exists s', Tree.deleteParents fuel s l k = Ok s'
             /\ (length s' <= length s)%nat.
Proof. apply deleteParents_budget. Qed.

(** The rows with a key on the levels from [l] up. *)
Definition keyed_from (s : Store) (l : nat) : nat :=
  length (filter (fun r => (l <=? level r)%nat
                           && match key r with
                              | Some _ => true
                              | None => false
                              end) s).

Lemma filter_shorter (A : Type) (p q : A -> bool) (s : list A) :
  (forall x, q x = true -> p x = true) ->
  (exists x, In x s /\ p x = true /\ q x = false) ->
  (length (filter q s) < length (filter p s))%nat.
Proof.
  intros Himp. induction s as [|a s IH]; intros (x & Hx & Hp & Hq);
    [destruct Hx|].
  assert (length (filter q s) <= length (filter p s))%nat as Hle.
  { clear - Himp. induction s as [|b s IH]; simpl; [lia|].
    destruct (q b) eqn:Eq; [rewrite (Himp b Eq); simpl; lia|].
    destruct (p b); simpl; lia. }
  simpl. destruct Hx as [->|Hx].
  - rewrite Hp, Hq. simpl. lia.
  - assert (length (filter q s) < length (filter p s))%nat as Hlt
        by (apply IH; eauto).
    destruct (q a) eqn:Eq; [rewrite (Himp a Eq); simpl; lia|].
    destruct (p a); simpl; lia.
Qed.

Lemma keyed_from_setNode (s : Store) (n : Node) (x : nat) :
  key n = None -> keyed_from (setNode s n) x = keyed_from s x.
Proof.
  intros Hk. unfold keyed_from, setNode.
  destruct (getNode s (level n) (key n)).
  - rewrite filter_map_comm, length_map. f_equal. apply filter_ext.
    intros r. destruct (at_key (level n) (key n) r); reflexivity.
  - rewrite filter_app, length_app. simpl. rewrite Hk, andb_false_r.
    simpl. lia.
Qed.

Lemma has_keys_fewer (s : Store) (l : nat) :
  Tree.has_keys s l = true ->
  (keyed_from s (l + 1) < keyed_from s l)%nat.
Proof.
  unfold Tree.has_keys, keyed_from. intros E. apply existsb_exists in E.
  destruct E as (x & Hx & E). apply andb_true_iff in E.
  destruct E as [El Ek]. apply Nat.eqb_eq in El. apply filter_shorter.
  - intros r Hr. apply andb_true_iff in Hr. destruct Hr as [H1 H2].
    apply Nat.leb_le in H1. apply andb_true_iff. split; [|exact H2].
    apply Nat.leb_le. lia.
  - exists x. split; [exact Hx|]. rewrite Ek, !andb_true_r. split.
    + apply Nat.leb_le. lia.
    + apply Nat.leb_gt. lia.
Qed.

Lemma setNode_length (s : Store) (n : Node) :
  (length (setNode s n) <= S (length s))%nat.
Proof.
  unfold setNode. destruct (getNode s (level n) (key n)).
  - rewrite length_map. lia.
  - rewrite length_app. simpl. lia.
Qed.

Lemma updateAnchor_budget `{Hasher} (t : Tree.Tree) (fuel : nat) :
  forall (s : Store) (l : nat),
    (length s + 2 * keyed_from s l + 2 < fuel)%nat ->
    exists s', Tree.updateAnchor t fuel s l = Ok s'.
Proof.
  induction fuel as [|fuel IH]; intros s l Hf; [lia|]. simpl.
  set (n := mkNode l None (Tree.getHash t s l None) None).
  pose proof (setNode_length s n) as Hlen.
  pose proof (keyed_from_setNode s n l eq_refl) as Hk.
  destruct (Tree.has_keys (setNode s n) l) eqn:E.
  - apply IH. apply has_keys_fewer in E. lia.
  - destruct (@deleteParents_budget fuel (setNode s n) l None)
      as (s' & Hd & _); [lia|eauto].
Qed.

(** X25.  [updateAnchor] always returns: it climbs only while the level
    holds a row with a key, and [deleteParents] ends it, so a recursion
    budget above three times the number of rows plus two is never used
    up. *)
Theorem updateAnchor_returns `{Hasher} (t : Tree.Tree) (fuel : nat)
        (s : Store) (l : nat) :
  (3 * length s + 2 < fuel)%nat ->
  exists s', Tree.updateAnchor t fuel s l = Ok s'.
Proof.
  intros Hf. apply updateAnchor_budget.
  assert (keyed_from s l <= length s)%nat
    by (unfold keyed_from; apply filter_length_le).
  lia.
Qed.


(** ** The shape of the tree *)

(** X26.  On a table that [set] and [delete] calls have produced from an
    initialised tree the levels have no gap and do not widen upwards: every
    level up to the root's holds an anchor, and a level holds at most as
    many rows as the level below it. *)
Theorem levels_shrink `{Hasher} (existing : Store) (optK : option nat)
        (optQ : option Z) (clear : bool) (t : Tree.Tree) (s0 : Store)
        (fuel : nat) (ops : list Op) (s : Store) (r : Node) :
  Tree.initialize existing optK optQ clear = Ok (t, s0) ->
  clear = true \/ existing = [] ->
  (2 <= Tree.Q t)%Z ->
  (4 <= Tree.K t)%nat ->
  run t fuel ops s0 = Ok s ->
  Tree.getRoot s = Ok r ->
  (forall i, (i <= level r)%nat ->
             exists a, In a s /\ level a = i /\ key a = None)
  /\ (forall i, (length (filter (fun x => (level x =? S i)%nat) s)
                 <= length (filter (fun x => (level x =? i)%nat) s))%nat).
Proof.
  intros Hinit Hc HQ HK Hrun Hroot.
  destruct (@initialize_Reached _ _ _ _ _ _ _ _ _ _ Hinit Hc HQ HK Hrun)
    as (HR & _).
  pose proof (Reached_uniq HR) as Hu. destruct HR as ([HB|HF] & Ha & _).
  - apply getRoot_Ok in Hroot. destruct Hroot as (r0 & Hr0 & -> & _).
    simpl. split.
    + intros i Hi.
      apply (Built_anchors_upto HB (Built_anchor_exists r0 HB Hr0) Hi).
    + intros i.
      rewrite <- (length_map key (filter (fun x => (level x =? S i)%nat) s)).
      rewrite <- (length_map key (filter (fun x => (level x =? i)%nat) s)).
      apply NoDup_incl_length.
      * apply uniq_level_keys with (l := S i); [exact Hu|].
        intros x Hx. apply Nat.eqb_eq. exact Hx.
      * intros k Hk. apply in_map_iff in Hk. destruct Hk as (x & <- & Hx).
        apply filter_In in Hx. destruct Hx as [Hx Hl].
        apply Nat.eqb_eq in Hl.
        assert (hasRow s i (key x)) as (y & Hy & Hyl & Hyk).
        { destruct (key x) as [kx|] eqn:Ek.
          - apply bnd_hasRow with (t := t). apply (built_keys HB i).
            exists x. auto.
          - apply (Built_anchor_below HB). exists x. auto. }
        apply in_map_iff. exists y. split; [exact Hyk|].
        apply filter_In. split; [exact Hy|]. apply Nat.eqb_eq. exact Hyl.
  - unfold Fresh in HF. subst s. unfold Tree.getRoot in Hroot.
    simpl in Hroot. injection Hroot as <-. simpl. split.
    + intros i Hi. assert (i = 0%nat) as -> by lia. eexists.
      split; [left; reflexivity|]. auto.
    + intros i. lia.
Qed.


(** ** [Builder.finalize], level by level (C7) *)

Lemma getUint32_Ok_length (h : bytes) (v : Z) :
  getUint32 h = Ok v -> (4 <= length h)%nat.
Proof.
  destruct h as [|b0 [|b1 [|b2 [|b3 r]]]]; simpl; intros E;
    try discriminate E. lia.
Qed.

(** A run of the loop of [buildLevel] that returns has read four bytes of
    the hash of every node it was given. *)
Lemma buildLoop_Ok_rest `{Hasher} (b : Builder.Builder) (l : nat)
      (rest : list Node) :
  forall (k : Key) (h : Hash.State) (st : Builder.NodeStore) (count : nat)
         (r : Builder.NodeStore * nat),
    Builder.buildLoop b l rest k h st count = Ok r ->
    forall n, In n rest -> (4 <= length (hash n))%nat.
Proof.
  induction rest as [|n rest IH]; intros k h st count r Hb x Hx;
    [destruct Hx|].
  simpl in Hb.
  destruct (assert (level n =? l)%nat _) as [[]| |]; simpl in Hb;
    try discriminate Hb.
  unfold Builder.isBoundary in Hb.
  destruct (getUint32 (hash n)) as [v| |] eqn:E; simpl in Hb;
    try discriminate Hb.
  destruct Hx as [<-|Hx]; [exact (getUint32_Ok_length _ E)|].
  destruct (v <? Builder.limit b)%Z; eapply IH; eauto.
Qed.

Lemma buildLevel_Ok_inv `{Hasher} (b : Builder.Builder) (l : nat)
      (b1 : Builder.Builder) (c : nat) :
  Builder.buildLevel b l = Ok (b1, c) ->
  exists first rest,
    Builder.store_nodes (Builder.store b) l = first :: rest
    /\ key first = None
    /\ (forall n, In n rest -> (4 <= length (hash n))%nat).
Proof.
  unfold Builder.buildLevel. intros Hb.
  destruct (Builder.store_nodes (Builder.store b) l) as [|first rest] eqn:E;
    [discriminate Hb|].
  exists first, rest. split; [reflexivity|].
  destruct (level first =? l)%nat; simpl in Hb; [|discriminate Hb].
  destruct (key first) as [k|] eqn:Ek; simpl in Hb; [discriminate Hb|].
  split; [reflexivity|].
  destruct (Builder.buildLoop _ _ _ _ _ _ _) as [r| |] eqn:El; simpl in Hb;
    try discriminate Hb.
  exact (buildLoop_Ok_rest _ _ _ _ _ _ _ El).
Qed.

Lemma nodes_length_agree (s s' : Store) (l : nat) :
  uniq s -> uniq s' ->
  (forall x, level x = l -> (In x s' <-> In x s)) ->
  length (nodes s' l) = length (nodes s l).
Proof.
  intros Hu Hu' Hag. unfold nodes. rewrite !order_asc_length.
  apply Permutation_length. apply NoDup_Permutation.
  - apply NoDup_filter. apply uniq_NoDup. exact Hu'.
  - apply NoDup_filter. apply uniq_NoDup. exact Hu.
  - intros x. rewrite !filter_In, Nat.eqb_eq. split; intros [Hx Hl];
      (split; [apply (Hag x Hl); exact Hx|exact Hl]).
Qed.

(** What [finalize] keeps true of the table from one level to the next:
    the rows reach up to level [l], the node count is the number of rows on
    level [l], and every level below [l] holds more than one row. *)
Record Counted (s : Store) (l cnt : nat) : Prop := mkCounted
  { ct_uniq : uniq s;
    ct_top : forall r, In r s -> (level r <= l)%nat;
    ct_below : forall j, (j < l)%nat -> (1 < length (nodes s j))%nat;
    ct_count : cnt = length (nodes s l) }.


Lemma Counted_step `{Hasher} (b : Builder.Builder) (l : nat)
      (b1 : Builder.Builder) (c : nat) :
  Counted (Builder.rows (Builder.store b)) l (Builder.nodeCount b) ->
  (1 < Builder.nodeCount b)%nat ->
  Builder.buildLevel b l = Ok (b1, c) ->
  Counted (Builder.rows (Builder.store b1)) (l + 1) c.
Proof.
  intros [Hu Htop Hbelow Hcnt] Hgt Hb.
  destruct (buildLevel_Ok_inv _ _ Hb)
    as (first & rest & Hnodes & Hfirst & Hlen4).
  rewrite (@buildLevel_run _ b l first rest Hnodes Hfirst Hlen4) in Hb.
  unfold Builder.store_nodes in Hnodes.
  injection Hb as <- <-. cbn [Builder.store].
  rewrite fold_store_setNode_rows.
  pose proof (chunks_from_Chunked (builder_boundary b) first rest) as Hch.
  set (s := Builder.rows (Builder.store b)) in *.
  set (cs := chunks_from (builder_boundary b) [first] rest) in *.
  set (ps := map (parent_of (Builder.K b) l) cs).
  assert (NoDup (map (fun r => (level r, key r)) ps)) as Hnd
      by (eapply parents_NoDup; eauto).
  set (s' := fold_left setNode ps s).
  assert (forall x, In x ps -> level x = (l + 1)%nat) as Hpl.
  { intros x Hx. apply in_map_iff in Hx. destruct Hx as (c0 & <- & _).
    reflexivity. }
  assert (forall x, In x s' <-> In x ps \/ In x s) as Hin.
  { intros x. unfold s'. rewrite (@fold_setNode_In ps Hnd). split.
    - intros [Hx|[Hx _]]; auto.
    - intros [Hx|Hx]; [auto|]. right. split; [exact Hx|].
      intros p Hp [Hlp _]. apply Htop in Hx. rewrite (Hpl p Hp) in Hlp. lia. }
  assert (forall x, (level x <= l)%nat -> (In x s' <-> In x s)) as Hlow.
  { intros x Hx. rewrite Hin. split; [|auto].
    intros [Hp|Hs]; [apply Hpl in Hp; lia|exact Hs]. }
  assert (uniq s') as Hu' by (apply fold_setNode_uniq; exact Hu).
  constructor.
  - exact Hu'.
  - intros r Hr. apply Hin in Hr. destruct Hr as [Hr|Hr];
      [rewrite (Hpl r Hr); lia|apply Htop in Hr; lia].
  - intros j Hj.
    rewrite (@nodes_length_agree s s' j Hu Hu')
      by (intros x Hx; apply Hlow; lia).
    destruct (Nat.eq_dec j l) as [->|Hne]; [|apply Hbelow; lia].
    rewrite <- Hcnt. exact Hgt.
  - symmetry. unfold s'. rewrite parents_count.
    + unfold ps. apply length_map.
    + exact Hu.
    + intros r Hr E. apply Htop in Hr. lia.
    + exact Hnd.
    + exact Hpl.
Qed.

Lemma Builds_Counted `{Hasher} (b : Builder.Builder) (l m : nat)
      (b' : Builder.Builder) :
  Builds b l m b' ->
  Counted (Builder.rows (Builder.store b)) l (Builder.nodeCount b) ->
  Counted (Builder.rows (Builder.store b')) (l + m) (Builder.nodeCount b').
Proof.
  induction 1 as [b l|b l b1 c m b' Hc Hb HB IH]; intros HC.
  - rewrite Nat.add_0_r. exact HC.
  - replace (l + S m)%nat with (l + 1 + m)%nat by lia. apply IH. simpl.
    exact (@Counted_step _ b l b1 c HC Hc Hb).
Qed.

Lemma Counted_single (s : Store) (l cnt : nat) (x y : Node) :
  Counted s l cnt -> (cnt <= 1)%nat ->
  In x s -> level x = l -> In y s -> level y = l -> x = y.
Proof.
  intros [_ _ _ Hcnt] Hle Hx Hxl Hy Hyl.
  assert (In x (nodes s l)) as Hxn by (apply nodes_In; auto).
  assert (In y (nodes s l)) as Hyn by (apply nodes_In; auto).
  destruct (nodes s l) as [|a [|a' r]]; simpl in *.
  - destruct Hxn.
  - destruct Hxn as [<-|[]]. destruct Hyn as [<-|[]]. reflexivity.
  - lia.
Qed.


(** C7.  The builder starts on the initialised store and gets its entries
    in ascending key order.  With no entry, [finalize] returns the level-0
    anchor and builds nothing.  Otherwise a [finalize] that returns has run
    [buildLevel] on the levels [0, ..., m - 1], each of which holds more than
    one node, and stops at level [m >= 1], which holds exactly one node: the
    anchor of that level, which it returns; no row lies above it.  It does
    return whenever some level is built with a single chunk and the recursion
    budget covers the levels below it. *)
Theorem finalize_levels `{Hasher} (K : nat) (Q : Z)
        (pairs : list (bytes * bytes)) (b0 : Builder.Builder) :
  ascending pairs ->
  Builder.constructor (fresh_store K Q) = Ok b0 ->
  (pairs = [] ->
   forall fuel,
     Builder.finalize fuel (build_sets b0 pairs)
     = Ok (mkNode 0 None (hashFn K []) None, b0))
  /\ (forall fuel root b',
         Builder.finalize fuel (build_sets b0 pairs) = Ok (root, b') ->
         exists m,
           Builds (build_sets b0 pairs) 0 m b'
           /\ (pairs <> [] -> (1 <= m)%nat)
           /\ getNode (Builder.rows (Builder.store b')) m None = Some root
           /\ In root (Builder.rows (Builder.store b'))
           /\ level root = m /\ key root = None
           /\ Builder.nodeCount b' = 1%nat
           /\ length (nodes (Builder.rows (Builder.store b')) m) = 1%nat
           /\ (forall x, In x (Builder.rows (Builder.store b')) ->
                         level x = m -> x = root)
           /\ (forall x, In x (Builder.rows (Builder.store b')) ->
                         (level x <= m)%nat)
           /\ (forall j, (j < m)%nat ->
                 (1 < length (nodes (Builder.rows (Builder.store b')) j))%nat))
  /\ (forall m b' root fuel,
         Builds (build_sets b0 pairs) 0 m b' ->
         (Builder.nodeCount b' <= 1)%nat ->
         getNode (Builder.rows (Builder.store b')) m None = Some root ->
         (m <= fuel)%nat ->
         Builder.finalize fuel (build_sets b0 pairs) = Ok (root, b')).
Proof.
  intros Hasc Hb0.
  assert (b0 = Builder.mkBuilder K Q (Z.quot 4294967296 Q) (fresh_store K Q) 1)
    as Eb0.
  { revert Hb0. unfold Builder.constructor. simpl.
    destruct (Q =? 0)%Z; [discriminate|]. intros E. injection E as <-.
    reflexivity. }
  set (t := Tree.mkTree K Q 0 [] []).
  destruct (@build_sets_spec _ t pairs b0) as (_ & _ & Ecnt & Erows).
  { rewrite Eb0. reflexivity. }
  pose proof (@leaves_Levels _ t pairs (ascending_NoDup Hasc)) as HL.
  assert (Counted (Builder.rows (Builder.store (build_sets b0 pairs))) 0
                  (Builder.nodeCount (build_sets b0 pairs))) as HC0.
  { rewrite Erows, Ecnt. rewrite Eb0. simpl Builder.rows.
    simpl Builder.nodeCount. constructor.
    - exact (proj1 (lv_wf HL)).
    - exact (lv_top HL).
    - intros j Hj. lia.
    - exact (lv_count HL). }
  split; [|split].
  - intros -> fuel. rewrite Eb0. destruct fuel; reflexivity.
  - intros fuel root b' Hf. unfold Builder.finalize in Hf.
    apply finalizeLoop_sound in Hf. destruct Hf as (m & _ & HB & Hn & Hr).
    simpl in Hr. exists m.
    pose proof (Builds_Counted HB HC0) as HC. simpl in HC.
    destruct (getNode_Some _ _ _ Hr) as (Hin & Hl & Hk).
    assert (In root (nodes (Builder.rows (Builder.store b')) m)) as Hrn
        by (apply nodes_In; auto).
    pose proof (ct_count HC) as Hcnt.
    assert (length (nodes (Builder.rows (Builder.store b')) m) = 1%nat)
      as Hone.
    { destruct (nodes (Builder.rows (Builder.store b')) m);
        [destruct Hrn|simpl in *; lia]. }
    split; [exact HB|]. split.
    { intros Hne. destruct m as [|m]; [|lia]. exfalso.
      assert (b' = build_sets b0 pairs) as E
          by (inversion HB; subst; reflexivity).
      rewrite E, Ecnt, Eb0 in Hn. simpl in Hn.
      destruct pairs; [congruence|simpl in Hn; lia]. }
    split; [exact Hr|]. split; [exact Hin|]. split; [exact Hl|].
    split; [exact Hk|]. split; [lia|]. split; [exact Hone|]. split.
    { intros x Hx Hxl.
      exact (@Counted_single _ m _ x root HC Hn Hx Hxl Hin Hl). }
    split; [exact (ct_top HC)|exact (ct_below HC)].
  - intros m b' root fuel HB Hn Hr Hfuel. unfold Builder.finalize.
    eapply finalizeLoop_complete; eauto.
Qed.


(** ** [delete] of a boundary, on the tables the tree reaches (C4) *)

(** C4.  On a table the tree has reached by [set] and [delete], let the
    level-0 row of the key be a boundary and let [delete] return.  Taking the
    calls of [delete] in program order: [deleteParents] removes the rows with
    the key from every level above 0; [deleteNode] removes the level-0 row,
    so no row with the key is left; the first sibling of the deleted node is
    looked up in that table and lies at or before the key; and [update] on
    its key, or [updateAnchor] when it is the anchor, gives the final table.
    In the final table no row has the key, level 0 is the old level 0 without
    the key, the level-1 row with the first sibling's key carries the hash of
    its chunk of level 0 as it now is, and so does every row of every level
    above 0 for its chunk one level down. *)
Theorem delete_boundary_steps `{Hasher} (existing : Store)
        (optK : option nat) (optQ : option Z) (clear : bool) (t : Tree.Tree)
        (s0 : Store) (fuel0 : nat) (ops : list Op) (s : Store) (fuel : nat)
        (k : bytes) (n : Node) (s' : Store) :
  Tree.initialize existing optK optQ clear = Ok (t, s0) ->
  clear = true \/ existing = [] ->
  (2 <= Tree.Q t)%Z ->
  (4 <= Tree.K t)%nat ->
  run t fuel0 ops s0 = Ok s ->
  getNode s 0 (Some k) = Some n ->
  Tree.isBoundary t n = Ok true ->
  Tree.delete t fuel s k = Ok s' ->
  exists s1 fs,
    Tree.deleteParents fuel s 0 (Some k) = Ok s1
    /\ (forall r, In r s1
                  <-> In r s /\ ~ (key r = Some k /\ (0 < level r)%nat))
    /\ (forall r, In r (deleteNode s1 0 (Some k))
                  <-> In r s /\ key r <> Some k)
    /\ Tree.getFirstSibling t (deleteNode s1 0 (Some k)) n = Ok fs
    /\ key_leb (key fs) (Some k) = true
    /\ match key fs with
       | None => Tree.updateAnchor t fuel (deleteNode s1 0 (Some k)) 1
       | Some _ => Tree.update t fuel (deleteNode s1 0 (Some k)) 1 (key fs)
       end = Ok s'
    /\ (forall r, In r s' -> key r <> Some k)
    /\ (forall r, level r = 0%nat -> (In r s' <-> In r s /\ key r <> Some k))
    /\ (exists p, In p s' /\ level p = 1%nat /\ key p = key fs
                  /\ hash p = Tree.getHash t s' 1 (key fs))
    /\ (forall r i, In r s' -> level r = S i ->
                    hash r = Tree.getHash t s' (S i) (key r)).
Proof.
  intros Hinit Hc HQ HK Hrun Hn Hb Hdel.
  destruct (@initialize_Reached _ _ _ _ _ _ _ _ _ _ Hinit Hc HQ HK Hrun)
    as (HR & Hsql & _ & _).
  destruct (getNode_Some _ _ _ Hn) as (Hns & Hnl & Hnk).
  assert (Built t s) as HB.
  { destruct HR as ([HB|HF] & _); [exact HB|]. exfalso.
    destruct (@Fresh_rows t s n HF Hns) as [_ E]. congruence. }
  destruct (@delete_Built _ t Hsql HK fuel s k s' HB Hdel) as [HB' Hlv0].
  unfold Tree.delete in Hdel. rewrite Hn, Hb in Hdel. simpl in Hdel.
  destruct (Tree.deleteParents fuel s 0 (Some k)) as [s1| |] eqn:Edp;
    simpl in Hdel; try discriminate Hdel.
  destruct (Tree.getFirstSibling t (deleteNode s1 0 (Some k)) n)
    as [fs| |] eqn:Efs; simpl in Hdel; try discriminate Hdel.
  exists s1, fs.
  assert (forall r, In r s1
                    <-> In r s /\ ~ (key r = Some k /\ (0 < level r)%nat))
    as Hs1.
  { apply (deleteParents_all _ Edp). intros i _ Hrow.
    apply (@bnd_hasRow t). apply (built_keys HB i). exact Hrow. }
  assert (forall r, In r (deleteNode s1 0 (Some k))
                    <-> In r s /\ key r <> Some k) as Hs2.
  { intros r. rewrite deleteNode_In, Hs1. split.
    - intros [[Hr Hne] Hne']. split; [exact Hr|]. intros Hk.
      destruct (Nat.eq_dec (level r) 0) as [E|E]; [tauto|].
      apply Hne. split; [exact Hk|lia].
    - intros [Hr Hne]. split; [split; [exact Hr|]|]; tauto. }
  destruct (getFirstSibling_Ok t _ n Hnk Efs)
    as (_ & (x & Hx & Hcand & Hxl & Hxk & Hxh) & _).
  unfold sibling_candidate in Hcand. apply andb_true_iff in Hcand.
  destruct Hcand as [Hxl0 Hcand]. apply Nat.eqb_eq in Hxl0.
  rewrite Hnl in Hxl0.
  assert (In x s') as Hxs'.
  { apply (Hlv0 x Hxl0). apply Hs2. exact Hx. }
  split; [reflexivity|]. split; [exact Hs1|]. split; [exact Hs2|].
  split; [exact Efs|]. split.
  { rewrite <- Hxk. destruct (key x) as [k'|]; [|reflexivity].
    apply andb_true_iff in Hcand. rewrite key_leb_Some. tauto. }
  split; [exact Hdel|]. split.
  { intros r Hr Hk.
    assert (hasRow s' 0 (Some k)) as (y & Hy & Hyl & Hyk).
    { apply (@keys_descend_row t s' 0 (level r) k).
      - intros i _. exact (built_keys HB' i).
      - lia.
      - exists r. auto. }
    apply (Hlv0 y Hyl) in Hy. tauto. }
  split; [exact Hlv0|]. split.
  - assert (hasRow s' 1 (key fs)) as (p & Hp & Hpl & Hpk).
    { rewrite <- Hxk. destruct (key x) as [k'|] eqn:Ekx.
      - apply (built_keys HB' 0%nat). exists x.
        apply andb_true_iff in Hcand. tauto.
      - exact (built_anchor1 HB'). }
    exists p. split; [exact Hp|]. split; [exact Hpl|]. split; [exact Hpk|].
    rewrite <- Hpk. exact (@built_hashes _ t s' HB' 0%nat p Hp Hpl I).
  - intros r i Hr Hl. exact (@built_hashes _ t s' HB' i r Hr Hl I).
Qed.


(** ** Concrete tables *)

(** A check of [uniq] that can be evaluated. *)
Fixpoint uniqb (s : Store) : bool :=
  match s with
  | [] => true
  | r :: s' => negb (existsb (at_key (level r) (key r)) s') && uniqb s'
  end.

Lemma uniqb_sound (s : Store) : uniqb s = true -> uniq s.
Proof.
  unfold uniq. induction s as [|r s IH]; simpl; intros E; [constructor|].
  apply andb_true_iff in E. destruct E as [E1 E2].
  constructor; [|apply IH; exact E2].
  intros Hin. apply in_map_iff in Hin. destruct Hin as (x & Ex & Hx).
  apply negb_true_iff in E1.
  assert (existsb (at_key (level r) (key r)) s = true) as E3.
  { apply existsb_exists. exists x. split; [exact Hx|].
    apply at_key_true. split; congruence. }
  congruence.
Qed.

Definition store_5_2 : Store :=
  Eval vm_compute in
    match run tree16_4 9 [OpSet key_5 value_5; OpSet key_2 value_2]
              fresh16 with
    | Ok s => s
    | _ => []
    end.

Definition store_2_5_5 : Store :=
  Eval vm_compute in
    match run tree16_4 9 [OpSet key_5 value_2; OpSet key_5 value_5]
              store_2 with
    | Ok s => s
    | _ => []
    end.

Definition store_2_d : Store :=
  Eval vm_compute in
    match Tree.delete tree16_4 9 store_2 key_2 with
    | Ok s => s
    | _ => []
    end.

Definition tree3_4 : Tree.Tree :=
  Tree.mkTree 3 4 1073741824 (setUint32 1073741824) (hashFn 3 []).

(** The table [initialize] writes for [K = 3]: the level-0 anchor alone. *)
Definition fresh3 : Store :=
  Eval vm_compute in
    match Tree.initialize [] (Some 3%nat) (Some 4%Z) true with
    | Ok (_, s) => s
    | _ => []
    end.

Definition entries_2_5 : list (bytes * bytes) :=
  [(key_2, value_2); (key_5, value_5)].

Definition built_2_5 : Node * Builder.Builder :=
  Eval vm_compute in
    match Builder.finalize 9 (build_sets builder_0 entries_2_5) with
    | Ok r => r
    | _ => (anchor16, builder_0)
    end.

Definition built_6 : Node * Builder.Builder :=
  Eval vm_compute in
    match Builder.finalize 9 (build_sets builder_0 entries_6) with
    | Ok r => r
    | _ => (anchor16, builder_0)
    end.

Definition store_5_2_d : Store :=
  Eval vm_compute in
    match Tree.delete tree16_4 9 store_5_2 key_2 with
    | Ok s => s
    | _ => []
    end.

Definition built_2_5_d : Store :=
  Eval vm_compute in
    match Tree.delete tree16_4 9
                      (Builder.rows (Builder.store (snd built_2_5))) key_2 with
    | Ok s => s
    | _ => []
    end.

Definition rows_leaf_2 : Store := Eval vm_compute in setNode fresh16 leaf_2.

Definition parents_of_leaf_2 : Store :=
  Eval vm_compute in
    match Tree.createParents tree16_4 9 rows_leaf_2 0 (Some key_2) with
    | Ok s => s
    | _ => []
    end.

(** ** The properties on concrete tables *)

Lemma set_then_lookup_witness :
  getNode store_2_5 0 (Some key_5)
  = Some (mkNode 0 (Some key_5) (Tree.hashEntry tree16_4 key_5 value_5)
                 (Some value_5))
  /\ forall k', k' <> key_5 ->
                getNode store_2_5 0 (Some k') = getNode store_2 0 (Some k').
Proof.
  apply (@set_then_lookup blake3_hasher [] (Some 16%nat) (Some 4%Z) true
           tree16_4 fresh16 9 [OpSet key_2 value_2] store_2 9 key_5 value_5
           store_2_5).
  - vm_compute. reflexivity.
  - left. reflexivity.
  - simpl. lia.
  - simpl. lia.
  - vm_compute. reflexivity.
  - vm_compute. reflexivity.
Defined.

Lemma delete_then_lookup_witness :
  getNode store_2_5d 0 (Some key_5) = None
  /\ forall k', k' <> key_5 ->
                getNode store_2_5d 0 (Some k') = getNode store_2_5 0 (Some k').
Proof.
  apply (@delete_then_lookup blake3_hasher [] (Some 16%nat) (Some 4%Z) true
           tree16_4 fresh16 9 [OpSet key_2 value_2; OpSet key_5 value_5]
           store_2_5 9 key_5 store_2_5d).
  - vm_compute. reflexivity.
  - left. reflexivity.
  - simpl. lia.
  - simpl. lia.
  - vm_compute. reflexivity.
  - vm_compute. reflexivity.
Defined.

Lemma stored_leaves_witness :
  getNode store_2_5 0 None
  = Some (mkNode 0 None (hashFn (Tree.K tree16_4) []) None)
  /\ forall r k, In r store_2_5 -> level r = 0%nat -> key r = Some k ->
                 exists v, value r = Some v
                           /\ hash r = Tree.hashEntry tree16_4 k v.
Proof.
  apply (@stored_leaves blake3_hasher [] (Some 16%nat) (Some 4%Z) true
           tree16_4 fresh16 9 [OpSet key_2 value_2; OpSet key_5 value_5]
           store_2_5).
  - vm_compute. reflexivity.
  - left. reflexivity.
  - simpl. lia.
  - simpl. lia.
  - vm_compute. reflexivity.
Defined.

Lemma same_entries_same_root_witness :
  exists n, Tree.getRoot store_2_5 = Ok n /\ Tree.getRoot store_5_2 = Ok n.
Proof.
  apply (@same_entries_same_root blake3_hasher [] (Some 16%nat) (Some 4%Z)
           true tree16_4 fresh16 9 9
           [OpSet key_2 value_2; OpSet key_5 value_5]
           [OpSet key_5 value_5; OpSet key_2 value_2] store_2_5 store_5_2).
  - vm_compute. reflexivity.
  - left. reflexivity.
  - simpl. lia.
  - simpl. lia.
  - vm_compute. reflexivity.
  - vm_compute. reflexivity.
  - intros k. unfold getNode, store_2_5, store_5_2.
    cbn [find at_key level key Nat.eqb andb key_eqb].
    destruct (bytes_eqb [x00; x00; x00; x02] k) eqn:E2;
      destruct (bytes_eqb [x00; x00; x00; x05] k) eqn:E5; try reflexivity.
    apply bytes_eqb_eq in E2. apply bytes_eqb_eq in E5.
    rewrite <- E5 in E2. discriminate.
  - exists key_2. vm_compute. discriminate.
Defined.

Lemma distinct_keys_commute_witness :
  exists n, Tree.getRoot store_2_5 = Ok n /\ Tree.getRoot store_5_2 = Ok n.
Proof.
  apply (@distinct_keys_commute blake3_hasher [] (Some 16%nat) (Some 4%Z)
           true tree16_4 fresh16 9 [] fresh16 (OpSet key_2 value_2)
           (OpSet key_5 value_5) 9 9 store_2_5 store_5_2).
  - vm_compute. reflexivity.
  - left. reflexivity.
  - simpl. lia.
  - simpl. lia.
  - reflexivity.
  - simpl. discriminate.
  - vm_compute. reflexivity.
  - vm_compute. reflexivity.
Defined.

Lemma set_overwrites_witness :
  exists n, Tree.getRoot store_2_5_5 = Ok n /\ Tree.getRoot store_2_5 = Ok n.
Proof.
  apply (@set_overwrites blake3_hasher [] (Some 16%nat) (Some 4%Z) true
           tree16_4 fresh16 9 [OpSet key_2 value_2] store_2 key_5 value_2
           value_5 9 9 store_2_5_5 store_2_5).
  - vm_compute. reflexivity.
  - left. reflexivity.
  - simpl. lia.
  - simpl. lia.
  - vm_compute. reflexivity.
  - vm_compute. reflexivity.
  - vm_compute. reflexivity.
Defined.

Lemma root_is_anchor_witness :
  exists r,
    In r store_2_5 /\ key r = None
    /\ Tree.getRoot store_2_5 = Ok (mkNode (level r) None (hash r) None)
    /\ (forall x, In x store_2_5 -> (level x <= level r)%nat)
    /\ (forall x, In x store_2_5 -> level x = level r -> x = r).
Proof.
  apply (@root_is_anchor blake3_hasher [] (Some 16%nat) (Some 4%Z) true
           tree16_4 fresh16 9 [OpSet key_2 value_2; OpSet key_5 value_5]
           store_2_5).
  - vm_compute. reflexivity.
  - left. reflexivity.
  - simpl. lia.
  - simpl. lia.
  - vm_compute. reflexivity.
Defined.

Lemma emptied_root_witness :
  Tree.getRoot store_2_d
  = Ok (mkNode 1 None
               (hashFn (Tree.K tree16_4) (hashFn (Tree.K tree16_4) [])) None)
  /\ Tree.getRoot fresh16
     = Ok (mkNode 0 None (hashFn (Tree.K tree16_4) []) None).
Proof.
  apply (@emptied_root blake3_hasher [] (Some 16%nat) (Some 4%Z) true
           tree16_4 fresh16 9 [OpSet key_2 value_2; OpDelete key_2]
           store_2_d).
  - vm_compute. reflexivity.
  - left. reflexivity.
  - simpl. lia.
  - simpl. lia.
  - vm_compute. reflexivity.
  - discriminate.
  - intros k. reflexivity.
Defined.

Lemma initialize_again_witness :
  Tree.initialize store_2_5 (Some 16%nat) (Some 4%Z) false
  = Ok (tree16_4, store_2_5).
Proof.
  apply (@initialize_again blake3_hasher [] (Some 16%nat) (Some 4%Z) true
           tree16_4 fresh16 9 [OpSet key_2 value_2; OpSet key_5 value_5]
           store_2_5).
  - vm_compute. reflexivity.
  - left. reflexivity.
  - simpl. lia.
  - simpl. lia.
  - vm_compute. reflexivity.
Defined.

Lemma set_throws_below_K4_witness :
  Tree.initialize [] (Some 3%nat) (Some 4%Z) true = Ok (tree3_4, fresh3)
  /\ Tree.isBoundary tree3_4
       (mkNode 0 (Some key_2) (Tree.hashEntry tree3_4 key_2 value_2)
               (Some value_2))
     = Throw "RangeError: Offset is outside the bounds of the DataView"
  /\ Tree.set tree3_4 9 fresh3 key_2 value_2
     = Throw "RangeError: Offset is outside the bounds of the DataView".
Proof.
  split; [vm_compute; reflexivity|].
  apply (proj2 (@set_throws_below_K4 blake3_hasher tree3_4 9 fresh3 key_2
                  value_2 ltac:(simpl; lia))
           (mkNode 0 None (hashFn 3 []) None)).
  - left. vm_compute. reflexivity.
  - reflexivity.
  - reflexivity.
Defined.

Lemma hashEntry_bytes_witness :
  Tree.hashEntry tree16_4 key_2 value_2
  = hashFn (Tree.K tree16_4) (entry_bytes key_2 value_2)
  /\ (entry_bytes key_2 value_2 = entry_bytes key_5 value_5 ->
      key_2 = key_5 /\ value_2 = value_5).
Proof.
  apply (@hashEntry_bytes blake3_hasher tree16_4 key_2 value_2 key_5
                          value_5).
  - simpl. lia.
  - simpl. lia.
Defined.

Lemma setNode_upsert_witness :
  let n := mkNode 0 (Some [x01]) zeros16 (Some [x07]) in
  uniq (setNode two_rows n)
  /\ getNode (setNode two_rows n) (level n) (key n) = Some n
  /\ (forall l k, ~ (l = level n /\ k = key n) ->
                  getNode (setNode two_rows n) l k = getNode two_rows l k)
  /\ length (setNode two_rows n)
     = match getNode two_rows (level n) (key n) with
       | Some _ => length two_rows
       | None => S (length two_rows)
       end.
Proof.
  intros n. apply (@setNode_upsert two_rows n).
  apply uniqb_sound. vm_compute. reflexivity.
Defined.

Lemma deleteNode_lookup_witness :
  uniq (deleteNode two_rows 0 (Some [x01]))
  /\ getNode (deleteNode two_rows 0 (Some [x01])) 0 (Some [x01]) = None
  /\ (forall l' k', ~ (l' = 0%nat /\ k' = Some [x01]) ->
                    getNode (deleteNode two_rows 0 (Some [x01])) l' k'
                    = getNode two_rows l' k')
  /\ (getNode two_rows 0 (Some [x01]) = None ->
      deleteNode two_rows 0 (Some [x01]) = two_rows).
Proof.
  apply (@deleteNode_lookup two_rows 0 (Some [x01])).
  apply uniqb_sound. vm_compute. reflexivity.
Defined.

Lemma firstSibling_throws_witness :
  let n := mkNode 1 (Some [x02]) zeros16 None in
  (Tree.getFirstSibling tree16_4 two_rows n
   = Throw "expected firstSibling !== undefined"
   <-> forall r, In r two_rows -> level r = level n ->
                 exists k', key r = Some k'
                            /\ (bytes_leb k' [x02] = false
                                \/ Tree.below_limit tree16_4 r = false))
  /\ ((exists f, Tree.getFirstSibling tree16_4 two_rows n = Ok f)
      <-> exists r, In r two_rows /\ level r = level n
                    /\ (key r = None
                        \/ exists k', key r = Some k'
                                      /\ bytes_leb k' [x02] = true
                                      /\ Tree.below_limit tree16_4 r = true)).
Proof.
  intros n. apply (@firstSibling_throws tree16_4 two_rows n [x02]).
  reflexivity.
Defined.

Lemma buildLevel_needs_anchor_witness :
  ((exists b' c, Builder.buildLevel builder_2 0 = Ok (b', c))
   <-> hasRow (Builder.rows (Builder.store builder_2)) 0 None)
  /\ ((forall r, In r (Builder.rows (Builder.store builder_2)) ->
                 level r <> 0%nat) ->
      Builder.buildLevel builder_2 0 = Throw "level is empty")
  /\ ((exists r, In r (Builder.rows (Builder.store builder_2))
                 /\ level r = 0%nat) ->
      ~ hasRow (Builder.rows (Builder.store builder_2)) 0 None ->
      Builder.buildLevel builder_2 0 = Throw "first node was not an anchor").
Proof.
  apply (@buildLevel_needs_anchor blake3_hasher builder_2 0).
  - apply uniqb_sound. vm_compute. reflexivity.
  - intros r [<-|[<-|[]]] _; simpl; lia.
Defined.

Lemma parent_hashes_current_witness :
  Forall (fun r => (1 <= level r)%nat ->
                   hash r
                   = Tree.getHash tree16_4 store_2_5 (level r) (key r))
         store_2_5.
Proof.
  apply Forall_forall.
  apply (@parent_hashes_current blake3_hasher [] (Some 16%nat) (Some 4%Z)
           true tree16_4 fresh16 9 [OpSet key_2 value_2; OpSet key_5 value_5]
           store_2_5).
  - vm_compute. reflexivity.
  - left. reflexivity.
  - simpl. lia.
  - simpl. lia.
  - vm_compute. reflexivity.
Defined.

Lemma getHash_rows_witness :
  Tree.getHash tree16_4 store_2_5 1 None
  = hashFn (Tree.K tree16_4)
           (concat (map hash (Tree.children tree16_4 store_2_5 1 None)))
  /\ StronglySorted klt (Tree.children tree16_4 store_2_5 1 None)
  /\ forall x,
       In x (Tree.children tree16_4 store_2_5 1 None)
       <-> In x store_2_5 /\ level x = 0%nat /\ key_leb None (key x) = true
           /\ forall y, In y store_2_5 -> level y = 0%nat ->
                        key_ltb None (key y) = true ->
                        Tree.below_limit tree16_4 y = true ->
                        key_ltb (key x) (key y) = true.
Proof.
  apply (@getHash_rows blake3_hasher tree16_4 store_2_5 0 None).
  apply uniqb_sound. vm_compute. reflexivity.
Defined.

Lemma initialize_table_witness :
  (4%Z = 0%Z ->
   Tree.initialize two_rows (Some 16%nat) (Some 4%Z) false
   = Throw "RangeError: Division by zero")
  /\ (4%Z <> 0%Z ->
      exists t s0,
        Tree.initialize two_rows (Some 16%nat) (Some 4%Z) false = Ok (t, s0)
        /\ Tree.Q t = 4%Z
        /\ uniq s0
        /\ getNode s0 0 None
           = Some (mkNode 0 None (hashFn (Tree.K t) []) None)
        /\ (false = true ->
            s0 = [mkNode 0 None (hashFn (Tree.K t) []) None])
        /\ (false = false ->
            forall l k, ~ (l = 0%nat /\ k = None) ->
                        getNode s0 l k = getNode two_rows l k)).
Proof.
  apply (@initialize_table blake3_hasher two_rows (Some 16%nat) (Some 4%Z)
                           false).
  apply uniqb_sound. vm_compute. reflexivity.
Defined.

Lemma createParents_chain_witness :
  uniq parents_of_leaf_2
  /\ (forall r, key r <> Some key_2 \/ (level r <= 0)%nat ->
                (In r rows_leaf_2 <-> In r parents_of_leaf_2))
  /\ exists m,
       (1 <= m)%nat
       /\ (forall i, (0 < i <= 0 + m)%nat ->
                     exists r, In r parents_of_leaf_2 /\ level r = i
                               /\ key r = Some key_2)
       /\ (forall r, In r parents_of_leaf_2 -> key r = Some key_2 ->
                     (0 < level r)%nat ->
                     (level r <= 0 + m)%nat
                     /\ hash r = Tree.getHash tree16_4 parents_of_leaf_2
                                              (level r) (Some key_2)
                     /\ Tree.isBoundary tree16_4 r
                        = Ok (negb (level r =? 0 + m)%nat)).
Proof.
  apply (@createParents_chain blake3_hasher (Some 16%nat) (Some 4%Z)
           tree16_4 9 rows_leaf_2 0 (Some key_2) parents_of_leaf_2).
  - reflexivity.
  - simpl. lia.
  - simpl. lia.
  - apply uniqb_sound. vm_compute. reflexivity.
  - intros r [<-|[<-|[]]]; reflexivity.
  - eexists. split; [left; reflexivity|]. split; reflexivity.
  - intros r [<-|[<-|[]]] _; simpl; lia.
  - vm_compute. reflexivity.
Defined.

Lemma builder_root_of_history_witness :
  (exists root b',
      forall fuelB, (level root_2_5d <= fuelB)%nat ->
                    Builder.finalize fuelB
                                     (build_sets builder_0
                                                 [(key_2, value_2)])
                    = Ok (root, b'))
  /\ (forall fuelB root b',
         Builder.finalize fuelB (build_sets builder_0 [(key_2, value_2)])
         = Ok (root, b') ->
         hash root_2_5d = hash root /\ level root_2_5d = level root).
Proof.
  apply (@builder_root_of_history blake3_hasher [] (Some 16%nat) (Some 4%Z)
           true tree16_4 fresh16 9
           [OpSet key_2 value_2; OpSet key_5 value_5; OpDelete key_5]
           store_2_5d root_2_5d [(key_2, value_2)] builder_0).
  - vm_compute. reflexivity.
  - left. reflexivity.
  - simpl. lia.
  - simpl. lia.
  - vm_compute. reflexivity.
  - vm_compute. reflexivity.
  - repeat constructor.
  - discriminate.
  - intros k v. split.
    + intros [E|[]]. injection E as <- <-. exists leaf_2.
      split; vm_compute; reflexivity.
    + intros (x & Ex & Ev). apply getNode_Some in Ex.
      destruct Ex as (Hin & Hl & Hk). unfold store_2_5d in Hin.
      simpl in Hin.
      repeat (destruct Hin as [<-|Hin];
              [simpl in Hl, Hk, Ev; try discriminate;
               injection Hk as <-; injection Ev as <-; left; reflexivity|]).
      destruct Hin.
  - vm_compute. reflexivity.
Defined.

Lemma built_table_maintained_witness :
  exists n, Tree.getRoot store_5_2_d = Ok n
            /\ Tree.getRoot built_2_5_d = Ok n.
Proof.
  apply (@built_table_maintained blake3_hasher [] (Some 16%nat) (Some 4%Z)
           true tree16_4 fresh16 entries_2_5 (rev entries_2_5) 9 store_5_2
           builder_0 9 (fst built_2_5) (snd built_2_5) [OpDelete key_2] 9 9
           store_5_2_d built_2_5_d).
  - vm_compute. reflexivity.
  - left. reflexivity.
  - simpl. lia.
  - simpl. lia.
  - repeat constructor.
  - discriminate.
  - apply Permutation_rev.
  - vm_compute. reflexivity.
  - vm_compute. reflexivity.
  - vm_compute. reflexivity.
  - vm_compute. reflexivity.
  - vm_compute. reflexivity.
Defined.

Lemma builder_table_wellformed_witness :
  (forall l, (exists r, In r (Builder.rows (Builder.store (snd built_6)))
                        /\ level r = l) ->
             length (filter (at_key l None)
                            (Builder.rows (Builder.store (snd built_6))))
             = 1%nat)
  /\ (forall r L k,
         In r (Builder.rows (Builder.store (snd built_6))) ->
         level r = S L -> key r = Some k ->
         exists r', In r' (Builder.rows (Builder.store (snd built_6)))
                    /\ level r' = L /\ key r' = Some k
                    /\ Builder.isBoundary (snd built_6) r' = Ok true)
  /\ (forall x, level x = 0%nat ->
                (In x (Builder.rows (Builder.store (snd built_6)))
                 <-> In x (Builder.rows
                             (Builder.store
                                (build_sets builder_0 entries_6)))))
  /\ In (fst built_6) (Builder.rows (Builder.store (snd built_6)))
  /\ key (fst built_6) = None
  /\ (forall x, In x (Builder.rows (Builder.store (snd built_6))) ->
                (level x <= level (fst built_6))%nat)
  /\ (forall x, In x (Builder.rows (Builder.store (snd built_6))) ->
                level x = level (fst built_6) -> x = fst built_6).
Proof.
  apply (@builder_table_wellformed blake3_hasher 16 4 entries_6 builder_0 9
           (fst built_6) (snd built_6)).
  - lia.
  - lia.
  - repeat constructor.
  - discriminate.
  - vm_compute. reflexivity.
  - vm_compute. reflexivity.
Defined.

Definition anchored_leaf_2 : Store :=
  Eval vm_compute in
    match Tree.updateAnchor tree16_4 9 rows_leaf_2 1 with
    | Ok s => s
    | _ => []
    end.

Definition root_2_5 : Node :=
  Eval vm_compute in
    match Tree.getRoot store_2_5 with Ok n => n | _ => anchor16 end.

Lemma updateAnchor_frame_witness :
  (forall r, key r <> None \/ (level r < 1)%nat ->
             (In r rows_leaf_2 <-> In r anchored_leaf_2))
  /\ In (mkNode 1 None (Tree.getHash tree16_4 rows_leaf_2 1 None) None)
        anchored_leaf_2.
Proof.
  apply (@updateAnchor_frame blake3_hasher tree16_4 9 rows_leaf_2 1
                             anchored_leaf_2).
  vm_compute. reflexivity.
Defined.

Lemma deleteParents_returns_witness :
  exists s', Tree.deleteParents 9 store_2 0 (Some key_2) = Ok s'
             /\ (length s' <= length store_2)%nat.
Proof.
  apply (@deleteParents_returns 9 store_2 0 (Some key_2)). simpl. lia.
Defined.

Lemma updateAnchor_returns_witness :
  exists s', Tree.updateAnchor tree16_4 20 store_2 1 = Ok s'.
Proof.
  apply (@updateAnchor_returns blake3_hasher tree16_4 20 store_2 1).
  simpl. lia.
Defined.

Lemma levels_shrink_witness :
  (forall i, (i <= level root_2_5)%nat ->
             exists a, In a store_2_5 /\ level a = i /\ key a = None)
  /\ (forall i, (length (filter (fun x => (level x =? S i)%nat) store_2_5)
                 <= length (filter (fun x => (level x =? i)%nat) store_2_5))%nat).
Proof.
  apply (@levels_shrink blake3_hasher [] (Some 16%nat) (Some 4%Z) true
           tree16_4 fresh16 9 [OpSet key_2 value_2; OpSet key_5 value_5]
           store_2_5 root_2_5).
  - vm_compute. reflexivity.
  - left. reflexivity.
  - simpl. lia.
  - simpl. lia.
  - vm_compute. reflexivity.
  - vm_compute. reflexivity.
Defined.

Lemma finalize_levels_witness :
  Builder.finalize 9 (build_sets builder_0 [])
  = Ok (mkNode 0 None (hashFn 16 []) None, builder_0)
  /\ exists m,
       Builds (build_sets builder_0 entries_6) 0 m (snd built_6)
       /\ (entries_6 <> [] -> (1 <= m)%nat)
       /\ getNode (Builder.rows (Builder.store (snd built_6))) m None
          = Some (fst built_6)
       /\ In (fst built_6) (Builder.rows (Builder.store (snd built_6)))
       /\ level (fst built_6) = m /\ key (fst built_6) = None
       /\ Builder.nodeCount (snd built_6) = 1%nat
       /\ length (nodes (Builder.rows (Builder.store (snd built_6))) m)
          = 1%nat
       /\ (forall x, In x (Builder.rows (Builder.store (snd built_6))) ->
                     level x = m -> x = fst built_6)
       /\ (forall x, In x (Builder.rows (Builder.store (snd built_6))) ->
                     (level x <= m)%nat)
       /\ (forall j, (j < m)%nat ->
             (1 < length (nodes (Builder.rows (Builder.store (snd built_6)))
                                j))%nat).
Proof.
  split.
  - apply (proj1 (@finalize_levels blake3_hasher 16 4 [] builder_0
                    ltac:(repeat constructor) eq_refl) eq_refl 9%nat).
  - apply (proj1 (proj2 (@finalize_levels blake3_hasher 16 4 entries_6
                           builder_0 ltac:(repeat constructor) eq_refl))
             9%nat (fst built_6) (snd built_6)).
    vm_compute. reflexivity.
Defined.

(** In the table of the six entries the leaf of [key_5] is a boundary with
    rows on the levels 1, 2 and 3, and the boundary before it is the leaf of
    the fourth key. *)
Definition leaf_5 : Node :=
  Eval vm_compute in
    match getNode store_6_rev 0 (Some key_5) with
    | Some n => n
    | None => anchor16
    end.

Definition store_6_d5 : Store :=
  Eval vm_compute in
    match Tree.delete tree16_4 9 store_6_rev key_5 with
    | Ok s => s
    | _ => []
    end.

Lemma delete_boundary_steps_witness :
  exists s1 fs,
    Tree.deleteParents 9 store_6_rev 0 (Some key_5) = Ok s1
    /\ (forall r, In r s1
                  <-> In r store_6_rev
                      /\ ~ (key r = Some key_5 /\ (0 < level r)%nat))
    /\ (forall r, In r (deleteNode s1 0 (Some key_5))
                  <-> In r store_6_rev /\ key r <> Some key_5)
    /\ Tree.getFirstSibling tree16_4 (deleteNode s1 0 (Some key_5)) leaf_5
       = Ok fs
    /\ key_leb (key fs) (Some key_5) = true
    /\ match key fs with
       | None =>
           Tree.updateAnchor tree16_4 9 (deleteNode s1 0 (Some key_5)) 1
       | Some _ =>
           Tree.update tree16_4 9 (deleteNode s1 0 (Some key_5)) 1 (key fs)
       end = Ok store_6_d5
    /\ (forall r, In r store_6_d5 -> key r <> Some key_5)
    /\ (forall r, level r = 0%nat ->
                  (In r store_6_d5
                   <-> In r store_6_rev /\ key r <> Some key_5))
    /\ (exists p, In p store_6_d5 /\ level p = 1%nat /\ key p = key fs
                  /\ hash p = Tree.getHash tree16_4 store_6_d5 1 (key fs))
    /\ (forall r i, In r store_6_d5 -> level r = S i ->
                    hash r = Tree.getHash tree16_4 store_6_d5 (S i) (key r)).
Proof.
  apply (@delete_boundary_steps blake3_hasher [] (Some 16%nat) (Some 4%Z)
           true tree16_4 fresh16 9 (set_ops (rev entries_6)) store_6_rev 9
           key_5 leaf_5 store_6_d5).
  - vm_compute. reflexivity.
  - left. reflexivity.
  - simpl. lia.
  - simpl. lia.
  - vm_compute. reflexivity.
  - vm_compute. reflexivity.
  - vm_compute. reflexivity.
  - vm_compute. reflexivity.
Defined.
